(** * Struct, Value and ListValue: JSON codec and native conversion

    A shallow embedding of [types/struct.go]: the JSON marshalling and
    unmarshalling of the protobuf well-known types [Struct], [Value] and
    [ListValue], and their conversion from and to general-purpose Go values
    ([NewValue], [AsInterface] and their companions).

    The file has two parts.  The first holds the definitions: the parts of the
    Go standard library the code calls ([strconv], [unicode/utf8],
    [encoding/base64], [encoding/json]), modelled as executable functions,
    then the functions of [struct.go] themselves, each next to the Go text it
    follows.  The second part holds the lemmas and theorems.

    Go strings and byte slices are sequences of bytes: both are modelled by
    [string], whose characters are the 256 byte values. *)

From Stdlib Require Import ZArith String Ascii Lia.
From Stdlib Require Import Floats.SpecFloat.
From stdpp Require Import gmap strings list fin_maps sorting.

Set Default Proof Using "Type".
Set Warnings "-register-all".

(** ** Results of Go functions *)

(** A Go function that returns [(T, error)] returns a value or an error. *)
Inductive outcome (E A : Type) : Type :=
| Ok (a : A)
| Err (e : E).
Arguments Ok {E A} a.
Arguments Err {E A} e.

Definition is_Ok {E A} (r : outcome E A) : bool :=
  match r with Ok _ => true | _ => false end.

(** ** Bytes *)

Definition byte (c : ascii) : Z := Z.of_N (N_of_ascii c).
Definition byte_char (n : Z) : ascii := ascii_of_N (Z.to_N n).

Definition in_range (lo hi : ascii) (c : ascii) : bool :=
  (byte lo <=? byte c)%Z && (byte c <=? byte hi)%Z.

Definition is_byte (x : ascii) (c : ascii) : bool := (byte c =? byte x)%Z.

Definition is_digit (c : ascii) : bool := in_range "0" "9" c.

(** [lower c] is Go's [c | ('x' - 'X')]: bit 5 set. *)
Definition lower (c : ascii) : ascii :=
  let '(Ascii b0 b1 b2 b3 b4 _ b6 b7) := c in Ascii b0 b1 b2 b3 b4 true b6 b7.

Definition digit_val (c : ascii) : Z := (byte c - byte "0")%Z.
Definition digit_char (d : Z) : ascii := byte_char (byte "0" + d).

(** The double quote, which a string literal of this file cannot hold. *)
Definition dquote : ascii := "034"%char.

(** [repeat_char c n] is [n] copies of [c]. *)
Fixpoint repeat_char (c : ascii) (n : nat) : string :=
  match n with
  | O => EmptyString
  | S n => String c (repeat_char c n)
  end.

(** The decimal digits of a non-negative integer, most significant first
    ([strconv.Itoa]). *)
Fixpoint decimal_digits_aux (fuel : nat) (n : Z) (acc : string) : string :=
  let acc' := String (digit_char (n mod 10)) acc in
  match fuel with
  | O => acc'
  | S fuel => if (n <? 10)%Z then acc' else decimal_digits_aux fuel (n / 10) acc'
  end.

Definition decimal_digits (n : Z) : string :=
  decimal_digits_aux (Z.to_nat (Z.log2 n)) n EmptyString.

(** The value of a string of decimal digits read left to right. *)
Fixpoint digits_value_from (acc : Z) (s : string) : Z :=
  match s with
  | EmptyString => acc
  | String c s' => digits_value_from (acc * 10 + digit_val c) s'
  end.

Definition digits_value (s : string) : Z := digits_value_from 0 s.

Fixpoint all_digits (s : string) : bool :=
  match s with
  | EmptyString => true
  | String c s' => is_digit c && all_digits s'
  end.

(** ** float64 *)

Module math.

(** An IEEE 754 binary64 number: a signed zero, a signed infinity, NaN, or
    [(-1)^s * m * 2^e] with [m] and [e] in canonical form ([valid_float64]). *)
Definition float64 : Type := spec_float.

Definition prec : Z := 53.
Definition emax : Z := 1024.

Definition valid_float64 (f : float64) : bool := valid_binary prec emax f.

Definition IsNaN (f : float64) : bool :=
  match f with S754_nan => true | _ => false end.

(** [math.IsInf(f, sign)]: [sign > 0] asks for [+Inf], [sign < 0] for [-Inf],
    [sign = 0] for either. *)
Definition IsInf (f : float64) (sign : Z) : bool :=
  match f with
  | S754_infinity s => ((0 <=? sign)%Z && negb s) || ((sign <=? 0)%Z && s)
  | _ => false
  end.

Definition is_finite (f : float64) : bool :=
  match f with
  | S754_zero _ | S754_finite _ _ _ => true
  | _ => false
  end.

(** Rounding to nearest, ties to even, of the positive rational [N / D] to
    binary64.  [q0] is the value in units of [2^-1200], below the last bit of
    every binary64 number, and [sticky] says that the division left a
    remainder.  [e] is the exponent of the result's last bit, [q] the value in
    units of [2^e] and [r] what is left below. *)
Definition round_ratio (neg : bool) (N D : Z) : float64 :=
  let K := 1200%Z in
  let '(q0, r0) := Z.div_eucl (Z.shiftl N K) D in
  let sticky := negb (r0 =? 0)%Z in
  if (q0 =? 0)%Z then S754_zero neg
  else
    let e := Z.max (Z.log2 q0 - K - (prec - 1)) (3 - emax - prec) in
    let sh := (e + K)%Z in
    let q := Z.shiftr q0 sh in
    let r := (q0 - Z.shiftl q sh)%Z in
    let half := Z.shiftl 1 (sh - 1) in
    let up := (half <? r)%Z || ((r =? half)%Z && (sticky || Z.odd q)) in
    let q' := if up then (q + 1)%Z else q in
    if (q' =? 0)%Z then S754_zero neg
    else
      let '(m, e') := if (q' =? 2 ^ prec)%Z then (2 ^ (prec - 1), e + 1)%Z else (q', e) in
      if (emax - prec <? e')%Z then S754_infinity neg
      else S754_finite neg (Z.to_pos m) e'.

(** The conversion [float64(v)] of an integer. *)
Definition float64_of_Z (v : Z) : float64 :=
  if (v =? 0)%Z then S754_zero false else round_ratio (v <? 0)%Z (Z.abs v) 1.

(** The integer a finite float64 equals, when it is one. *)
Definition float64_to_Z (f : float64) : option Z :=
  match f with
  | S754_zero _ => Some 0%Z
  | S754_finite s m e =>
      if (0 <=? e)%Z then Some ((if s then -1 else 1) * Z.pos m * 2 ^ e)%Z
      else if (Z.pos m mod 2 ^ (- e) =? 0)%Z
           then Some ((if s then -1 else 1) * (Z.pos m / 2 ^ (- e)))%Z
           else None
  | _ => None
  end.

Definition Abs (f : float64) : float64 := SFabs f.

End math.

Import math.

(** ** strings *)

Fixpoint string_drop (n : nat) (s : string) : string :=
  match n, s with
  | S n, String _ s' => string_drop n s'
  | _, _ => s
  end.

Fixpoint string_take (n : nat) (s : string) : string :=
  match n, s with
  | S n, String c s' => String c (string_take n s')
  | _, _ => EmptyString
  end.

(** ** strconv *)

Module strconv.

Inductive NumError : Type :=
| ErrSyntax
| ErrRange.

(** [ParseBool]: the twelve spellings it accepts, any other string is a syntax
    error. *)
Definition ParseBool (str : string) : outcome NumError bool :=
  if bool_decide (str ∈ ["1"; "t"; "T"; "true"; "TRUE"; "True"]) then Ok true
  else if bool_decide (str ∈ ["0"; "f"; "F"; "false"; "FALSE"; "False"]) then Ok false
  else Err ErrSyntax.

(** [commonPrefixLenIgnoreCase s prefix], for a lower-case [prefix]. *)
Fixpoint commonPrefixLenIgnoreCase (s prefix : string) : nat :=
  match s, prefix with
  | String c s', String p prefix' =>
      let c := if in_range "A" "Z" c then byte_char (byte c + (byte "a" - byte "A")) else c in
      if is_byte p c then S (commonPrefixLenIgnoreCase s' prefix') else O
  | _, _ => O
  end.

(** [special]: the infinities and NaN, in any case; it returns the float and
    what follows it in [s]. *)
Definition special (s : string) : option (float64 * string) :=
  match s with
  | EmptyString => None
  | String c s' =>
      if is_byte "+" c || is_byte "-" c || is_byte "i" c || is_byte "I" c then
        let signed := is_byte "+" c || is_byte "-" c in
        let body := if signed then s' else s in
        let n := commonPrefixLenIgnoreCase body "infinity" in
        let n := if (3 <? n)%nat && (n <? 8)%nat then 3%nat else n in
        if (n =? 3)%nat || (n =? 8)%nat
        then Some (S754_infinity (is_byte "-" c), string_drop n body)
        else None
      else if is_byte "n" c || is_byte "N" c then
        if (commonPrefixLenIgnoreCase s "nan" =? 3)%nat
        then Some (S754_nan, string_drop 3 s)
        else None
      else None
  end.

(** What [readFloat] has read: the digits of the mantissa as one integer in
    base [base], the number of them after the point, and whether it met a dot,
    a digit, an underscore.  Go keeps the first 19 digits and a flag for the
    rest, and goes back to the text when the flag matters; the result is the
    correctly rounded value of the whole text, which is what is kept here. *)
Record mantissa : Type := Mantissa {
  mant : Z;
  frac : Z;
  sawdot : bool;
  sawdigits : bool;
  underscores : bool
}.

Definition hex_val (c : ascii) : Z := (byte (lower c) - byte "a" + 10)%Z.

Fixpoint readDigits (base : Z) (st : mantissa) (s : string) : mantissa * string :=
  match s with
  | EmptyString => (st, s)
  | String c s' =>
      if is_byte "_" c then
        readDigits base (Mantissa (mant st) (frac st) (sawdot st) (sawdigits st) true) s'
      else if is_byte "." c then
        if sawdot st then (st, s)
        else readDigits base (Mantissa (mant st) (frac st) true (sawdigits st) (underscores st)) s'
      else if is_digit c then
        readDigits base
          (Mantissa (mant st * base + digit_val c)
                    (if sawdot st then frac st + 1 else frac st)
                    (sawdot st) true (underscores st)) s'
      else if (base =? 16)%Z && in_range "a" "f" (lower c) then
        readDigits base
          (Mantissa (mant st * base + hex_val c)
                    (if sawdot st then frac st + 1 else frac st)
                    (sawdot st) true (underscores st)) s'
      else (st, s)
  end.

(** The digits of the exponent: [e] stops growing at 10000. *)
Fixpoint readExpDigits (e : Z) (us : bool) (s : string) : Z * bool * string :=
  match s with
  | EmptyString => (e, us, s)
  | String c s' =>
      if is_byte "_" c then readExpDigits e true s'
      else if is_digit c then
        readExpDigits (if (e <? 10000)%Z then e * 10 + digit_val c else e) us s'
      else (e, us, s)
  end.

(** The optional exponent after the character [expChar] has been read. *)
Definition readExp (s : string) : option (Z * bool * string) :=
  match s with
  | EmptyString => None
  | String c s' =>
      let esign := if is_byte "-" c then (-1)%Z else 1%Z in
      let s1 := if is_byte "+" c || is_byte "-" c then s' else s in
      match s1 with
      | String d _ =>
          if is_digit d then
            let '(e, us, rest) := readExpDigits 0 false s1 in
            Some (e * esign, us, rest)%Z
          else None
      | EmptyString => None
      end
  end.

(** [underscoreOK]: underscores only between digits, or between a base prefix
    and a digit. *)
Fixpoint underscoreOK_from (hex : bool) (saw : ascii) (s : string) : bool :=
  match s with
  | EmptyString => negb (is_byte "_" saw)
  | String c s' =>
      if is_digit c || (hex && in_range "a" "f" (lower c)) then underscoreOK_from hex "0" s'
      else if is_byte "_" c then
        if is_byte "0" saw then underscoreOK_from hex "_" s' else false
      else if is_byte "_" saw then false
      else underscoreOK_from hex "!" s'
  end.

Definition underscoreOK (s : string) : bool :=
  let s := match s with
           | String c s' => if is_byte "-" c || is_byte "+" c then s' else s
           | _ => s
           end in
  match s with
  | String c0 (String c1 s') =>
      if is_byte "0" c0 && (is_byte "b" (lower c1) || is_byte "o" (lower c1) || is_byte "x" (lower c1))
      then underscoreOK_from (is_byte "x" (lower c1)) "0" s'
      else underscoreOK_from false "^" s
  | _ => underscoreOK_from false "^" s
  end.

(** What [readFloat] returns when it accepts a prefix of [s]. *)
Record float_text : Type := FloatText {
  ft_neg : bool;
  ft_hex : bool;
  ft_mant : Z;
  ft_exp : Z;           (* power of ten, or of two for a hexadecimal text *)
  ft_underscores : bool;
  ft_rest : string
}.

Definition readFloat (s : string) : option float_text :=
  match s with
  | EmptyString => None
  | String c s' =>
      let neg := is_byte "-" c in
      let s1 := if is_byte "+" c || is_byte "-" c then s' else s in
      let '(hex, s2) :=
        match s1 with
        | String c0 (String c1 ((String _ _) as s3)) =>
            if is_byte "0" c0 && is_byte "x" (lower c1) then (true, s3) else (false, s1)
        | _ => (false, s1)
        end in
      let base := if hex then 16%Z else 10%Z in
      let '(st, s3) := readDigits base (Mantissa 0 0 false false false) s2 in
      if negb (sawdigits st) then None
      else
        let dp := if hex then (- (4 * frac st))%Z else (- frac st)%Z in
        match s3 with
        | String x s4 =>
            if is_byte (if hex then "p" else "e")%char (lower x) then
              match readExp s4 with
              | Some (e, us, rest) =>
                  Some (FloatText neg hex (mant st) (dp + e) (underscores st || us) rest)
              | None => None
              end
            else if hex then None
            else Some (FloatText neg hex (mant st) dp (underscores st) s3)
        | EmptyString =>
            if hex then None
            else Some (FloatText neg hex (mant st) dp (underscores st) s3)
        end
  end.

(** The float64 nearest to [m * base^e]. *)
Definition scaled_float64 (neg : bool) (base m e : Z) : float64 :=
  if (m =? 0)%Z then S754_zero neg
  else if (0 <=? e)%Z then round_ratio neg (m * base ^ e) 1
  else round_ratio neg m (base ^ (- e)).

(** [ParseFloat(s, 64)] (a [bitSize] of 0 means 64 as well): the whole of [s]
    must be a number; a value beyond the largest float64 is a range error. *)
Definition ParseFloat (s : string) : outcome NumError float64 :=
  match special s with
  | Some (f, rest) => if bool_decide (rest = EmptyString) then Ok f else Err ErrSyntax
  | None =>
      match readFloat s with
      | None => Err ErrSyntax
      | Some t =>
          if negb (bool_decide (ft_rest t = EmptyString)) then Err ErrSyntax
          else if ft_underscores t && negb (underscoreOK s) then Err ErrSyntax
          else
            let f := scaled_float64 (ft_neg t) (if ft_hex t then 2 else 10) (ft_mant t) (ft_exp t) in
            if IsInf f 0 then Err ErrRange else Ok f
      end
  end.

(** *** Formatting with the fewest digits *)

#[global] Instance float64_eq_dec : EqDecision float64.
Proof. unfold float64. solve_decision. Defined.

(** [strip_zeros s] is [s] without the zeros it ends with. *)
Fixpoint strip_zeros (s : string) : string :=
  match s with
  | EmptyString => EmptyString
  | String c s' =>
      match strip_zeros s' with
      | EmptyString => if is_byte "0" c then EmptyString else String c EmptyString
      | t => String c t
      end
  end.

(** The text of [c * 10^sc] in the format ['f'] ([ddd.ddd], no exponent) or
    ['e'] ([d.ddde±dd]) of [strconv.FormatFloat]: [ds] are the digits, without
    the zeros at their end, and [dp] the place of the decimal point, counted
    from the first digit.  The exponent is written as [encoding/json] leaves
    it: it rewrites an exponent of the form [e-07] as [e-7], so there is no
    leading zero. *)
Definition render (fmt : ascii) (neg : bool) (c sc : Z) : string :=
  let ds0 := decimal_digits c in
  let ds := strip_zeros ds0 in
  let n := Z.of_nat (String.length ds) in
  let dp := (Z.of_nat (String.length ds0) + sc)%Z in
  (if neg then "-" else "") +:+
  (if is_byte "e" fmt then
     string_take 1 ds +:+
     (if (1 <? n)%Z then "." +:+ string_drop 1 ds else "") +:+
     "e" +:+ (if (dp - 1 <? 0)%Z then "-" else "+") +:+ decimal_digits (Z.abs (dp - 1))
   else if (0 <? dp)%Z then
     if (dp <? n)%Z
     then string_take (Z.to_nat dp) ds +:+ "." +:+ string_drop (Z.to_nat dp) ds
     else ds +:+ repeat_char "0" (Z.to_nat (dp - n))
   else "0." +:+ repeat_char "0" (Z.to_nat (- dp)) +:+ ds).

Definition reads_back (s : string) (f : float64) : bool :=
  match ParseFloat s with
  | Ok f' => bool_decide (f' = f)
  | _ => false
  end.

(** The digits of [num * 10^scale], [n] of them, cut to [k], [k+1], ... digits
    until the text reads back as [f]: rounded to nearest when both neighbours
    do, else the one that does.  All [n] digits are the exact value. *)
Fixpoint shortest (fuel : nat) (k : Z) (fmt : ascii) (neg : bool) (f : float64)
    (num scale n : Z) : string :=
  match fuel with
  | O => render fmt neg num scale
  | S fuel =>
      let p := (10 ^ (n - k))%Z in
      let lo := (num / p)%Z in
      let r := (num mod p)%Z in
      let sc := (scale + (n - k))%Z in
      let down := render fmt neg lo sc in
      let up := render fmt neg (lo + 1) sc in
      let okdown := reads_back down f in
      let okup := reads_back up f in
      if okdown && okup then
        if (p <? 2 * r)%Z || ((2 * r =? p)%Z && Z.odd lo) then up else down
      else if okdown then down
      else if okup then up
      else shortest fuel (k + 1) fmt neg f num scale n
  end.

(** [FormatFloat(f, fmt, -1, 64)] for a finite [f] and [fmt] one of ['e'] and
    ['f'], with the exponent as [encoding/json] leaves it (see [render]). *)
Definition FormatFloat (f : float64) (fmt : ascii) : string :=
  match f with
  | S754_finite neg m e =>
      let '(num, scale) := if (0 <=? e)%Z then (Z.pos m * 2 ^ e, 0)%Z
                         else (Z.pos m * 5 ^ (- e), e)%Z in
      let n := Z.of_nat (String.length (decimal_digits num)) in
      shortest (Z.to_nat (n - 1)) 1 fmt neg f num scale n
  | S754_zero neg => if neg then "-0" else "0"
  | S754_infinity neg => if neg then "-Inf" else "+Inf"
  | S754_nan => "NaN"
  end.

End strconv.

(** ** unicode/utf8 *)

Module utf8.

Definition RuneError : Z := 65533.   (* U+FFFD *)
Definition RuneSelf : Z := 128.
Definition MaxRune : Z := 1114111.   (* U+10FFFF *)

Definition cont (c : ascii) : bool := in_range "128" "191" c.

(** [DecodeRuneInString s]: the first rune of [s] and its width in bytes.  An
    encoding that is not valid UTF-8 gives [(RuneError, 1)], the empty string
    [(RuneError, 0)]. *)
Definition DecodeRuneInString (s : string) : Z * nat :=
  match s with
  | EmptyString => (RuneError, 0%nat)
  | String c0 s0 =>
      let b0 := byte c0 in
      if (b0 <? 128)%Z then (b0, 1%nat)
      else
        match s0 with
        | String c1 s1 =>
            let b1 := byte c1 in
            if in_range "194" "223" c0 then
              if cont c1 then (Z.lor (Z.shiftl (Z.land b0 31) 6) (Z.land b1 63), 2%nat)
              else (RuneError, 1%nat)
            else
              match s1 with
              | String c2 s2 =>
                  let b2 := byte c2 in
                  if in_range "224" "239" c0 then
                    if in_range (if is_byte "224" c0 then "160" else "128")
                                (if is_byte "237" c0 then "159" else "191") c1
                       && cont c2
                    then (Z.lor (Z.lor (Z.shiftl (Z.land b0 15) 12)
                                       (Z.shiftl (Z.land b1 63) 6)) (Z.land b2 63), 3%nat)
                    else (RuneError, 1%nat)
                  else
                    match s2 with
                    | String c3 _ =>
                        let b3 := byte c3 in
                        if in_range "240" "244" c0
                           && in_range (if is_byte "240" c0 then "144" else "128")
                                       (if is_byte "244" c0 then "143" else "191") c1
                           && cont c2 && cont c3
                        then (Z.lor (Z.lor (Z.lor (Z.shiftl (Z.land b0 7) 18)
                                                  (Z.shiftl (Z.land b1 63) 12))
                                           (Z.shiftl (Z.land b2 63) 6)) (Z.land b3 63), 4%nat)
                        else (RuneError, 1%nat)
                    | EmptyString => (RuneError, 1%nat)
                    end
              | EmptyString => (RuneError, 1%nat)
              end
        | EmptyString => (RuneError, 1%nat)
        end
  end.

(** The first byte of [s] starts a valid encoding (of [RuneError] itself, in
    three bytes, possibly). *)
Definition valid_rune (s : string) : bool :=
  let '(r, size) := DecodeRuneInString s in
  negb ((r =? RuneError)%Z && (size <=? 1)%nat).

(** [ValidString s]: [s] is made of valid UTF-8 encodings only.  [n] counts
    the bytes still to skip of the encoding checked last. *)
Fixpoint ValidString_from (n : nat) (s : string) : bool :=
  match n with
  | S n =>
      match s with
      | String _ s' => ValidString_from n s'
      | EmptyString => false
      end
  | O =>
      match s with
      | EmptyString => true
      | String _ s' =>
          valid_rune s && ValidString_from (snd (DecodeRuneInString s) - 1) s'
      end
  end.

Definition ValidString (s : string) : bool := ValidString_from 0 s.

(** [EncodeRune r]: the UTF-8 encoding of [r]; of [RuneError] when [r] is a
    surrogate or out of range. *)
Definition EncodeRune (r : Z) : string :=
  let r := if (r <? 0)%Z || (MaxRune <? r)%Z || ((55296 <=? r)%Z && (r <=? 57343)%Z)
           then RuneError else r in
  let tail (k : Z) := byte_char (Z.lor 128 (Z.land (Z.shiftr r k) 63)) in
  if (r <? 128)%Z then String (byte_char r) EmptyString
  else if (r <? 2048)%Z then
    String (byte_char (Z.lor 192 (Z.shiftr r 6))) (String (tail 0%Z) EmptyString)
  else if (r <? 65536)%Z then
    String (byte_char (Z.lor 224 (Z.shiftr r 12)))
      (String (tail 6%Z) (String (tail 0%Z) EmptyString))
  else
    String (byte_char (Z.lor 240 (Z.shiftr r 18)))
      (String (tail 12%Z) (String (tail 6%Z) (String (tail 0%Z) EmptyString))).

End utf8.

(** ** encoding/base64 *)

Module base64.

Definition encodeStd : string :=
  "ABCDEFGHIJKLMNOPQRSTUVWXYZabcdefghijklmnopqrstuvwxyz0123456789+/".

Definition sextet (n : Z) : ascii :=
  match String.get (Z.to_nat (Z.land n 63)) encodeStd with
  | Some c => c
  | None => "="%char
  end.

(** [StdEncoding.EncodeToString]: three bytes give four characters; one or two
    bytes left at the end give two or three characters and padding. *)
Fixpoint EncodeToString (src : string) : string :=
  match src with
  | String c0 (String c1 (String c2 rest)) =>
      let v := Z.lor (Z.lor (Z.shiftl (byte c0) 16) (Z.shiftl (byte c1) 8)) (byte c2) in
      String (sextet (Z.shiftr v 18)) (String (sextet (Z.shiftr v 12))
        (String (sextet (Z.shiftr v 6)) (String (sextet v) (EncodeToString rest))))
  | String c0 (String c1 EmptyString) =>
      let v := Z.lor (Z.shiftl (byte c0) 16) (Z.shiftl (byte c1) 8) in
      String (sextet (Z.shiftr v 18)) (String (sextet (Z.shiftr v 12))
        (String (sextet (Z.shiftr v 6)) "="))
  | String c0 EmptyString =>
      let v := Z.shiftl (byte c0) 16 in
      String (sextet (Z.shiftr v 18)) (String (sextet (Z.shiftr v 12)) "==")
  | EmptyString => EmptyString
  end.

End base64.

(** ** encoding/json *)

Module json.

(** The errors of the package.  A [SyntaxError] carries the offending byte
    ([None] at the end of the input), what the scanner was looking for and the
    offset; an [UnmarshalTypeError] the kind of JSON value that does not fit
    the Go type; an [UnsupportedValueError] the float that JSON cannot write;
    a [MarshalerError] the error a [MarshalJSON] method returned.
    [runtimePanic] is no error value: it stands for a panic that goes through
    the package to its caller, with its message. *)
Inductive Error : Type :=
| SyntaxError (c : option ascii) (context : string) (Offset : nat)
| UnmarshalTypeError (Value : string)
| UnsupportedValueError (Str : string)
| MarshalerError (err : Error)
| runtimePanic (msg : string).

(** The decoder's panic when it is out of step with the scanner; input that
    [checkValid] accepted never triggers it. *)
Definition phasePanic : Error :=
  runtimePanic "JSON decoder out of sync - data changing underfoot?".

(** *** The scanner *)

Inductive parseState : Type :=
| parseObjectKey      (* parsing object key (before colon) *)
| parseObjectValue    (* parsing object value (after colon) *)
| parseArrayValue.    (* parsing array value *)

(** The step functions of [scanner.go], as states. *)
Inductive step : Type :=
| stateBeginValueOrEmpty | stateBeginValue | stateBeginStringOrEmpty | stateBeginString
| stateEndValue | stateEndTop
| stateInString | stateInStringEsc
| stateInStringEscU | stateInStringEscU1 | stateInStringEscU12 | stateInStringEscU123
| stateNeg | state1 | state0 | stateDot | stateDot0 | stateE | stateESign | stateE0
| stateT | stateTr | stateTru
| stateF | stateFa | stateFal | stateFals
| stateN | stateNu | stateNul
| stateError (context : string).

(** The scanner: the current step and the stack of what is being parsed, its
    top first.  The bound [scanner.go] puts on the depth of the stack (10000
    levels) is a limit on resources and is not modelled. *)
Record scanner : Type := Scanner {
  scan_step : step;
  scan_stack : list parseState
}.

Definition isSpace (c : ascii) : bool :=
  is_byte " " c || is_byte "009" c || is_byte "013" c || is_byte "010" c.

Definition is_hex (c : ascii) : bool :=
  is_digit c || in_range "a" "f" c || in_range "A" "F" c.

Definition scan_error (ps : list parseState) (context : string) : scanner :=
  Scanner (stateError context) ps.

Definition do_stateEndTop (ps : list parseState) (c : ascii) : scanner :=
  if isSpace c then Scanner stateEndTop ps
  else scan_error ps "after top-level value".

Definition popParseState (ps : list parseState) : scanner :=
  match ps with
  | [] => Scanner stateEndTop []
  | _ => Scanner stateEndValue ps
  end.

Definition do_stateEndValue (ps : list parseState) (c : ascii) : scanner :=
  match ps with
  | [] => do_stateEndTop ps c
  | top :: rest =>
      if isSpace c then Scanner stateEndValue ps
      else
        match top with
        | parseObjectKey =>
            if is_byte ":" c then Scanner stateBeginValue (parseObjectValue :: rest)
            else scan_error ps "after object key"
        | parseObjectValue =>
            if is_byte "," c then Scanner stateBeginString (parseObjectKey :: rest)
            else if is_byte "}" c then popParseState rest
            else scan_error ps "after object key:value pair"
        | parseArrayValue =>
            if is_byte "," c then Scanner stateBeginValue ps
            else if is_byte "]" c then popParseState rest
            else scan_error ps "after array element"
        end
  end.

Definition do_stateBeginValue (cur : step) (ps : list parseState) (c : ascii) : scanner :=
  if isSpace c then Scanner cur ps
  else if is_byte "{" c then Scanner stateBeginStringOrEmpty (parseObjectKey :: ps)
  else if is_byte "[" c then Scanner stateBeginValueOrEmpty (parseArrayValue :: ps)
  else if is_byte dquote c then Scanner stateInString ps
  else if is_byte "-" c then Scanner stateNeg ps
  else if is_byte "0" c then Scanner state0 ps
  else if is_byte "t" c then Scanner stateT ps
  else if is_byte "f" c then Scanner stateF ps
  else if is_byte "n" c then Scanner stateN ps
  else if in_range "1" "9" c then Scanner state1 ps
  else scan_error ps "looking for beginning of value".

Definition do_stateBeginString (cur : step) (ps : list parseState) (c : ascii) : scanner :=
  if isSpace c then Scanner cur ps
  else if is_byte dquote c then Scanner stateInString ps
  else scan_error ps "looking for beginning of object key string".

Definition do_state0 (ps : list parseState) (c : ascii) : scanner :=
  if is_byte "." c then Scanner stateDot ps
  else if is_byte "e" c || is_byte "E" c then Scanner stateE ps
  else do_stateEndValue ps c.

Definition do_stateESign (ps : list parseState) (c : ascii) : scanner :=
  if is_digit c then Scanner stateE0 ps
  else scan_error ps "in exponent of numeric literal".

Definition expect (x : ascii) (next : step) (context : string)
    (ps : list parseState) (c : ascii) : scanner :=
  if is_byte x c then Scanner next ps else scan_error ps context.

Definition expect_hex (next : step) (ps : list parseState) (c : ascii) : scanner :=
  if is_hex c then Scanner next ps
  else scan_error ps "in \u hexadecimal character escape".

(** One byte through the scanner: [s.step(s, c)]. *)
Definition scan (s : scanner) (c : ascii) : scanner :=
  let ps := scan_stack s in
  match scan_step s with
  | stateBeginValueOrEmpty =>
      if isSpace c then s
      else if is_byte "]" c then do_stateEndValue ps c
      else do_stateBeginValue stateBeginValueOrEmpty ps c
  | stateBeginValue => do_stateBeginValue stateBeginValue ps c
  | stateBeginStringOrEmpty =>
      if isSpace c then s
      else if is_byte "}" c then
        match ps with
        | _ :: rest => do_stateEndValue (parseObjectValue :: rest) c
        | [] => do_stateEndValue ps c
        end
      else do_stateBeginString stateBeginStringOrEmpty ps c
  | stateBeginString => do_stateBeginString stateBeginString ps c
  | stateEndValue => do_stateEndValue ps c
  | stateEndTop => do_stateEndTop ps c
  | stateInString =>
      if is_byte dquote c then Scanner stateEndValue ps
      else if is_byte "\" c then Scanner stateInStringEsc ps
      else if (byte c <? 32)%Z then scan_error ps "in string literal"
      else s
  | stateInStringEsc =>
      if is_byte "b" c || is_byte "f" c || is_byte "n" c || is_byte "r" c
         || is_byte "t" c || is_byte "\" c || is_byte "/" c || is_byte dquote c
      then Scanner stateInString ps
      else if is_byte "u" c then Scanner stateInStringEscU ps
      else scan_error ps "in string escape code"
  | stateInStringEscU => expect_hex stateInStringEscU1 ps c
  | stateInStringEscU1 => expect_hex stateInStringEscU12 ps c
  | stateInStringEscU12 => expect_hex stateInStringEscU123 ps c
  | stateInStringEscU123 => expect_hex stateInString ps c
  | stateNeg =>
      if is_byte "0" c then Scanner state0 ps
      else if in_range "1" "9" c then Scanner state1 ps
      else scan_error ps "in numeric literal"
  | state1 => if is_digit c then s else do_state0 ps c
  | state0 => do_state0 ps c
  | stateDot =>
      if is_digit c then Scanner stateDot0 ps
      else scan_error ps "after decimal point in numeric literal"
  | stateDot0 =>
      if is_digit c then s
      else if is_byte "e" c || is_byte "E" c then Scanner stateE ps
      else do_stateEndValue ps c
  | stateE =>
      if is_byte "+" c || is_byte "-" c then Scanner stateESign ps
      else do_stateESign ps c
  | stateESign => do_stateESign ps c
  | stateE0 => if is_digit c then s else do_stateEndValue ps c
  | stateT => expect "r" stateTr "in literal true (expecting 'r')" ps c
  | stateTr => expect "u" stateTru "in literal true (expecting 'u')" ps c
  | stateTru => expect "e" stateEndValue "in literal true (expecting 'e')" ps c
  | stateF => expect "a" stateFa "in literal false (expecting 'a')" ps c
  | stateFa => expect "l" stateFal "in literal false (expecting 'l')" ps c
  | stateFal => expect "s" stateFals "in literal false (expecting 's')" ps c
  | stateFals => expect "e" stateEndValue "in literal false (expecting 'e')" ps c
  | stateN => expect "u" stateNu "in literal null (expecting 'u')" ps c
  | stateNu => expect "l" stateNul "in literal null (expecting 'l')" ps c
  | stateNul => expect "l" stateEndValue "in literal null (expecting 'l')" ps c
  | stateError _ => s
  end.

Definition scan_init : scanner := Scanner stateBeginValue [].

(** [checkValid]: the scanner over the whole input, then [eof].  [n] counts
    the bytes read. *)
Fixpoint checkValid_from (s : scanner) (n : nat) (data : string) : option Error :=
  match data with
  | String c data' =>
      let s' := scan s c in
      match scan_step s' with
      | stateError context => Some (SyntaxError (Some c) context (S n))
      | _ => checkValid_from s' (S n) data'
      end
  | EmptyString =>
      match scan_step s with
      | stateEndTop => None
      | _ =>
          match scan_step (scan s " ") with
          | stateEndTop => None
          | _ => Some (SyntaxError None "unexpected end of JSON input" n)
          end
      end
  end.

Definition checkValid (data : string) : option Error := checkValid_from scan_init 0 data.

(** *** Decoding *)

Fixpoint skip_space (s : string) : string :=
  match s with
  | String c s' => if isSpace c then skip_space s' else s
  | EmptyString => s
  end.

(** The end of a string literal once its opening quote is read: the byte after
    a backslash is skipped, the closing quote is part of the literal
    ([rescanLiteral]). *)
Fixpoint rescan_string (s : string) : string * string :=
  match s with
  | EmptyString => (EmptyString, EmptyString)
  | String c s' =>
      if is_byte dquote c then (String c EmptyString, s')
      else if is_byte "\" c then
        match s' with
        | String c' s'' =>
            let '(lit, rest) := rescan_string s'' in (String c (String c' lit), rest)
        | EmptyString => (String c EmptyString, EmptyString)
        end
      else let '(lit, rest) := rescan_string s' in (String c lit, rest)
  end.

Definition is_number_byte (c : ascii) : bool :=
  is_digit c || is_byte "." c || is_byte "e" c || is_byte "E" c
  || is_byte "+" c || is_byte "-" c.

Fixpoint rescan_number (s : string) : string * string :=
  match s with
  | String c s' =>
      if is_number_byte c
      then let '(lit, rest) := rescan_number s' in (String c lit, rest)
      else (EmptyString, s)
  | EmptyString => (EmptyString, EmptyString)
  end.

(** [skip]: to the end of the array or object that [s] starts with, by the
    scanner: the value ends with the byte that empties the stack again. *)
Fixpoint skip_from (sc : scanner) (s : string) : string * string :=
  match s with
  | EmptyString => (EmptyString, EmptyString)
  | String c s' =>
      let sc' := scan sc c in
      match scan_stack sc' with
      | [] => (String c EmptyString, s')
      | _ => let '(item, rest) := skip_from sc' s' in (String c item, rest)
      end
  end.

(** The JSON value that [s] starts with and what follows it: the bytes a
    [json.RawMessage] receives for that value. *)
Definition raw_value (s : string) : string * string :=
  match s with
  | EmptyString => (EmptyString, EmptyString)
  | String c s' =>
      if is_byte "[" c || is_byte "{" c then skip_from scan_init s
      else if is_byte dquote c then
        let '(lit, rest) := rescan_string s' in (String c lit, rest)
      else if is_byte "t" c || is_byte "n" c then (string_take 4 s, string_drop 4 s)
      else if is_byte "f" c then (string_take 5 s, string_drop 5 s)
      else let '(lit, rest) := rescan_number s' in (String c lit, rest)
  end.

(** [getu4]: the rune of four hexadecimal digits. *)
Definition hex_digit (c : ascii) : Z :=
  if is_digit c then digit_val c
  else if in_range "a" "f" c then (byte c - byte "a" + 10)%Z
  else (byte c - byte "A" + 10)%Z.

Definition getu4 (s : string) : option (Z * string) :=
  match s with
  | String c0 (String c1 (String c2 (String c3 rest))) =>
      if is_hex c0 && is_hex c1 && is_hex c2 && is_hex c3
      then Some (hex_digit c0 * 4096 + hex_digit c1 * 256 + hex_digit c2 * 16 + hex_digit c3, rest)%Z
      else None
  | _ => None
  end.

Definition is_surrogate (r : Z) : bool := (55296 <=? r)%Z && (r <? 57344)%Z.

(** [utf16.DecodeRune]: the rune of a surrogate pair, U+FFFD when it is not
    one. *)
Definition utf16_DecodeRune (r1 r2 : Z) : Z :=
  if (55296 <=? r1)%Z && (r1 <? 56320)%Z && (56320 <=? r2)%Z && (r2 <? 57344)%Z
  then ((r1 - 55296) * 1024 + (r2 - 56320) + 65536)%Z
  else utf8.RuneError.

(** [unquote] without the opening quote: [s] must end with the closing quote.
    A valid UTF-8 encoding is copied (decoding and encoding it again gives the
    same bytes), a byte that starts none becomes U+FFFD.  [copy] counts the
    bytes still to copy of the encoding met last, [skip] the bytes still to
    pass over of the escape met last. *)
Fixpoint unquote_body (copy skip : nat) (s : string) : option string :=
  match s with
  | EmptyString => None
  | String c s' =>
      match skip, copy with
      | S skip, _ => unquote_body copy skip s'
      | O, S copy => String c <$> unquote_body copy 0 s'
      | O, O =>
          if is_byte "\" c then
            match s' with
            | EmptyString => None
            | String e s'' =>
                if is_byte dquote e || is_byte "\" e || is_byte "/" e || is_byte "'" e
                then String e <$> unquote_body 0 1 s'
                else if is_byte "b" e then String "008"%char <$> unquote_body 0 1 s'
                else if is_byte "f" e then String "012"%char <$> unquote_body 0 1 s'
                else if is_byte "n" e then String "010"%char <$> unquote_body 0 1 s'
                else if is_byte "r" e then String "013"%char <$> unquote_body 0 1 s'
                else if is_byte "t" e then String "009"%char <$> unquote_body 0 1 s'
                else if is_byte "u" e then
                  match getu4 s'' with
                  | None => None
                  | Some (rr, s3) =>
                      if is_surrogate rr then
                        let rr1 := match s3 with
                                   | String b0 (String b1 s4) =>
                                       if is_byte "\" b0 && is_byte "u" b1
                                       then fst <$> getu4 s4 else None
                                   | _ => None
                                   end in
                        match rr1 with
                        | Some rr1 =>
                            if (utf16_DecodeRune rr rr1 =? utf8.RuneError)%Z
                            then String.append (utf8.EncodeRune utf8.RuneError)
                                   <$> unquote_body 0 5 s'
                            else String.append (utf8.EncodeRune (utf16_DecodeRune rr rr1))
                                   <$> unquote_body 0 11 s'
                        | None => String.append (utf8.EncodeRune utf8.RuneError)
                                    <$> unquote_body 0 5 s'
                        end
                      else String.append (utf8.EncodeRune rr) <$> unquote_body 0 5 s'
                  end
                else None
            end
          else if is_byte dquote c then
            match s' with EmptyString => Some EmptyString | _ => None end
          else if (byte c <? 32)%Z then None
          else if (byte c <? utf8.RuneSelf)%Z then String c <$> unquote_body 0 0 s'
          else if utf8.valid_rune s
               then String c <$> unquote_body (snd (utf8.DecodeRuneInString s) - 1) 0 s'
               else String.append (utf8.EncodeRune utf8.RuneError) <$> unquote_body 0 0 s'
      end
  end.

(** [unquote]: the Go string of a quoted JSON string literal. *)
Definition unquote (item : string) : option string :=
  match item with
  | String c s => if is_byte dquote c then unquote_body 0 0 s else None
  | EmptyString => None
  end.

(** The kind of JSON value that starts with the byte [c], as an
    [UnmarshalTypeError] names it. *)
Definition value_kind (c : ascii) : string :=
  if is_byte "[" c then "array"
  else if is_byte "{" c then "object"
  else if is_byte dquote c then "string"
  else if is_byte "t" c || is_byte "f" c then "bool"
  else if is_byte "n" c then "null"
  else "number".

(** [json.Unmarshal(data, &ret)] for [var ret string]: a JSON string gives its
    content, [null] leaves [ret] as it is (empty), any other value is a type
    error. *)
Definition Unmarshal_string (data : string) : outcome Error string :=
  match checkValid data with
  | Some err => Err err
  | None =>
      match skip_space data with
      | EmptyString => Err phasePanic
      | String c _ as s =>
          if is_byte dquote c then
            match unquote (fst (raw_value s)) with
            | Some t => Ok t
            | None => Err phasePanic
            end
          else if is_byte "n" c then Ok EmptyString
          else Err (UnmarshalTypeError (value_kind c))
      end
  end.

(** The elements of an array, [s] being at the first byte of an element. *)
Fixpoint array_values (fuel : nat) (s : string) : option (list string) :=
  match fuel with
  | O => None
  | S fuel =>
      let '(item, rest) := raw_value s in
      match skip_space rest with
      | String c rest' =>
          if is_byte "," c then cons item <$> array_values fuel (skip_space rest')
          else if is_byte "]" c then Some [item]
          else None
      | EmptyString => None
      end
  end.

(** [json.Unmarshal(data, &s)] for [var s []json.RawMessage]: an array gives
    the text of each element, [null] gives the nil slice (read as an empty
    one), any other value is a type error. *)
Definition Unmarshal_slice (data : string) : outcome Error (list string) :=
  match checkValid data with
  | Some err => Err err
  | None =>
      match skip_space data with
      | EmptyString => Err phasePanic
      | String c s' =>
          if is_byte "[" c then
            match skip_space s' with
            | String c' _ as s'' =>
                if is_byte "]" c' then Ok []
                else match array_values (String.length s'') s'' with
                     | Some l => Ok l
                     | None => Err phasePanic
                     end
            | EmptyString => Err phasePanic
            end
          else if is_byte "n" c then Ok []
          else Err (UnmarshalTypeError (value_kind c))
      end
  end.

(** The members of an object, in the order of the text, [s] being at the
    opening quote of a key. *)
Fixpoint object_members (fuel : nat) (s : string) : option (list (string * string)) :=
  match fuel with
  | O => None
  | S fuel =>
      let '(k, rest) := raw_value s in
      match unquote k, skip_space rest with
      | Some key, String c rest' =>
          if is_byte ":" c then
            let '(item, rest) := raw_value (skip_space rest') in
            match skip_space rest with
            | String c rest' =>
                if is_byte "," c then cons (key, item) <$> object_members fuel (skip_space rest')
                else if is_byte "}" c then Some [(key, item)]
                else None
            | EmptyString => None
            end
          else None
      | _, _ => None
      end
  end.

(** [json.Unmarshal(data, &m)] for [var m map[string]json.RawMessage]: an
    object gives the text of each member's value under its key, a later member
    replacing an earlier one of the same key; [null] gives the nil map (read
    as an empty one); any other value is a type error. *)
Definition Unmarshal_map (data : string) : outcome Error (gmap string string) :=
  match checkValid data with
  | Some err => Err err
  | None =>
      match skip_space data with
      | EmptyString => Err phasePanic
      | String c s' =>
          if is_byte "{" c then
            match skip_space s' with
            | String c' _ as s'' =>
                if is_byte "}" c' then Ok ∅
                else match object_members (String.length s'') s'' with
                     | Some l => Ok (list_to_map (reverse l))
                     | None => Err phasePanic
                     end
            | EmptyString => Err phasePanic
            end
          else if is_byte "n" c then Ok ∅
          else Err (UnmarshalTypeError (value_kind c))
      end
  end.

(** *** Encoding *)

Definition hex_char (n : Z) : ascii :=
  if (n <? 10)%Z then digit_char n else byte_char (byte "a" + (n - 10)).

(** The bytes below 128 that a string literal holds as they are when HTML
    characters are escaped ([htmlSafeSet]). *)
Definition htmlSafe (c : ascii) : bool :=
  (32 <=? byte c)%Z && (byte c <? 128)%Z
  && negb (is_byte dquote c || is_byte "\" c || is_byte "<" c || is_byte ">" c
           || is_byte "&" c).

(** [appendString] with [escapeHTML]: the body of the string literal of [src].
    [copy] counts the bytes still to copy of the encoding met last, [skip] the
    bytes of it still to pass over when an escape was written for it. *)
Fixpoint encode_string_body (copy skip : nat) (src : string) : string :=
  match src with
  | EmptyString => EmptyString
  | String c src' =>
      match skip, copy with
      | S skip, _ => encode_string_body copy skip src'
      | O, S copy => String c (encode_string_body copy 0 src')
      | O, O =>
          if (byte c <? utf8.RuneSelf)%Z then
            (if htmlSafe c then String c EmptyString
             else if is_byte "\" c || is_byte dquote c then String "\" (String c EmptyString)
             else if is_byte "008" c then "\b"
             else if is_byte "012" c then "\f"
             else if is_byte "010" c then "\n"
             else if is_byte "013" c then "\r"
             else if is_byte "009" c then "\t"
             else "\u00" +:+ String (hex_char (Z.shiftr (byte c) 4))
                              (String (hex_char (Z.land (byte c) 15)) EmptyString))
            +:+ encode_string_body 0 0 src'
          else
            let '(r, size) := utf8.DecodeRuneInString src in
            if (r =? utf8.RuneError)%Z && (size =? 1)%nat then
              "\ufffd" +:+ encode_string_body 0 0 src'
            else if (r =? 8232)%Z || (r =? 8233)%Z then
              "\u202" +:+ String (hex_char (Z.land r 15)) (encode_string_body 0 (size - 1) src')
            else String c (encode_string_body (size - 1) 0 src')
      end
  end.

(** [json.Marshal(s)] for a string [s]. *)
Definition Marshal_string (s : string) : string :=
  String dquote (encode_string_body 0 0 s +:+ String dquote EmptyString).

(** [json.Marshal(b)] for a bool [b]. *)
Definition Marshal_bool (b : bool) : string := if b then "true" else "false".

Definition float64_1e21 : float64 := Eval vm_compute in float64_of_Z (10 ^ 21).
Definition float64_1e_6 : float64 := Eval vm_compute in round_ratio false 1 (10 ^ 6).

(** [json.Marshal(f)] for a float64 [f]: NaN and the infinities are refused;
    the format is ['f'], or ['e'] below 1e-6 and from 1e21 on. *)
Definition Marshal_float64 (f : float64) : outcome Error string :=
  if IsInf f 0 || IsNaN f then Err (UnsupportedValueError (strconv.FormatFloat f "g"))
  else
    let abs := Abs f in
    let fmt := if negb (SFeqb abs (S754_zero false))
                  && (SFltb abs float64_1e_6 || SFleb float64_1e21 abs)
               then "e"%char else "f"%char in
    Ok (strconv.FormatFloat f fmt).

(** The texts of the elements, or the first error met: the error of a
    [MarshalJSON] method is wrapped, a panic goes through. *)
Fixpoint marshal_elements (l : list (outcome Error string)) : outcome Error (list string) :=
  match l with
  | [] => Ok []
  | r :: l' =>
      match r with
      | Ok b =>
          match marshal_elements l' with
          | Ok bs => Ok (b :: bs)
          | Err e => Err e
          end
      | Err (runtimePanic msg) => Err (runtimePanic msg)
      | Err e => Err (MarshalerError e)
      end
  end.

Fixpoint join (sep : string) (l : list string) : string :=
  match l with
  | [] => EmptyString
  | [x] => x
  | x :: l' => x +:+ sep +:+ join sep l'
  end.

(** [json.Marshal(v)] for a non-nil slice [v] of pointers to a type with a
    [MarshalJSON] method, given what the method returns for each element (a
    nil pointer is written [null] without calling it).  The encoder compacts
    what the method returns; the method here returns text that [json.Marshal]
    itself produced, which is compact already. *)
Definition Marshal_slice (elems : list (outcome Error string)) : outcome Error string :=
  match marshal_elements elems with
  | Ok bs => Ok ("[" +:+ join "," bs +:+ "]")
  | Err e => Err e
  end.

Definition key_le (x y : string * outcome Error string) : Prop :=
  String.leb x.1 y.1 = true.

#[global] Instance key_le_dec x y : Decision (key_le x y).
Proof. unfold key_le. apply _. Defined.

(** [json.Marshal(v)] for a non-nil map [v] from strings to such pointers:
    the members in the order of their keys, compared byte by byte. *)
Definition Marshal_map (members : gmap string (outcome Error string)) : outcome Error string :=
  let sorted := merge_sort key_le (map_to_list members) in
  match marshal_elements (sorted.*2) with
  | Ok bs =>
      Ok ("{" +:+ join "," (zip_with (fun k b => Marshal_string k +:+ ":" +:+ b) (sorted.*1) bs) +:+ "}")
  | Err e => Err e
  end.

End json.

(** ** Ranging over a Go map *)

(** [for k, v := range m] visits the entries of [m] once each, in an order
    that Go leaves unspecified.  The order is a parameter of the model: any
    function that lists the entries. *)
Class MapRange : Type := {
  map_range : ∀ {A : Type}, gmap string A → list (string * A);
  map_range_perm : ∀ (A : Type) (m : gmap string A), map_range m ≡ₚ map_to_list m
}.

(** One such order. *)
Definition range_map_to_list : MapRange :=
  {| map_range := fun A m => map_to_list m;
     map_range_perm := fun A m => reflexivity (map_to_list m) |}.

(** ** types/struct.go *)

Module types.

(** Modelled from the spec: the declarations of the generated file
    [struct.pb.go], which is not among the sources: the enum [NullValue], the
    messages [Value], [Struct] and [ListValue], the wrappers of the oneof
    [Kind] and the getters.  A pointer is an [option], [None] being nil; a map
    or slice field is an [option] of its content for the same reason.

    [Kind] holds nil or a pointer to one of the six wrapper structs
    ([*Value_NullValue], ...), which may itself be a nil pointer of that type;
    the wrappers of a struct and of a list hold a pointer in turn. *)
Inductive NullValue : Type := NullValue_NULL_VALUE.

Inductive Value : Type :=
| Build_Value (Kind : isValue_Kind)
with isValue_Kind : Type :=
| nil_Kind
| Value_NullValue (p : option NullValue)
| Value_NumberValue (p : option float64)
| Value_StringValue (p : option string)
| Value_BoolValue (p : option bool)
| Value_StructValue (p : option (option Struct))
| Value_ListValue (p : option (option ListValue))
with Struct : Type :=
| Build_Struct (Fields : option (gmap string (option Value)))
with ListValue : Type :=
| Build_ListValue (Values : option (list (option Value))).

Definition Kind (x : Value) : isValue_Kind := let 'Build_Value k := x in k.
Definition Fields (x : Struct) : option (gmap string (option Value)) :=
  let 'Build_Struct f := x in f.
Definition Values (x : ListValue) : option (list (option Value)) :=
  let 'Build_ListValue v := x in v.

(** The getters work on a nil receiver. *)
Definition GetKind (x : option Value) : isValue_Kind :=
  match x with Some m => Kind m | None => nil_Kind end.


Definition GetValues (x : option ListValue) : option (list (option Value)) :=
  match x with Some m => Values m | None => None end.

(** A value of type [interface{}]: nil, or a value of one of the types that
    [NewValue] knows, or of another type, of which [%T] is kept.  A nil map or
    slice reads as an empty one, and the code only reads them.  A [float32]
    is given by the float64 it widens to. *)
Inductive interface : Type :=
| I_nil
| I_bool (v : bool)
| I_int (v : Z)
| I_int32 (v : Z)
| I_int64 (v : Z)
| I_uint (v : Z)
| I_uint32 (v : Z)
| I_uint64 (v : Z)
| I_float32 (v : float64)
| I_float64 (v : float64)
| I_string (v : string)
| I_bytes (v : string)
| I_map (v : gmap string interface)
| I_slice (v : list interface)
| I_other (T : string).

(** The errors that the file makes with [fmt.Errorf], by their format. *)
Inductive error : Type :=
| Errorf_invalid_UTF8 (s : string)                  (* "invalid UTF-8 in string: %q" *)
| Errorf_invalid_type (T : string)                  (* "invalid type: %T" *)
| Errorf_unrecognized_type (ivStr : string)         (* "unrecognized type for Value %q" *)
| Errorf_bad_ListValue (err : json.Error)           (* "bad ListValue: %v" *)
| Errorf_bad_StructValue (err : json.Error)         (* "bad StructValue: %v" *)
| Errorf_bad_value_for_key (k : string) (err : error).
                                    (* "bad value in StructValue for key %q: %v" *)

(** *** Constructors *)

Definition NewNullValue : Value :=
  Build_Value (Value_NullValue (Some NullValue_NULL_VALUE)).
Definition NewBoolValue (v : bool) : Value := Build_Value (Value_BoolValue (Some v)).
Definition NewNumberValue (v : float64) : Value := Build_Value (Value_NumberValue (Some v)).
Definition NewStringValue (v : string) : Value := Build_Value (Value_StringValue (Some v)).
Definition NewStructValue (v : option Struct) : Value :=
  Build_Value (Value_StructValue (Some v)).
Definition NewListValue (v : option ListValue) : Value :=
  Build_Value (Value_ListValue (Some v)).

(** The loop of [NewStruct] over the entries [kvs], each value with what
    [NewValue] returns for it: the key is checked, then the value stored. *)
Fixpoint NewStruct_range (kvs : list (string * outcome error Value))
    (x_Fields : gmap string (option Value)) : outcome error Struct :=
  match kvs with
  | [] => Ok (Build_Struct (Some x_Fields))
  | (k, r) :: kvs' =>
      if negb (utf8.ValidString k) then Err (Errorf_invalid_UTF8 k)
      else match r with
           | Ok v => NewStruct_range kvs' (<[k := Some v]> x_Fields)
           | Err err => Err err
           end
  end.

(** The loop of [NewList] from index [i] on. *)
Fixpoint NewList_range (i : nat) (vs : list (outcome error Value))
    (x_Values : list (option Value)) : outcome error ListValue :=
  match vs with
  | [] => Ok (Build_ListValue (Some x_Values))
  | r :: vs' =>
      match r with
      | Ok v => NewList_range (S i) vs' (<[i := Some v]> x_Values)
      | Err err => Err err
      end
  end.

(** [NewValue] constructs a Value from a general-purpose Go interface. *)
Fixpoint NewValue `{MapRange} (v : interface) : outcome error Value :=
  match v with
  | I_nil => Ok NewNullValue
  | I_bool v => Ok (NewBoolValue v)
  | I_int v | I_int32 v | I_int64 v | I_uint v | I_uint32 v | I_uint64 v =>
      Ok (NewNumberValue (float64_of_Z v))
  | I_float32 v | I_float64 v => Ok (NewNumberValue v)
  | I_string v =>
      if negb (utf8.ValidString v) then Err (Errorf_invalid_UTF8 v)
      else Ok (NewStringValue v)
  | I_bytes v =>
      let s := base64.EncodeToString v in
      Ok (NewStringValue s)
  | I_map v =>
      match NewStruct_range (map_range (NewValue <$> v)) ∅ with
      | Err err => Err err
      | Ok v2 => Ok (NewStructValue (Some v2))
      end
  | I_slice v =>
      match NewList_range 0 (List.map NewValue v) (replicate (length v) None) with
      | Err err => Err err
      | Ok v2 => Ok (NewListValue (Some v2))
      end
  | I_other T => Err (Errorf_invalid_type T)
  end.

(** [NewStruct] constructs a Struct from a general-purpose Go map. *)
Definition NewStruct `{MapRange} (v : gmap string interface) : outcome error Struct :=
  NewStruct_range (map_range (NewValue <$> v)) ∅.

(** [NewList] constructs a ListValue from a general-purpose Go slice. *)
Definition NewList `{MapRange} (v : list interface) : outcome error ListValue :=
  NewList_range 0 (List.map NewValue v) (replicate (length v) None).

(** *** To native values *)

(** [AsInterface], [AsMap] and [AsSlice] on a receiver that is not nil. *)
Fixpoint Value_AsInterface (x : Value) : interface :=
  match Kind x with
  | Value_NumberValue (Some v) =>
      if IsNaN v then I_string "NaN"
      else if IsInf v 1 then I_string "Infinity"
      else if IsInf v (-1) then I_string "-Infinity"
      else I_float64 v
  | Value_StringValue (Some v) => I_string v
  | Value_BoolValue (Some v) => I_bool v
  | Value_StructValue (Some v) =>
      I_map (match v with Some sv => Struct_AsMap sv | None => ∅ end)
  | Value_ListValue (Some v) =>
      I_slice (match v with Some lv => ListValue_AsSlice lv | None => [] end)
  | _ => I_nil
  end
with Struct_AsMap (x : Struct) : gmap string interface :=
  match Fields x with
  | Some m => (fun v => match v with Some v => Value_AsInterface v | None => I_nil end) <$> m
  | None => ∅
  end
with ListValue_AsSlice (x : ListValue) : list interface :=
  match Values x with
  | Some l => List.map (fun v => match v with Some v => Value_AsInterface v | None => I_nil end) l
  | None => []
  end.

(** The methods, on a pointer receiver that may be nil. *)
Definition AsInterface (x : option Value) : interface :=
  match x with Some v => Value_AsInterface v | None => I_nil end.
Definition AsMap (x : option Struct) : gmap string interface :=
  match x with Some sv => Struct_AsMap sv | None => ∅ end.
Definition AsSlice (x : option ListValue) : list interface :=
  match x with Some lv => ListValue_AsSlice lv | None => [] end.

(** *** MarshalJSON *)

(** The message of the panic of a method with a value receiver called through
    a nil pointer. *)
Definition nilDereference : json.Error :=
  json.runtimePanic "invalid memory address or nil pointer dereference".

Fixpoint Value_MarshalJSON (x : Value) : outcome json.Error string :=
  match Kind x with
  | Value_NumberValue (Some v) => json.Marshal_float64 v
  | Value_StringValue (Some v) => Ok (json.Marshal_string v)
  | Value_BoolValue (Some v) => Ok (json.Marshal_bool v)
  | Value_StructValue (Some v) =>
      match v with
      | Some sv => Struct_MarshalJSON sv
      | None => Err nilDereference
      end
  | Value_ListValue (Some v) =>
      match v with
      | Some lv => ListValue_MarshalJSON lv
      | None => Err nilDereference
      end
  | _ => Ok "null"
  end
with Struct_MarshalJSON (x : Struct) : outcome json.Error string :=
  match Fields x with
  | None => json.Marshal_map ∅
  | Some m =>
      json.Marshal_map
        ((fun v => match v with Some v => Value_MarshalJSON v | None => Ok "null" end) <$> m)
  end
with ListValue_MarshalJSON (x : ListValue) : outcome json.Error string :=
  match Values x with
  | None => json.Marshal_slice []
  | Some l =>
      json.Marshal_slice
        (List.map (fun v => match v with Some v => Value_MarshalJSON v | None => Ok "null" end) l)
  end.

(** *** unmarshal *)

(** [unquote] of [struct.go]. *)
Definition unquote (s : string) : outcome json.Error string := json.Unmarshal_string s.

(** The methods change their receiver, also when they fail: they return the
    receiver as they leave it, and the error or [None] for nil.

    [Value.unmarshal] calls itself on the elements of an array or object,
    which are parts of its input; [Value_unmarshal_fuel] counts the calls that
    may still nest and returns [None] when there is none left, which does not
    happen ([Value_unmarshal_total]).  [ListValue.unmarshal] and
    [Struct.unmarshal] take the method to call on the elements, [unm], as an
    argument. *)

(** The loop of [ListValue.unmarshal] from index [i] on: the element is set to
    a new Value, which [unmarshal] then fills. *)
Fixpoint ListValue_unmarshal_range (unm : Value → string → option (Value * option error))
    (i : nat) (s : list string) (x_Values : list (option Value))
    : option (list (option Value) * option error) :=
  match s with
  | [] => Some (x_Values, None)
  | sv :: s' =>
      match unm (Build_Value nil_Kind) sv with
      | None => None
      | Some (v, Some err) => Some (<[i := Some v]> x_Values, Some err)
      | Some (v, None) => ListValue_unmarshal_range unm (S i) s' (<[i := Some v]> x_Values)
      end
  end.

Definition ListValue_unmarshal_with (unm : Value → string → option (Value * option error))
    (x : ListValue) (inputValue : string) : option (ListValue * option error) :=
  match json.Unmarshal_slice inputValue with
  | Err err => Some (x, Some (Errorf_bad_ListValue err))
  | Ok s =>
      match ListValue_unmarshal_range unm 0 s (replicate (length s) None) with
      | None => None
      | Some (vs, err) => Some (Build_ListValue (Some vs), err)
      end
  end.

(** The loop of [Struct.unmarshal] over the entries [kvs]: a value that fails
    is not stored. *)
Fixpoint Struct_unmarshal_range (unm : Value → string → option (Value * option error))
    (kvs : list (string * string)) (x_Fields : gmap string (option Value))
    : option (gmap string (option Value) * option error) :=
  match kvs with
  | [] => Some (x_Fields, None)
  | (k, jv) :: kvs' =>
      match unm (Build_Value nil_Kind) jv with
      | None => None
      | Some (pv, Some err) => Some (x_Fields, Some (Errorf_bad_value_for_key k err))
      | Some (pv, None) => Struct_unmarshal_range unm kvs' (<[k := Some pv]> x_Fields)
      end
  end.

Definition Struct_unmarshal_with `{MapRange}
    (unm : Value → string → option (Value * option error))
    (x : Struct) (inputValue : string) : option (Struct * option error) :=
  match json.Unmarshal_map inputValue with
  | Err err => Some (x, Some (Errorf_bad_StructValue err))
  | Ok m =>
      match Struct_unmarshal_range unm (map_range m) ∅ with
      | None => None
      | Some (fs, err) => Some (Build_Struct (Some fs), err)
      end
  end.

(** The body of [Value.unmarshal], [unm] standing for the method itself in
    the calls that [ListValue.unmarshal] and [Struct.unmarshal] make. *)
Definition Value_unmarshal_with `{MapRange}
    (unm : Value → string → option (Value * option error))
    (x : Value) (inputValue : string) : option (Value * option error) :=
  let ivStr := inputValue in
  if bool_decide (ivStr = "null") then
    Some (Build_Value (Value_NullValue (Some NullValue_NULL_VALUE)), None)
  else match strconv.ParseFloat ivStr with
  | Ok v => Some (Build_Value (Value_NumberValue (Some v)), None)
  | Err _ =>
  match unquote ivStr with
  | Ok v => Some (Build_Value (Value_StringValue (Some v)), None)
  | Err _ =>
  match strconv.ParseBool ivStr with
  | Ok v => Some (Build_Value (Value_BoolValue (Some v)), None)
  | Err _ =>
  match json.Unmarshal_slice inputValue with
  | Ok _ =>
      (* x.Kind points to lv, which lv.unmarshal then fills *)
      match ListValue_unmarshal_with unm (Build_ListValue None) inputValue with
      | None => None
      | Some (lv, err) => Some (Build_Value (Value_ListValue (Some (Some lv))), err)
      end
  | Err _ =>
  match json.Unmarshal_map inputValue with
  | Ok _ =>
      match Struct_unmarshal_with unm (Build_Struct None) inputValue with
      | None => None
      | Some (sv, err) => Some (Build_Value (Value_StructValue (Some (Some sv))), err)
      end
  | Err _ => Some (x, Some (Errorf_unrecognized_type ivStr))
  end end end end end.

Fixpoint Value_unmarshal_fuel `{MapRange} (fuel : nat) (x : Value) (inputValue : string)
    : option (Value * option error) :=
  match fuel with
  | O => None
  | S fuel => Value_unmarshal_with (Value_unmarshal_fuel fuel) x inputValue
  end.

(** [Value.unmarshal]: an element is shorter than the array or object it is
    in, so the calls nest less deep than the input is long. *)
Definition Value_unmarshal `{MapRange} (x : Value) (inputValue : string)
    : option (Value * option error) :=
  Value_unmarshal_fuel (S (String.length inputValue)) x inputValue.

Definition ListValue_unmarshal `{MapRange} (x : ListValue) (inputValue : string)
    : option (ListValue * option error) :=
  ListValue_unmarshal_with Value_unmarshal x inputValue.

Definition Struct_unmarshal `{MapRange} (x : Struct) (inputValue : string)
    : option (Struct * option error) :=
  Struct_unmarshal_with Value_unmarshal x inputValue.

Definition Value_UnmarshalJSON `{MapRange} (x : Value) (b : string) := Value_unmarshal x b.
Definition Struct_UnmarshalJSON `{MapRange} (x : Struct) (b : string) := Struct_unmarshal x b.
Definition ListValue_UnmarshalJSON `{MapRange} (x : ListValue) (b : string) :=
  ListValue_unmarshal x b.

End types.

(** ** Vocabulary of the statements *)

Import strconv json types.

(** The JSON text of a quoted token: [s] between double quotes. *)
Definition quoted (s : string) : string :=
  String dquote (s +:+ String dquote EmptyString).

(** A new Value, [&Value{}]: nothing is set. *)
Definition new_Value : Value := Build_Value nil_Kind.

(** [Kind] is nil, or the nil pointer of one of the wrapper types. *)
Definition nil_variant (k : isValue_Kind) : bool :=
  match k with
  | nil_Kind
  | Value_NullValue None | Value_NumberValue None | Value_StringValue None
  | Value_BoolValue None | Value_StructValue None | Value_ListValue None => true
  | _ => false
  end.

(** The spellings of a boolean that [Value.unmarshal] reads as one. *)
Definition bool_tokens : list (string * bool) :=
  [("t", true); ("T", true); ("true", true); ("TRUE", true); ("True", true);
   ("f", false); ("F", false); ("false", false); ("FALSE", false); ("False", false)].

(** What the loop of [ListValue.unmarshal] leaves in [Values], as a list built
    from the front: the elements decoded so far, then the one that failed as
    [unmarshal] left it, then nil pointers. *)
Fixpoint unmarshal_elements (unm : Value → string → option (Value * option error))
    (s : list string) : option (list (option Value) * option error) :=
  match s with
  | [] => Some ([], None)
  | sv :: s' =>
      match unm new_Value sv with
      | None => None
      | Some (v, Some err) => Some (Some v :: replicate (length s') None, Some err)
      | Some (v, None) =>
          match unmarshal_elements unm s' with
          | None => None
          | Some (vs, err) => Some (Some v :: vs, err)
          end
      end
  end.

(** The key that an error of [Struct.unmarshal] names, when it names one. *)
Definition error_key (err : error) : option string :=
  match err with
  | Errorf_bad_value_for_key k _ => Some k
  | _ => None
  end.

(** The first byte of [s] after white space. *)
Definition first_byte (s : string) : option ascii :=
  match json.skip_space s with
  | String c _ => Some c
  | EmptyString => None
  end.

(** *** Native values *)

(** The number of constructors of a native value. *)
Fixpoint interface_size (x : interface) : nat :=
  match x with
  | I_map m => S (map_fold (fun _ v n => interface_size v + n)%nat O m)
  | I_slice l => S (foldr (fun v n => interface_size v + n)%nat O l)
  | _ => 1%nat
  end.

(** A native value built only from nil, booleans, integers and floats, strings
    of valid UTF-8, byte sequences, slices, and maps whose keys are valid
    UTF-8; an integer is in the range of its type ([int] and [uint] have 64
    bits at most). *)
Fixpoint native_supported (x : interface) : bool :=
  match x with
  | I_int v | I_int64 v => (- 2 ^ 63 <=? v)%Z && (v <? 2 ^ 63)%Z
  | I_int32 v => (- 2 ^ 31 <=? v)%Z && (v <? 2 ^ 31)%Z
  | I_uint v | I_uint64 v => (0 <=? v)%Z && (v <? 2 ^ 64)%Z
  | I_uint32 v => (0 <=? v)%Z && (v <? 2 ^ 32)%Z
  | I_string s => utf8.ValidString s
  | I_map m => map_fold (fun k v b => utf8.ValidString k && native_supported v && b) true m
  | I_slice l => forallb native_supported l
  | I_other _ => false
  | _ => true
  end.

(** The text that stands for a float that is not finite. *)
Definition float_token (f : float64) : interface :=
  if IsNaN f then I_string "NaN"
  else if IsInf f 1 then I_string "Infinity"
  else if IsInf f (-1) then I_string "-Infinity"
  else I_float64 f.

(** What the claim says comes back from [AsInterface] after [NewValue]: the
    value itself, but for a byte sequence, which comes back as its base64
    text, and a float that is not finite, which comes back as its token. *)
Fixpoint claimed_roundtrip (x : interface) : interface :=
  match x with
  | I_float32 f => match float_token f with I_float64 _ => I_float32 f | t => t end
  | I_float64 f => float_token f
  | I_bytes b => I_string (base64.EncodeToString b)
  | I_map m => I_map (claimed_roundtrip <$> m)
  | I_slice l => I_slice (List.map claimed_roundtrip l)
  | _ => x
  end.

(** What does come back: every integer and every float32 is moreover widened
    to a float64, an integer beyond 2^53 being rounded. *)
Fixpoint widened_roundtrip (x : interface) : interface :=
  match x with
  | I_int v | I_int32 v | I_int64 v | I_uint v | I_uint32 v | I_uint64 v =>
      I_float64 (float64_of_Z v)
  | I_float32 f | I_float64 f => float_token f
  | I_bytes b => I_string (base64.EncodeToString b)
  | I_map m => I_map (widened_roundtrip <$> m)
  | I_slice l => I_slice (List.map widened_roundtrip l)
  | _ => x
  end.

(** A native value without integers and float32: nothing in it is widened. *)
Fixpoint no_widening (x : interface) : bool :=
  match x with
  | I_int _ | I_int32 _ | I_int64 _ | I_uint _ | I_uint32 _ | I_uint64 _ | I_float32 _ => false
  | I_map m => map_fold (fun _ v b => no_widening v && b) true m
  | I_slice l => forallb no_widening l
  | _ => true
  end.

(** *** Native values with their nil maps and slices *)

(** A value of type [interface{}] as Go has it: a map or a slice may be nil
    ([None]), which [interface] does not tell from an empty one; deep
    equality does. *)
Inductive native : Type :=
| N_nil
| N_bool (v : bool)
| N_int (v : Z)
| N_int32 (v : Z)
| N_int64 (v : Z)
| N_uint (v : Z)
| N_uint32 (v : Z)
| N_uint64 (v : Z)
| N_float32 (v : float64)
| N_float64 (v : float64)
| N_string (v : string)
| N_bytes (v : string)
| N_map (v : option (gmap string native))
| N_slice (v : option (list native))
| N_other (T : string).

(** The number of constructors of a native value. *)
Fixpoint native_size (g : native) : nat :=
  match g with
  | N_map (Some m) => S (map_fold (fun _ v n => native_size v + n)%nat O m)
  | N_slice (Some l) => S (foldr (fun v n => native_size v + n)%nat O l)
  | _ => 1%nat
  end.

(** What [NewValue], [NewStruct] and [NewList] read of a native value: they
    range over a map or a slice and take its length, which on a nil one is as
    on an empty one. *)
Fixpoint read (g : native) : interface :=
  match g with
  | N_nil => I_nil
  | N_bool v => I_bool v
  | N_int v => I_int v
  | N_int32 v => I_int32 v
  | N_int64 v => I_int64 v
  | N_uint v => I_uint v
  | N_uint32 v => I_uint32 v
  | N_uint64 v => I_uint64 v
  | N_float32 v => I_float32 v
  | N_float64 v => I_float64 v
  | N_string v => I_string v
  | N_bytes v => I_bytes v
  | N_map m => I_map match m with Some m => read <$> m | None => ∅ end
  | N_slice l => I_slice match l with Some l => List.map read l | None => [] end
  | N_other T => I_other T
  end.

Definition read_map (m : option (gmap string native)) : gmap string interface :=
  match m with Some m => read <$> m | None => ∅ end.

Definition read_slice (l : option (list native)) : list interface :=
  match l with Some l => List.map read l | None => [] end.

(** What [AsInterface], [AsMap] and [AsSlice] return, as a native value: the
    map of [AsMap] and the slice of [AsSlice] are made with [make], so none is
    nil. *)
Fixpoint made (x : interface) : native :=
  match x with
  | I_nil => N_nil
  | I_bool v => N_bool v
  | I_int v => N_int v
  | I_int32 v => N_int32 v
  | I_int64 v => N_int64 v
  | I_uint v => N_uint v
  | I_uint32 v => N_uint32 v
  | I_uint64 v => N_uint64 v
  | I_float32 v => N_float32 v
  | I_float64 v => N_float64 v
  | I_string v => N_string v
  | I_bytes v => N_bytes v
  | I_map m => N_map (Some (made <$> m))
  | I_slice l => N_slice (Some (List.map made l))
  | I_other T => N_other T
  end.

(** What the claim says comes back of a native value: the value itself, but
    for a byte sequence, which comes back as its base64 text, and a float that
    is not finite, which comes back as its token. *)
Fixpoint claimed_back (g : native) : native :=
  match g with
  | N_float32 f => match float_token f with I_float64 _ => N_float32 f | t => made t end
  | N_float64 f => made (float_token f)
  | N_bytes b => N_string (base64.EncodeToString b)
  | N_map (Some m) => N_map (Some (claimed_back <$> m))
  | N_slice (Some l) => N_slice (Some (List.map claimed_back l))
  | _ => g
  end.

(** What does come back: moreover, every integer and every float32 is widened
    to a float64, an integer beyond 2^53 being rounded, and a nil map or slice
    comes back as an empty one that is not nil. *)
Fixpoint came_back (g : native) : native :=
  match g with
  | N_int v | N_int32 v | N_int64 v | N_uint v | N_uint32 v | N_uint64 v =>
      N_float64 (float64_of_Z v)
  | N_float32 f | N_float64 f => made (float_token f)
  | N_bytes b => N_string (base64.EncodeToString b)
  | N_map m => N_map (Some match m with Some m => came_back <$> m | None => ∅ end)
  | N_slice l => N_slice (Some match l with Some l => List.map came_back l | None => [] end)
  | _ => g
  end.

(** A native value in which nothing changes but what the claim says: it
    holds no integer, no finite float32, and no nil map or slice. *)
Fixpoint as_claimed (g : native) : bool :=
  match g with
  | N_int _ | N_int32 _ | N_int64 _ | N_uint _ | N_uint32 _ | N_uint64 _ => false
  | N_float32 f => negb (is_finite f)
  | N_map (Some m) => map_fold (fun _ v b => as_claimed v && b) true m
  | N_slice (Some l) => forallb as_claimed l
  | N_map None | N_slice None => false
  | _ => true
  end.

(** A native value with a nil map, a nil slice and an integer in a map. *)
Definition example_nil_containers : native :=
  N_map (Some {[ "a" := N_slice (Some [N_int 3; N_bytes "foo"; N_float64 S754_nan;
                                       N_string "x"; N_map None; N_slice None]) ]}).

(** *** Generic values *)

(** The number of constructors of a Value. *)
Fixpoint Value_size (x : Value) : nat :=
  match Kind x with
  | Value_StructValue (Some (Some (Build_Struct (Some m)))) =>
      S (map_fold (fun _ v n => match v with Some v => Value_size v | None => O end + n)%nat O m)
  | Value_ListValue (Some (Some (Build_ListValue (Some l)))) =>
      S (foldr (fun v n => match v with Some v => Value_size v | None => O end + n)%nat O l)
  | _ => 1%nat
  end.

(** A Value that is a generic value of the specification: exactly one variant
    is set, down the tree; no pointer is nil (a map or slice may be: it is
    the empty one); a Number holds a float64. *)
Fixpoint is_GenericValue (x : Value) : bool :=
  match Kind x with
  | Value_NullValue (Some _) | Value_StringValue (Some _) | Value_BoolValue (Some _) => true
  | Value_NumberValue (Some f) => valid_float64 f
  | Value_StructValue (Some (Some (Build_Struct fs))) =>
      match fs with
      | Some m =>
          map_fold (fun _ v b => match v with Some v => is_GenericValue v | None => false end && b)
            true m
      | None => true
      end
  | Value_ListValue (Some (Some (Build_ListValue vs))) =>
      match vs with
      | Some l => forallb (fun v => match v with Some v => is_GenericValue v | None => false end) l
      | None => true
      end
  | _ => false
  end.

(** The Number leaves are finite, the String leaves and the keys are valid
    UTF-8. *)
Fixpoint finite_and_utf8 (x : Value) : bool :=
  match Kind x with
  | Value_NumberValue (Some f) => is_finite f
  | Value_StringValue (Some s) => utf8.ValidString s
  | Value_StructValue (Some (Some (Build_Struct (Some m)))) =>
      map_fold (fun k v b => utf8.ValidString k
                             && match v with Some v => finite_and_utf8 v | None => true end && b)
        true m
  | Value_ListValue (Some (Some (Build_ListValue (Some l)))) =>
      forallb (fun v => match v with Some v => finite_and_utf8 v | None => true end) l
  | _ => true
  end.

(** A generic value with every nil map and nil slice replaced by an empty one. *)
Fixpoint canonical (x : Value) : Value :=
  match Kind x with
  | Value_StructValue (Some (Some (Build_Struct fs))) =>
      Build_Value (Value_StructValue (Some (Some (Build_Struct (Some
        match fs with
        | Some m => (fun v => match v with Some v => Some (canonical v) | None => None end) <$> m
        | None => ∅
        end)))))
  | Value_ListValue (Some (Some (Build_ListValue vs))) =>
      Build_Value (Value_ListValue (Some (Some (Build_ListValue (Some
        match vs with
        | Some l => List.map (fun v => match v with Some v => Some (canonical v) | None => None end) l
        | None => []
        end)))))
  | _ => x
  end.

(** No map and no slice of the tree is nil. *)
Fixpoint no_nil_container (x : Value) : bool :=
  match Kind x with
  | Value_StructValue (Some (Some (Build_Struct fs))) =>
      match fs with
      | Some m =>
          map_fold (fun _ v b => match v with Some v => no_nil_container v | None => true end && b)
            true m
      | None => false
      end
  | Value_ListValue (Some (Some (Build_ListValue vs))) =>
      match vs with
      | Some l => forallb (fun v => match v with Some v => no_nil_container v | None => true end) l
      | None => false
      end
  | _ => true
  end.

(** Two generic values are deep-equal when they are the same tree: a nil map
    or slice is not told from an empty one (neither [proto.Equal] nor the text
    form that the tests of the repository compare tells them apart). *)
Definition deep_equal (x y : Value) : Prop := canonical x = canonical y.

(** A tree with every kind of generic value: [{"a": [1.5, "x<y", true, null],
    "b": {}}], the inner map being nil. *)
Definition example_tree : Value :=
  NewStructValue (Some (Build_Struct (Some
    {[ "a" := Some (NewListValue (Some (Build_ListValue (Some
                 [ Some (NewNumberValue (S754_finite false 6755399441055744 (-52)));
                   Some (NewStringValue "x<y");
                   Some (NewBoolValue true);
                   Some NewNullValue ]))));
       "b" := Some (NewStructValue (Some (Build_Struct None))) ]}))).

(** *** JSON texts *)

(** The scanner over a text. *)
Fixpoint scan_all (sc : json.scanner) (s : string) : json.scanner :=
  match s with
  | EmptyString => sc
  | String c s' => scan_all (json.scan sc c) s'
  end.

(** The stack of the scanner is empty after no byte of [s]. *)
Fixpoint stack_kept (sc : json.scanner) (s : string) : bool :=
  match s with
  | EmptyString => true
  | String c s' =>
      match json.scan_stack (json.scan sc c) with
      | [] => false
      | _ => stack_kept (json.scan sc c) s'
      end
  end.

(** The scanner is at the beginning of a value. *)
Definition begins_value (st : json.step) : bool :=
  match st with
  | json.stateBeginValue | json.stateBeginValueOrEmpty => true
  | _ => false
  end.

(** A byte that may follow a value in a JSON text. *)
Definition delimiter (c : ascii) : bool :=
  json.isSpace c || is_byte "," c || is_byte "]" c || is_byte "}" c || is_byte ":" c.

(** [rest] is empty or starts with a delimiter. *)
Definition delimited (rest : string) : bool :=
  match rest with
  | EmptyString => true
  | String c _ => delimiter c
  end.

(** The scanner has read a value with the stack [ps] under it: the stack is
    [ps] again and a delimiter is taken as the byte after a value. *)
Definition value_ended (sc : json.scanner) (ps : list json.parseState) : Prop :=
  json.scan_stack sc = ps
  ∧ ∀ c, delimiter c = true → json.scan sc c = json.do_stateEndValue ps c.

(** The scanner goes from [sc] to [sc'] over [s], and its stack, when it is
    not empty before [s], is empty after no byte of [s]. *)
Definition scans (sc : json.scanner) (s : string) (sc' : json.scanner) : Prop :=
  scan_all sc s = sc'
  ∧ (json.scan_stack sc ≠ [] → json.scan_stack sc' ≠ [] ∧ stack_kept sc s = true).

(** The steps in which the scanner may be after the last byte of a number. *)
Definition number_ended (st : json.step) : bool :=
  match st with
  | json.state0 | json.state1 | json.stateDot0 | json.stateE0 => true
  | _ => false
  end.

(** The bytes that a JSON value may start with. *)
Definition value_start (c : ascii) : bool :=
  is_byte dquote c || is_byte "-" c || is_digit c || is_byte "t" c || is_byte "f" c
  || is_byte "n" c || is_byte "[" c || is_byte "{" c.

(** Every byte of [s] passes the test [P]. *)
Fixpoint string_forallb (P : ascii → bool) (s : string) : bool :=
  match s with
  | EmptyString => true
  | String c s' => P c && string_forallb P s'
  end.

(** A byte of an encoding of more than one byte. *)
Definition high_byte (c : ascii) : bool := (128 <=? byte c)%Z.

(** A byte that a string literal holds as it is. *)
Definition plain_byte (c : ascii) : bool :=
  (32 <=? byte c)%Z && negb (is_byte dquote c) && negb (is_byte "\" c).

(** The byte after the backslash of an escape of two bytes. *)
Definition simple_escape (e : ascii) : bool :=
  is_byte "b" e || is_byte "f" e || is_byte "n" e || is_byte "r" e
  || is_byte "t" e || is_byte "\" e || is_byte "/" e || is_byte dquote e.

(** What is between the quotes of a string literal. *)
Inductive literal_body : string → Prop :=
| literal_body_nil : literal_body EmptyString
| literal_body_plain (c : ascii) (t : string) :
    plain_byte c = true → literal_body t → literal_body (String c t)
| literal_body_escape (e : ascii) (t : string) :
    simple_escape e = true → literal_body t → literal_body (String "\" (String e t))
| literal_body_u4 (h0 h1 h2 h3 : ascii) (t : string) :
    json.is_hex h0 && json.is_hex h1 && json.is_hex h2 && json.is_hex h3 = true →
    literal_body t →
    literal_body (String "\" (String "u" (String h0 (String h1 (String h2 (String h3 t)))))).

(** The digits of a JSON number: at least one. *)
Definition digits1 (s : string) : bool :=
  all_digits s && negb (bool_decide (s = EmptyString)).

(** The text of a JSON number: an optional minus sign, the integer part, an
    optional fraction and an optional exponent. *)
Definition number_parts (neg : bool) (int frac exp : string) (esign : bool) : string :=
  (if neg then "-" else "") +:+ int
  +:+ (if bool_decide (frac = EmptyString) then "" else "." +:+ frac)
  +:+ (if bool_decide (exp = EmptyString) then ""
       else "e" +:+ (if esign then "-" else "+") +:+ exp).

(** The integer part is [0], or digits that do not start with [0]. *)
Inductive number_text : string → Prop :=
| number_text_parts (neg : bool) (int frac exp : string) (esign : bool) :
    digits1 int = true →
    (int = "0" ∨ ∃ c int', int = String c int' ∧ is_byte "0" c = false) →
    all_digits frac = true →
    all_digits exp = true →
    number_text (number_parts neg int frac exp esign).

(** The text of an object member: the key as a string literal, a colon, the
    text of the value. *)
Definition member_text (kb : string * string) : string :=
  json.Marshal_string kb.1 +:+ ":" +:+ kb.2.

(** The texts that [MarshalJSON] produces. *)
Inductive json_text : string → Prop :=
| json_text_null : json_text "null"
| json_text_bool (b : bool) : json_text (json.Marshal_bool b)
| json_text_number (b : string) : number_text b → json_text b
| json_text_string (s : string) : utf8.ValidString s = true → json_text (json.Marshal_string s)
| json_text_array (bs : list string) :
    Forall json_text bs → json_text ("[" +:+ json.join "," bs +:+ "]")
| json_text_object (kbs : list (string * string)) :
    Forall (fun kb => utf8.ValidString kb.1 = true ∧ json_text kb.2) kbs →
    json_text ("{" +:+ json.join "," (member_text <$> kbs) +:+ "}").

(** ** Vocabulary of the further properties *)

(** A native value that [NewValue] converts: its strings and the keys of its
    maps are valid UTF-8, and it holds no value of a type that [NewValue] does
    not know. *)
Fixpoint convertible (x : interface) : bool :=
  match x with
  | I_string s => utf8.ValidString s
  | I_map m => map_fold (fun k v b => utf8.ValidString k && convertible v && b) true m
  | I_slice l => forallb convertible l
  | I_other _ => false
  | _ => true
  end.

(** A Value that [MarshalJSON] writes: no Number in it is NaN or infinite,
    and no wrapper of a Struct or ListValue holds a nil pointer.  A nil
    pointer to a Value in a map or slice is written [null]. *)
Fixpoint marshalable (x : Value) : bool :=
  match Kind x with
  | Value_NumberValue (Some f) => is_finite f
  | Value_StructValue (Some None) | Value_ListValue (Some None) => false
  | Value_StructValue (Some (Some (Build_Struct (Some m)))) =>
      map_fold (fun _ v b => match v with Some v => marshalable v | None => true end && b) true m
  | Value_ListValue (Some (Some (Build_ListValue (Some l)))) =>
      forallb (fun v => match v with Some v => marshalable v | None => true end) l
  | _ => true
  end.

(** The texts that [MarshalJSON] writes, whatever bytes the strings hold. *)
Inductive marshal_text : string → Prop :=
| marshal_text_null : marshal_text "null"
| marshal_text_bool (b : bool) : marshal_text (json.Marshal_bool b)
| marshal_text_number (b : string) : number_text b → marshal_text b
| marshal_text_string (s : string) : marshal_text (json.Marshal_string s)
| marshal_text_array (bs : list string) :
    Forall marshal_text bs → marshal_text ("[" +:+ json.join "," bs +:+ "]")
| marshal_text_object (kbs : list (string * string)) :
    Forall (fun kb => marshal_text kb.2) kbs →
    marshal_text ("{" +:+ json.join "," (member_text <$> kbs) +:+ "}").

(** A byte that is no control character and none of [<], [>] and [&], which
    are written as escapes for the sake of HTML. *)
Definition html_quiet (c : ascii) : bool :=
  (32 <=? byte c)%Z
  && negb (is_byte "<" c || is_byte ">" c || is_byte "&" c).

(** A native value as [encoding/json] decodes one into an [interface{}]: nil,
    a bool, a finite float64, a string, a map or a slice of such values. *)
Fixpoint json_native (x : interface) : bool :=
  match x with
  | I_nil | I_bool _ | I_string _ => true
  | I_float64 f => is_finite f
  | I_map m => map_fold (fun _ v b => json_native v && b) true m
  | I_slice l => forallb json_native l
  | _ => false
  end.

(** Every float of the native value is a float64 (a float32 is one), and none
    is NaN or an infinity. *)
Fixpoint finite_floats (x : interface) : bool :=
  match x with
  | I_float32 f | I_float64 f => valid_float64 f && is_finite f
  | I_map m => map_fold (fun _ v b => finite_floats v && b) true m
  | I_slice l => forallb finite_floats l
  | _ => true
  end.

(** The error under the keys that [Struct.unmarshal] names around it. *)
Fixpoint error_root (err : error) : error :=
  match err with
  | Errorf_bad_value_for_key _ err' => error_root err'
  | _ => err
  end.

(** Another order in which a map may be ranged over: the reverse of
    [range_map_to_list]. *)
Definition range_reversed : MapRange :=
  {| map_range := fun A m => reverse (map_to_list m);
     map_range_perm := fun A m => reverse_Permutation (map_to_list m) |}.

(** A native map with every kind of supported value. *)
Definition example_native : gmap string interface :=
  {[ "n" := I_int 3;
     "l" := I_slice [I_string "x<y"; I_bytes "foo"; I_bool true; I_nil;
                     I_float64 (S754_finite false 6755399441055744 (-52))];
     "m" := I_map ∅ ]}.


(** * Lemmas and theorems *)

#[local] Arguments String.append !s1 s2 / : simpl nomatch.

(** ** Strings *)

Lemma str_length_app (s t : string) :
  String.length (s +:+ t) = (String.length s + String.length t)%nat.
Proof. induction s as [|c s IH]; simpl; [done | by rewrite IH]. Qed.

Lemma str_app_assoc (s t u : string) : (s +:+ t) +:+ u = s +:+ t +:+ u.
Proof. induction s as [|c s IH]; simpl; [done | by rewrite IH]. Qed.

Lemma str_app_nil_r (s : string) : s +:+ "" = s.
Proof. induction s as [|c s IH]; simpl; [done | by rewrite IH]. Qed.

Lemma take_drop (n : nat) (s : string) : string_take n s +:+ string_drop n s = s.
Proof.
  revert s. induction n as [|n IH]; intros [|c s]; simpl; try done. by rewrite IH.
Qed.

(** ** What [json.Unmarshal] returns is part of its input *)

Lemma skip_space_length (s : string) :
  (String.length (json.skip_space s) ≤ String.length s)%nat.
Proof. induction s as [|c s IH]; simpl; [done|]. destruct (json.isSpace c); simpl; lia. Qed.

Lemma rescan_string_app (s : string) :
  (json.rescan_string s).1 +:+ (json.rescan_string s).2 = s.
Proof.
  cut (∀ n s, (String.length s < n)%nat →
         (json.rescan_string s).1 +:+ (json.rescan_string s).2 = s).
  { intros Hn. apply (Hn (S (String.length s))). lia. }
  clear s. induction n as [|n IH]; intros s Hlen; [lia|].
  destruct s as [|c s]; simpl; [done|].
  destruct (is_byte dquote c); simpl; [done|].
  destruct (is_byte "\" c).
  - destruct s as [|c' s]; simpl; [done|].
    specialize (IH s ltac:(simpl in Hlen; lia)).
    destruct (json.rescan_string s); simpl in *. by rewrite IH.
  - specialize (IH s ltac:(simpl in Hlen; lia)).
    destruct (json.rescan_string s); simpl in *. by rewrite IH.
Qed.

Lemma rescan_number_app (s : string) :
  (json.rescan_number s).1 +:+ (json.rescan_number s).2 = s.
Proof.
  induction s as [|c s IH]; simpl; [done|].
  destruct (json.is_number_byte c); simpl; [|done].
  destruct (json.rescan_number s); simpl in *. by rewrite IH.
Qed.

Lemma skip_from_app (sc : json.scanner) (s : string) :
  (json.skip_from sc s).1 +:+ (json.skip_from sc s).2 = s.
Proof.
  revert sc. induction s as [|c s IH]; intros sc; simpl; [done|].
  destruct (json.scan_stack (json.scan sc c)); simpl; [done|].
  specialize (IH (json.scan sc c)).
  destruct (json.skip_from (json.scan sc c) s); simpl in *. by rewrite IH.
Qed.

Lemma raw_value_app (s : string) :
  (json.raw_value s).1 +:+ (json.raw_value s).2 = s.
Proof.
  destruct s as [|c s]; [done|]. unfold json.raw_value.
  destruct (is_byte "[" c || is_byte "{" c); [apply skip_from_app|].
  destruct (is_byte dquote c).
  { pose proof (rescan_string_app s). destruct (json.rescan_string s); simpl in *. congruence. }
  destruct (is_byte "t" c || is_byte "n" c); [apply take_drop|].
  destruct (is_byte "f" c); [apply take_drop|].
  pose proof (rescan_number_app s). destruct (json.rescan_number s); simpl in *. congruence.
Qed.

Lemma raw_value_length (s item rest : string) :
  json.raw_value s = (item, rest) →
  (String.length item + String.length rest = String.length s)%nat.
Proof.
  intros Hr. pose proof (raw_value_app s) as Happ. rewrite Hr in Happ. simpl in Happ.
  by rewrite <-Happ, str_length_app.
Qed.

Lemma array_values_length (fuel : nat) (s : string) (l : list string) :
  json.array_values fuel s = Some l →
  Forall (fun r => (String.length r ≤ String.length s)%nat) l.
Proof.
  revert s l. induction fuel as [|fuel IH]; intros s l; simpl; [done|].
  destruct (json.raw_value s) as [item rest] eqn:Hr.
  apply raw_value_length in Hr.
  pose proof (skip_space_length rest) as Hs.
  destruct (json.skip_space rest) as [|c rest']; [done|]. simpl in Hs.
  destruct (is_byte "," c).
  - destruct (json.array_values fuel _) as [l'|] eqn:Hl; [|done].
    intros [= <-]. constructor; [lia|].
    apply IH in Hl. pose proof (skip_space_length rest').
    eapply Forall_impl; [done|]. simpl. intros; lia.
  - destruct (is_byte "]" c); [|done]. intros [= <-]. repeat constructor; lia.
Qed.

Lemma Unmarshal_slice_length (data : string) (l : list string) :
  json.Unmarshal_slice data = Ok l →
  Forall (fun r => (String.length r < String.length data)%nat) l.
Proof.
  unfold json.Unmarshal_slice. destruct (json.checkValid data); [done|].
  pose proof (skip_space_length data) as Hs.
  destruct (json.skip_space data) as [|c s']; [done|]. simpl in Hs.
  destruct (is_byte "[" c).
  - pose proof (skip_space_length s') as Hs'.
    destruct (json.skip_space s') as [|c' s''] eqn:Hs''; [done|].
    destruct (is_byte "]" c'); [by intros [= <-]|].
    destruct (json.array_values _ _) as [l'|] eqn:Hl; [|done].
    intros [= <-]. apply array_values_length in Hl.
    eapply Forall_impl; [done|]. simpl in *. intros; lia.
  - destruct (is_byte "n" c); [by intros [= <-]|done].
Qed.

Lemma object_members_length (fuel : nat) (s : string) (l : list (string * string)) :
  json.object_members fuel s = Some l →
  Forall (fun kv => (String.length kv.2 ≤ String.length s)%nat) l.
Proof.
  revert s l. induction fuel as [|fuel IH]; intros s l; simpl; [done|].
  destruct (json.raw_value s) as [k rest] eqn:Hr.
  apply raw_value_length in Hr.
  destruct (json.unquote k) as [key|]; [|done].
  pose proof (skip_space_length rest) as Hs.
  destruct (json.skip_space rest) as [|c rest']; [done|]. simpl in Hs.
  destruct (is_byte ":" c); [|done].
  pose proof (skip_space_length rest') as Hs'.
  destruct (json.raw_value (json.skip_space rest')) as [item rest2] eqn:Hr2.
  apply raw_value_length in Hr2.
  pose proof (skip_space_length rest2) as Hs2.
  destruct (json.skip_space rest2) as [|c2 rest3]; [done|]. simpl in Hs2.
  destruct (is_byte "," c2).
  - destruct (json.object_members fuel _) as [l'|] eqn:Hl; [|done].
    intros [= <-]. constructor; [simpl; lia|].
    apply IH in Hl. pose proof (skip_space_length rest3).
    eapply Forall_impl; [done|]. simpl. intros; lia.
  - destruct (is_byte "}" c2); [|done]. intros [= <-]. repeat constructor; simpl; lia.
Qed.

Lemma Unmarshal_map_length (data : string) (m : gmap string string) :
  json.Unmarshal_map data = Ok m →
  map_Forall (fun _ r => (String.length r < String.length data)%nat) m.
Proof.
  unfold json.Unmarshal_map. destruct (json.checkValid data); [done|].
  pose proof (skip_space_length data) as Hs.
  destruct (json.skip_space data) as [|c s']; [done|]. simpl in Hs.
  destruct (is_byte "{" c).
  - pose proof (skip_space_length s') as Hs'.
    destruct (json.skip_space s') as [|c' s''] eqn:Hs''; [done|].
    destruct (is_byte "}" c'); [intros [= <-]; apply map_Forall_empty|].
    destruct (json.object_members _ _) as [l'|] eqn:Hl; [|done].
    intros [= <-]. apply object_members_length in Hl.
    intros k r Hk. apply elem_of_list_to_map_2 in Hk. rewrite elem_of_reverse in Hk.
    rewrite Forall_forall in Hl. apply Hl in Hk. simpl in *. lia.
  - destruct (is_byte "n" c); [intros [= <-]; apply map_Forall_empty|done].
Qed.

(** ** Values with nothing to encode *)

(** C9: a Value whose [Kind] is nil, or a nil pointer of a wrapper type, is
    marshalled as the literal [null], without error. *)
Theorem MarshalJSON_nil_variant (x : Value) :
  nil_variant (Kind x) = true → Value_MarshalJSON x = Ok "null".
Proof.
  destruct x as [k]; simpl.
  destruct k as [|p|p|p|p|p|p]; try destruct p; simpl; congruence.
Qed.

Lemma MarshalJSON_nil_variant_witness :
  nil_variant (Kind new_Value) = true ∧ Value_MarshalJSON new_Value = Ok "null".
Proof.
  split; [reflexivity | apply (MarshalJSON_nil_variant new_Value); reflexivity].
Defined.

(** ** Empty containers *)

Lemma Marshal_slice_not_null elems : json.Marshal_slice elems ≠ Ok "null".
Proof. unfold json.Marshal_slice. destruct (json.marshal_elements elems); discriminate. Qed.

Lemma Marshal_map_not_null members : json.Marshal_map members ≠ Ok "null".
Proof. unfold json.Marshal_map. destruct (json.marshal_elements _); discriminate. Qed.

(** C4: a ListValue whose [Values] is nil or empty is marshalled as [[]], a
    Struct whose [Fields] is nil or empty as [{}]; no ListValue and no Struct
    is ever marshalled as [null]. *)
Theorem MarshalJSON_empty_containers :
  ListValue_MarshalJSON (Build_ListValue None) = Ok "[]"
  ∧ ListValue_MarshalJSON (Build_ListValue (Some [])) = Ok "[]"
  ∧ Struct_MarshalJSON (Build_Struct None) = Ok "{}"
  ∧ Struct_MarshalJSON (Build_Struct (Some ∅)) = Ok "{}"
  ∧ (∀ x : ListValue, ListValue_MarshalJSON x ≠ Ok "null")
  ∧ (∀ x : Struct, Struct_MarshalJSON x ≠ Ok "null").
Proof.
  repeat split; try reflexivity.
  - intros [[l|]]; simpl; apply Marshal_slice_not_null.
  - intros [[m|]]; simpl; apply Marshal_map_not_null.
Qed.

(** ** Non-finite numbers *)

(** C5: [AsInterface] gives the strings [NaN], [Infinity] and [-Infinity] for
    a Number that holds NaN, +Inf and -Inf, and the float64 itself for every
    finite Number. *)
Theorem AsInterface_number (v : float64) :
  (IsNaN v = true → AsInterface (Some (NewNumberValue v)) = I_string "NaN")
  ∧ (IsInf v 1 = true → AsInterface (Some (NewNumberValue v)) = I_string "Infinity")
  ∧ (IsInf v (-1) = true → AsInterface (Some (NewNumberValue v)) = I_string "-Infinity")
  ∧ (is_finite v = true → AsInterface (Some (NewNumberValue v)) = I_float64 v).
Proof.
  destruct v as [s|[]| |s m e]; simpl; repeat split; intros; congruence.
Qed.

Lemma AsInterface_number_witness :
  AsInterface (Some (NewNumberValue S754_nan)) = I_string "NaN"
  ∧ AsInterface (Some (NewNumberValue (S754_infinity false))) = I_string "Infinity"
  ∧ AsInterface (Some (NewNumberValue (S754_infinity true))) = I_string "-Infinity"
  ∧ AsInterface (Some (NewNumberValue (float64_of_Z 3))) = I_float64 (float64_of_Z 3).
Proof.
  split; [apply (AsInterface_number S754_nan); reflexivity |].
  split; [apply (AsInterface_number (S754_infinity false)); reflexivity |].
  split; [apply (AsInterface_number (S754_infinity true)); reflexivity |].
  apply (AsInterface_number (float64_of_Z 3)); reflexivity.
Defined.

(** ** The order of the checks of [Value.unmarshal] *)

(** The first four checks do not call [unmarshal] again. *)
Lemma Value_unmarshal_null `{MapRange} (x : Value) :
  Value_unmarshal x "null" = Some (NewNullValue, None).
Proof. reflexivity. Qed.

Lemma Value_unmarshal_number `{MapRange} (x : Value) (input : string) (v : float64) :
  input ≠ "null" → ParseFloat input = Ok v →
  Value_unmarshal x input = Some (NewNumberValue v, None).
Proof.
  intros Hn Hf. unfold Value_unmarshal, Value_unmarshal_fuel, Value_unmarshal_with.
  rewrite bool_decide_eq_false_2 by done. by rewrite Hf.
Qed.

Lemma Value_unmarshal_string `{MapRange} (x : Value) (input s : string) e :
  input ≠ "null" → ParseFloat input = Err e → types.unquote input = Ok s →
  Value_unmarshal x input = Some (NewStringValue s, None).
Proof.
  intros Hn Hf Hq. unfold Value_unmarshal, Value_unmarshal_fuel, Value_unmarshal_with.
  rewrite bool_decide_eq_false_2 by done. by rewrite Hf, Hq.
Qed.

Lemma Value_unmarshal_bool `{MapRange} (x : Value) (input : string) (b : bool) e e' :
  input ≠ "null" → ParseFloat input = Err e → types.unquote input = Err e' →
  ParseBool input = Ok b →
  Value_unmarshal x input = Some (NewBoolValue b, None).
Proof.
  intros Hn Hf Hq Hb. unfold Value_unmarshal, Value_unmarshal_fuel, Value_unmarshal_with.
  rewrite bool_decide_eq_false_2 by done. by rewrite Hf, Hq, Hb.
Qed.

(** C1: the quoted string is tested after the number and before the boolean:
    whatever the token, a number wins over a quoted string and a quoted string
    over a boolean; the quoted token ["true"] decodes to the String [true],
    the bare token [true] to the Bool [true], and the quoted token
    ["9223372036854775807"] to a String, not a Number. *)
Theorem unmarshal_quoted_before_bool `{MapRange} (x : Value) :
  (∀ input v, input ≠ "null" → ParseFloat input = Ok v →
     Value_unmarshal x input = Some (NewNumberValue v, None))
  ∧ (∀ input s e, input ≠ "null" → ParseFloat input = Err e →
       types.unquote input = Ok s →
       Value_unmarshal x input = Some (NewStringValue s, None))
  ∧ (∀ input b e e', input ≠ "null" → ParseFloat input = Err e →
       types.unquote input = Err e' → ParseBool input = Ok b →
       Value_unmarshal x input = Some (NewBoolValue b, None))
  ∧ Value_unmarshal x (quoted "true") = Some (NewStringValue "true", None)
  ∧ Value_unmarshal x "true" = Some (NewBoolValue true, None)
  ∧ Value_unmarshal x (quoted "9223372036854775807")
    = Some (NewStringValue "9223372036854775807", None).
Proof.
  split; [intros; by apply Value_unmarshal_number |].
  split; [intros; by eapply Value_unmarshal_string |].
  split; [intros; by eapply Value_unmarshal_bool |].
  split; [|split].
  - by apply (Value_unmarshal_string x _ "true" ErrSyntax).
  - by apply (Value_unmarshal_bool x _ true ErrSyntax (json.UnmarshalTypeError "bool")).
  - by apply (Value_unmarshal_string x _ "9223372036854775807" ErrSyntax).
Qed.

Lemma unmarshal_quoted_before_bool_witness :
  Value_unmarshal (H := range_map_to_list) new_Value (quoted "1")
  = Some (NewStringValue "1", None).
Proof.
  refine (proj1 (proj2 (unmarshal_quoted_before_bool (H := range_map_to_list) new_Value))
            (quoted "1") "1" ErrSyntax _ _ _); [discriminate | reflexivity | reflexivity].
Defined.

(** ** Tokens read as a Bool *)

Lemma ParseBool_Ok (str : string) (b : bool) :
  ParseBool str = Ok b →
  (str, b) ∈ [("1", true); ("0", false)] ∨ (str, b) ∈ bool_tokens.
Proof.
  unfold ParseBool, bool_tokens. intros Hb.
  repeat case_bool_decide; simplify_eq;
    repeat match goal with
           | Hin : _ ∈ _ :: _ |- _ => apply elem_of_cons in Hin as [->|Hin]
           | Hin : _ ∈ [] |- _ => by apply elem_of_nil in Hin
           end; set_solver.
Qed.

(** The claim that only [true] and [false] are read as a Bool fails on the
    token [T]. *)
Lemma unmarshal_T_is_Bool :
  Value_unmarshal (H := range_map_to_list) new_Value "T" = Some (NewBoolValue true, None)
  ∧ "T" ≠ "true" ∧ "T" ≠ "false".
Proof. repeat split; discriminate. Qed.

(** C8, amended: [Value.unmarshal] produces a Bool exactly for the ten
    spellings [t], [T], [true], [TRUE], [True], [f], [F], [false], [FALSE] and
    [False]; the tokens [1] and [0] are read as Numbers. *)
Theorem unmarshal_Bool_tokens `{MapRange} :
  (∀ (x x' : Value) (input : string) (b : bool),
     Value_unmarshal x input = Some (x', None) → Kind x' = Value_BoolValue (Some b) →
     (input, b) ∈ bool_tokens)
  ∧ (∀ (x : Value) (input : string) (b : bool),
       (input, b) ∈ bool_tokens →
       Value_unmarshal x input = Some (NewBoolValue b, None))
  ∧ (∀ x : Value, Value_unmarshal x "1" = Some (NewNumberValue (float64_of_Z 1), None)
                  ∧ Value_unmarshal x "0" = Some (NewNumberValue (float64_of_Z 0), None)).
Proof.
  split; [|split].
  - intros x x' input b. unfold Value_unmarshal, Value_unmarshal_fuel, Value_unmarshal_with.
    case_bool_decide; [intros; by simplify_eq |].
    destruct (ParseFloat input) eqn:Hf; [intros; by simplify_eq |].
    destruct (types.unquote input); [intros; by simplify_eq |].
    destruct (ParseBool input) as [b'|] eqn:Hb.
    + intros [= <-] [= <-]. apply ParseBool_Ok in Hb as [Hb|Hb]; [|done].
      apply elem_of_cons in Hb as [[= -> ->]|Hb]; [by vm_compute in Hf |].
      apply list_elem_of_singleton in Hb as [= -> ->]. by vm_compute in Hf.
    + destruct (json.Unmarshal_slice input).
      { destruct (ListValue_unmarshal_with _ _ _) as [[]|]; intros; by simplify_eq. }
      destruct (json.Unmarshal_map input).
      { destruct (Struct_unmarshal_with _ _ _) as [[]|]; intros; by simplify_eq. }
      intros; by simplify_eq.
  - intros x input b Hin. unfold bool_tokens in Hin.
    repeat (apply elem_of_cons in Hin as [?|Hin]; [by simplify_eq |]).
    by apply elem_of_nil in Hin.
  - intros x. split; vm_compute; reflexivity.
Qed.

Lemma unmarshal_Bool_tokens_witness :
  Value_unmarshal (H := range_map_to_list) new_Value "FALSE" = Some (NewBoolValue false, None).
Proof.
  apply (proj1 (proj2 (unmarshal_Bool_tokens (H := range_map_to_list)))).
  unfold bool_tokens. set_solver.
Defined.

(** ** [Value.unmarshal] returns *)

Section unmarshal_fuel.
Context `{MapRange}.
Implicit Types unm : Value → string → option (Value * option error).

Lemma ListValue_unmarshal_range_ext unm1 unm2 i s vs :
  Forall (fun sv => ∀ x, unm1 x sv = unm2 x sv) s →
  ListValue_unmarshal_range unm1 i s vs = ListValue_unmarshal_range unm2 i s vs.
Proof.
  intros Hs. revert i vs. induction Hs as [|sv s Hsv _ IH]; intros i vs; simpl; [done|].
  rewrite Hsv. destruct (unm2 _ sv) as [[v [e|]]|]; auto.
Qed.

Lemma Struct_unmarshal_range_ext unm1 unm2 (kvs : list (string * string)) fs :
  Forall (fun kv => ∀ x, unm1 x kv.2 = unm2 x kv.2) kvs →
  Struct_unmarshal_range unm1 kvs fs = Struct_unmarshal_range unm2 kvs fs.
Proof.
  intros Hs. revert fs. induction Hs as [|[k jv] kvs Hkv _ IH]; intros fs; simpl; [done|].
  simpl in Hkv. rewrite Hkv. destruct (unm2 _ jv) as [[v [e|]]|]; auto.
Qed.

Lemma ListValue_unmarshal_range_total unm i s vs :
  Forall (fun sv => ∀ x, is_Some (unm x sv)) s →
  is_Some (ListValue_unmarshal_range unm i s vs).
Proof.
  intros Hs. revert i vs. induction Hs as [|sv s Hsv _ IH]; intros i vs; simpl; [done|].
  destruct (Hsv (Build_Value nil_Kind)) as [[v [e|]] ->]; auto.
Qed.

Lemma Struct_unmarshal_range_total unm (kvs : list (string * string)) fs :
  Forall (fun kv => ∀ x, is_Some (unm x kv.2)) kvs →
  is_Some (Struct_unmarshal_range unm kvs fs).
Proof.
  intros Hs. revert fs. induction Hs as [|[k jv] kvs Hkv _ IH]; intros fs; simpl; [done|].
  simpl in Hkv. destruct (Hkv (Build_Value nil_Kind)) as [[v [e|]] ->]; auto.
Qed.

(** The entries that a range visits are entries of the map. *)
Lemma map_range_Forall {A} (P : string → A → Prop) (m : gmap string A) :
  map_Forall P m → Forall (fun kv => P kv.1 kv.2) (map_range m).
Proof.
  intros Hm. rewrite (map_range_perm A m). apply Forall_forall.
  intros [k v] Hkv. apply elem_of_map_to_list in Hkv. by apply Hm.
Qed.

Lemma ListValue_unmarshal_with_ext unm1 unm2 x input :
  (∀ sv x, (String.length sv < String.length input)%nat → unm1 x sv = unm2 x sv) →
  ListValue_unmarshal_with unm1 x input = ListValue_unmarshal_with unm2 x input.
Proof.
  intros Hu. unfold ListValue_unmarshal_with.
  destruct (json.Unmarshal_slice input) as [s|] eqn:Hs; [|done].
  apply Unmarshal_slice_length in Hs.
  rewrite (ListValue_unmarshal_range_ext unm1 unm2); [done|].
  eapply Forall_impl; [done|]. simpl. auto.
Qed.

Lemma Struct_unmarshal_with_ext unm1 unm2 x input :
  (∀ sv x, (String.length sv < String.length input)%nat → unm1 x sv = unm2 x sv) →
  Struct_unmarshal_with unm1 x input = Struct_unmarshal_with unm2 x input.
Proof.
  intros Hu. unfold Struct_unmarshal_with.
  destruct (json.Unmarshal_map input) as [m|] eqn:Hm; [|done].
  apply Unmarshal_map_length, map_range_Forall in Hm.
  rewrite (Struct_unmarshal_range_ext unm1 unm2); [done|].
  eapply Forall_impl; [done|]. simpl. auto.
Qed.

Lemma Value_unmarshal_with_ext unm1 unm2 x input :
  (∀ sv x, (String.length sv < String.length input)%nat → unm1 x sv = unm2 x sv) →
  Value_unmarshal_with unm1 x input = Value_unmarshal_with unm2 x input.
Proof.
  intros Hu. unfold Value_unmarshal_with.
  by rewrite (ListValue_unmarshal_with_ext unm1 unm2), (Struct_unmarshal_with_ext unm1 unm2).
Qed.

Lemma ListValue_unmarshal_with_total unm x input :
  (∀ sv x, (String.length sv < String.length input)%nat → is_Some (unm x sv)) →
  is_Some (ListValue_unmarshal_with unm x input).
Proof.
  intros Hu. unfold ListValue_unmarshal_with.
  destruct (json.Unmarshal_slice input) as [s|] eqn:Hs; [|done].
  apply Unmarshal_slice_length in Hs.
  destruct (ListValue_unmarshal_range_total unm 0 s (replicate (length s) None))
    as [[vs e] ->]; [|done].
  eapply Forall_impl; [done|]. simpl. auto.
Qed.

Lemma Struct_unmarshal_with_total unm x input :
  (∀ sv x, (String.length sv < String.length input)%nat → is_Some (unm x sv)) →
  is_Some (Struct_unmarshal_with unm x input).
Proof.
  intros Hu. unfold Struct_unmarshal_with.
  destruct (json.Unmarshal_map input) as [m|] eqn:Hm; [|done].
  apply Unmarshal_map_length, map_range_Forall in Hm.
  destruct (Struct_unmarshal_range_total unm (map_range m) ∅) as [[vs e] ->]; [|done].
  eapply Forall_impl; [done|]. simpl. auto.
Qed.

Lemma Value_unmarshal_with_total unm x input :
  (∀ sv x, (String.length sv < String.length input)%nat → is_Some (unm x sv)) →
  is_Some (Value_unmarshal_with unm x input).
Proof.
  intros Hu. unfold Value_unmarshal_with.
  case_bool_decide; [done|].
  destruct (ParseFloat input) as [?|_]; [done|].
  destruct (types.unquote input) as [?|_]; [done|].
  destruct (ParseBool input) as [?|_]; [done|].
  destruct (json.Unmarshal_slice input) as [?|_].
  { by destruct (ListValue_unmarshal_with_total unm (Build_ListValue None) input)
      as [[lv e] ->]. }
  destruct (json.Unmarshal_map input) as [?|_]; [|done].
  by destruct (Struct_unmarshal_with_total unm (Build_Struct None) input) as [[sv e] ->].
Qed.

Lemma Value_unmarshal_fuel_total (fuel : nat) (x : Value) (input : string) :
  (String.length input < fuel)%nat → is_Some (Value_unmarshal_fuel fuel x input).
Proof.
  revert x input. induction fuel as [|fuel IH]; intros x input Hlen; [lia|].
  simpl. apply Value_unmarshal_with_total. intros sv x' Hsv. apply IH. lia.
Qed.

Lemma Value_unmarshal_fuel_irrel (fuel fuel' : nat) (x : Value) (input : string) :
  (String.length input < fuel)%nat → (String.length input < fuel')%nat →
  Value_unmarshal_fuel fuel x input = Value_unmarshal_fuel fuel' x input.
Proof.
  revert fuel' x input. induction fuel as [|fuel IH]; intros [|fuel'] x input ??; try lia.
  simpl. apply Value_unmarshal_with_ext. intros sv x' Hsv. apply IH; lia.
Qed.

(** [Value.unmarshal] returns for every receiver and every input. *)
Theorem Value_unmarshal_total (x : Value) (input : string) :
  is_Some (Value_unmarshal x input).
Proof. apply Value_unmarshal_fuel_total. lia. Qed.

(** [Value.unmarshal] is its body, with itself for the calls on the elements. *)
Theorem Value_unmarshal_unfold (x : Value) (input : string) :
  Value_unmarshal x input = Value_unmarshal_with Value_unmarshal x input.
Proof.
  unfold Value_unmarshal at 1. simpl. apply Value_unmarshal_with_ext.
  intros sv x' Hsv. apply Value_unmarshal_fuel_irrel; lia.
Qed.

Theorem ListValue_unmarshal_total (x : ListValue) (input : string) :
  is_Some (ListValue_unmarshal x input).
Proof. apply ListValue_unmarshal_with_total. intros. apply Value_unmarshal_total. Qed.

Theorem Struct_unmarshal_total (x : Struct) (input : string) :
  is_Some (Struct_unmarshal x input).
Proof. apply Struct_unmarshal_with_total. intros. apply Value_unmarshal_total. Qed.

End unmarshal_fuel.

(** ** The loops of [ListValue.unmarshal] and [Struct.unmarshal] *)

Section unmarshal_loops.
Context `{MapRange}.
Implicit Types unm : Value → string → option (Value * option error).

Lemma ListValue_unmarshal_range_elements unm (s : list string) (pre : list (option Value)) :
  ListValue_unmarshal_range unm (length pre) s (pre ++ replicate (length s) None)
  = (fun r => (pre ++ r.1, r.2)) <$> unmarshal_elements unm s.
Proof.
  revert pre. induction s as [|sv s IH]; intros pre; simpl.
  { by rewrite app_nil_r. }
  unfold new_Value. destruct (unm _ sv) as [[v [e|]]|]; simpl; [| |done].
  - f_equal. f_equal. rewrite insert_app_r_alt by lia.
    by rewrite Nat.sub_diag.
  - rewrite insert_app_r_alt by lia. rewrite Nat.sub_diag. simpl.
    specialize (IH (pre ++ [Some v])).
    rewrite length_app, Nat.add_1_r, <-(assoc_L (++)) in IH. simpl in IH.
    rewrite IH. destruct (unmarshal_elements unm s) as [[vs oe]|]; simpl; [|done].
    by rewrite <-(assoc_L (++)).
Qed.

(** [ListValue.unmarshal] by the list that its loop builds. *)
Lemma ListValue_unmarshal_with_elements unm (x : ListValue) (input : string) (s : list string) :
  json.Unmarshal_slice input = Ok s →
  ListValue_unmarshal_with unm x input
  = (fun r => (Build_ListValue (Some r.1), r.2)) <$> unmarshal_elements unm s.
Proof.
  intros Hs. unfold ListValue_unmarshal_with. rewrite Hs.
  pose proof (ListValue_unmarshal_range_elements unm s []) as Hr. simpl in Hr.
  rewrite Hr. by destruct (unmarshal_elements unm s) as [[vs oe]|].
Qed.

(** When an element fails, the loop stops at the first that does, with the
    error of that element as it is. *)
Lemma unmarshal_elements_fail unm (s : list string) (j : nat) (sv : string) v e :
  (∀ sv x, is_Some (unm x sv)) →
  s !! j = Some sv → unm new_Value sv = Some (v, Some e) →
  ∃ (j' : nat) (sv' : string) (pre : list Value) (v' : Value) (e' : error),
    (j' ≤ j)%nat ∧ s !! j' = Some sv' ∧ unm new_Value sv' = Some (v', Some e')
    ∧ Forall2 (fun sv p => unm new_Value sv = Some (p, None)) (take j' s) pre
    ∧ unmarshal_elements unm s
      = Some ((Some <$> pre) ++ Some v' :: replicate (length s - S j') None, Some e').
Proof.
  intros Htot. revert j. induction s as [|sv0 s IH]; intros j Hj Hsv; [done|].
  simpl. destruct (Htot sv0 new_Value) as [[v0 [e0|]] Hv0]; rewrite Hv0.
  - exists 0%nat, sv0, [], v0, e0. simpl. rewrite Nat.sub_0_r.
    repeat split; [lia|done|constructor].
  - destruct j as [|j]; simpl in Hj; [congruence|].
    destruct (IH j Hj Hsv) as (j' & sv' & pre & v' & e' & Hle & Hj' & Hsv' & Hpre & ->).
    exists (S j'), sv', (v0 :: pre), v', e'. simpl.
    repeat split; [lia|done|done|by constructor].
Qed.

(** When an entry fails, the loop of [Struct.unmarshal] stops at the first
    that does in the order of the range, and wraps its error with its key. *)
Lemma Struct_unmarshal_range_fail unm (kvs : list (string * string)) fs k jv pv e :
  (∀ sv x, is_Some (unm x sv)) →
  (k, jv) ∈ kvs → unm new_Value jv = Some (pv, Some e) →
  ∃ (k' jv' : string) (pv' : Value) (e' : error) (fs' : gmap string (option Value)),
    (k', jv') ∈ kvs ∧ unm new_Value jv' = Some (pv', Some e')
    ∧ Struct_unmarshal_range unm kvs fs = Some (fs', Some (Errorf_bad_value_for_key k' e')).
Proof.
  intros Htot. revert fs. induction kvs as [|[k0 jv0] kvs IH]; intros fs Hin Hjv.
  { by apply elem_of_nil in Hin. }
  simpl. destruct (Htot jv0 new_Value) as [[v0 [e0|]] Hv0]; unfold new_Value in *; rewrite Hv0.
  - exists k0, jv0, v0, e0, fs. repeat split; [left|done].
  - apply elem_of_cons in Hin as [[= -> ->]|Hin]; [congruence|].
    destruct (IH (<[k0:=Some v0]> fs) Hin Hjv) as (k' & jv' & pv' & e' & fs' & ? & ? & ->).
    exists k', jv', pv', e', fs'. repeat split; [by right|done].
Qed.

End unmarshal_loops.

(** ** Array and object tokens reach their branch of [Value.unmarshal] *)

Lemma byte_inj (c x : ascii) : byte c = byte x → c = x.
Proof.
  unfold byte. intros Hb. apply N2Z.inj in Hb.
  by rewrite <-(ascii_N_embedding c), <-(ascii_N_embedding x), Hb.
Qed.

Lemma is_byte_true (x c : ascii) : is_byte x c = true → c = x.
Proof. unfold is_byte. intros Hb. apply byte_inj. lia. Qed.

Lemma isSpace_true (c : ascii) :
  json.isSpace c = true → c = " "%char ∨ c = "009"%char ∨ c = "013"%char ∨ c = "010"%char.
Proof.
  unfold json.isSpace. rewrite !orb_true_iff.
  intros [[[?|?]|?]|?]; auto using is_byte_true.
Qed.

Lemma first_byte_cases (s : string) (c : ascii) :
  first_byte s = Some c →
  ∃ (c0 : ascii) (s0 : string), s = String c0 s0 ∧ (c0 = c ∨ json.isSpace c0 = true).
Proof.
  unfold first_byte. destruct s as [|c0 s0]; [done|]. simpl.
  destruct (json.isSpace c0) eqn:Hsp.
  - intros _. exists c0, s0. auto.
  - intros [= <-]. exists c0, s0. auto.
Qed.

Lemma ParseFloat_bracket (s : string) (c : ascii) :
  first_byte s = Some c → c = "["%char ∨ c = "{"%char →
  ParseFloat s = Err ErrSyntax.
Proof.
  intros Hc Hb. apply first_byte_cases in Hc as (c0 & s0 & -> & Hc0).
  destruct Hc0 as [->|Hsp];
    [destruct Hb as [-> | ->] | apply isSpace_true in Hsp as [->|[->|[->| ->]]]];
    by destruct s0 as [|? [|? ?]].
Qed.

Lemma ParseBool_bracket (s : string) (c : ascii) :
  first_byte s = Some c → c = "["%char ∨ c = "{"%char →
  ParseBool s = Err ErrSyntax.
Proof.
  intros Hc Hb. destruct (ParseBool s) as [b|[]] eqn:Hs; [|done|].
  - apply ParseBool_Ok in Hs as [Hs|Hs]; unfold bool_tokens in Hs;
      repeat (apply elem_of_cons in Hs as [[= -> ->]|Hs];
              [vm_compute in Hc; destruct Hb; congruence|]);
      by apply elem_of_nil in Hs.
  - unfold ParseBool in Hs. by repeat case_bool_decide.
Qed.

Lemma unquote_bracket (s : string) (c : ascii) :
  first_byte s = Some c → c = "["%char ∨ c = "{"%char →
  ∃ e, types.unquote s = Err e.
Proof.
  unfold first_byte, types.unquote, json.Unmarshal_string. intros Hc Hb.
  destruct (json.checkValid s); [by eexists|].
  destruct (json.skip_space s) as [|c' rest]; [done|]. injection Hc as ->.
  destruct Hb as [-> | ->]; by eexists.
Qed.

Lemma Unmarshal_slice_first_byte (input : string) (s : list string) :
  json.Unmarshal_slice input = Ok s → s ≠ [] → first_byte input = Some "["%char.
Proof.
  unfold json.Unmarshal_slice, first_byte. destruct (json.checkValid input); [done|].
  destruct (json.skip_space input) as [|c rest]; [done|].
  destruct (is_byte "[" c) eqn:Hc; [intros; f_equal; by apply is_byte_true|].
  destruct (is_byte "n" c); [|done]. by intros [= <-].
Qed.

Lemma Unmarshal_map_first_byte (input : string) (m : gmap string string) :
  json.Unmarshal_map input = Ok m → m ≠ ∅ → first_byte input = Some "{"%char.
Proof.
  unfold json.Unmarshal_map, first_byte. destruct (json.checkValid input); [done|].
  destruct (json.skip_space input) as [|c rest]; [done|].
  destruct (is_byte "{" c) eqn:Hc; [intros; f_equal; by apply is_byte_true|].
  destruct (is_byte "n" c); [|done]. by intros [= <-].
Qed.

Lemma Unmarshal_slice_brace (input : string) :
  first_byte input = Some "{"%char → ∃ e, json.Unmarshal_slice input = Err e.
Proof.
  unfold json.Unmarshal_slice, first_byte. destruct (json.checkValid input); [by eexists|].
  destruct (json.skip_space input) as [|c rest]; [done|]. intros [= ->]. by eexists.
Qed.

Section unmarshal_branches.
Context `{MapRange}.

(** An array token goes to [ListValue.unmarshal], with a new ListValue. *)
Lemma Value_unmarshal_array (x : Value) (input : string) (s : list string) :
  json.Unmarshal_slice input = Ok s → s ≠ [] →
  Value_unmarshal x input
  = (fun r => (Build_Value (Value_ListValue (Some (Some r.1))), r.2))
      <$> ListValue_unmarshal (Build_ListValue None) input.
Proof.
  intros Hs Hne. pose proof (Unmarshal_slice_first_byte _ _ Hs Hne) as Hc.
  rewrite Value_unmarshal_unfold. unfold Value_unmarshal_with.
  rewrite bool_decide_eq_false_2 by (by intros ->).
  rewrite (ParseFloat_bracket input "[") by auto.
  destruct (unquote_bracket input "[") as [e ->]; [auto..|].
  rewrite (ParseBool_bracket input "[") by auto. rewrite Hs.
  unfold ListValue_unmarshal. by destruct (ListValue_unmarshal_with _ _ _) as [[]|].
Qed.

(** An object token goes to [Struct.unmarshal], with a new Struct. *)
Lemma Value_unmarshal_object (x : Value) (input : string) (m : gmap string string) :
  json.Unmarshal_map input = Ok m → m ≠ ∅ →
  Value_unmarshal x input
  = (fun r => (Build_Value (Value_StructValue (Some (Some r.1))), r.2))
      <$> Struct_unmarshal (Build_Struct None) input.
Proof.
  intros Hm Hne. pose proof (Unmarshal_map_first_byte _ _ Hm Hne) as Hc.
  rewrite Value_unmarshal_unfold. unfold Value_unmarshal_with.
  rewrite bool_decide_eq_false_2 by (by intros ->).
  rewrite (ParseFloat_bracket input "{") by auto.
  destruct (unquote_bracket input "{") as [e ->]; [auto..|].
  rewrite (ParseBool_bracket input "{") by auto.
  destruct (Unmarshal_slice_brace input Hc) as [e' ->]. rewrite Hm.
  unfold Struct_unmarshal. by destruct (Struct_unmarshal_with _ _ _) as [[]|].
Qed.

End unmarshal_branches.

(** ** Errors of elements and members *)

Lemma map_range_singleton `{MapRange} {A} (k : string) (a : A) :
  map_range ({[k := a]} : gmap string A) = [(k, a)].
Proof.
  apply Permutation_singleton_r. by rewrite map_range_perm, map_to_list_singleton.
Qed.

Lemma Struct_unmarshal_range_fields (unm : Value → string → option (Value * option error))
    (kvs : list (string * string)) fs fs' oe :
  Struct_unmarshal_range unm kvs fs = Some (fs', oe) →
  ∀ k pv, fs' !! k = Some pv →
    fs !! k = Some pv
    ∨ ∃ jv p, (k, jv) ∈ kvs ∧ pv = Some p ∧ unm new_Value jv = Some (p, None).
Proof.
  revert fs. induction kvs as [|[k0 jv0] kvs IH]; intros fs; simpl.
  { intros [= <- <-]. auto. }
  destruct (unm _ jv0) as [[v0 [e0|]]|] eqn:Hv0; [| |done].
  { intros [= <- <-]. auto. }
  intros Hr k pv Hk. destruct (IH _ Hr k pv Hk) as [Hfs|(jv & p & Hin & -> & Hp)].
  - rewrite lookup_insert in Hfs. case_decide as Hkk; [|by left].
    injection Hfs as <-. subst k0. right. exists jv0, v0. repeat split; [left|done].
  - right. exists jv, p. repeat split; [by right|done].
Qed.

Section element_errors.
Context `{MapRange}.

(** What [ListValue.unmarshal] returns when an element fails: the error of the
    first element that fails, as [Value.unmarshal] returned it; nothing is
    added to it, the index neither. *)
Lemma ListValue_unmarshal_element_error (x : ListValue) (input : string)
    (s : list string) (j : nat) (sv : string) (v : Value) (e : error) :
  json.Unmarshal_slice input = Ok s → s !! j = Some sv →
  Value_unmarshal new_Value sv = Some (v, Some e) →
  ∃ (j' : nat) (sv' : string) (pre : list Value) (v' : Value) (e' : error),
    (j' ≤ j)%nat ∧ s !! j' = Some sv'
    ∧ Value_unmarshal new_Value sv' = Some (v', Some e')
    ∧ Forall2 (fun sv p => Value_unmarshal new_Value sv = Some (p, None)) (take j' s) pre
    ∧ ListValue_unmarshal x input
      = Some (Build_ListValue
                (Some ((Some <$> pre) ++ Some v' :: replicate (length s - S j') None)),
              Some e').
Proof.
  intros Hs Hj Hsv.
  destruct (unmarshal_elements_fail Value_unmarshal s j sv v e)
    as (j' & sv' & pre & v' & e' & Hle & Hj' & Hsv' & Hpre & Hel); [|done..|].
  { intros. apply Value_unmarshal_total. }
  exists j', sv', pre, v', e'. repeat split; try done.
  unfold ListValue_unmarshal. by rewrite (ListValue_unmarshal_with_elements _ _ _ s), Hel.
Qed.

(** C6: on the array [[1e999]], whose element [Value.unmarshal] refuses,
    [ListValue.unmarshal] returns the error of the element as it is: it names
    no index.  (On the object [{"a": 1e999}] [Struct.unmarshal] wraps the same
    error with the key.) *)
Theorem ListValue_unmarshal_error_without_index :
  ListValue_unmarshal (Build_ListValue None) "[1e999]"
  = Some (Build_ListValue (Some [Some new_Value]), Some (Errorf_unrecognized_type "1e999"))
  ∧ Value_unmarshal new_Value "1e999"
    = Some (new_Value, Some (Errorf_unrecognized_type "1e999")).
Proof. split; vm_compute; reflexivity. Qed.

(** The malformed object [{"a": }] is refused as a whole: the error is the
    syntax error of [json.Unmarshal] under "bad StructValue", and names no
    key. *)
Lemma Struct_unmarshal_malformed (x : Struct) :
  Struct_unmarshal x ("{" +:+ quoted "a" +:+ ": }")
  = Some (x, Some (Errorf_bad_StructValue
                     (json.SyntaxError (Some "}"%char) "looking for beginning of value" 7))).
Proof. reflexivity. Qed.

Lemma Value_unmarshal_1e999 (x : Value) :
  Value_unmarshal x "1e999" = Some (x, Some (Errorf_unrecognized_type "1e999")).
Proof. vm_compute. reflexivity. Qed.

Lemma Unmarshal_map_a_1e999 :
  json.Unmarshal_map ("{" +:+ quoted "a" +:+ ": 1e999}") = Ok {["a" := "1e999"]}.
Proof. vm_compute. reflexivity. Qed.

Lemma Struct_unmarshal_bad_member (x : Struct) :
  Struct_unmarshal x ("{" +:+ quoted "a" +:+ ": 1e999}")
  = Some (Build_Struct (Some ∅),
          Some (Errorf_bad_value_for_key "a" (Errorf_unrecognized_type "1e999"))).
Proof.
  unfold Struct_unmarshal, Struct_unmarshal_with.
  rewrite Unmarshal_map_a_1e999, map_range_singleton. cbn [Struct_unmarshal_range].
  by rewrite Value_unmarshal_1e999.
Qed.

Lemma Struct_unmarshal_member_fails (x : Struct) (input : string) (m : gmap string string)
    (k jv : string) (pv : Value) (e : error) :
  json.Unmarshal_map input = Ok m → m !! k = Some jv →
  Value_unmarshal new_Value jv = Some (pv, Some e) →
  ∃ (k' jv' : string) (pv' : Value) (e' : error) (fs : gmap string (option Value)),
    m !! k' = Some jv' ∧ Value_unmarshal new_Value jv' = Some (pv', Some e')
    ∧ Struct_unmarshal x input
      = Some (Build_Struct (Some fs), Some (Errorf_bad_value_for_key k' e'))
    ∧ ∀ k'' pv'', fs !! k'' = Some pv'' →
        ∃ jv'' p, m !! k'' = Some jv'' ∧ pv'' = Some p
                  ∧ Value_unmarshal new_Value jv'' = Some (p, None).
Proof.
  intros Hm Hk Hjv.
  assert ((k, jv) ∈ map_range m) as Hin.
  { rewrite (map_range_perm _ m). by apply elem_of_map_to_list. }
  destruct (Struct_unmarshal_range_fail Value_unmarshal (map_range m) ∅ k jv pv e)
    as (k' & jv' & pv' & e' & fs & Hin' & Hjv' & Hr); [|done..|].
  { intros. apply Value_unmarshal_total. }
  exists k', jv', pv', e', fs. split; [|split; [done|split]].
  - rewrite (map_range_perm _ m) in Hin'. by apply elem_of_map_to_list in Hin'.
  - unfold Struct_unmarshal, Struct_unmarshal_with. by rewrite Hm, Hr.
  - intros k'' pv'' Hfs.
    destruct (Struct_unmarshal_range_fields _ _ _ _ _ Hr k'' pv'' Hfs)
      as [?|(jv'' & p & Hin'' & -> & Hp)]; [done|].
    exists jv'', p. split; [|done].
    rewrite (map_range_perm _ m) in Hin''. by apply elem_of_map_to_list in Hin''.
Qed.

End element_errors.

(** The claim that the malformed object [{"a": }] fails with an error that
    refers to the key [a] does not hold: the error names no key. *)
Lemma Struct_unmarshal_malformed_names_no_key :
  ∃ err : error,
    Struct_unmarshal (H := range_map_to_list) (Build_Struct None) ("{" +:+ quoted "a" +:+ ": }")
    = Some (Build_Struct None, Some err)
    ∧ err = Errorf_bad_StructValue
              (json.SyntaxError (Some "}"%char) "looking for beginning of value" 7)
    ∧ error_key err = None.
Proof. eexists. split; [apply Struct_unmarshal_malformed|]. by split. Qed.

(** C7, amended: when the value of a member of a JSON object fails to decode,
    [Struct.unmarshal] fails with an error that wraps the key of a failing
    member and the error of its value; the object [{"a": 1e999}] fails with
    an error that names the key [a].  An input that is not valid JSON, such as
    [{"a": }], fails with the syntax error under "bad StructValue", which names
    no key. *)
Theorem Struct_unmarshal_member_error `{MapRange} :
  (∀ (x : Struct) (input : string) (m : gmap string string) (k jv : string)
     (pv : Value) (e : error),
     json.Unmarshal_map input = Ok m → m !! k = Some jv →
     Value_unmarshal new_Value jv = Some (pv, Some e) →
     ∃ (k' jv' : string) (pv' : Value) (e' : error) (fs : gmap string (option Value)),
       m !! k' = Some jv' ∧ Value_unmarshal new_Value jv' = Some (pv', Some e')
       ∧ Struct_unmarshal x input
         = Some (Build_Struct (Some fs), Some (Errorf_bad_value_for_key k' e')))
  ∧ (∀ x : Struct,
       Struct_unmarshal x ("{" +:+ quoted "a" +:+ ": 1e999}")
       = Some (Build_Struct (Some ∅),
               Some (Errorf_bad_value_for_key "a" (Errorf_unrecognized_type "1e999"))))
  ∧ (∀ x : Struct,
       Struct_unmarshal x ("{" +:+ quoted "a" +:+ ": }")
       = Some (x, Some (Errorf_bad_StructValue
                          (json.SyntaxError (Some "}"%char)
                             "looking for beginning of value" 7)))).
Proof.
  split; [|split].
  - intros x input m k jv pv e Hm Hk Hjv.
    destruct (Struct_unmarshal_member_fails x input m k jv pv e Hm Hk Hjv)
      as (k' & jv' & pv' & e' & fs & ? & ? & ? & _).
    by exists k', jv', pv', e', fs.
  - apply Struct_unmarshal_bad_member.
  - apply Struct_unmarshal_malformed.
Qed.

Lemma Struct_unmarshal_member_error_witness :
  ∃ (k' jv' : string) (pv' : Value) (e' : error) (fs : gmap string (option Value)),
    ({["a" := "1e999"]} : gmap string string) !! k' = Some jv'
    ∧ Value_unmarshal (H := range_map_to_list) new_Value jv' = Some (pv', Some e')
    ∧ Struct_unmarshal (H := range_map_to_list) (Build_Struct None)
        ("{" +:+ quoted "a" +:+ ": 1e999}")
      = Some (Build_Struct (Some fs), Some (Errorf_bad_value_for_key k' e')).
Proof.
  refine (proj1 (Struct_unmarshal_member_error (H := range_map_to_list))
            (Build_Struct None) _ {["a" := "1e999"]} "a" "1e999" new_Value
            (Errorf_unrecognized_type "1e999") _ _ _);
    vm_compute; reflexivity.
Defined.

(** ** The receiver after a failed decode *)

(** C10: [Value.unmarshal] is not atomic.  On an array token one of whose
    elements fails to decode, it returns the error and leaves [Kind] set to
    the list variant, which holds the elements decoded before the failing
    one, the failing one as its own [unmarshal] left it, and nil pointers for
    the rest.  On an object token one of whose members fails, it returns the
    error and leaves [Kind] set to the struct variant, which holds members
    that were decoded before the failing one.  A receiver whose [Kind] was nil
    is therefore changed. *)
Theorem Value_unmarshal_not_atomic `{MapRange} :
  (∀ (x : Value) (input : string) (s : list string) (j : nat) (sv : string)
     (v : Value) (e : error),
     json.Unmarshal_slice input = Ok s → s !! j = Some sv →
     Value_unmarshal new_Value sv = Some (v, Some e) →
     ∃ (j' : nat) (sv' : string) (pre : list Value) (v' : Value) (e' : error) (x' : Value),
       (j' ≤ j)%nat ∧ s !! j' = Some sv'
       ∧ Value_unmarshal new_Value sv' = Some (v', Some e')
       ∧ Forall2 (fun sv p => Value_unmarshal new_Value sv = Some (p, None)) (take j' s) pre
       ∧ Value_unmarshal x input = Some (x', Some e')
       ∧ Kind x' = Value_ListValue (Some (Some (Build_ListValue
                     (Some ((Some <$> pre) ++ Some v' :: replicate (length s - S j') None)))))
       ∧ (Kind x = nil_Kind → x' ≠ x))
  ∧ (∀ (x : Value) (input : string) (m : gmap string string) (k jv : string)
       (pv : Value) (e : error),
       json.Unmarshal_map input = Ok m → m !! k = Some jv →
       Value_unmarshal new_Value jv = Some (pv, Some e) →
       ∃ (k' jv' : string) (pv' : Value) (e' : error) (fs : gmap string (option Value))
         (x' : Value),
         m !! k' = Some jv' ∧ Value_unmarshal new_Value jv' = Some (pv', Some e')
         ∧ Value_unmarshal x input = Some (x', Some (Errorf_bad_value_for_key k' e'))
         ∧ Kind x' = Value_StructValue (Some (Some (Build_Struct (Some fs))))
         ∧ (∀ k'' pv'', fs !! k'' = Some pv'' →
              ∃ jv'' p, m !! k'' = Some jv'' ∧ pv'' = Some p
                        ∧ Value_unmarshal new_Value jv'' = Some (p, None))
         ∧ (Kind x = nil_Kind → x' ≠ x)).
Proof.
  split.
  - intros x input s j sv v e Hs Hj Hsv.
    destruct (ListValue_unmarshal_element_error (Build_ListValue None) input s j sv v e)
      as (j' & sv' & pre & v' & e' & Hle & Hj' & Hsv' & Hpre & Hl); [done..|].
    exists j', sv', pre, v', e'.
    eexists (Build_Value (Value_ListValue (Some (Some (Build_ListValue _))))).
    repeat split; try done.
    + rewrite (Value_unmarshal_array x input s Hs), Hl; [done|]. by intros ->.
    + intros Hx <-. simpl in Hx. discriminate.
  - intros x input m k jv pv e Hm Hk Hjv.
    destruct (Struct_unmarshal_member_fails (Build_Struct None) input m k jv pv e)
      as (k' & jv' & pv' & e' & fs & Hk' & Hjv' & Hst & Hfs); [done..|].
    exists k', jv', pv', e', fs.
    exists (Build_Value (Value_StructValue (Some (Some (Build_Struct (Some fs)))))).
    repeat split; try done.
    + rewrite (Value_unmarshal_object x input m Hm), Hst; [done|].
      intros ->. by rewrite lookup_empty in Hk.
    + intros Hx <-. simpl in Hx. discriminate.
Qed.

Lemma Value_unmarshal_not_atomic_witness :
  ∃ (j' : nat) (sv' : string) (pre : list Value) (v' : Value) (e' : error) (x' : Value),
    (j' ≤ 0)%nat ∧ ["1e999"] !! j' = Some sv'
    ∧ Value_unmarshal (H := range_map_to_list) new_Value sv' = Some (v', Some e')
    ∧ Forall2 (fun sv p => Value_unmarshal (H := range_map_to_list) new_Value sv
                           = Some (p, None)) (take j' ["1e999"]) pre
    ∧ Value_unmarshal (H := range_map_to_list) new_Value "[1e999]" = Some (x', Some e')
    ∧ Kind x' = Value_ListValue (Some (Some (Build_ListValue
                  (Some ((Some <$> pre) ++ Some v' :: replicate (length ["1e999"] - S j') None)))))
    ∧ (Kind new_Value = nil_Kind → x' ≠ new_Value).
Proof.
  refine (proj1 (Value_unmarshal_not_atomic (H := range_map_to_list))
            new_Value "[1e999]" ["1e999"] 0%nat "1e999" new_Value
            (Errorf_unrecognized_type "1e999") _ _ _);
    vm_compute; reflexivity.
Defined.

(** ** Conversion of integers to float64 *)

Lemma div_eucl_div_mod (a b : Z) : Z.div_eucl a b = (a / b, a mod b)%Z.
Proof. unfold Z.div, Z.modulo. by destruct (Z.div_eucl a b). Qed.

(** [round_ratio] gives a zero or a finite number when the value is below
    [2^1024] by far. *)
Lemma round_ratio_small (neg : bool) (N : Z) :
  (0 < N < 2 ^ 64)%Z → is_finite (round_ratio neg N 1) = true.
Proof.
  intros HN. unfold round_ratio. rewrite div_eucl_div_mod.
  rewrite Z.shiftl_mul_pow2, Z.div_1_r, Z.mod_1_r by lia. cbv zeta.
  destruct (_ =? 0)%Z; [done|].
  rewrite Z.log2_mul_pow2 by lia.
  assert (Z.log2 N < 64)%Z as Hlog by (apply Z.log2_lt_pow2; lia).
  set (e := Z.max _ _). assert (e <= 11)%Z as He by (unfold prec, emax in e; lia).
  clearbody e.
  match goal with |- context [if ?b then (_ + 1)%Z else _] => destruct b end;
    (destruct (_ =? 0)%Z; [done|]);
    (destruct (_ =? 2 ^ prec)%Z; cbv beta iota;
     match goal with |- context [(?a <? ?b)%Z] =>
       destruct (Z.ltb_spec a b) as [Hlt|_]; [unfold prec, emax in Hlt; lia | done] end).
Qed.

Lemma float64_of_Z_finite (v : Z) :
  (- 2 ^ 64 < v < 2 ^ 64)%Z → is_finite (float64_of_Z v) = true.
Proof.
  intros Hv. unfold float64_of_Z. destruct (Z.eqb_spec v 0); [done|].
  apply round_ratio_small. lia.
Qed.

Lemma AsInterface_finite (f : float64) :
  is_finite f = true → Value_AsInterface (NewNumberValue f) = I_float64 f.
Proof. by destruct f. Qed.

(** ** Native values: induction *)

Lemma interface_size_lookup (m : gmap string interface) (k : string) (v : interface) :
  m !! k = Some v → (interface_size v < interface_size (I_map m))%nat.
Proof.
  intros Hk. simpl.
  rewrite (map_fold_delete_L _ _ k v m); [lia | intros; lia | done].
Qed.

Lemma interface_size_elem (l : list interface) (v : interface) :
  v ∈ l → (interface_size v < interface_size (I_slice l))%nat.
Proof.
  simpl. induction l as [|w l IH]; [by intros ?%elem_of_nil|].
  intros [->|Hin]%elem_of_cons; simpl; [lia|]. apply IH in Hin. lia.
Qed.

(** Induction on a native value, with the property for the values of a map
    and the elements of a slice at hand. *)
Lemma interface_nested_ind (P : interface → Prop) :
  (∀ x, (∀ m, x ≠ I_map m) → (∀ l, x ≠ I_slice l) → P x) →
  (∀ m, map_Forall (fun _ v => P v) m → P (I_map m)) →
  (∀ l, Forall P l → P (I_slice l)) →
  ∀ x, P x.
Proof.
  intros Hbase Hmap Hslice x.
  remember (interface_size x) as n eqn:Hn. revert x Hn.
  induction (lt_wf n) as [n _ IH]. intros x ->.
  destruct x; try (apply Hbase; intros; discriminate).
  - apply Hmap. intros k w Hk. eapply IH; [|done]. by eapply interface_size_lookup.
  - apply Hslice. apply Forall_forall. intros w Hw.
    eapply IH; [|done]. by apply interface_size_elem.
Qed.

(** ** From native values and back *)

Lemma map_fold_andb_lookup {A} (f : string → A → bool) (m : gmap string A) (k : string) (a : A) :
  map_fold (fun k v b => f k v && b) true m = true → m !! k = Some a → f k a = true.
Proof.
  intros Hm Hk. rewrite (map_fold_delete_L _ _ k a m) in Hm; [|intros; ring|done].
  by apply andb_true_iff in Hm as [? _].
Qed.

Lemma native_supported_lookup (m : gmap string interface) (k : string) (v : interface) :
  native_supported (I_map m) = true → m !! k = Some v →
  utf8.ValidString k = true ∧ native_supported v = true.
Proof.
  simpl. intros Hm Hk. apply andb_true_iff.
  apply (map_fold_andb_lookup (fun k v => utf8.ValidString k && native_supported v) m k v);
    [exact Hm | done].
Qed.

Lemma no_widening_lookup (m : gmap string interface) (k : string) (v : interface) :
  no_widening (I_map m) = true → m !! k = Some v → no_widening v = true.
Proof.
  simpl. intros Hm Hk.
  by apply (map_fold_andb_lookup (fun _ v => no_widening v) m k v).
Qed.

(** The loop of [NewList] when every element converts. *)
Lemma NewList_range_Ok (vs : list Value) (pre : list (option Value)) :
  NewList_range (length pre) (Ok <$> vs) (pre ++ replicate (length vs) None)
  = Ok (Build_ListValue (Some (pre ++ (Some <$> vs)))).
Proof.
  revert pre. induction vs as [|v vs IH]; intros pre; simpl; [done|].
  rewrite insert_app_r_alt by lia. rewrite Nat.sub_diag. simpl.
  specialize (IH (pre ++ [Some v])).
  rewrite length_app, Nat.add_1_r, <-!(assoc_L (++)) in IH. done.
Qed.

(** The loop of [NewStruct] when every key is valid and every value converts:
    the fields are the converted values, whatever the order of the range. *)
Lemma NewStruct_range_Ok (kvs : list (string * outcome error Value))
    (fs : gmap string (option Value)) :
  NoDup kvs.*1 →
  Forall (fun kr => utf8.ValidString kr.1 = true ∧ ∃ v, kr.2 = Ok v) kvs →
  ∃ fs' : gmap string (option Value),
    NewStruct_range kvs fs = Ok (Build_Struct (Some fs'))
    ∧ ∀ k, fs' !! k = match (list_to_map kvs : gmap string _) !! k with
                      | Some (Ok v) => Some (Some v)
                      | Some (Err _) => None
                      | None => fs !! k
                      end.
Proof.
  revert fs. induction kvs as [|[k0 r0] kvs IH]; intros fs Hnd Hall.
  { exists fs. split; [done|]. intros k. simpl. by rewrite lookup_empty. }
  apply NoDup_cons in Hnd as [Hk0 Hnd]. apply Forall_cons in Hall as [[Hv [v0 Hr0]] Hall].
  simpl in *. subst r0. rewrite Hv. simpl.
  destruct (IH (<[k0:=Some v0]> fs) Hnd Hall) as (fs' & -> & Hfs').
  exists fs'. split; [done|]. intros k. rewrite Hfs'.
  destruct (decide (k = k0)) as [->|Hne].
  - rewrite lookup_insert_eq, (not_elem_of_list_to_map_1 _ k0 Hk0). by rewrite lookup_insert_eq.
  - rewrite !(lookup_insert_ne _ k0 k) by done.
    by destruct (list_to_map kvs !! k) as [[]|].
Qed.

Section native.
Context `{MapRange}.

Lemma list_to_map_range {A} (m : gmap string A) :
  (list_to_map (map_range m) : gmap string A) = m.
Proof.
  transitivity (list_to_map (map_to_list m) : gmap string A);
    [|apply list_to_map_to_list].
  apply list_to_map_proper.
  - rewrite (map_range_perm A m). apply NoDup_fst_map_to_list.
  - apply map_range_perm.
Qed.

Lemma NoDup_fst_map_range {A} (m : gmap string A) : NoDup (map_range m).*1.
Proof. rewrite (map_range_perm A m). apply NoDup_fst_map_to_list. Qed.

(** [NewValue] accepts every supported native value, and [AsInterface] gives
    back the value with its numbers widened to float64, its byte sequences as
    base64 text and its floats that are not finite as their tokens. *)
Lemma NewValue_AsInterface (x : interface) :
  native_supported x = true →
  ∃ v : Value, NewValue x = Ok v ∧ AsInterface (Some v) = widened_roundtrip x.
Proof.
  induction x as [x Hm Hl|m IH|l IH] using interface_nested_ind; intros Hx.
  - destruct x as [|b|v|v|v|v|v|v|f|f|s|b|m|l|T];
      try (by eexists; split; [reflexivity|]);
      try (eexists; split; [reflexivity|]; simpl in Hx;
           apply AsInterface_finite, float64_of_Z_finite; lia).
    + simpl in *. rewrite Hx. simpl. by eexists.
    + by destruct (Hm m).
    + by destruct (Hl l).
    + discriminate.
  - assert (∃ fs, NewStruct_range (map_range (NewValue <$> m)) ∅ = Ok (Build_Struct (Some fs))
              ∧ ∀ k, fs !! k = match m !! k with
                               | Some w => match NewValue w with
                                           | Ok v => Some (Some v)
                                           | Err _ => None
                                           end
                               | None => None
                               end) as (fs & Hfs & Hlook).
    { destruct (NewStruct_range_Ok (map_range (NewValue <$> m)) ∅) as (fs & Hfs & Hlook).
      - apply NoDup_fst_map_range.
      - apply (map_range_Forall
                 (fun k r => utf8.ValidString k = true ∧ ∃ v, r = Ok v)).
        intros k r Hk. rewrite lookup_fmap in Hk.
        destruct (m !! k) as [w|] eqn:Hw; [|done]. injection Hk as <-.
        destruct (native_supported_lookup m k w Hx Hw) as [Hvk Hsw].
        split; [done|]. destruct (IH k w Hw Hsw) as (v & -> & _). by eexists.
      - exists fs. split; [done|]. intros k. rewrite Hlook, list_to_map_range, lookup_fmap.
        destruct (m !! k) as [w|]; simpl; [|by rewrite lookup_empty].
        by destruct (NewValue w). }
    simpl. rewrite Hfs. eexists. split; [reflexivity|]. simpl. f_equal.
    apply map_eq. intros k. rewrite !lookup_fmap, Hlook.
    destruct (m !! k) as [w|] eqn:Hw; [|done]. simpl.
    destruct (native_supported_lookup m k w Hx Hw) as [_ Hsw].
    destruct (IH k w Hw Hsw) as (v & -> & Hv). simpl. by rewrite <-Hv.
  - assert (∃ vs, List.map NewValue l = Ok <$> vs
              ∧ Forall2 (fun w v => AsInterface (Some v) = widened_roundtrip w) l vs)
      as (vs & Hvs & Hrt).
    { simpl in Hx. induction l as [|w l IHl]; [by exists []|].
      apply andb_true_iff in Hx as [Hw Hx].
      apply Forall_cons in IH as [IHw IH].
      destruct (IHw Hw) as (v & Hv & Hrt). destruct (IHl IH Hx) as (vs & Hvs & Hrts).
      exists (v :: vs). simpl. rewrite Hv, Hvs. split; [done|]. by constructor. }
    simpl. rewrite Hvs.
    assert (length l = length vs) as -> by (by eapply Forall2_length).
    pose proof (NewList_range_Ok vs []) as Hr. simpl in Hr. rewrite Hr.
    eexists. split; [reflexivity|]. simpl. f_equal.
    clear -Hrt. induction Hrt as [|w v l vs Hv _ IHl]; [done|].
    simpl in *. by f_equal.
Qed.

End native.

Lemma widened_claimed (x : interface) :
  no_widening x = true → widened_roundtrip x = claimed_roundtrip x.
Proof.
  induction x as [x Hm Hl|m IH|l IH] using interface_nested_ind; intros Hx.
  - destruct x; try done; [by destruct (Hm v) | by destruct (Hl v)].
  - simpl. f_equal. apply map_eq. intros k. rewrite !lookup_fmap.
    destruct (m !! k) as [w|] eqn:Hw; [|done]. simpl. f_equal.
    apply (IH k w Hw). by eapply no_widening_lookup.
  - simpl in *. f_equal. induction l as [|w l IHl]; [done|].
    apply andb_true_iff in Hx as [Hw Hx]. apply Forall_cons in IH as [IHw IH].
    simpl. f_equal; auto.
Qed.

(** The claim that a native value comes back as it was, byte sequences and
    floats that are not finite apart, fails on the int64 9007199254740993
    (2^53 + 1): it comes back as the float64 9007199254740992. *)
Lemma NewValue_int64_comes_back_rounded :
  native_supported (I_int64 9007199254740993) = true
  ∧ claimed_roundtrip (I_int64 9007199254740993) = I_int64 9007199254740993
  ∧ ∃ (v : Value) (f : float64),
      NewValue (H := range_map_to_list) (I_int64 9007199254740993) = Ok v
      ∧ AsInterface (Some v) = I_float64 f
      ∧ float64_to_Z f = Some 9007199254740992%Z
      ∧ AsInterface (Some v) ≠ claimed_roundtrip (I_int64 9007199254740993).
Proof.
  split; [reflexivity|]. split; [reflexivity|].
  exists (NewNumberValue (float64_of_Z 9007199254740993)), (float64_of_Z 9007199254740993).
  repeat split; try (vm_compute; reflexivity). vm_compute. discriminate.
Qed.

(** ** Decimal digits *)

Lemma byte_byte_char (n : Z) : (0 ≤ n < 256)%Z → byte (byte_char n) = n.
Proof.
  intros Hn. unfold byte, byte_char. rewrite N_ascii_embedding; lia.
Qed.

Lemma byte_digit_char (d : Z) : (0 ≤ d < 10)%Z → byte (digit_char d) = (48 + d)%Z.
Proof. intros Hd. unfold digit_char. rewrite byte_byte_char; [done | change (byte "0") with 48%Z; lia]. Qed.

Lemma is_digit_digit_char (d : Z) : (0 ≤ d < 10)%Z → is_digit (digit_char d) = true.
Proof.
  intros Hd. unfold is_digit, in_range. rewrite byte_digit_char by done.
  change (byte "0") with 48%Z. change (byte "9") with 57%Z. lia.
Qed.

Lemma digit_val_digit_char (d : Z) : (0 ≤ d < 10)%Z → digit_val (digit_char d) = d.
Proof.
  intros Hd. unfold digit_val. rewrite byte_digit_char by done.
  change (byte "0") with 48%Z. lia.
Qed.

Lemma is_digit_bounds (c : ascii) : is_digit c = true → (48 ≤ byte c ≤ 57)%Z.
Proof. unfold is_digit, in_range. change (byte "0") with 48%Z. change (byte "9") with 57%Z. lia. Qed.

Lemma digit_val_bounds (c : ascii) : is_digit c = true → (0 ≤ digit_val c < 10)%Z.
Proof. intros Hc%is_digit_bounds. unfold digit_val. change (byte "0") with 48%Z. lia. Qed.

Lemma all_digits_app (s t : string) :
  all_digits (s +:+ t) = all_digits s && all_digits t.
Proof. induction s as [|c s IH]; simpl; [done|]. by rewrite IH, andb_assoc. Qed.

Lemma digits_value_from_app (a : Z) (s t : string) :
  digits_value_from a (s +:+ t) = digits_value_from (digits_value_from a s) t.
Proof. revert a. induction s as [|c s IH]; intros a; simpl; [done|]. by rewrite IH. Qed.

Lemma digits_value_from_shift (a : Z) (s : string) :
  digits_value_from a s = (a * 10 ^ Z.of_nat (String.length s) + digits_value s)%Z.
Proof.
  unfold digits_value. revert a. induction s as [|c s IH]; intros a.
  { simpl. lia. }
  cbn [digits_value_from String.length]. rewrite (IH (a * 10 + digit_val c)%Z), (IH (0 * 10 + digit_val c)%Z).
  rewrite Nat2Z.inj_succ, Z.pow_succ_r by lia. ring.
Qed.

Lemma decimal_digits_aux_acc (fuel : nat) (n : Z) (acc : string) :
  decimal_digits_aux fuel n acc = decimal_digits_aux fuel n "" +:+ acc.
Proof.
  revert n acc. induction fuel as [|fuel IH]; intros n acc; simpl; [done|].
  destruct (n <? 10)%Z; [done|].
  rewrite (IH _ (String _ acc)), (IH _ (String _ "")). by rewrite str_app_assoc.
Qed.

(** The digits of [n], given enough fuel. *)
Lemma decimal_digits_aux_spec (fuel : nat) (n : Z) :
  (0 ≤ n < 10 ^ (Z.of_nat fuel + 1))%Z →
  let ds := decimal_digits_aux fuel n "" in
  all_digits ds = true
  ∧ digits_value ds = n
  ∧ (∃ c ds', ds = String c ds' ∧ (0 < n → is_byte "0" c = false)%Z)
  ∧ (0 < n → 10 ^ (Z.of_nat (String.length ds) - 1) ≤ n < 10 ^ Z.of_nat (String.length ds))%Z
  ∧ (String.length ds ≤ S fuel)%nat.
Proof.
  revert n. induction fuel as [|fuel IH]; intros n Hn.
  - simpl in *. assert (n mod 10 = n)%Z as -> by (apply Z.mod_small; lia).
    rewrite is_digit_digit_char by lia. unfold digits_value. simpl.
    rewrite digit_val_digit_char by lia. repeat split; try lia.
    eexists _, _. split; [done|]. intros Hp. unfold is_byte.
    rewrite byte_digit_char by lia. change (byte "0") with 48%Z. lia.
  - cbn [decimal_digits_aux]. destruct (Z.ltb_spec n 10) as [Hlt|Hge].
    + assert (n mod 10 = n)%Z as -> by (apply Z.mod_small; lia).
      simpl. rewrite is_digit_digit_char by lia. unfold digits_value. simpl.
      rewrite digit_val_digit_char by lia. repeat split; try lia.
      eexists _, _. split; [done|]. intros Hp. unfold is_byte.
      rewrite byte_digit_char by lia. change (byte "0") with 48%Z. lia.
    + rewrite decimal_digits_aux_acc.
      assert (0 ≤ n / 10 < 10 ^ (Z.of_nat fuel + 1))%Z as Hq.
      { split; [apply Z.div_pos; lia|]. apply Z.div_lt_upper_bound; [lia|].
        rewrite <-Z.pow_succ_r by lia. replace (Z.succ (Z.of_nat fuel + 1)) with
          (Z.of_nat (S fuel) + 1)%Z by lia. lia. }
      destruct (IH _ Hq) as (Hall & Hval & (c & ds' & Hds & Hc) & Hlen & Hfuel).
      set (ds := decimal_digits_aux fuel (n / 10) "") in *.
      pose proof (Z.mod_pos_bound n 10 ltac:(lia)) as Hmod.
      assert (0 < n / 10)%Z as Hpos by (apply Z.div_str_pos; lia).
      specialize (Hlen Hpos). specialize (Hc Hpos).
      rewrite all_digits_app, Hall. simpl. rewrite is_digit_digit_char by lia.
      unfold digits_value in *. rewrite digits_value_from_app, Hval. simpl.
      rewrite digit_val_digit_char by lia. rewrite str_length_app. simpl.
      repeat split.
      * pose proof (Z.div_mod n 10 ltac:(lia)). lia.
      * exists c, (ds' +:+ String (digit_char (n mod 10)) ""). rewrite Hds. by split.
      * replace (Z.of_nat (String.length ds + 1) - 1)%Z
          with (Z.succ (Z.of_nat (String.length ds) - 1)) by lia.
        rewrite Z.pow_succ_r by (destruct ds; [done|simpl; lia]).
        pose proof (Z.div_mod n 10 ltac:(lia)). lia.
      * replace (Z.of_nat (String.length ds + 1)) with (Z.succ (Z.of_nat (String.length ds))) by lia.
        rewrite Z.pow_succ_r by lia. pose proof (Z.div_mod n 10 ltac:(lia)). lia.
      * lia.
Qed.

Lemma log2_fuel (n : Z) : (0 ≤ n < 10 ^ (Z.of_nat (Z.to_nat (Z.log2 n)) + 1))%Z ∨ (n < 0)%Z.
Proof.
  destruct (Z.lt_ge_cases n 0) as [?|Hn]; [by right|left]. split; [done|].
  destruct (Z.eq_dec n 0%Z) as [->|Hne]; [by vm_compute|].
  pose proof (Z.log2_nonneg n). rewrite Z2Nat.id by done.
  pose proof (Z.log2_spec n ltac:(lia)) as [_ Hlt].
  eapply Z.lt_le_trans; [exact Hlt|].
  replace (Z.succ (Z.log2 n)) with (Z.log2 n + 1)%Z by lia.
  apply Z.pow_le_mono_l. lia.
Qed.

Lemma decimal_digits_spec (n : Z) :
  (0 ≤ n)%Z →
  all_digits (decimal_digits n) = true
  ∧ digits_value (decimal_digits n) = n
  ∧ (∃ c ds', decimal_digits n = String c ds' ∧ (0 < n → is_byte "0" c = false)%Z)
  ∧ (0 < n → 10 ^ (Z.of_nat (String.length (decimal_digits n)) - 1) ≤ n
             < 10 ^ Z.of_nat (String.length (decimal_digits n)))%Z
  ∧ (Z.of_nat (String.length (decimal_digits n)) ≤ Z.log2 n + 1)%Z.
Proof.
  intros Hn. destruct (log2_fuel n) as [Hf|?]; [|lia].
  destruct (decimal_digits_aux_spec _ n Hf) as (? & ? & ? & Hb & Hlen).
  split; [done|]. split; [done|]. split; [done|]. split; [exact Hb|].
  unfold decimal_digits. pose proof (Z.log2_nonneg n). lia.
Qed.

(** ** Exact rounding *)

Lemma digits2_pos_log2 (m : positive) : Z.pos (digits2_pos m) = (Z.log2 (Z.pos m) + 1)%Z.
Proof.
  induction m as [m IH|m IH|]; simpl; [| |done].
  - rewrite Pos2Z.inj_succ, IH. destruct m; simpl; lia.
  - rewrite Pos2Z.inj_succ, IH. destruct m; simpl; lia.
Qed.

Lemma valid_float64_finite (s : bool) (m : positive) (e : Z) :
  valid_float64 (S754_finite s m e) = true →
  (Z.max (Z.log2 (Z.pos m) + e - 52) (-1074) = e ∧ e ≤ 971 ∧ Z.pos m < 2 ^ 53)%Z.
Proof.
  unfold valid_float64, valid_binary, bounded, canonical_mantissa, fexp, emin, prec, emax.
  rewrite digits2_pos_log2. intros [He Hle]%andb_prop.
  apply Z.eqb_eq in He. apply Z.leb_le in Hle.
  split; [lia|]. split; [lia|].
  assert (Z.log2 (Z.pos m) < 53)%Z as Hlog by lia.
  apply Z.log2_lt_pow2 in Hlog; lia.
Qed.

(** A ratio that is a float64 is rounded to itself. *)
Lemma round_ratio_exact (neg : bool) (m : positive) (e N D : Z) :
  valid_float64 (S754_finite neg m e) = true →
  (0 < D)%Z →
  (N * 2 ^ Z.max 0 (- e) = Z.pos m * 2 ^ Z.max 0 e * D)%Z →
  round_ratio neg N D = S754_finite neg m e.
Proof.
  intros (He & Hle & Hm)%valid_float64_finite HD Heq.
  assert (-1074 ≤ e)%Z as Hlo by lia.
  unfold round_ratio, prec, emax.
  assert (Z.shiftl N 1200 = Z.pos m * 2 ^ (e + 1200) * D)%Z as HN.
  { rewrite Z.shiftl_mul_pow2 by lia.
    destruct (Z.le_gt_cases 0 e) as [Hp|Hn].
    - rewrite Z.max_l, Z.max_r in Heq by lia. rewrite Z.pow_0_r, Z.mul_1_r in Heq.
      rewrite Heq, Z.pow_add_r by lia. ring.
    - rewrite Z.max_r, Z.max_l in Heq by lia. rewrite Z.pow_0_r, Z.mul_1_r in Heq.
      replace 1200%Z with (- e + (e + 1200))%Z at 1 by lia.
      rewrite Z.pow_add_r, Z.mul_assoc, Heq by lia. ring. }
  rewrite HN.
  rewrite div_eucl_div_mod, Z.div_mul, Z.mod_mul by lia.
  assert (0 < 2 ^ (e + 1200))%Z as Hpow by (apply Z.pow_pos_nonneg; lia).
  assert ((Z.pos m * 2 ^ (e + 1200) =? 0)%Z = false) as -> by (apply Z.eqb_neq; nia).
  rewrite Z.log2_mul_pow2 by lia.
  replace (Z.max (e + 1200 + Z.log2 (Z.pos m) - 1200 - (53 - 1)) (3 - 1024 - 53))%Z with e by lia.
  rewrite Z.shiftr_div_pow2 by lia. rewrite Z.div_mul by lia.
  rewrite !Z.shiftl_mul_pow2 by lia. rewrite Z.sub_diag, Z.mul_1_l.
  assert (0 < 2 ^ (e + 1200 - 1))%Z as Hhalf by (apply Z.pow_pos_nonneg; lia).
  assert ((2 ^ (e + 1200 - 1) <? 0)%Z = false) as -> by lia.
  assert ((0 =? 2 ^ (e + 1200 - 1))%Z = false) as -> by lia.
  cbn [orb andb].
  assert ((Z.pos m =? 0)%Z = false) as -> by lia.
  assert ((Z.pos m =? 2 ^ 53)%Z = false) as -> by lia.
  assert ((1024 - 53 <? e)%Z = false) as -> by lia.
  done.
Qed.

(** ** Reading a number text *)

(** The bytes in the goal as numbers. *)
Ltac byte_consts :=
  repeat match goal with
  | |- context [byte (Ascii ?a ?b ?c ?d ?e ?f ?g ?h)] =>
      let x := constr:(byte (Ascii a b c d e f g h)) in
      let v := eval vm_compute in x in
      lazymatch v with
      | Z0 => change x with v
      | Zpos _ => change x with v
      end
  end.

(** A digit is none of the bytes that the readers look for. *)
Ltac digit_is_not Hc :=
  let Hb := fresh "Hb" in
  pose proof (is_digit_bounds _ Hc) as Hb; unfold is_byte; byte_consts; lia.

Lemma readDigits_digits (st : mantissa) (ds rest : string) :
  all_digits ds = true →
  readDigits 10 st (ds +:+ rest) =
  readDigits 10
    (Mantissa (digits_value_from (mant st) ds)
       (if sawdot st then frac st + Z.of_nat (String.length ds) else frac st)
       (sawdot st)
       (sawdigits st || negb (bool_decide (ds = EmptyString)))
       (underscores st)) rest.
Proof.
  revert st. induction ds as [|c ds IH]; intros st Hds.
  { simpl. destruct st as [m f sd sg us]; simpl. rewrite orb_false_r.
    by destruct sd; rewrite ?Z.add_0_r. }
  simpl in Hds. apply andb_prop in Hds as [Hc Hds].
  cbn [String.append readDigits].
  assert (is_byte "_" c = false) as -> by digit_is_not Hc.
  assert (is_byte "." c = false) as -> by digit_is_not Hc.
  rewrite Hc, (IH _ Hds). cbn [mant frac sawdot sawdigits underscores digits_value_from String.length].
  f_equal. f_equal.
  - destruct (sawdot st); lia.
  - by rewrite orb_true_r.
Qed.

Lemma readDigits_stop (st : mantissa) (rest : string) :
  rest = EmptyString ∨ (∃ rest', rest = String "e" rest') →
  readDigits 10 st rest = (st, rest).
Proof. by intros [->|[rest' ->]]. Qed.

Lemma readExpDigits_digits (e : Z) (us : bool) (ds : string) :
  all_digits ds = true → (0 ≤ e)%Z → (digits_value_from e ds < 10000)%Z →
  readExpDigits e us ds = (digits_value_from e ds, us, EmptyString).
Proof.
  revert e. induction ds as [|c ds IH]; intros e Hds He Hlt; [done|].
  simpl in Hds. apply andb_prop in Hds as [Hc Hds].
  cbn [readExpDigits digits_value_from] in *.
  assert (is_byte "_" c = false) as -> by digit_is_not Hc.
  rewrite Hc. pose proof (digit_val_bounds _ Hc) as Hd.
  assert (e * 10 + digit_val c ≤ digits_value_from (e * 10 + digit_val c) ds)%Z as Hmono.
  { rewrite digits_value_from_shift.
    assert (0 ≤ digits_value ds)%Z.
    { clear -Hds. unfold digits_value. cut (∀ a, 0 ≤ a → 0 ≤ digits_value_from a ds)%Z; [intros H; apply H; lia|].
      induction ds as [|c ds IH]; intros a Ha; [done|]. simpl in Hds. apply andb_prop in Hds as [Hc Hds].
      simpl. apply IH; [done|]. pose proof (digit_val_bounds _ Hc). lia. }
    assert (0 < 10 ^ Z.of_nat (String.length ds))%Z by (apply Z.pow_pos_nonneg; lia). nia. }
  assert ((e <? 10000)%Z = true) as -> by lia.
  apply IH; [done|lia|done].
Qed.

(** What [readFloat] reads in the text of a number. *)
Lemma readFloat_number_parts (neg : bool) (int frac exp : string) (esign : bool) :
  digits1 int = true →
  (int = "0" ∨ ∃ c int', int = String c int' ∧ is_byte "0" c = false) →
  all_digits frac = true →
  all_digits exp = true →
  (digits_value exp < 10000)%Z →
  readFloat (number_parts neg int frac exp esign) =
  Some (FloatText neg false (digits_value (int +:+ frac))
          (- Z.of_nat (String.length frac) + (if esign then -1 else 1) * digits_value exp)
          false EmptyString).
Proof.
  intros [Hint Hne]%andb_prop Hzero Hfrac Hexp Hlt.
  apply negb_true_iff, bool_decide_eq_false in Hne.
  set (fp := if bool_decide (frac = EmptyString) then EmptyString else "." +:+ frac).
  set (ep := if bool_decide (exp = EmptyString) then EmptyString
             else "e" +:+ (if esign then "-" else "+") +:+ exp).
  set (body := int +:+ fp +:+ ep).
  assert (∃ c int', int = String c int' ∧ is_digit c = true) as (c & int' & Hc & Hcd).
  { destruct int as [|c int']; [done|]. simpl in Hint. apply andb_prop in Hint as [? ?]. eauto. }
  (* the sign *)
  assert (readFloat (number_parts neg int frac exp esign) =
    let '(hex, s2) :=
      match body with
      | String c0 (String c1 ((String _ _) as s3)) =>
          if is_byte "0" c0 && is_byte "x" (lower c1) then (true, s3) else (false, body)
      | _ => (false, body)
      end in
    let base := if hex then 16%Z else 10%Z in
    let '(st, s3) := readDigits base (Mantissa 0 0 false false false) s2 in
    if negb (sawdigits st) then None
    else
      let dp := if hex then (- (4 * strconv.frac st))%Z else (- strconv.frac st)%Z in
      match s3 with
      | String x s4 =>
          if is_byte (if hex then "p" else "e")%char (lower x) then
            match readExp s4 with
            | Some (e, us, rest) =>
                Some (FloatText neg hex (mant st) (dp + e) (underscores st || us) rest)
            | None => None
            end
          else if hex then None
          else Some (FloatText neg hex (mant st) dp (underscores st) s3)
      | EmptyString =>
          if hex then None
          else Some (FloatText neg hex (mant st) dp (underscores st) s3)
      end) as ->.
  { unfold number_parts. fold fp ep body. destruct neg.
    - done.
    - subst body. rewrite Hc. cbn [String.append readFloat].
      assert (is_byte "+" c = false) as -> by digit_is_not Hcd.
      assert (is_byte "-" c = false) as -> by digit_is_not Hcd.
      done. }
  (* no base prefix *)
  assert (match body with
      | String c0 (String c1 ((String _ _) as s3)) =>
          if is_byte "0" c0 && is_byte "x" (lower c1) then (true, s3) else (false, body)
      | _ => (false, body)
      end = (false, body)) as ->.
  { destruct Hzero as [->|(c0 & int0 & -> & Hc0)].
    - subst body fp ep. destruct (bool_decide (frac = "")), (bool_decide (exp = "")); try done.
      + by destruct esign, exp.
      + by destruct frac.
      + by destruct frac.
    - subst body. cbn [String.append]. rewrite Hc0.
      by destruct (int0 +:+ fp +:+ ep) as [|? [|? ?]]. }
  cbv zeta. subst body. rewrite readDigits_digits by done.
  cbn [mant strconv.frac sawdot sawdigits underscores].
  rewrite (bool_decide_eq_false_2 _ Hne). cbn [orb negb].
  (* the fraction *)
  assert (readDigits 10 (Mantissa (digits_value_from 0 int) 0 false true false) (fp +:+ ep)
    = (Mantissa (digits_value (int +:+ frac)) (Z.of_nat (String.length frac))
         (negb (bool_decide (frac = EmptyString))) true false, ep)) as ->.
  { assert (ep = EmptyString ∨ (∃ rest', ep = String "e" rest')) as Hep.
    { subst ep. destruct (bool_decide (exp = "")); [by left|right; eauto]. }
    subst fp. unfold digits_value. rewrite digits_value_from_app.
    destruct (decide (frac = EmptyString)) as [Hf|Hf].
    - subst frac. cbn [String.append]. by rewrite readDigits_stop.
    - rewrite !(bool_decide_eq_false_2 _ Hf). cbn [String.append readDigits]. change (is_byte "_" ".") with false.
      change (is_byte "." ".") with true. cbn iota. cbn [sawdot mant strconv.frac sawdigits underscores].
      rewrite readDigits_digits by done. cbn [mant strconv.frac sawdot sawdigits underscores].
      rewrite readDigits_stop by done. do 2 f_equal; lia. }
  cbn [sawdigits negb mant strconv.frac underscores].
  (* the exponent *)
  subst ep. destruct (decide (exp = EmptyString)) as [He|He].
  - subst exp. simpl. do 2 f_equal. change (digits_value EmptyString) with 0%Z. lia.
  - rewrite (bool_decide_eq_false_2 _ He). cbn [String.append]. change (is_byte "e" (lower "e")) with true. cbn iota.
    assert (readExp ((if esign then "-" else "+") +:+ exp) =
            Some (digits_value exp * (if esign then -1 else 1), false, EmptyString)%Z) as ->.
    { destruct exp as [|d exp']; [done|].
      pose proof Hexp as Hexp'. simpl in Hexp'. apply andb_prop in Hexp' as [Hd _].
      unfold readExp. destruct esign; cbn [String.append];
        [change (is_byte "-" "-") with true; change (is_byte "+" "-") with false
        |change (is_byte "-" "+") with false; change (is_byte "+" "+") with true];
        cbn [orb]; cbv iota; rewrite Hd;
        rewrite readExpDigits_digits by done; done. }
    do 2 f_equal; lia.
Qed.

(** ** The text of a number *)

Lemma repeat_char_length (c : ascii) (k : nat) : String.length (repeat_char c k) = k.
Proof. induction k as [|k IH]; simpl; [done | by rewrite IH]. Qed.

Lemma all_digits_zeros (k : nat) : all_digits (repeat_char "0" k) = true.
Proof. by induction k. Qed.

Lemma digits_value_from_zeros (a : Z) (k : nat) :
  digits_value_from a (repeat_char "0" k) = (a * 10 ^ Z.of_nat k)%Z.
Proof.
  revert a. induction k as [|k IH]; intros a; [simpl; lia|].
  cbn [repeat_char digits_value_from]. rewrite IH, Nat2Z.inj_succ, Z.pow_succ_r by lia.
  change (digit_val "0") with 0%Z. ring.
Qed.

Lemma string_take_length (k : nat) (s : string) :
  String.length (string_take k s) = (k `min` String.length s)%nat.
Proof. revert s. induction k as [|k IH]; intros [|c s]; simpl; try done. by rewrite IH. Qed.

Lemma string_drop_length (k : nat) (s : string) :
  String.length (string_drop k s) = (String.length s - k)%nat.
Proof. revert s. induction k as [|k IH]; intros [|c s]; simpl; try done. Qed.

Lemma all_digits_take_drop (k : nat) (s : string) :
  all_digits s = true →
  all_digits (string_take k s) = true ∧ all_digits (string_drop k s) = true.
Proof.
  intros Hs. rewrite <-(take_drop k s), all_digits_app in Hs. by apply andb_prop in Hs.
Qed.

Lemma length_zero (s : string) : String.length s = 0%nat → s = EmptyString.
Proof. by destruct s. Qed.

(** [strip_zeros] takes zeros off the end. *)
Lemma strip_zeros_spec (s : string) :
  ∃ k, s = strip_zeros s +:+ repeat_char "0" k.
Proof.
  induction s as [|c s [k IH]]; [by exists 0%nat|]. simpl.
  destruct (strip_zeros s) as [|c' t] eqn:Ht.
  - destruct (is_byte "0" c) eqn:Hc.
    + apply is_byte_true in Hc as ->. exists (S k). simpl. by rewrite IH at 1.
    + exists k. simpl. by rewrite IH at 1.
  - exists k. simpl. rewrite IH at 1. done.
Qed.

Lemma strip_zeros_head (c : ascii) (s : string) :
  is_byte "0" c = false → strip_zeros (String c s) = String c (strip_zeros s).
Proof. intros Hc. simpl. rewrite Hc. by destruct (strip_zeros s). Qed.

Lemma digits_value_pos (c : ascii) (s : string) :
  is_digit c = true → is_byte "0" c = false → all_digits s = true →
  (0 < digits_value (String c s))%Z.
Proof.
  intros Hc H0 Hs. unfold digits_value. simpl. rewrite digits_value_from_shift.
  pose proof (is_digit_bounds _ Hc). unfold is_byte in H0. revert H0. byte_consts. intros H0.
  assert (0 < digit_val c)%Z by (unfold digit_val; byte_consts; lia).
  assert (0 ≤ digits_value s)%Z.
  { clear -Hs. unfold digits_value. cut (∀ a, 0 ≤ a → 0 ≤ digits_value_from a s)%Z; [intros Hx; apply Hx; lia|].
    induction s as [|c s IH]; intros a Ha; [done|]. simpl in Hs. apply andb_prop in Hs as [Hc Hs].
    simpl. apply IH; [done|]. pose proof (digit_val_bounds _ Hc). lia. }
  assert (0 < 10 ^ Z.of_nat (String.length s))%Z by (apply Z.pow_pos_nonneg; lia). nia.
Qed.

(** The digits of [c > 0] without the zeros at their end: [v] and the number
    [z] of zeros. *)
Lemma strip_zeros_decimal_digits (c : Z) :
  (0 < c)%Z →
  ∃ (c0 : ascii) (t : string) (z : nat),
    strip_zeros (decimal_digits c) = String c0 t
    ∧ is_digit c0 = true ∧ is_byte "0" c0 = false ∧ all_digits t = true
    ∧ String.length (decimal_digits c) = (S (String.length t) + z)%nat
    ∧ c = (digits_value (String c0 t) * 10 ^ Z.of_nat z)%Z.
Proof.
  intros Hc. destruct (decimal_digits_spec c ltac:(lia)) as (Hall & Hval & (c0 & ds' & Hds & Hc0) & _).
  specialize (Hc0 Hc). destruct (strip_zeros_spec (decimal_digits c)) as [z Hz].
  rewrite Hds in Hz, Hall. rewrite strip_zeros_head in Hz by done.
  pose proof Hall as Hall'. rewrite Hz, all_digits_app in Hall'. apply andb_prop in Hall' as [Hall' _].
  simpl in Hall'. apply andb_prop in Hall' as [Hd Ht].
  exists c0, (strip_zeros ds'), z. rewrite Hds, strip_zeros_head by done.
  split; [done|]. split; [done|]. split; [done|]. split; [done|]. split.
  - rewrite Hz at 1. rewrite str_length_app, repeat_char_length. done.
  - rewrite <-Hval, Hds. rewrite Hz at 1. unfold digits_value.
    by rewrite digits_value_from_app, digits_value_from_zeros.
Qed.

(** [render] writes the text of a number, [int.frac e exp], whose value is
    that of [c * 10^sc]: [c] is [v * 10^z]. *)
Lemma render_number_parts (fmt : ascii) (neg : bool) (c sc : Z) :
  (0 < c)%Z →
  ∃ (int frac exp : string) (esign : bool) (v : Z) (z : nat),
    render fmt neg c sc = number_parts neg int frac exp esign
    ∧ digits1 int = true
    ∧ (int = "0" ∨ ∃ c0 int', int = String c0 int' ∧ is_byte "0" c0 = false)
    ∧ all_digits frac = true ∧ all_digits exp = true
    ∧ (0 < v)%Z ∧ c = (v * 10 ^ Z.of_nat z)%Z
    ∧ (digits_value exp ≤ Z.abs (Z.of_nat (String.length (decimal_digits c)) + sc - 1))%Z
    ∧ ((digits_value (int +:+ frac) = v
        ∧ - Z.of_nat (String.length frac) + (if esign then -1 else 1) * digits_value exp
          = Z.of_nat z + sc)%Z
       ∨ (digits_value (int +:+ frac) = v * 10 ^ (Z.of_nat z + sc)
          ∧ - Z.of_nat (String.length frac) + (if esign then -1 else 1) * digits_value exp = 0
          ∧ 0 ≤ Z.of_nat z + sc)%Z).
Proof.
  intros Hc.
  destruct (strip_zeros_decimal_digits c Hc) as (c0 & t & z & Hds & Hd0 & Hnz & Ht & Hlen & Hv).
  pose proof (digits_value_pos c0 t Hd0 Hnz Ht) as Hpos.
  unfold render. rewrite Hds, Hlen. set (v := digits_value (String c0 t)) in *.
  set (dp := (Z.of_nat (S (String.length t) + z) + sc)%Z).
  set (n := Z.of_nat (String.length (String c0 t))).
  assert (n = Z.of_nat (String.length t) + 1)%Z as Hn by (subst n; simpl; lia).
  assert (all_digits (String c0 t) = true) as Hall by (simpl; by rewrite Hd0, Ht).
  destruct (is_byte "e" fmt).
  - (* d.ddde±dd *)
    destruct (decimal_digits_spec (Z.abs (dp - 1)) ltac:(lia))
      as (Hexp & Hexpv & (ce & exp' & Hexpe & _) & _).
    exists (String c0 EmptyString), t, (decimal_digits (Z.abs (dp - 1))), (dp - 1 <? 0)%Z, v, z.
    split.
    { unfold number_parts. f_equal. cbn [string_take string_drop String.append]. f_equal.
      rewrite Hexpe. rewrite (bool_decide_eq_false_2 (String ce exp' = EmptyString)) by done.
      destruct t as [|c1 t']; [done|].
      rewrite (bool_decide_eq_false_2 (String c1 t' = EmptyString)) by done.
      assert ((1 <? n)%Z = true) as -> by (simpl in Hn; lia). done. }
    split; [unfold digits1; simpl; by rewrite Hd0|].
    split; [right; eauto|]. split; [done|]. split; [done|]. split; [done|]. split; [done|].
    rewrite Hexpv. split; [lia|]. left. split; [done|].
    destruct (Z.ltb_spec (dp - 1) 0); lia.
  - destruct (Z.ltb_spec 0 dp) as [Hdp|Hdp]; [destruct (Z.ltb_spec dp n) as [Hlt|Hge]|].
    + (* ddd.ddd *)
      destruct (all_digits_take_drop (Z.to_nat dp) _ Hall) as [Htake Hdrop].
      exists (string_take (Z.to_nat dp) (String c0 t)), (string_drop (Z.to_nat dp) (String c0 t)),
        EmptyString, false, v, z.
      assert (String.length (string_drop (Z.to_nat dp) (String c0 t)) = Z.to_nat (n - dp)) as Hld.
      { rewrite string_drop_length. subst n. lia. }
      split.
      { unfold number_parts. f_equal. f_equal.
        rewrite bool_decide_eq_false_2, bool_decide_eq_true_2, str_app_nil_r; [done..|].
        intros Hf. rewrite Hf in Hld. simpl in Hld. lia. }
      split.
      { unfold digits1. rewrite Htake. apply negb_true_iff, bool_decide_eq_false.
        destruct (Z.to_nat dp) eqn:Hz; [lia|done]. }
      split.
      { right. destruct (Z.to_nat dp) eqn:Hz; [lia|]. simpl. eauto. }
      split; [done|]. split; [done|]. split; [done|]. split; [done|].
      change (digits_value EmptyString) with 0%Z. split; [lia|]. left.
      rewrite take_drop, Hld. split; [done|]. subst dp. lia.
    + (* ddd000 *)
      exists (String c0 t +:+ repeat_char "0" (Z.to_nat (dp - n))), EmptyString, EmptyString, false, v, z.
      split; [unfold number_parts; cbn [bool_decide decide_rel]; by rewrite !str_app_nil_r|].
      split; [unfold digits1; by rewrite all_digits_app, Hall, all_digits_zeros|].
      split; [right; simpl; eauto|]. split; [done|]. split; [done|]. split; [done|]. split; [done|].
      change (digits_value EmptyString) with 0%Z. split; [lia|]. right.
      rewrite str_app_nil_r. unfold digits_value. rewrite digits_value_from_app, digits_value_from_zeros.
      fold (digits_value (String c0 t)). fold v.
      split; [f_equal; f_equal; subst dp; lia|]. simpl. subst dp. lia.
    + (* 0.000ddd *)
      exists "0", (repeat_char "0" (Z.to_nat (- dp)) +:+ String c0 t), EmptyString, false, v, z.
      split.
      { unfold number_parts. f_equal.
        rewrite bool_decide_eq_false_2, bool_decide_eq_true_2, str_app_nil_r; [done..|].
        by destruct (Z.to_nat (- dp)). }
      split; [done|]. split; [by left|].
      split; [by rewrite all_digits_app, all_digits_zeros, Hall|].
      split; [done|]. split; [done|]. split; [done|].
      change (digits_value EmptyString) with 0%Z. split; [lia|]. left.
      split.
      * unfold digits_value. cbn [String.append digits_value_from].
        rewrite digits_value_from_app, digits_value_from_zeros. done.
      * rewrite str_length_app, repeat_char_length. subst dp. simpl. lia.
Qed.

(** ** [ParseFloat] after [FormatFloat] *)

Lemma special_number_parts (neg : bool) (int frac exp : string) (esign : bool) :
  digits1 int = true → special (number_parts neg int frac exp esign) = None.
Proof.
  intros [Hint Hne]%andb_prop. destruct int as [|c int']; [done|].
  simpl in Hint. apply andb_prop in Hint as [Hc _].
  assert (in_range "A" "Z" c = false) as Hup.
  { pose proof (is_digit_bounds _ Hc). unfold in_range. byte_consts. lia. }
  unfold number_parts. destruct neg; cbn [String.append special].
  - change (is_byte "+" "-") with false. change (is_byte "-" "-") with true. cbn [orb].
    cbv iota. cbn [commonPrefixLenIgnoreCase]. rewrite Hup.
    assert (is_byte "i" c = false) as -> by digit_is_not Hc. done.
  - assert (is_byte "+" c = false) as -> by digit_is_not Hc.
    assert (is_byte "-" c = false) as -> by digit_is_not Hc.
    assert (is_byte "i" c = false) as -> by digit_is_not Hc.
    assert (is_byte "I" c = false) as -> by digit_is_not Hc.
    assert (is_byte "n" c = false) as -> by digit_is_not Hc.
    assert (is_byte "N" c = false) as -> by digit_is_not Hc.
    done.
Qed.

Lemma ParseFloat_number_parts (neg : bool) (int frac exp : string) (esign : bool) :
  digits1 int = true →
  (int = "0" ∨ ∃ c int', int = String c int' ∧ is_byte "0" c = false) →
  all_digits frac = true →
  all_digits exp = true →
  (digits_value exp < 10000)%Z →
  ParseFloat (number_parts neg int frac exp esign) =
  let f := scaled_float64 neg 10 (digits_value (int +:+ frac))
             (- Z.of_nat (String.length frac) + (if esign then -1 else 1) * digits_value exp) in
  if IsInf f 0 then Err ErrRange else Ok f.
Proof.
  intros Hint Hz Hfrac Hexp Hlt. unfold ParseFloat.
  rewrite special_number_parts by done.
  by rewrite readFloat_number_parts by done.
Qed.

Lemma scaled_float64_exact (neg : bool) (m : positive) (e M X : Z) :
  valid_float64 (S754_finite neg m e) = true →
  (0 < M)%Z →
  (M * 10 ^ Z.max 0 X * 2 ^ Z.max 0 (- e) = Z.pos m * 2 ^ Z.max 0 e * 10 ^ Z.max 0 (- X))%Z →
  scaled_float64 neg 10 M X = S754_finite neg m e.
Proof.
  intros Hv HM Heq. unfold scaled_float64.
  assert ((M =? 0)%Z = false) as -> by lia.
  destruct (Z.leb_spec 0 X) as [HX|HX].
  - apply round_ratio_exact; [done|lia|].
    rewrite Z.max_r, (Z.max_l 0 (- X)) in Heq by lia. rewrite Heq, Z.pow_0_r. lia.
  - apply round_ratio_exact; [done|apply Z.pow_pos_nonneg; lia|].
    rewrite Z.max_l, (Z.max_r 0 (- X)) in Heq by lia. rewrite <-Heq, Z.pow_0_r. lia.
Qed.

(** The decimal number [num * 10^scale] that a float64 is. *)
Lemma exact_decimal_relation (m : positive) (e v M X : Z) (z : nat) :
  let '(num, scale) := if (0 <=? e)%Z then (Z.pos m * 2 ^ e, 0)%Z
                       else (Z.pos m * 5 ^ (- e), e)%Z in
  num = (v * 10 ^ Z.of_nat z)%Z →
  ((M = v ∧ X = Z.of_nat z + scale)
   ∨ (M = v * 10 ^ (Z.of_nat z + scale) ∧ X = 0 ∧ 0 ≤ Z.of_nat z + scale))%Z →
  (M * 10 ^ Z.max 0 X * 2 ^ Z.max 0 (- e) = Z.pos m * 2 ^ Z.max 0 e * 10 ^ Z.max 0 (- X))%Z.
Proof.
  destruct (Z.leb_spec 0 e) as [He|He]; intros Hnum HMX.
  - rewrite (Z.max_l 0 (- e)), (Z.max_r 0 e) by lia.
    destruct HMX as [[-> ->]|(-> & -> & _)].
    + rewrite Z.add_0_r, Z.max_r, Z.max_l by lia. rewrite <-Hnum, !Z.pow_0_r. lia.
    + rewrite Z.add_0_r, <-Hnum. cbn [Z.max Z.compare Z.opp]. rewrite !Z.pow_0_r. lia.
  - rewrite (Z.max_r 0 (- e)), (Z.max_l 0 e) by lia. rewrite Z.pow_0_r, Z.mul_1_r.
    assert (0 < 5 ^ (- e))%Z as H5 by (apply Z.pow_pos_nonneg; lia).
    assert (10 ^ (- e) = 2 ^ (- e) * 5 ^ (- e))%Z as H10 by (by rewrite <-Z.pow_mul_l).
    assert (∀ p, 0 ≤ p → p = Z.of_nat z + e →
              v * 10 ^ p * 2 ^ (- e) = Z.pos m)%Z as Hge.
    { intros p Hp Hpe. apply (Z.mul_reg_r _ _ (5 ^ (- e))%Z); [lia|].
      rewrite Hnum. replace (Z.of_nat z) with (p + - e)%Z by lia.
      rewrite Z.pow_add_r, H10 by lia. ring. }
    destruct HMX as [[-> ->]|(-> & -> & Hp)].
    + destruct (Z.le_gt_cases 0 (Z.of_nat z + e)) as [Hp|Hp].
      * rewrite Z.max_r, Z.max_l by lia. rewrite Z.pow_0_r, Z.mul_1_r. by apply Hge.
      * rewrite Z.max_l, Z.max_r by lia. rewrite Z.pow_0_r, Z.mul_1_r.
        assert (0 < 10 ^ Z.of_nat z)%Z as Hz by (apply Z.pow_pos_nonneg; lia).
        apply (Z.mul_reg_r _ _ (10 ^ Z.of_nat z)%Z); [lia|].
        replace (Z.pos m * 10 ^ (- (Z.of_nat z + e)) * 10 ^ Z.of_nat z)%Z
          with (Z.pos m * 10 ^ (- e))%Z.
        2:{ replace (- e)%Z with (- (Z.of_nat z + e) + Z.of_nat z)%Z at 1 by lia.
            rewrite Z.pow_add_r by lia. ring. }
        rewrite H10. replace (v * 2 ^ (- e) * 10 ^ Z.of_nat z)%Z
          with ((v * 10 ^ Z.of_nat z) * 2 ^ (- e))%Z by ring.
        rewrite <-Hnum. ring.
    + cbn [Z.max Z.compare Z.opp]. rewrite !Z.pow_0_r, !Z.mul_1_r. by apply Hge.
Qed.

Lemma log2_pow5 (k : Z) : (0 ≤ k → Z.log2 (5 ^ k) ≤ 3 * k)%Z.
Proof.
  intros Hk. transitivity (Z.log2 (2 ^ (3 * k))); [|by rewrite Z.log2_pow2 by lia].
  apply Z.log2_le_mono. rewrite Z.pow_mul_r by lia. apply Z.pow_le_mono_l. lia.
Qed.

(** The decimal number has fewer than 4000 digits. *)
Lemma exact_decimal_length (neg : bool) (m : positive) (e : Z) :
  valid_float64 (S754_finite neg m e) = true →
  let '(num, scale) := if (0 <=? e)%Z then (Z.pos m * 2 ^ e, 0)%Z
                       else (Z.pos m * 5 ^ (- e), e)%Z in
  (0 < num ∧ -1074 ≤ scale ≤ 0
   ∧ Z.of_nat (String.length (decimal_digits num)) ≤ 4000)%Z.
Proof.
  intros (He & Hle & Hm)%valid_float64_finite.
  assert (Z.log2 (Z.pos m) < 53)%Z as Hlog by (apply Z.log2_lt_pow2; lia).
  destruct (Z.leb_spec 0 e) as [Hp|Hn].
  - assert (0 < 2 ^ e)%Z by (apply Z.pow_pos_nonneg; lia).
    split; [nia|]. split; [lia|].
    destruct (decimal_digits_spec (Z.pos m * 2 ^ e)%Z ltac:(nia)) as (_ & _ & _ & _ & Hlen).
    rewrite Z.log2_mul_pow2 in Hlen by lia. lia.
  - assert (0 < 5 ^ (- e))%Z by (apply Z.pow_pos_nonneg; lia).
    split; [nia|]. split; [lia|].
    destruct (decimal_digits_spec (Z.pos m * 5 ^ (- e))%Z ltac:(nia)) as (_ & _ & _ & _ & Hlen).
    pose proof (Z.log2_mul_above (Z.pos m) (5 ^ (- e)) ltac:(lia) ltac:(lia)).
    pose proof (log2_pow5 (- e) ltac:(lia)). lia.
Qed.

(** The text of the exact decimal number reads back. *)
Lemma ParseFloat_render_exact (fmt : ascii) (neg : bool) (m : positive) (e : Z) :
  valid_float64 (S754_finite neg m e) = true →
  let '(num, scale) := if (0 <=? e)%Z then (Z.pos m * 2 ^ e, 0)%Z
                       else (Z.pos m * 5 ^ (- e), e)%Z in
  ParseFloat (render fmt neg num scale) = Ok (S754_finite neg m e).
Proof.
  intros Hv. pose proof (exact_decimal_length neg m e Hv) as Hlen.
  pose proof (exact_decimal_relation m e) as Hrel.
  destruct (if (0 <=? e)%Z then (Z.pos m * 2 ^ e, 0)%Z else (Z.pos m * 5 ^ (- e), e)%Z)
    as [num scale].
  destruct Hlen as (Hnum & Hscale & Hlen).
  destruct (render_number_parts fmt neg num scale Hnum)
    as (int & frac & exp & esign & v & z & -> & Hint & Hz & Hfrac & Hexp & Hvpos & Hnv & Hb & HMX).
  rewrite ParseFloat_number_parts by (done || lia). cbv zeta.
  rewrite (scaled_float64_exact neg m e); [done|done| |].
  - destruct HMX as [[-> _]|(-> & _ & Hp)]; [done|].
    assert (0 < 10 ^ (Z.of_nat z + scale))%Z by (apply Z.pow_pos_nonneg; lia). nia.
  - by apply (Hrel v _ _ z).
Qed.

(** [shortest] returns a text that reads back as [f], or the exact one. *)
Lemma shortest_cases (fuel : nat) (k : Z) (fmt : ascii) (neg : bool) (f : float64)
    (num scale n : Z) :
  (1 ≤ k)%Z → (k + Z.of_nat fuel = n)%Z → (10 ^ (n - 1) ≤ num)%Z →
  shortest fuel k fmt neg f num scale n = render fmt neg num scale
  ∨ (reads_back (shortest fuel k fmt neg f num scale n) f = true
     ∧ ∃ c sc, (0 < c)%Z ∧ shortest fuel k fmt neg f num scale n = render fmt neg c sc).
Proof.
  revert k. induction fuel as [|fuel IH]; intros k Hk Hn Hnum; [by left|].
  cbn [shortest]. cbv zeta.
  assert (0 < num / 10 ^ (n - k))%Z as Hlo.
  { assert (0 < 10 ^ (n - k))%Z by (apply Z.pow_pos_nonneg; lia).
    apply Z.div_str_pos. split; [done|].
    transitivity (10 ^ (n - 1))%Z; [|done]. apply Z.pow_le_mono_r; lia. }
  set (lo := (num / 10 ^ (n - k))%Z) in *.
  set (down := render fmt neg lo (scale + (n - k))).
  set (up := render fmt neg (lo + 1) (scale + (n - k))).
  destruct (reads_back down f) eqn:Hdown, (reads_back up f) eqn:Hup; cbn [andb].
  - destruct (_ || _); right; (split; [done|]); eexists _, _; (split; [|done]); lia.
  - right. split; [done|]. eexists _, _. split; [|done]. lia.
  - right. split; [done|]. eexists _, _. split; [|done]. lia.
  - apply IH; lia.
Qed.

Lemma number_text_render (fmt : ascii) (neg : bool) (c sc : Z) :
  (0 < c)%Z → number_text (render fmt neg c sc).
Proof.
  intros Hc. destruct (render_number_parts fmt neg c sc Hc)
    as (int & frac & exp & esign & v & z & -> & Hint & Hz & Hfrac & Hexp & _).
  by constructor.
Qed.

(** [FormatFloat] of a finite float64 is the text of a number that
    [ParseFloat] reads as the same float64. *)
Lemma ParseFloat_FormatFloat (f : float64) (fmt : ascii) :
  valid_float64 f = true → is_finite f = true →
  ParseFloat (FormatFloat f fmt) = Ok f ∧ number_text (FormatFloat f fmt).
Proof.
  intros Hv Hf. destruct f as [s|s| |s m e]; try done.
  - destruct s; (split; [by vm_compute|]).
    + change (number_text (number_parts true "0" "" "" false)). by constructor; auto.
    + change (number_text (number_parts false "0" "" "" false)). by constructor; auto.
  - pose proof (ParseFloat_render_exact fmt s m e Hv) as Hexact.
    pose proof (exact_decimal_length s m e Hv) as Hlen.
    unfold FormatFloat.
    destruct (if (0 <=? e)%Z then (Z.pos m * 2 ^ e, 0)%Z else (Z.pos m * 5 ^ (- e), e)%Z)
      as [num scale].
    destruct Hlen as (Hnum & _ & _).
    destruct (decimal_digits_spec num ltac:(lia)) as (_ & _ & (c0 & ds' & Hds & _) & Hb & _).
    specialize (Hb Hnum).
    set (n := Z.of_nat (String.length (decimal_digits num))) in *.
    assert (1 ≤ n)%Z as Hn1 by (subst n; rewrite Hds; simpl; lia).
    destruct (shortest_cases (Z.to_nat (n - 1)) 1 fmt s (S754_finite s m e) num scale n)
      as [->|[Hrb (c & sc & Hc & Hs)]]; [lia|lia|lia| |].
    + split; [done|]. by apply number_text_render.
    + split.
      * unfold reads_back in Hrb.
        destruct (ParseFloat (shortest (Z.to_nat (n - 1)) 1 fmt s (S754_finite s m e) num scale n))
          as [f'|]; [|done].
        by apply bool_decide_eq_true in Hrb as ->.
      * rewrite Hs. by apply number_text_render.
Qed.

Lemma Marshal_float64_roundtrip (f : float64) :
  valid_float64 f = true → is_finite f = true →
  ∃ b, json.Marshal_float64 f = Ok b ∧ ParseFloat b = Ok f ∧ number_text b.
Proof.
  intros Hv Hf. unfold json.Marshal_float64.
  assert (IsInf f 0 || IsNaN f = false) as -> by (by destruct f).
  eexists. split; [done|]. by apply ParseFloat_FormatFloat.
Qed.

(** ** UTF-8 *)

(** A valid encoding is decoded from its own bytes only. *)
Lemma DecodeRuneInString_take (s t : string) :
  utf8.valid_rune s = true →
  string_take (snd (utf8.DecodeRuneInString s)) t
  = string_take (snd (utf8.DecodeRuneInString s)) s →
  utf8.DecodeRuneInString t = utf8.DecodeRuneInString s.
Proof.
  unfold utf8.valid_rune.
  destruct s as [|c0 s0]; [done|]. unfold utf8.DecodeRuneInString at 1 2 3.
  destruct (byte c0 <? 128)%Z eqn:H0.
  { intros _. destruct t as [|d0 t0]; [done|]. cbn [snd string_take]. intros [= ->].
    unfold utf8.DecodeRuneInString. by rewrite H0. }
  destruct s0 as [|c1 s1]; [done|].
  destruct (in_range "194" "223" c0) eqn:H2.
  { destruct (utf8.cont c1) eqn:Hc1; [|done]. intros _.
    destruct t as [|d0 [|d1 t1]]; try done. cbn [snd string_take]. intros [= -> ->].
    unfold utf8.DecodeRuneInString. by rewrite H0, H2, Hc1. }
  destruct s1 as [|c2 s2]; [done|].
  destruct (in_range "224" "239" c0) eqn:H3.
  { destruct (_ && _) eqn:Hc; [|done]. intros _.
    destruct t as [|d0 [|d1 [|d2 t2]]]; try done. cbn [snd string_take]. intros [= -> -> ->].
    unfold utf8.DecodeRuneInString. by rewrite H0, H2, H3, Hc. }
  destruct s2 as [|c3 s3]; [done|].
  destruct (_ && _) eqn:Hc; [|done]. intros _.
  destruct t as [|d0 [|d1 [|d2 [|d3 t3]]]]; try done. cbn [snd string_take]. intros [= -> -> -> ->].
  unfold utf8.DecodeRuneInString. by rewrite H0, H2, H3, Hc.
Qed.

(** The width of a valid encoding, and what [ValidString] says of the bytes
    after the first. *)
Lemma valid_rune_width (s : string) :
  utf8.valid_rune s = true →
  (1 ≤ snd (utf8.DecodeRuneInString s) ≤ 4)%nat
  ∧ (snd (utf8.DecodeRuneInString s) ≤ String.length s)%nat.
Proof.
  unfold utf8.valid_rune, utf8.DecodeRuneInString.
  destruct s as [|c0 [|c1 [|c2 [|c3 s3]]]]; simpl;
    repeat match goal with
    | |- context [if ?b then _ else _] => destruct b
    end; simpl; try done; lia.
Qed.

(** Bits set apart add up. *)
Lemma lor_add (a b k : Z) :
  (0 ≤ k → 0 ≤ a → 0 ≤ b < 2 ^ k → a mod 2 ^ k = 0 → Z.lor a b = a + b)%Z.
Proof.
  intros Hk Ha Hb Hmod.
  assert (Z.land a b = 0)%Z as Hland.
  { apply Z.bits_inj'. intros n Hn. rewrite Z.land_spec, Z.bits_0.
    destruct (Z.lt_ge_cases n k) as [Hlt|Hge].
    - rewrite <-(Z.mod_pow2_bits_low a k n) by lia. by rewrite Hmod, Z.bits_0.
    - destruct (Z.eq_dec b 0%Z) as [->|Hb0]; [by rewrite Z.bits_0, andb_false_r|].
      rewrite (Z.bits_above_log2 b n), andb_false_r; [done|lia|].
      assert (Z.log2 b < k)%Z by (apply Z.log2_lt_pow2; lia). lia. }
  rewrite <-Z.lxor_lor by done. symmetry. by apply Z.add_nocarry_lxor.
Qed.

Lemma byte_bounds (c : ascii) : (0 ≤ byte c < 256)%Z.
Proof.
  unfold byte. pose proof (N_ascii_bounded c). lia.
Qed.

(** The runes of the encodings of two, three and four bytes. *)
Lemma rune2_value (b0 b1 : Z) :
  (0 ≤ b0 → 0 ≤ b1 →
   Z.lor (Z.shiftl (Z.land b0 31) 6) (Z.land b1 63) = (b0 mod 32) * 64 + b1 mod 64)%Z.
Proof.
  intros H0 H1. change 31%Z with (Z.ones 5). change 63%Z with (Z.ones 6).
  rewrite !Z.land_ones, Z.shiftl_mul_pow2 by lia.
  apply (lor_add _ _ 6); [lia| | |].
  - pose proof (Z.mod_pos_bound b0 (2 ^ 5) ltac:(lia)). lia.
  - apply Z.mod_pos_bound. lia.
  - by rewrite Z.mod_mul.
Qed.

Lemma rune3_value (b0 b1 b2 : Z) :
  (0 ≤ b0 → 0 ≤ b1 → 0 ≤ b2 →
   Z.lor (Z.lor (Z.shiftl (Z.land b0 15) 12) (Z.shiftl (Z.land b1 63) 6)) (Z.land b2 63)
   = (b0 mod 16) * 4096 + (b1 mod 64) * 64 + b2 mod 64)%Z.
Proof.
  intros H0 H1 H2. change 15%Z with (Z.ones 4). change 63%Z with (Z.ones 6).
  rewrite !Z.land_ones, !Z.shiftl_mul_pow2 by lia.
  pose proof (Z.mod_pos_bound b0 (2 ^ 4) ltac:(lia)).
  pose proof (Z.mod_pos_bound b1 (2 ^ 6) ltac:(lia)).
  pose proof (Z.mod_pos_bound b2 (2 ^ 6) ltac:(lia)).
  rewrite (lor_add (b0 mod 2 ^ 4 * 2 ^ 12) (b1 mod 2 ^ 6 * 2 ^ 6) 12);
    [|lia|lia|lia|by rewrite Z.mod_mul].
  rewrite (lor_add _ _ 6); [|lia|lia|lia|].
  - change (2 ^ 4)%Z with 16%Z. change (2 ^ 6)%Z with 64%Z. change (2 ^ 12)%Z with 4096%Z. lia.
  - replace (b0 mod 2 ^ 4 * 2 ^ 12 + b1 mod 2 ^ 6 * 2 ^ 6)%Z
      with ((b0 mod 2 ^ 4 * 2 ^ 6 + b1 mod 2 ^ 6) * 2 ^ 6)%Z by ring.
    by rewrite Z.mod_mul.
Qed.

Lemma rune4_value (b0 b1 b2 b3 : Z) :
  (0 ≤ b0 → 0 ≤ b1 → 0 ≤ b2 → 0 ≤ b3 →
   Z.lor (Z.lor (Z.lor (Z.shiftl (Z.land b0 7) 18) (Z.shiftl (Z.land b1 63) 12))
                (Z.shiftl (Z.land b2 63) 6)) (Z.land b3 63)
   = (b0 mod 8) * 262144 + (b1 mod 64) * 4096 + (b2 mod 64) * 64 + b3 mod 64)%Z.
Proof.
  intros H0 H1 H2 H3. change 7%Z with (Z.ones 3). change 63%Z with (Z.ones 6).
  rewrite !Z.land_ones, !Z.shiftl_mul_pow2 by lia.
  pose proof (Z.mod_pos_bound b0 (2 ^ 3) ltac:(lia)).
  pose proof (Z.mod_pos_bound b1 (2 ^ 6) ltac:(lia)).
  pose proof (Z.mod_pos_bound b2 (2 ^ 6) ltac:(lia)).
  pose proof (Z.mod_pos_bound b3 (2 ^ 6) ltac:(lia)).
  rewrite (lor_add (b0 mod 2 ^ 3 * 2 ^ 18) (b1 mod 2 ^ 6 * 2 ^ 12) 18);
    [|lia|lia|lia|by rewrite Z.mod_mul].
  rewrite (lor_add (b0 mod 2 ^ 3 * 2 ^ 18 + b1 mod 2 ^ 6 * 2 ^ 12) (b2 mod 2 ^ 6 * 2 ^ 6) 12);
    [|lia|lia|lia|].
  2:{ replace (b0 mod 2 ^ 3 * 2 ^ 18 + b1 mod 2 ^ 6 * 2 ^ 12)%Z
        with ((b0 mod 2 ^ 3 * 2 ^ 6 + b1 mod 2 ^ 6) * 2 ^ 12)%Z by ring.
      by rewrite Z.mod_mul. }
  rewrite (lor_add _ _ 6); [|lia|lia|lia|].
  - change (2 ^ 3)%Z with 8%Z. change (2 ^ 6)%Z with 64%Z. change (2 ^ 12)%Z with 4096%Z.
    change (2 ^ 18)%Z with 262144%Z. lia.
  - replace (b0 mod 2 ^ 3 * 2 ^ 18 + b1 mod 2 ^ 6 * 2 ^ 12 + b2 mod 2 ^ 6 * 2 ^ 6)%Z
      with ((b0 mod 2 ^ 3 * 2 ^ 12 + b1 mod 2 ^ 6 * 2 ^ 6 + b2 mod 2 ^ 6) * 2 ^ 6)%Z by ring.
    by rewrite Z.mod_mul.
Qed.

Lemma in_range_bounds (lo hi c : ascii) :
  in_range lo hi c = true → (byte lo ≤ byte c ≤ byte hi)%Z.
Proof. unfold in_range. lia. Qed.

(** U+2028 and U+2029 are encoded in three bytes, which [EncodeRune] gives
    back. *)
Lemma DecodeRuneInString_line_separator (s : string) (r : Z) (size : nat) :
  utf8.DecodeRuneInString s = (r, size) → r = 8232%Z ∨ r = 8233%Z →
  size = 3%nat ∧ utf8.EncodeRune r = string_take 3 s.
Proof.
  intros Hd Hr. destruct s as [|c0 s0]; [simpl in Hd; injection Hd as <- <-; by destruct Hr|].
  pose proof (byte_bounds c0) as B0. unfold utf8.DecodeRuneInString in Hd.
  destruct (byte c0 <? 128)%Z eqn:H0; [injection Hd as <- <-; lia|].
  destruct s0 as [|c1 s1]; [injection Hd as <- <-; by destruct Hr|].
  pose proof (byte_bounds c1) as B1.
  destruct (in_range "194" "223" c0) eqn:H2.
  { destruct (utf8.cont c1); [|injection Hd as <- <-; by destruct Hr].
    rewrite rune2_value in Hd by lia. injection Hd as Hrv <-.
    pose proof (Z.mod_pos_bound (byte c0) 32 ltac:(lia)).
    pose proof (Z.mod_pos_bound (byte c1) 64 ltac:(lia)). lia. }
  destruct s1 as [|c2 s2]; [injection Hd as <- <-; by destruct Hr|].
  pose proof (byte_bounds c2) as B2.
  destruct (in_range "224" "239" c0) eqn:H3.
  { destruct (_ && _) eqn:Hc; [|injection Hd as <- <-; by destruct Hr].
    rewrite rune3_value in Hd by lia. injection Hd as Hrv <-.
    apply andb_prop in Hc as [Hc1 Hc2]. apply in_range_bounds in H3, Hc1, Hc2.
    revert H3 Hc2. byte_consts. intros H3 Hc2.
    assert (byte c0 mod 16 = byte c0 - 224)%Z as Hm0 by (Z.div_mod_to_equations; lia).
    assert (byte c2 mod 64 = byte c2 - 128)%Z as Hm2 by (Z.div_mod_to_equations; lia).
    pose proof (Z.mod_pos_bound (byte c1) 64 ltac:(lia)) as Hb1.
    assert (byte c0 = 226)%Z as E0 by lia.
    assert (c0 = "226"%char) as -> by (by apply byte_inj).
    revert Hc1. change (is_byte "224" "226") with false. change (is_byte "237" "226") with false.
    cbv iota. byte_consts. intros Hc1.
    assert (byte c1 mod 64 = byte c1 - 128)%Z as Hm1 by (Z.div_mod_to_equations; lia).
    assert (c1 = "128"%char) as -> by (apply byte_inj; byte_consts; lia).
    split; [done|]. cbn [string_take].
    destruct Hr as [Hr|Hr]; rewrite Hr in *;
      [assert (c2 = "168"%char) as -> by (apply byte_inj; byte_consts; lia)
      |assert (c2 = "169"%char) as -> by (apply byte_inj; byte_consts; lia)];
      by vm_compute. }
  destruct s2 as [|c3 s3]; [injection Hd as <- <-; by destruct Hr|].
  pose proof (byte_bounds c3) as B3.
  destruct (_ && _) eqn:Hc; [|injection Hd as <- <-; by destruct Hr].
  rewrite rune4_value in Hd by lia. injection Hd as Hrv <-.
  apply andb_prop in Hc as [Hc Hc3]. apply andb_prop in Hc as [Hc Hc2].
  apply andb_prop in Hc as [H4 Hc1]. apply in_range_bounds in H4, Hc1.
  revert H4. byte_consts. intros H4.
  assert (byte c0 mod 8 = byte c0 - 240)%Z as Hm0 by (Z.div_mod_to_equations; lia).
  pose proof (Z.mod_pos_bound (byte c1) 64 ltac:(lia)).
  pose proof (Z.mod_pos_bound (byte c2) 64 ltac:(lia)).
  pose proof (Z.mod_pos_bound (byte c3) 64 ltac:(lia)).
  destruct (Z.eq_dec (byte c0) 240%Z) as [E0|E0]; [|lia].
  assert (c0 = "240"%char) as -> by (by apply byte_inj).
  revert Hc1. change (is_byte "240" "240") with true. change (is_byte "244" "240") with false.
  cbv iota. byte_consts. intros Hc1.
  assert (byte c1 mod 64 = byte c1 - 128)%Z as Hm1 by (Z.div_mod_to_equations; lia).
  change (byte "240") with 240%Z in *. lia.
Qed.

(** ** String literals *)

Lemma ValidString_from_length (k : nat) (s : string) :
  utf8.ValidString_from k s = true → (k ≤ String.length s)%nat.
Proof.
  revert s. induction k as [|k IH]; intros s; [lia|].
  destruct s as [|c s]; [done|]. simpl. intros Hs%IH. lia.
Qed.

Lemma ValidString_from_drop (k : nat) (s : string) :
  utf8.ValidString_from k s = true → utf8.ValidString (string_drop k s) = true.
Proof.
  revert s. induction k as [|k IH]; intros s; [by destruct s|].
  destruct s as [|c s]; [done|]. simpl. apply IH.
Qed.

Lemma encode_string_body_skip (k : nat) (s : string) :
  (k ≤ String.length s)%nat →
  json.encode_string_body 0 k s = json.encode_string_body 0 0 (string_drop k s).
Proof.
  revert s. induction k as [|k IH]; intros s Hk; [by destruct s|].
  destruct s as [|c s]; [simpl in Hk; lia|]. simpl. apply IH. simpl in Hk. lia.
Qed.

Lemma encode_string_body_copy (k : nat) (s t : string) :
  (k ≤ String.length s)%nat →
  string_take k (json.encode_string_body k 0 s +:+ t) = string_take k s.
Proof.
  revert s. induction k as [|k IH]; intros s Hk; [by destruct s|].
  destruct s as [|c s]; [simpl in Hk; lia|]. simpl. f_equal. apply IH. simpl in Hk. lia.
Qed.

(** The escape of a byte below 128, then the rest. *)
Lemma unquote_body_ascii (c : ascii) (s t : string) :
  (byte c <? utf8.RuneSelf)%Z = true →
  json.unquote_body 0 0 (json.encode_string_body 0 0 s +:+ t) = Some s →
  json.unquote_body 0 0 (json.encode_string_body 0 0 (String c s) +:+ t) = Some (String c s).
Proof.
  intros Hc IH.
  destruct c as [[] [] [] [] [] [] [] []]; try discriminate Hc; clear Hc;
    simpl; by rewrite IH.
Qed.

Lemma byte_high_not (c : ascii) :
  (byte c <? utf8.RuneSelf)%Z = false →
  is_byte "\" c = false ∧ is_byte dquote c = false ∧ (byte c <? 32)%Z = false.
Proof.
  unfold utf8.RuneSelf, is_byte, dquote. byte_consts. lia.
Qed.

(** An escape [\uXXXX] of a rune that is no surrogate. *)
Lemma unquote_body_u4 (h0 h1 h2 h3 : ascii) (rest : string) (rr : Z) :
  json.getu4 (String h0 (String h1 (String h2 (String h3 rest)))) = Some (rr, rest) →
  json.is_surrogate rr = false →
  json.unquote_body 0 0
    (String "\" (String "u" (String h0 (String h1 (String h2 (String h3 rest))))))
  = String.append (utf8.EncodeRune rr) <$> json.unquote_body 0 0 rest.
Proof.
  intros Hget Hsur. cbn [json.unquote_body].
  change (is_byte "\" "\") with true. cbv iota.
  simpl (is_byte _ "u"). cbn [orb]. cbv iota.
  rewrite Hget, Hsur. reflexivity.
Qed.

(** [unquote] gives back the string that [Marshal] wrote, when it is valid
    UTF-8; [k] bytes of an encoding are still to copy. *)
Lemma unquote_body_encode (k : nat) (s : string) :
  utf8.ValidString_from k s = true →
  json.unquote_body k 0 (json.encode_string_body k 0 s +:+ String dquote EmptyString) = Some s.
Proof.
  cut (∀ n k s, (String.length s < n)%nat → utf8.ValidString_from k s = true →
         json.unquote_body k 0 (json.encode_string_body k 0 s +:+ String dquote EmptyString)
         = Some s).
  { intros Hn. apply (Hn (S (String.length s))). lia. }
  clear k s. induction n as [|n IH]; intros k s Hlen Hv; [lia|].
  destruct s as [|c s].
  { destruct k; [done|discriminate Hv]. }
  simpl in Hlen. destruct k as [|k].
  2:{ simpl in Hv. cbn [json.encode_string_body String.append json.unquote_body].
      by rewrite IH by (done || lia). }
  cbn [utf8.ValidString_from] in Hv. apply andb_prop in Hv as [Hr Hv].
  destruct (byte c <? utf8.RuneSelf)%Z eqn:Hc.
  { apply unquote_body_ascii; [done|]. apply IH; [lia|].
    revert Hv. unfold utf8.DecodeRuneInString. unfold utf8.RuneSelf in Hc. by rewrite Hc. }
  destruct (byte_high_not c Hc) as (Hbs & Hq & H32).
  pose proof (valid_rune_width _ Hr) as [Hw Hwl].
  pose proof (ValidString_from_length _ _ Hv) as Hl.
  cbn [json.encode_string_body]. rewrite Hc.
  destruct (utf8.DecodeRuneInString (String c s)) as [r size] eqn:Hd.
  cbn [snd] in *.
  assert ((r =? utf8.RuneError)%Z && (size =? 1)%nat = false) as ->.
  { unfold utf8.valid_rune in Hr. rewrite Hd in Hr. apply negb_true_iff in Hr.
    destruct (r =? utf8.RuneError)%Z; [|done]. simpl in *.
    by destruct size as [|[|size]]. }
  destruct ((r =? 8232)%Z || (r =? 8233)%Z) eqn:Hsep.
  - assert (r = 8232%Z ∨ r = 8233%Z) as Hr' by lia.
    destruct (DecodeRuneInString_line_separator _ _ _ Hd Hr') as [-> Henc].
    rewrite encode_string_body_skip by done.
    assert (json.unquote_body 0 0
              (json.encode_string_body 0 0 (string_drop 2 s) +:+ String dquote EmptyString)
            = Some (string_drop 2 s)) as Hrest.
    { apply IH; [rewrite string_drop_length; lia|]. by apply ValidString_from_drop. }
    assert (String c s = utf8.EncodeRune r +:+ string_drop 2 s) as Hs.
    { rewrite Henc. by rewrite <-(take_drop 3 (String c s)) at 1. }
    rewrite Hs.
    destruct Hr' as [-> | ->].
    + change (json.unquote_body 0 0
               (String "\" (String "u" (String "2" (String "0" (String "2" (String "8"
                  (json.encode_string_body 0 0 (string_drop 2 s) +:+ String dquote EmptyString)))))))
             = Some (utf8.EncodeRune 8232 +:+ string_drop 2 s)).
      by rewrite (unquote_body_u4 _ _ _ _ _ 8232), Hrest.
    + change (json.unquote_body 0 0
               (String "\" (String "u" (String "2" (String "0" (String "2" (String "9"
                  (json.encode_string_body 0 0 (string_drop 2 s) +:+ String dquote EmptyString)))))))
             = Some (utf8.EncodeRune 8233 +:+ string_drop 2 s)).
      by rewrite (unquote_body_u4 _ _ _ _ _ 8233), Hrest.
  - cbn [String.append json.unquote_body]. rewrite Hbs, Hq, H32, Hc.
    assert (utf8.DecodeRuneInString
              (String c (json.encode_string_body (size - 1) 0 s +:+ String dquote EmptyString))
            = (r, size)) as Hd'.
    { rewrite <-Hd. apply DecodeRuneInString_take; [done|]. rewrite Hd. cbn [snd].
      destruct size as [|size]; [lia|]. cbn [string_take]. f_equal.
      replace (S size - 1)%nat with size in * by lia. by apply encode_string_body_copy. }
    assert (utf8.valid_rune
              (String c (json.encode_string_body (size - 1) 0 s +:+ String dquote EmptyString))
            = true) as ->.
    { unfold utf8.valid_rune in Hr |- *. rewrite Hd'. by rewrite Hd in Hr. }
    rewrite Hd'. cbn [snd]. by rewrite IH by (done || lia).
Qed.

Lemma unquote_Marshal_string (s : string) :
  utf8.ValidString s = true → json.unquote (json.Marshal_string s) = Some s.
Proof.
  intros Hs. unfold json.unquote, json.Marshal_string.
  change (is_byte dquote dquote) with true. cbv iota. by apply unquote_body_encode.
Qed.

Lemma in_range_high (lo hi c : ascii) :
  in_range lo hi c = true → (128 ≤ byte lo)%Z → high_byte c = true.
Proof. intros [? ?]%in_range_bounds ?. unfold high_byte. lia. Qed.

Lemma high_byte_plain (c : ascii) : high_byte c = true → plain_byte c = true.
Proof. unfold high_byte, plain_byte, is_byte, dquote. byte_consts. lia. Qed.

(** The bytes that follow the first of an encoding are high. *)
Lemma DecodeRuneInString_high (c : ascii) (s : string) (r : Z) (size : nat) :
  (byte c <? 128)%Z = false →
  utf8.DecodeRuneInString (String c s) = (r, size) →
  (1 ≤ size)%nat ∧ (size - 1 ≤ String.length s)%nat
  ∧ string_forallb high_byte (string_take (size - 1) s) = true.
Proof.
  intros H0 Hd. unfold utf8.DecodeRuneInString in Hd. rewrite H0 in Hd.
  assert (∀ t : string, (1 ≤ 1)%nat ∧ (1 - 1 ≤ String.length t)%nat
            ∧ string_forallb high_byte (string_take (1 - 1) t) = true) as Hone.
  { intros t. split; [lia|]. split; [simpl; lia|done]. }
  destruct s as [|c1 s1]; [injection Hd as <- <-; apply Hone|].
  destruct (in_range "194" "223" c).
  { destruct (utf8.cont c1) eqn:Hc1; injection Hd as <- <-; [|apply Hone]. simpl.
    rewrite (in_range_high _ _ _ Hc1) by (by vm_compute). split; [lia|]. split; [lia|done]. }
  destruct s1 as [|c2 s2]; [injection Hd as <- <-; apply Hone|].
  destruct (in_range "224" "239" c).
  { destruct (_ && _) eqn:Hc; injection Hd as <- <-; [|apply Hone]. simpl.
    apply andb_prop in Hc as [Hc1 Hc2].
    rewrite (in_range_high _ _ _ Hc1) by (by destruct (is_byte "224" c); vm_compute).
    rewrite (in_range_high _ _ _ Hc2) by (by vm_compute). split; [lia|]. split; [lia|done]. }
  destruct s2 as [|c3 s3]; [injection Hd as <- <-; apply Hone|].
  destruct (_ && _) eqn:Hc; injection Hd as <- <-; [|apply Hone]. simpl.
  apply andb_prop in Hc as [Hc Hc3]. apply andb_prop in Hc as [Hc Hc2].
  apply andb_prop in Hc as [_ Hc1].
  rewrite (in_range_high _ _ _ Hc1) by (by destruct (is_byte "240" c); vm_compute).
  rewrite (in_range_high _ _ _ Hc2), (in_range_high _ _ _ Hc3) by (by vm_compute).
  split; [lia|]. split; [lia|done].
Qed.

Lemma literal_body_ascii (c : ascii) (s : string) :
  (byte c <? utf8.RuneSelf)%Z = true →
  literal_body (json.encode_string_body 0 0 s) →
  literal_body (json.encode_string_body 0 0 (String c s)).
Proof.
  intros Hc IH.
  destruct c as [[] [] [] [] [] [] [] []]; try discriminate Hc; clear Hc; simpl;
    first [by apply literal_body_plain
          |by apply literal_body_escape
          |by apply literal_body_u4].
Qed.

(** What [Marshal] writes between the quotes is the body of a literal. *)
Lemma literal_body_encode_both (n : nat) (s : string) :
  (String.length s < n)%nat →
  (∀ k, (k ≤ String.length s)%nat → string_forallb high_byte (string_take k s) = true →
        literal_body (json.encode_string_body k 0 s))
  ∧ (∀ j, literal_body (json.encode_string_body 0 j s)).
Proof.
  revert s. induction n as [|n IH]; intros s Hlen; [lia|].
  destruct s as [|c s].
  { split; [intros [|k] | intros [|j]]; intros; apply literal_body_nil. }
  simpl in Hlen. destruct (IH s ltac:(lia)) as [IHcopy IHskip].
  assert (∀ k, (k ≤ String.length (String c s))%nat →
            string_forallb high_byte (string_take k (String c s)) = true →
            literal_body (json.encode_string_body k 0 (String c s))) as Hcopy.
  { intros [|k] Hk Hhigh.
    2:{ simpl in Hk, Hhigh. apply andb_prop in Hhigh as [Hc Hhigh].
        cbn [json.encode_string_body]. apply literal_body_plain; [by apply high_byte_plain|].
        apply IHcopy; [lia|done]. }
    clear Hk Hhigh. destruct (byte c <? utf8.RuneSelf)%Z eqn:Hc.
    { apply literal_body_ascii; [done|]. by apply IHcopy; [lia|]. }
    cbn [json.encode_string_body]. rewrite Hc.
    destruct (utf8.DecodeRuneInString (String c s)) as [r size] eqn:Hd.
    destruct (DecodeRuneInString_high c s r size Hc Hd) as (H1 & Hl & Hh).
    destruct (_ && _).
    { apply literal_body_u4; [done|]. by apply IHcopy; [lia|]. }
    destruct (_ || _) eqn:Hsep.
    - assert (r = 8232%Z ∨ r = 8233%Z) as [-> | ->] by lia;
        (apply literal_body_u4; [done|apply IHskip]).
    - apply literal_body_plain; [|by apply IHcopy].
      apply high_byte_plain. unfold high_byte. unfold utf8.RuneSelf in Hc. lia. }
  split; [done|]. intros [|j]; [by apply Hcopy; [lia|]|]. apply IHskip.
Qed.

Lemma literal_body_encode (s : string) : literal_body (json.encode_string_body 0 0 s).
Proof.
  destruct (literal_body_encode_both (S (String.length s)) s ltac:(lia)) as [_ Hskip].
  apply Hskip.
Qed.

(** ** The scanner over a string literal *)

Lemma scan_all_app (sc : json.scanner) (s t : string) :
  scan_all sc (s +:+ t) = scan_all (scan_all sc s) t.
Proof. revert sc. induction s as [|c s IH]; intros sc; simpl; [done | by rewrite IH]. Qed.

Lemma stack_kept_app (sc : json.scanner) (s t : string) :
  stack_kept sc (s +:+ t) = stack_kept sc s && stack_kept (scan_all sc s) t.
Proof.
  revert sc. induction s as [|c s IH]; intros sc; simpl; [done|].
  destruct (json.scan_stack (json.scan sc c)); [done|]. by rewrite IH.
Qed.

Lemma plain_byte_not (c : ascii) :
  plain_byte c = true →
  is_byte dquote c = false ∧ is_byte "\" c = false ∧ (byte c <? 32)%Z = false.
Proof.
  unfold plain_byte. intros [[? ?%negb_true_iff]%andb_prop ?%negb_true_iff]%andb_prop.
  repeat split; try done. lia.
Qed.

Lemma is_hex_plain (c : ascii) : json.is_hex c = true → plain_byte c = true.
Proof.
  unfold json.is_hex, is_digit. rewrite !orb_true_iff.
  intros [[H|H]|H]; apply in_range_bounds in H; revert H;
    unfold plain_byte, is_byte, dquote; byte_consts; lia.
Qed.

Lemma scan_plain_byte (ps : list json.parseState) (c : ascii) :
  plain_byte c = true →
  json.scan (json.Scanner json.stateInString ps) c = json.Scanner json.stateInString ps.
Proof.
  intros (Hq & Hb & Hc)%plain_byte_not. unfold json.scan. cbn [json.scan_step json.scan_stack].
  by rewrite Hq, Hb, Hc.
Qed.

Lemma scan_hex (ps : list json.parseState) (next : json.step) (c : ascii) :
  json.is_hex c = true → json.expect_hex next ps c = json.Scanner next ps.
Proof. intros Hc. unfold json.expect_hex. by rewrite Hc. Qed.

(** The scanner stays in the string over the body of a literal, and its stack
    is not touched. *)
Lemma scan_literal_body (ps : list json.parseState) (body t : string) :
  literal_body body →
  scan_all (json.Scanner json.stateInString ps) (body +:+ t)
  = scan_all (json.Scanner json.stateInString ps) t
  ∧ (ps ≠ [] →
     stack_kept (json.Scanner json.stateInString ps) (body +:+ t)
     = stack_kept (json.Scanner json.stateInString ps) t).
Proof.
  induction 1 as [|c b Hc Hb [IH1 IH2]|e b He Hb [IH1 IH2]
                  |h0 h1 h2 h3 b Hh Hb [IH1 IH2]]; [done| | |].
  - cbn [String.append scan_all stack_kept]. rewrite scan_plain_byte by done.
    split; [done|]. intros Hps. cbn [json.scan_stack]. destruct ps; [done|]. by apply IH2.
  - cbn [String.append scan_all stack_kept].
    assert (json.scan (json.Scanner json.stateInString ps) "\"
            = json.Scanner json.stateInStringEsc ps) as -> by done.
    assert (json.scan (json.Scanner json.stateInStringEsc ps) e
            = json.Scanner json.stateInString ps) as ->.
    { unfold json.scan. cbn [json.scan_step json.scan_stack].
      unfold simple_escape in He. by rewrite He. }
    split; [done|]. intros Hps. cbn [json.scan_stack]. destruct ps; [done|]. by apply IH2.
  - apply andb_prop in Hh as [Hh H3]. apply andb_prop in Hh as [Hh H2].
    apply andb_prop in Hh as [H0 H1].
    cbn [String.append scan_all stack_kept].
    assert (json.scan (json.Scanner json.stateInString ps) "\"
            = json.Scanner json.stateInStringEsc ps) as -> by done.
    assert (json.scan (json.Scanner json.stateInStringEsc ps) "u"
            = json.Scanner json.stateInStringEscU ps) as -> by done.
    assert (json.scan (json.Scanner json.stateInStringEscU ps) h0
            = json.Scanner json.stateInStringEscU1 ps) as -> by (by apply scan_hex).
    assert (json.scan (json.Scanner json.stateInStringEscU1 ps) h1
            = json.Scanner json.stateInStringEscU12 ps) as -> by (by apply scan_hex).
    assert (json.scan (json.Scanner json.stateInStringEscU12 ps) h2
            = json.Scanner json.stateInStringEscU123 ps) as -> by (by apply scan_hex).
    assert (json.scan (json.Scanner json.stateInStringEscU123 ps) h3
            = json.Scanner json.stateInString ps) as -> by (by apply scan_hex).
    split; [done|]. intros Hps. cbn [json.scan_stack]. destruct ps; [done|]. by apply IH2.
Qed.

Lemma rescan_plain_byte (c : ascii) (s : string) :
  plain_byte c = true →
  json.rescan_string (String c s)
  = (String c (json.rescan_string s).1, (json.rescan_string s).2).
Proof.
  intros (Hq & Hb & _)%plain_byte_not. cbn [json.rescan_string]. rewrite Hq, Hb.
  by destruct (json.rescan_string s).
Qed.

Lemma rescan_escape (e : ascii) (s : string) :
  json.rescan_string (String "\" (String e s))
  = (String "\" (String e (json.rescan_string s).1), (json.rescan_string s).2).
Proof.
  cbn [json.rescan_string].
  change (is_byte dquote "\") with false. change (is_byte "\" "\") with true. cbv iota.
  by destruct (json.rescan_string s).
Qed.

(** [rescanLiteral] stops at the closing quote. *)
Lemma rescan_literal_body (body rest : string) :
  literal_body body →
  json.rescan_string (body +:+ String dquote rest) = (body +:+ String dquote EmptyString, rest).
Proof.
  induction 1 as [|c b Hc Hb IH|e b He Hb IH|h0 h1 h2 h3 b Hh Hb IH]; [done| | |].
  - cbn [String.append]. rewrite rescan_plain_byte by done. by rewrite IH.
  - cbn [String.append]. rewrite rescan_escape. by rewrite IH.
  - apply andb_prop in Hh as [Hh H3]. apply andb_prop in Hh as [Hh H2].
    apply andb_prop in Hh as [H0 H1]. apply is_hex_plain in H0, H1, H2, H3.
    cbn [String.append]. rewrite rescan_escape, !rescan_plain_byte by done. by rewrite IH.
Qed.

(** ** Runs of the scanner *)

Lemma scans_nil (sc : json.scanner) : scans sc EmptyString sc.
Proof. by split. Qed.

Lemma scans_app (sc sc' sc'' : json.scanner) (s t : string) :
  scans sc s sc' → scans sc' t sc'' → scans sc (s +:+ t) sc''.
Proof.
  intros [<- H1] [<- H2]. split; [by rewrite scan_all_app|].
  intros Hne. destruct (H1 Hne) as [Hne' Hk1]. destruct (H2 Hne') as [Hne'' Hk2].
  split; [done|]. by rewrite stack_kept_app, Hk1, Hk2.
Qed.

(** One byte that leaves the stack as it is. *)
Lemma scans_byte (st st' : json.step) (ps : list json.parseState) (c : ascii) :
  json.scan (json.Scanner st ps) c = json.Scanner st' ps →
  scans (json.Scanner st ps) (String c EmptyString) (json.Scanner st' ps).
Proof.
  intros Hc. split; [done|]. cbn [json.scan_stack stack_kept]. rewrite Hc.
  cbn [json.scan_stack]. by destruct ps.
Qed.

(** One byte that pushes on the stack. *)
Lemma scans_push (st st' : json.step) (p : json.parseState) (ps : list json.parseState)
    (c : ascii) :
  json.scan (json.Scanner st ps) c = json.Scanner st' (p :: ps) →
  scans (json.Scanner st ps) (String c EmptyString) (json.Scanner st' (p :: ps)).
Proof.
  intros Hc. split; [done|]. cbn [json.scan_stack stack_kept]. by rewrite Hc.
Qed.

Lemma scans_cons (sc sc' sc'' : json.scanner) (c : ascii) (t : string) :
  scans sc (String c EmptyString) sc' → scans sc' t sc'' → scans sc (String c t) sc''.
Proof. apply (scans_app sc sc' sc'' (String c EmptyString) t). Qed.

Lemma scans_literal_body (ps : list json.parseState) (body : string) :
  literal_body body →
  scans (json.Scanner json.stateInString ps) body (json.Scanner json.stateInString ps).
Proof.
  intros Hb. destruct (scan_literal_body ps body EmptyString Hb) as [H1 H2].
  rewrite str_app_nil_r in H1, H2. split; [done|].
  cbn [json.scan_stack]. intros Hps. split; [done|]. by rewrite H2.
Qed.

(** ** The scanner over a number *)

Lemma digit_not_bytes (c : ascii) :
  is_digit c = true →
  json.isSpace c = false ∧ is_byte "]" c = false ∧ is_byte "{" c = false
  ∧ is_byte "[" c = false ∧ is_byte dquote c = false ∧ is_byte "-" c = false
  ∧ is_byte "t" c = false ∧ is_byte "f" c = false ∧ is_byte "n" c = false.
Proof.
  intros Hc%is_digit_bounds. unfold json.isSpace, is_byte, dquote. byte_consts.
  repeat split; lia.
Qed.

Lemma scans_digits (st : json.step) (ps : list json.parseState) (ds : string) :
  st = json.state1 ∨ st = json.stateDot0 ∨ st = json.stateE0 →
  all_digits ds = true →
  scans (json.Scanner st ps) ds (json.Scanner st ps).
Proof.
  intros Hst. induction ds as [|c ds IH]; [intros; apply scans_nil|].
  simpl. intros [Hc Hds]%andb_prop. eapply scans_cons; [|by apply IH].
  apply scans_byte. unfold json.scan. cbn [json.scan_step json.scan_stack].
  destruct Hst as [->|[->| ->]]; by rewrite Hc.
Qed.

(** The integer part, from the beginning of a value or after the sign. *)
Lemma scans_int (st : json.step) (ps : list json.parseState) (int : string) :
  begins_value st = true ∨ st = json.stateNeg →
  digits1 int = true →
  (int = "0" ∨ ∃ c int', int = String c int' ∧ is_byte "0" c = false) →
  ∃ st', (st' = json.state0 ∨ st' = json.state1)
         ∧ scans (json.Scanner st ps) int (json.Scanner st' ps).
Proof.
  intros Hst [Hint _]%andb_prop [->|(c & int' & -> & Hc)].
  - exists json.state0. split; [by left|]. apply scans_byte.
    destruct Hst as [Hst| ->]; [|done]. by destruct st.
  - exists json.state1. split; [by right|].
    simpl in Hint. apply andb_prop in Hint as [Hd Hint].
    eapply scans_cons; [|apply scans_digits; [by left|done]].
    apply scans_byte.
    assert (in_range "1" "9" c = true) as H19.
    { pose proof (is_digit_bounds _ Hd). unfold is_byte in Hc. revert Hc.
      unfold in_range. byte_consts. lia. }
    destruct (digit_not_bytes c Hd) as (Hsp & Hrb & Hlc & Hlb & Hq & Hm & Ht & Hf & Hn).
    destruct Hst as [Hst| ->].
    + destruct st; try done; unfold json.scan, json.do_stateBeginValue;
        cbn [json.scan_step json.scan_stack];
        by rewrite ?Hsp, ?Hrb, ?Hlc, ?Hlb, ?Hq, ?Hm, ?Hc, ?Ht, ?Hf, ?Hn, ?H19.
    + unfold json.scan. cbn [json.scan_step json.scan_stack]. by rewrite Hc, H19.
Qed.

(** The fraction and the exponent. *)
Lemma scans_frac_exp (st : json.step) (ps : list json.parseState) (frac exp : string)
    (esign : bool) :
  st = json.state0 ∨ st = json.state1 →
  all_digits frac = true → all_digits exp = true →
  ∃ st', number_ended st' = true
    ∧ scans (json.Scanner st ps)
        ((if bool_decide (frac = EmptyString) then "" else "." +:+ frac)
         +:+ (if bool_decide (exp = EmptyString) then ""
              else "e" +:+ (if esign then "-" else "+") +:+ exp))
        (json.Scanner st' ps).
Proof.
  intros Hst Hfrac Hexp.
  assert (∀ st0, st0 = json.state0 ∨ st0 = json.state1 ∨ st0 = json.stateDot0 →
            ∃ st', number_ended st' = true
              ∧ scans (json.Scanner st0 ps)
                  (if bool_decide (exp = EmptyString) then ""
                   else "e" +:+ (if esign then "-" else "+") +:+ exp)
                  (json.Scanner st' ps)) as Hep.
  { intros st0 Hst0. destruct exp as [|d exp'].
    { exists st0. split; [by destruct Hst0 as [->|[->| ->]]|apply scans_nil]. }
    rewrite bool_decide_eq_false_2 by done.
    simpl in Hexp. apply andb_prop in Hexp as [Hd Hexp].
    exists json.stateE0. split; [done|].
    cbn [String.append]. eapply (scans_cons _ (json.Scanner json.stateE ps)).
    { apply scans_byte. by destruct Hst0 as [->|[->| ->]]. }
    destruct esign; cbn [String.append];
      (eapply (scans_cons _ (json.Scanner json.stateESign ps)); [by apply scans_byte|]);
      (eapply (scans_cons _ (json.Scanner json.stateE0 ps));
         [|apply scans_digits; [by right; right|done]]);
      apply scans_byte; unfold json.scan, json.do_stateESign;
      cbn [json.scan_step json.scan_stack]; by rewrite Hd. }
  destruct frac as [|d frac'].
  { cbn [bool_decide decide_rel String.append]. apply Hep.
    destruct Hst as [->| ->]; auto. }
  rewrite (bool_decide_eq_false_2 (String d frac' = EmptyString)) by done.
  simpl in Hfrac. apply andb_prop in Hfrac as [Hd Hfrac].
  destruct (Hep json.stateDot0) as (st' & Hend & Hscan); [auto|].
  exists st'. split; [done|].
  rewrite str_app_assoc. cbn [String.append].
  eapply (scans_cons _ (json.Scanner json.stateDot ps)).
  { apply scans_byte. by destruct Hst as [->| ->]. }
  eapply (scans_cons _ (json.Scanner json.stateDot0 ps)).
  { apply scans_byte. unfold json.scan. cbn [json.scan_step json.scan_stack]. by rewrite Hd. }
  eapply scans_app; [apply scans_digits; [auto|done]|done].
Qed.

Lemma scans_number (st : json.step) (ps : list json.parseState) (b : string) :
  begins_value st = true → number_text b →
  ∃ st', number_ended st' = true ∧ scans (json.Scanner st ps) b (json.Scanner st' ps).
Proof.
  intros Hst [neg int frac exp esign Hint Hz Hfrac Hexp]. unfold number_parts.
  assert (∃ st0, (begins_value st0 = true ∨ st0 = json.stateNeg)
            ∧ scans (json.Scanner st ps) (if neg then "-" else "") (json.Scanner st0 ps))
    as (st0 & Hst0 & Hsign).
  { destruct neg.
    - exists json.stateNeg. split; [by right|]. apply scans_byte. by destruct st.
    - exists st. split; [by left|apply scans_nil]. }
  destruct (scans_int st0 ps int Hst0 Hint Hz) as (st1 & Hst1 & Hscan1).
  destruct (scans_frac_exp st1 ps frac exp esign Hst1 Hfrac Hexp) as (st2 & Hst2 & Hscan2).
  exists st2. split; [done|].
  eapply scans_app; [done|]. eapply scans_app; done.
Qed.

(** ** The scanner over a JSON text *)

(** Induction on the texts, with the hypothesis for the elements and the
    members' values. *)
Lemma json_text_nested_ind (P : string → Prop) :
  P "null" →
  (∀ b, P (json.Marshal_bool b)) →
  (∀ b, number_text b → P b) →
  (∀ s, utf8.ValidString s = true → P (json.Marshal_string s)) →
  (∀ bs, Forall json_text bs → Forall P bs → P ("[" +:+ json.join "," bs +:+ "]")) →
  (∀ kbs, Forall (fun kb => utf8.ValidString kb.1 = true ∧ json_text kb.2) kbs →
          Forall (fun kb => P kb.2) kbs →
          P ("{" +:+ json.join "," (member_text <$> kbs) +:+ "}")) →
  ∀ b, json_text b → P b.
Proof.
  intros Hnull Hbool Hnum Hstr Harr Hobj. fix IH 2. intros b Hb.
  destruct Hb as [|v|b Hn|s Hs|bs Hbs|kbs Hkbs]; [done|done|by apply Hnum|by apply Hstr| |].
  - apply Harr; [done|]. induction Hbs as [|b bs Hb Hbs IHbs]; constructor; [by apply IH|done].
  - apply Hobj; [done|].
    induction Hkbs as [|kb kbs [Hk Hb] Hkbs IHkbs]; constructor; [by apply IH|done].
Qed.

Lemma delimiter_cases (c : ascii) :
  delimiter c = true →
  c ∈ [" "; "009"; "013"; "010"; ","; "]"; "}"; ":"]%char.
Proof.
  unfold delimiter. rewrite !orb_true_iff.
  intros [[[[Hsp|Hc]|Hc]|Hc]|Hc]; [apply isSpace_true in Hsp as [->|[->|[->| ->]]]|..];
    try apply is_byte_true in Hc as ->; set_solver.
Qed.

Lemma value_ended_number (st : json.step) (ps : list json.parseState) :
  number_ended st = true → value_ended (json.Scanner st ps) ps.
Proof.
  intros Hst. split; [done|]. intros c Hc%delimiter_cases.
  repeat (apply elem_of_cons in Hc as [->|Hc]; [by destruct st|]).
  by apply elem_of_nil in Hc.
Qed.

Lemma value_ended_stateEndValue (ps : list json.parseState) :
  value_ended (json.Scanner json.stateEndValue ps) ps.
Proof. by split. Qed.

Lemma value_ended_popParseState (ps : list json.parseState) :
  value_ended (json.popParseState ps) ps.
Proof. destruct ps; by split. Qed.

(** One byte that leaves something on the stack. *)
Lemma scans_step (sc sc' : json.scanner) (c : ascii) :
  json.scan sc c = sc' → json.scan_stack sc' ≠ [] → scans sc (String c EmptyString) sc'.
Proof.
  intros <- Hne. split; [done|]. intros _. split; [done|]. simpl.
  by destruct (json.scan_stack (json.scan sc c)).
Qed.

(** The last byte of a value: the stack may be empty after it when it was
    before the value. *)
Lemma scans_close (sc sc' sc'' : json.scanner) (s : string) (c : ascii) :
  scans sc s sc' → json.scan sc' c = sc'' →
  (json.scan_stack sc ≠ [] → json.scan_stack sc'' ≠ []) →
  scans sc (s +:+ String c EmptyString) sc''.
Proof.
  intros [<- H1] <- Hne. split; [by rewrite scan_all_app|].
  intros Hsc. destruct (H1 Hsc) as [_ Hk]. specialize (Hne Hsc). split; [done|].
  rewrite stack_kept_app, Hk. simpl.
  by destruct (json.scan_stack (json.scan (scan_all sc s) c)).
Qed.

Lemma popParseState_stack (ps : list json.parseState) :
  json.scan_stack (json.popParseState ps) = ps.
Proof. by destruct ps. Qed.

(** A string literal, from the beginning of a value or of a key. *)
Lemma scans_Marshal_string (st : json.step) (ps : list json.parseState) (s : string) :
  begins_value st = true ∨ st = json.stateBeginString ∨ st = json.stateBeginStringOrEmpty →
  scans (json.Scanner st ps) (json.Marshal_string s) (json.Scanner json.stateEndValue ps).
Proof.
  intros Hst. unfold json.Marshal_string.
  eapply (scans_cons _ (json.Scanner json.stateInString ps)).
  { apply scans_byte. destruct Hst as [Hst|[->| ->]]; [by destruct st|done..]. }
  eapply scans_app; [apply scans_literal_body, literal_body_encode|].
  by apply scans_byte.
Qed.

(** The elements of an array after the first byte of the first. *)
Lemma scans_elements (P : string → Prop) (ps : list json.parseState) (bs : list string) :
  (∀ b, P b → ∀ st ps, begins_value st = true →
     ∃ sc', scans (json.Scanner st ps) b sc' ∧ value_ended sc' ps) →
  Forall P bs →
  ∃ sc', scans (json.Scanner json.stateBeginValueOrEmpty (json.parseArrayValue :: ps))
           (json.join "," bs) sc'
         ∧ json.scan sc' "]" = json.popParseState ps.
Proof.
  intros HP Hbs. destruct bs as [|b bs]; [eexists; split; [apply scans_nil|done]|].
  cut (∀ st, begins_value st = true →
         ∃ sc', scans (json.Scanner st (json.parseArrayValue :: ps)) (json.join "," (b :: bs)) sc'
                ∧ value_ended sc' (json.parseArrayValue :: ps)).
  { intros Hcut. destruct (Hcut json.stateBeginValueOrEmpty eq_refl) as (sc' & Hsc & _ & Hend).
    exists sc'. split; [done|]. by rewrite Hend. }
  revert b Hbs. induction bs as [|b2 bs IH]; intros b Hbs st Hst.
  { apply (HP b); [by apply Forall_inv in Hbs|done]. }
  destruct (HP b (Forall_inv Hbs) st (json.parseArrayValue :: ps) Hst) as (sc1 & Hsc1 & Hst1 & Hend1).
  destruct (IH b2 (Forall_inv_tail Hbs) json.stateBeginValue eq_refl) as (sc2 & Hsc2 & Hend2).
  exists sc2. split; [|done].
  change (json.join "," (b :: b2 :: bs)) with (b +:+ "," +:+ json.join "," (b2 :: bs)).
  eapply scans_app; [done|]. eapply scans_cons; [|done].
  apply scans_step; [|done]. by rewrite Hend1.
Qed.

(** The members of an object after the first byte of the first key. *)
Lemma scans_members (P : string → Prop) (ps : list json.parseState)
    (kbs : list (string * string)) :
  (∀ b, P b → ∀ st ps, begins_value st = true →
     ∃ sc', scans (json.Scanner st ps) b sc' ∧ value_ended sc' ps) →
  Forall (fun kb => P kb.2) kbs →
  ∃ sc', scans (json.Scanner json.stateBeginStringOrEmpty (json.parseObjectKey :: ps))
           (json.join "," (member_text <$> kbs)) sc'
         ∧ json.scan sc' "}" = json.popParseState ps.
Proof.
  intros HP Hkbs. destruct kbs as [|kb kbs]; [eexists; split; [apply scans_nil|done]|].
  cut (∀ st, st = json.stateBeginString ∨ st = json.stateBeginStringOrEmpty →
         ∃ sc', scans (json.Scanner st (json.parseObjectKey :: ps))
                  (json.join "," (member_text <$> kb :: kbs)) sc'
                ∧ value_ended sc' (json.parseObjectValue :: ps)).
  { intros Hcut. destruct (Hcut json.stateBeginStringOrEmpty) as (sc' & Hsc & _ & Hend); [auto|].
    exists sc'. split; [done|]. by rewrite Hend. }
  assert (∀ kb st, P kb.2 → st = json.stateBeginString ∨ st = json.stateBeginStringOrEmpty →
            ∃ sc', scans (json.Scanner st (json.parseObjectKey :: ps)) (member_text kb) sc'
                   ∧ value_ended sc' (json.parseObjectValue :: ps)) as Hmember.
  { intros [k b] st Hb Hst.
    destruct (HP b Hb json.stateBeginValue (json.parseObjectValue :: ps) eq_refl)
      as (sc' & Hsc & Hend).
    exists sc'. split; [|done]. unfold member_text. cbn [fst snd].
    eapply scans_app; [apply scans_Marshal_string; auto|].
    eapply scans_cons; [|done]. by apply scans_step. }
  revert kb Hkbs. induction kbs as [|kb2 kbs IH]; intros kb Hkbs st Hst.
  { apply Hmember; [by apply Forall_inv in Hkbs|done]. }
  destruct (Hmember kb st (Forall_inv Hkbs) Hst) as (sc1 & Hsc1 & Hst1 & Hend1).
  destruct (IH kb2 (Forall_inv_tail Hkbs) json.stateBeginString) as (sc2 & Hsc2 & Hend2); [auto|].
  exists sc2. split; [|done].
  change (json.join "," (member_text <$> kb :: kb2 :: kbs))
    with (member_text kb +:+ "," +:+ json.join "," (member_text <$> kb2 :: kbs)).
  eapply scans_app; [done|]. eapply scans_cons; [|done].
  apply scans_step; [|done]. by rewrite Hend1.
Qed.

(** The scanner reads a JSON text as one value. *)
Lemma scans_json_text (b : string) :
  json_text b →
  ∀ st ps, begins_value st = true →
    ∃ sc', scans (json.Scanner st ps) b sc' ∧ value_ended sc' ps.
Proof.
  intros Hb. induction Hb as [|v|b Hn|s Hs|bs Hbs IH|kbs Hkbs IH] using json_text_nested_ind;
    intros st ps Hst.
  - exists (json.Scanner json.stateEndValue ps). split; [|apply value_ended_stateEndValue].
    eapply (scans_cons _ (json.Scanner json.stateN ps)); [apply scans_byte; by destruct st|].
    eapply (scans_cons _ (json.Scanner json.stateNu ps)); [by apply scans_byte|].
    eapply (scans_cons _ (json.Scanner json.stateNul ps)); [by apply scans_byte|].
    by apply scans_byte.
  - exists (json.Scanner json.stateEndValue ps). split; [|apply value_ended_stateEndValue].
    destruct v; simpl.
    + eapply (scans_cons _ (json.Scanner json.stateT ps)); [apply scans_byte; by destruct st|].
      eapply (scans_cons _ (json.Scanner json.stateTr ps)); [by apply scans_byte|].
      eapply (scans_cons _ (json.Scanner json.stateTru ps)); [by apply scans_byte|].
      by apply scans_byte.
    + eapply (scans_cons _ (json.Scanner json.stateF ps)); [apply scans_byte; by destruct st|].
      eapply (scans_cons _ (json.Scanner json.stateFa ps)); [by apply scans_byte|].
      eapply (scans_cons _ (json.Scanner json.stateFal ps)); [by apply scans_byte|].
      eapply (scans_cons _ (json.Scanner json.stateFals ps)); [by apply scans_byte|].
      by apply scans_byte.
  - destruct (scans_number st ps b Hst Hn) as (st' & Hend & Hsc).
    eexists. split; [done|]. by apply value_ended_number.
  - eexists. split; [apply scans_Marshal_string; auto|apply value_ended_stateEndValue].
  - destruct (scans_elements _ ps bs (fun b Hb => Hb) IH) as (sc' & Hsc & Hclose).
    exists (json.popParseState ps). split; [|apply value_ended_popParseState].
    change ("[" +:+ json.join "," bs +:+ "]") with (String "[" (json.join "," bs) +:+ "]").
    eapply scans_close; [|done|rewrite popParseState_stack; by cbn].
    eapply scans_cons; [|done]. apply scans_push. by destruct st.
  - destruct (scans_members _ ps kbs (fun b Hb => Hb) IH) as (sc' & Hsc & Hclose).
    exists (json.popParseState ps). split; [|apply value_ended_popParseState].
    change ("{" +:+ json.join "," (member_text <$> kbs) +:+ "}")
      with (String "{" (json.join "," (member_text <$> kbs)) +:+ "}").
    eapply scans_close; [|done|rewrite popParseState_stack; by cbn].
    eapply scans_cons; [|done]. apply scans_push. by destruct st.
Qed.

(** ** [checkValid] and the value at the head of a text *)

Lemma scan_all_error (ctx : string) (ps : list json.parseState) (s : string) :
  scan_all (json.Scanner (json.stateError ctx) ps) s = json.Scanner (json.stateError ctx) ps.
Proof. induction s as [|c s IH]; simpl; [done|]. exact IH. Qed.

Lemma checkValid_from_scan_all (sc : json.scanner) (n : nat) (data : string) :
  json.scan_step (json.scan (scan_all sc data) " ") = json.stateEndTop →
  json.checkValid_from sc n data = None.
Proof.
  revert sc n. induction data as [|c data IH]; intros sc n Hend.
  { simpl in *. rewrite Hend. by destruct (json.scan_step sc). }
  cbn [json.checkValid_from scan_all] in *.
  destruct (json.scan sc c) as [st ps] eqn:Hsc. cbn [json.scan_step].
  destruct st; try (by apply IH).
  by rewrite scan_all_error in Hend.
Qed.

Lemma checkValid_json_text (b : string) : json_text b → json.checkValid b = None.
Proof.
  intros Hb. destruct (scans_json_text b Hb json.stateBeginValue [] eq_refl)
    as (sc' & [Hsc _] & _ & Hend).
  apply checkValid_from_scan_all. fold json.scan_init in Hsc. rewrite Hsc.
  by rewrite Hend.
Qed.

Lemma string_forallb_app (P : ascii → bool) (s t : string) :
  string_forallb P (s +:+ t) = string_forallb P s && string_forallb P t.
Proof. induction s as [|c s IH]; simpl; [done|]. by rewrite IH, andb_assoc. Qed.

Lemma all_digits_number_bytes (ds : string) :
  all_digits ds = true → string_forallb json.is_number_byte ds = true.
Proof.
  induction ds as [|c ds IH]; [done|]. simpl. intros [Hc Hds]%andb_prop.
  unfold json.is_number_byte at 1. rewrite Hc. simpl. by apply IH.
Qed.

Lemma number_text_number_bytes (b : string) :
  number_text b → string_forallb json.is_number_byte b = true.
Proof.
  intros [neg int frac exp esign [Hint _]%andb_prop _ Hfrac Hexp]. unfold number_parts.
  rewrite !string_forallb_app, (all_digits_number_bytes int Hint).
  assert (string_forallb json.is_number_byte (if neg then "-" else "") = true) as ->
    by (by destruct neg).
  assert (string_forallb json.is_number_byte
            (if bool_decide (frac = EmptyString) then "" else "." +:+ frac) = true) as ->.
  { case_bool_decide; [done|]. cbn [String.append string_forallb].
    by rewrite (all_digits_number_bytes frac Hfrac). }
  case_bool_decide; [done|].
  destruct esign; cbn [String.append string_forallb];
    by rewrite (all_digits_number_bytes exp Hexp).
Qed.

Lemma delimiter_not_number_byte (c : ascii) :
  delimiter c = true → json.is_number_byte c = false.
Proof.
  intros Hc%delimiter_cases.
  repeat (apply elem_of_cons in Hc as [->|Hc]; [done|]). by apply elem_of_nil in Hc.
Qed.

Lemma rescan_number_delimited (s rest : string) :
  string_forallb json.is_number_byte s = true → delimited rest = true →
  json.rescan_number (s +:+ rest) = (s, rest).
Proof.
  intros Hs Hrest. induction s as [|c s IH].
  - destruct rest as [|c rest]; [done|]. simpl in *.
    by rewrite delimiter_not_number_byte.
  - simpl in Hs. apply andb_prop in Hs as [Hc Hs]. simpl. rewrite Hc. by rewrite IH.
Qed.

(** [skip] ends with the byte that empties the stack. *)
Lemma skip_from_scans (sc sc' : json.scanner) (s rest : string) (c : ascii) :
  scans sc s sc' → json.scan_stack sc ≠ [] → json.scan_stack (json.scan sc' c) = [] →
  json.skip_from sc (s +:+ String c rest) = (s +:+ String c EmptyString, rest).
Proof.
  intros [<- Hk] Hne Hc. destruct (Hk Hne) as [_ Hkept]. clear Hk Hne.
  revert sc Hkept Hc. induction s as [|a s IH]; intros sc Hkept Hc.
  { simpl in *. by rewrite Hc. }
  simpl in *. destruct (json.scan_stack (json.scan sc a)) eqn:Ha; [done|].
  by rewrite (IH (json.scan sc a)).
Qed.

(** A JSON text starts with a byte that starts a value. *)
Lemma json_text_start (b : string) :
  json_text b → ∃ c t, b = String c t ∧ value_start c = true.
Proof.
  intros [|v|b' Hn|s Hs|bs Hbs|kbs Hkbs].
  - by eexists _, _.
  - destruct v; by eexists _, _.
  - destruct Hn as [neg int frac exp esign [Hint Hne]%andb_prop _ _ _]. unfold number_parts.
    destruct neg; [by eexists _, _|]. destruct int as [|c int]; [done|].
    simpl in Hint. apply andb_prop in Hint as [Hc _].
    eexists _, _. split; [done|]. unfold value_start. rewrite Hc. by rewrite !orb_true_r.
  - by eexists _, _.
  - by eexists _, _.
  - by eexists _, _.
Qed.

Lemma value_start_not (c : ascii) :
  value_start c = true →
  json.isSpace c = false ∧ is_byte "]" c = false ∧ is_byte "}" c = false
  ∧ is_byte "," c = false ∧ is_byte ":" c = false.
Proof.
  unfold value_start. rewrite !orb_true_iff.
  intros [[[[[[[H|H]|H]|H]|H]|H]|H]|H]; try (apply is_byte_true in H as ->; done).
  pose proof (is_digit_bounds _ H). unfold json.isSpace, is_byte. byte_consts.
  repeat split; lia.
Qed.

Lemma skip_space_json_text (b rest : string) :
  json_text b → json.skip_space (b +:+ rest) = b +:+ rest.
Proof.
  intros (c & t & -> & Hc)%json_text_start. apply value_start_not in Hc as [Hc _].
  simpl. by rewrite Hc.
Qed.

Lemma skip_space_delimiter (c : ascii) (rest : string) :
  json.isSpace c = false → json.skip_space (String c rest) = String c rest.
Proof. intros Hc. simpl. by rewrite Hc. Qed.

(** [raw_value] takes a JSON text off the head of the input. *)
Lemma raw_value_json_text (b rest : string) :
  json_text b → delimited rest = true → json.raw_value (b +:+ rest) = (b, rest).
Proof.
  intros Hb Hrest. destruct Hb as [|v|b' Hn|s Hs|bs Hbs|kbs Hkbs].
  - done.
  - by destruct v.
  - pose proof (number_text_number_bytes b' Hn) as Hbytes.
    destruct (json_text_start b' (json_text_number b' Hn)) as (c & t & -> & Hc).
    simpl in Hbytes. apply andb_prop in Hbytes as [Hcb Hbytes].
    cbn [String.append json.raw_value].
    assert (is_byte "[" c || is_byte "{" c = false) as ->.
    { destruct (is_byte "[" c) eqn:H1; [by apply is_byte_true in H1 as ->|].
      destruct (is_byte "{" c) eqn:H2; [by apply is_byte_true in H2 as ->|done]. }
    assert (is_byte dquote c = false) as ->.
    { destruct (is_byte dquote c) eqn:H1; [by apply is_byte_true in H1 as ->|done]. }
    assert (is_byte "t" c || is_byte "n" c = false) as ->.
    { destruct (is_byte "t" c) eqn:H1; [by apply is_byte_true in H1 as ->|].
      destruct (is_byte "n" c) eqn:H2; [by apply is_byte_true in H2 as ->|done]. }
    assert (is_byte "f" c = false) as ->.
    { destruct (is_byte "f" c) eqn:H1; [by apply is_byte_true in H1 as ->|done]. }
    by rewrite rescan_number_delimited.
  - unfold json.Marshal_string. cbn [String.append json.raw_value].
    change (is_byte "[" dquote || is_byte "{" dquote) with false.
    change (is_byte dquote dquote) with true. cbv iota.
    rewrite str_app_assoc. cbn [String.append].
    by rewrite rescan_literal_body by apply literal_body_encode.
  - destruct (scans_elements json_text [] bs scans_json_text Hbs) as (sc' & Hsc & Hclose).
    cbn [String.append json.raw_value].
    change (is_byte "[" "[" || is_byte "{" "[") with true. cbv iota.
    cbn [json.skip_from].
    change (json.scan json.scan_init "[")
      with (json.Scanner json.stateBeginValueOrEmpty [json.parseArrayValue]).
    cbn [json.scan_stack]. rewrite str_app_assoc. cbn [String.append].
    rewrite (skip_from_scans _ sc'); [done|done|done|by rewrite Hclose].
  - assert (Forall (fun kb : string * string => json_text kb.2) kbs) as Hvals.
    { eapply Forall_impl; [exact Hkbs|]. by intros kb [_ ?]. }
    destruct (scans_members json_text [] kbs scans_json_text Hvals) as (sc' & Hsc & Hclose).
    cbn [String.append json.raw_value].
    change (is_byte "[" "{" || is_byte "{" "{") with true. cbv iota.
    cbn [json.skip_from].
    change (json.scan json.scan_init "{")
      with (json.Scanner json.stateBeginStringOrEmpty [json.parseObjectKey]).
    cbn [json.scan_stack]. rewrite str_app_assoc. cbn [String.append].
    rewrite (skip_from_scans _ sc'); [done|done|done|by rewrite Hclose].
Qed.

(** ** [json.Unmarshal] of the texts *)

Lemma Unmarshal_string_Marshal_string (s : string) :
  utf8.ValidString s = true → json.Unmarshal_string (json.Marshal_string s) = Ok s.
Proof.
  intros Hs. pose proof (json_text_string s Hs) as Ht.
  unfold json.Unmarshal_string. rewrite (checkValid_json_text _ Ht).
  pose proof (raw_value_json_text _ EmptyString Ht eq_refl) as Hraw.
  rewrite str_app_nil_r in Hraw.
  change (json.skip_space (json.Marshal_string s)) with (json.Marshal_string s).
  unfold json.Marshal_string at 1. change (is_byte dquote dquote) with true. cbv iota.
  fold (json.Marshal_string s). rewrite Hraw. cbn [fst]. by rewrite unquote_Marshal_string.
Qed.

Lemma join_cons_app (b : string) (bs : list string) (t : string) :
  ∃ rest, json.join "," (b :: bs) +:+ t = b +:+ rest
          ∧ rest = match bs with
                   | [] => t
                   | _ => String "," (json.join "," bs +:+ t)
                   end.
Proof.
  destruct bs as [|b2 bs]; [by eexists|].
  eexists. split; [|done].
  change (json.join "," (b :: b2 :: bs)) with (b +:+ "," +:+ json.join "," (b2 :: bs)).
  by rewrite !str_app_assoc.
Qed.

Lemma json_text_length (b : string) : json_text b → (1 ≤ String.length b)%nat.
Proof. intros (c & t & -> & _)%json_text_start. simpl. lia. Qed.

Lemma join_length (bs : list string) :
  Forall json_text bs → (length bs ≤ String.length (json.join "," bs))%nat.
Proof.
  induction 1 as [|b bs Hb Hbs IH]; [done|].
  apply json_text_length in Hb. destruct bs as [|b2 bs]; [simpl; lia|].
  change (json.join "," (b :: b2 :: bs)) with (b +:+ "," +:+ json.join "," (b2 :: bs)).
  rewrite !str_length_app. simpl in *. lia.
Qed.

(** The elements of the text of an array. *)
Lemma array_values_join (fuel : nat) (bs : list string) :
  bs ≠ [] → Forall json_text bs → (length bs ≤ fuel)%nat →
  json.array_values fuel (json.join "," bs +:+ "]") = Some bs.
Proof.
  revert fuel. induction bs as [|b bs IH]; intros fuel Hne Hbs Hfuel; [done|].
  destruct fuel as [|fuel]; [simpl in Hfuel; lia|].
  pose proof (Forall_inv Hbs) as Hb. pose proof (Forall_inv_tail Hbs) as Hbs'.
  destruct (join_cons_app b bs "]") as (rest & -> & Hrest).
  cbn [json.array_values].
  rewrite (raw_value_json_text b rest Hb) by (rewrite Hrest; by destruct bs).
  destruct bs as [|b2 bs]; [by rewrite Hrest|].
  rewrite Hrest. cbn [json.skip_space]. change (json.isSpace ",") with false. cbv iota.
  change (is_byte "," ",") with true. cbv iota.
  destruct (join_cons_app b2 bs "]") as (rest2 & Hj & _). rewrite Hj.
  rewrite (skip_space_json_text b2 rest2) by (by apply Forall_inv in Hbs'). rewrite <-Hj.
  rewrite IH; [done|done|done|simpl in *; lia].
Qed.

Lemma Unmarshal_slice_join (bs : list string) :
  Forall json_text bs → json.Unmarshal_slice ("[" +:+ json.join "," bs +:+ "]") = Ok bs.
Proof.
  intros Hbs. unfold json.Unmarshal_slice.
  rewrite (checkValid_json_text _ (json_text_array bs Hbs)).
  cbn [String.append json.skip_space]. change (json.isSpace "[") with false. cbv iota.
  change (is_byte "[" "[") with true. cbv iota.
  destruct bs as [|b bs]; [done|].
  destruct (join_cons_app b bs "]") as (rest & Hj & _).
  destruct (json_text_start b (Forall_inv Hbs)) as (c & t & Hb & Hc).
  assert (json.skip_space (json.join "," (b :: bs) +:+ "]") = String c (t +:+ rest)) as ->.
  { rewrite Hj, (skip_space_json_text b rest) by (by apply Forall_inv in Hbs). by rewrite Hb. }
  destruct (value_start_not c Hc) as (_ & -> & _).
  assert (String c (t +:+ rest) = json.join "," (b :: bs) +:+ "]") as -> by (by rewrite Hj, Hb).
  rewrite array_values_join; [done|done|done|].
  pose proof (join_length (b :: bs) Hbs). rewrite str_length_app. lia.
Qed.

Lemma json_text_key (k : string) : utf8.ValidString k = true → json_text (json.Marshal_string k).
Proof. apply json_text_string. Qed.

(** The members of the text of an object. *)
Lemma object_members_join (fuel : nat) (kbs : list (string * string)) :
  kbs ≠ [] → Forall (fun kb => utf8.ValidString kb.1 = true ∧ json_text kb.2) kbs →
  (length kbs ≤ fuel)%nat →
  json.object_members fuel (json.join "," (member_text <$> kbs) +:+ "}") = Some kbs.
Proof.
  revert fuel. induction kbs as [|[k b] kbs IH]; intros fuel Hne Hkbs Hfuel; [done|].
  destruct fuel as [|fuel]; [simpl in Hfuel; lia|].
  pose proof (Forall_inv Hkbs) as [Hk Hb]. pose proof (Forall_inv_tail Hkbs) as Hkbs'.
  cbn [fst snd] in Hk, Hb. rewrite fmap_cons.
  destruct (join_cons_app (member_text (k, b)) (member_text <$> kbs) "}") as (rest & -> & Hrest).
  unfold member_text at 1. cbn [fst snd]. rewrite !str_app_assoc. cbn [String.append].
  cbn [json.object_members].
  rewrite (raw_value_json_text _ _ (json_text_key k Hk)) by done.
  rewrite unquote_Marshal_string by done.
  cbn [json.skip_space]. change (json.isSpace ":") with false. cbv iota.
  change (is_byte ":" ":") with true. cbv iota.
  rewrite (skip_space_json_text b rest Hb).
  rewrite (raw_value_json_text b rest Hb) by (rewrite Hrest; by destruct kbs).
  destruct kbs as [|kb2 kbs]; [by rewrite Hrest|].
  rewrite fmap_cons in Hrest. rewrite Hrest.
  cbn [json.skip_space]. change (json.isSpace ",") with false. cbv iota.
  change (is_byte "," ",") with true. cbv iota.
  assert (json.skip_space (json.join "," (member_text kb2 :: (member_text <$> kbs)) +:+ "}")
          = json.join "," (member_text <$> kb2 :: kbs) +:+ "}") as ->.
  { rewrite fmap_cons.
    destruct (join_cons_app (member_text kb2) (member_text <$> kbs) "}") as (rest2 & -> & _).
    by unfold member_text, json.Marshal_string. }
  rewrite IH; [done|done|done|simpl in *; lia].
Qed.

Lemma members_length (kbs : list (string * string)) :
  (length kbs ≤ String.length (json.join "," (member_text <$> kbs)))%nat.
Proof.
  induction kbs as [|kb kbs IH]; [done|]. rewrite fmap_cons.
  assert (1 ≤ String.length (member_text kb))%nat by (unfold member_text; simpl; lia).
  destruct kbs as [|kb2 kbs]; [simpl; lia|]. rewrite fmap_cons in *.
  change (json.join "," (member_text kb :: member_text kb2 :: (member_text <$> kbs)))
    with (member_text kb +:+ "," +:+ json.join "," (member_text kb2 :: (member_text <$> kbs))).
  rewrite !str_length_app. simpl in *. lia.
Qed.

Lemma Unmarshal_map_join (kbs : list (string * string)) :
  Forall (fun kb => utf8.ValidString kb.1 = true ∧ json_text kb.2) kbs →
  json.Unmarshal_map ("{" +:+ json.join "," (member_text <$> kbs) +:+ "}")
  = Ok (list_to_map (reverse kbs)).
Proof.
  intros Hkbs. unfold json.Unmarshal_map.
  rewrite (checkValid_json_text _ (json_text_object kbs Hkbs)).
  cbn [String.append json.skip_space]. change (json.isSpace "{") with false. cbv iota.
  change (is_byte "{" "{") with true. cbv iota.
  destruct kbs as [|kb kbs]; [done|].
  assert (∃ t, json.join "," (member_text <$> kb :: kbs) +:+ "}" = String dquote t) as [t Ht].
  { rewrite fmap_cons.
    destruct (join_cons_app (member_text kb) (member_text <$> kbs) "}") as (rest & -> & _).
    unfold member_text, json.Marshal_string. cbn [String.append]. by eexists. }
  rewrite Ht. cbn [json.skip_space]. change (json.isSpace dquote) with false. cbv iota.
  change (is_byte "}" dquote) with false. cbv iota. rewrite <-Ht.
  rewrite object_members_join; [done|done|done|].
  pose proof (members_length (kb :: kbs)). rewrite str_length_app. lia.
Qed.

(** ** Generic values: induction *)

Lemma Value_size_lookup (m : gmap string (option Value)) (k : string) (v : Value) :
  m !! k = Some (Some v) →
  (Value_size v < Value_size (Build_Value (Value_StructValue (Some (Some (Build_Struct (Some m)))))))%nat.
Proof.
  intros Hk. simpl.
  rewrite (map_fold_delete_L _ _ k (Some v) m); [lia | intros; lia | done].
Qed.

Lemma Value_size_elem (l : list (option Value)) (v : Value) :
  Some v ∈ l →
  (Value_size v < Value_size (Build_Value (Value_ListValue (Some (Some (Build_ListValue (Some l)))))))%nat.
Proof.
  simpl. induction l as [|w l IH]; [by intros ?%elem_of_nil|].
  intros [<-|Hin]%elem_of_cons; simpl; [lia|]. apply IH in Hin. lia.
Qed.

(** Induction on a Value, with the property for the values of a map and the
    elements of a list. *)
Lemma Value_nested_ind (P : Value → Prop) :
  (∀ k, (∀ m, k ≠ Value_StructValue (Some (Some (Build_Struct (Some m))))) →
        (∀ l, k ≠ Value_ListValue (Some (Some (Build_ListValue (Some l))))) →
        P (Build_Value k)) →
  (∀ m, map_Forall (fun _ ov => ∀ v, ov = Some v → P v) m →
        P (Build_Value (Value_StructValue (Some (Some (Build_Struct (Some m))))))) →
  (∀ l, Forall (fun ov => ∀ v, ov = Some v → P v) l →
        P (Build_Value (Value_ListValue (Some (Some (Build_ListValue (Some l))))))) →
  ∀ x, P x.
Proof.
  intros Hbase Hmap Hlist x.
  remember (Value_size x) as n eqn:Hn. revert x Hn.
  induction (lt_wf n) as [n _ IH]. intros x ->.
  destruct x as [k].
  destruct k as [|p|f|s|b|[[[[m|]]|]|]|[[[[l|]]|]|]]; try (apply Hbase; intros; discriminate).
  - apply Hmap. intros k ov Hk v ->. eapply IH; [|done]. by eapply Value_size_lookup.
  - apply Hlist. apply Forall_forall. intros ov Hov v ->.
    eapply IH; [|done]. by apply Value_size_elem.
Qed.

(** ** [json.Marshal] of elements and members that are marshalled without
    error *)

Lemma marshal_elements_Ok (bs : list string) :
  json.marshal_elements (Ok <$> bs) = Ok bs.
Proof. induction bs as [|b bs IH]; [done|]. rewrite fmap_cons. simpl. by rewrite IH. Qed.

Lemma zip_with_member_text (kbs : list (string * string)) :
  zip_with (fun k b => json.Marshal_string k +:+ ":" +:+ b) kbs.*1 kbs.*2 = member_text <$> kbs.
Proof.
  induction kbs as [|[k b] kbs IH]; [done|]. rewrite !fmap_cons. cbn [zip_with fst snd].
  by rewrite IH.
Qed.

Lemma outcomes_Ok_list (l : list (string * outcome json.Error string)) :
  Forall (fun kr => ∃ b, kr.2 = Ok b) l →
  ∃ kbs : list (string * string), l = (fun kb => (kb.1, Ok kb.2)) <$> kbs.
Proof.
  induction 1 as [|[k r] l [b Hb] Hl [kbs ->]]; [by exists []|].
  simpl in Hb. subst r. by exists ((k, b) :: kbs).
Qed.

(** The text of a map: the members in some order, each key once. *)
Lemma Marshal_map_Ok (members : gmap string (outcome json.Error string)) :
  map_Forall (fun _ r => ∃ b, r = Ok b) members →
  ∃ kbs : list (string * string),
    json.Marshal_map members = Ok ("{" +:+ json.join "," (member_text <$> kbs) +:+ "}")
    ∧ NoDup kbs.*1
    ∧ ∀ k b, (k, b) ∈ kbs ↔ members !! k = Some (Ok b).
Proof.
  intros Hm. unfold json.Marshal_map.
  pose proof (merge_sort_Permutation json.key_le (map_to_list members)) as Hperm.
  set (sorted := merge_sort json.key_le (map_to_list members)) in *.
  assert (Forall (fun kr => ∃ b, kr.2 = Ok b) sorted) as Hall.
  { rewrite Hperm. apply Forall_forall. intros [k r] Hkr%elem_of_map_to_list. by apply (Hm k). }
  destruct (outcomes_Ok_list sorted Hall) as [kbs Hkbs].
  exists kbs.
  assert (sorted.*2 = Ok <$> kbs.*2) as ->.
  { rewrite Hkbs, <-!list_fmap_compose. by apply list_fmap_ext. }
  assert (sorted.*1 = kbs.*1) as Hkeys.
  { rewrite Hkbs, <-!list_fmap_compose. by apply list_fmap_ext. }
  rewrite marshal_elements_Ok, Hkeys, zip_with_member_text.
  split; [done|]. split.
  - rewrite <-Hkeys, Hperm. apply NoDup_fst_map_to_list.
  - intros k b. rewrite <-elem_of_map_to_list, <-Hperm, Hkbs, list_elem_of_fmap. split.
    + intros Hin. by exists (k, b).
    + by intros ([k' b'] & [= -> ->] & Hin).
Qed.

Lemma Marshal_slice_Ok (bs : list string) :
  json.Marshal_slice (Ok <$> bs) = Ok ("[" +:+ json.join "," bs +:+ "]").
Proof. unfold json.Marshal_slice. by rewrite marshal_elements_Ok. Qed.

(** ** [Value.unmarshal] of the text of an array or object *)

Section unmarshal_texts.
Context `{MapRange}.

Lemma Value_unmarshal_array_text (x : Value) (input : string) (s : list string) :
  json.Unmarshal_slice input = Ok s → first_byte input = Some "["%char →
  Value_unmarshal x input
  = (fun r => (Build_Value (Value_ListValue (Some (Some r.1))), r.2))
      <$> ListValue_unmarshal (Build_ListValue None) input.
Proof.
  intros Hs Hc. rewrite Value_unmarshal_unfold. unfold Value_unmarshal_with.
  rewrite bool_decide_eq_false_2 by (by intros ->).
  rewrite (ParseFloat_bracket input "[") by auto.
  destruct (unquote_bracket input "[") as [e ->]; [auto..|].
  rewrite (ParseBool_bracket input "[") by auto. rewrite Hs.
  unfold ListValue_unmarshal. by destruct (ListValue_unmarshal_with _ _ _) as [[]|].
Qed.

Lemma Value_unmarshal_object_text (x : Value) (input : string) (m : gmap string string) :
  json.Unmarshal_map input = Ok m → first_byte input = Some "{"%char →
  Value_unmarshal x input
  = (fun r => (Build_Value (Value_StructValue (Some (Some r.1))), r.2))
      <$> Struct_unmarshal (Build_Struct None) input.
Proof.
  intros Hm Hc. rewrite Value_unmarshal_unfold. unfold Value_unmarshal_with.
  rewrite bool_decide_eq_false_2 by (by intros ->).
  rewrite (ParseFloat_bracket input "{") by auto.
  destruct (unquote_bracket input "{") as [e ->]; [auto..|].
  rewrite (ParseBool_bracket input "{") by auto.
  destruct (Unmarshal_slice_brace input Hc) as [e' ->]. rewrite Hm.
  unfold Struct_unmarshal. by destruct (Struct_unmarshal_with _ _ _) as [[]|].
Qed.

End unmarshal_texts.

(** The loop of [ListValue.unmarshal] when every element is decoded: [g] is
    what the elements of [l] become. *)
Lemma unmarshal_elements_Ok (unm : Value → string → option (Value * option error))
    (g : Value → Value) (l : list (option Value)) (bs : list string) :
  Forall2 (fun ov b => ∃ v, ov = Some v ∧ unm new_Value b = Some (g v, None)) l bs →
  unmarshal_elements unm bs
  = Some (List.map (fun ov => match ov with Some v => Some (g v) | None => None end) l, None).
Proof.
  induction 1 as [|ov b l bs (v & -> & Hv) Hl IH]; [done|].
  simpl. by rewrite Hv, IH.
Qed.

(** The loop of [Struct.unmarshal] when every value is decoded, to [g] of its
    text. *)
Lemma Struct_unmarshal_range_Ok (unm : Value → string → option (Value * option error))
    (g : string → Value) (kvs : list (string * string)) (fs : gmap string (option Value)) :
  Forall (fun kv => unm new_Value kv.2 = Some (g kv.2, None)) kvs →
  NoDup kvs.*1 →
  ∃ fs' : gmap string (option Value),
    Struct_unmarshal_range unm kvs fs = Some (fs', None)
    ∧ ∀ k, fs' !! k = match (list_to_map kvs : gmap string string) !! k with
                      | Some b => Some (Some (g b))
                      | None => fs !! k
                      end.
Proof.
  revert fs. induction kvs as [|[k0 b0] kvs IH]; intros fs Hall Hnd.
  { exists fs. split; [done|]. intros k. simpl. by rewrite lookup_empty. }
  apply Forall_cons in Hall as [Hb0 Hall]. simpl in Hb0.
  rewrite fmap_cons in Hnd. apply NoDup_cons in Hnd as [Hk0 Hnd].
  destruct (IH (<[k0 := Some (g b0)]> fs) Hall Hnd) as (fs' & Hr & Hfs').
  exists fs'. cbn [Struct_unmarshal_range]. unfold new_Value in Hb0. rewrite Hb0.
  split; [done|]. intros k. rewrite Hfs'. cbn [list_to_map foldr uncurry fst snd].
  destruct (decide (k = k0)) as [->|Hne].
  - rewrite lookup_insert_eq. rewrite (not_elem_of_list_to_map_1 _ k0) by done.
    by rewrite lookup_insert_eq.
  - rewrite !(lookup_insert_ne _ k0 k) by done. done.
Qed.

(** ** Decoding what was encoded *)

Section roundtrip.
Context `{MapRange}.

Lemma first_byte_bracket (c : ascii) (t : string) :
  json.isSpace c = false → first_byte (String c t) = Some c.
Proof. intros Hc. unfold first_byte. simpl. by rewrite Hc. Qed.

Lemma ParseFloat_quote (t : string) : ParseFloat (String dquote t) = Err ErrSyntax.
Proof. by destruct t as [|? [|? ?]]. Qed.

(** The leaves. *)
Lemma roundtrip_number (f : float64) :
  valid_float64 f = true → is_finite f = true →
  ∃ b, json.Marshal_float64 f = Ok b ∧ json_text b
       ∧ ∀ x, Value_unmarshal x b = Some (NewNumberValue f, None).
Proof.
  intros Hv Hf. destruct (Marshal_float64_roundtrip f Hv Hf) as (b & Hb & Hparse & Hn).
  exists b. split; [done|]. split; [by apply json_text_number|].
  intros x. apply Value_unmarshal_number; [|done].
  intros ->. by vm_compute in Hparse.
Qed.

Lemma roundtrip_string (s : string) :
  utf8.ValidString s = true →
  json_text (json.Marshal_string s)
  ∧ ∀ x, Value_unmarshal x (json.Marshal_string s) = Some (NewStringValue s, None).
Proof.
  intros Hs. split; [by apply json_text_string|]. intros x.
  eapply Value_unmarshal_string; [done|apply ParseFloat_quote|].
  by apply Unmarshal_string_Marshal_string.
Qed.

Lemma roundtrip_bool (v : bool) :
  json_text (json.Marshal_bool v)
  ∧ ∀ x, Value_unmarshal x (json.Marshal_bool v) = Some (NewBoolValue v, None).
Proof.
  split; [apply json_text_bool|]. intros x.
  destruct v; eapply Value_unmarshal_bool; by vm_compute.
Qed.

(** A list whose elements are decoded to what they were. *)
Lemma roundtrip_list (l : list (option Value)) :
  Forall (fun ov => ∃ v b, ov = Some v ∧ Value_MarshalJSON v = Ok b ∧ json_text b
                           ∧ ∀ x, Value_unmarshal x b = Some (canonical v, None)) l →
  ∃ b, json.Marshal_slice
         (List.map (fun v => match v with Some v => Value_MarshalJSON v | None => Ok "null" end) l)
       = Ok b
       ∧ json_text b
       ∧ ∀ x, Value_unmarshal x b
              = Some (Build_Value (Value_ListValue (Some (Some (Build_ListValue (Some
                  (List.map (fun v => match v with Some v => Some (canonical v) | None => None end)
                     l)))))), None).
Proof.
  intros Hl.
  assert (∃ bs : list string,
            List.map (fun v => match v with Some v => Value_MarshalJSON v | None => Ok "null" end) l
            = Ok <$> bs
            ∧ Forall json_text bs
            ∧ Forall2 (fun ov b => ∃ v, ov = Some v
                         ∧ Value_unmarshal new_Value b = Some (canonical v, None)) l bs)
    as (bs & -> & Hbs & Hdec).
  { induction Hl as [|ov l (v & b & -> & Hb & Ht & Hv) Hl (bs & IH1 & IH2 & IH3)].
    - exists []. by repeat split; constructor.
    - exists (b :: bs). simpl. rewrite Hb, IH1. repeat split; [by constructor|].
      constructor; [by exists v|done]. }
  rewrite Marshal_slice_Ok. eexists. split; [done|].
  split; [by apply json_text_array|]. intros x.
  pose proof (Unmarshal_slice_join bs Hbs) as Hs.
  rewrite (Value_unmarshal_array_text x _ bs Hs) by done.
  unfold ListValue_unmarshal. rewrite (ListValue_unmarshal_with_elements _ _ _ bs Hs).
  by rewrite (unmarshal_elements_Ok _ canonical l bs Hdec).
Qed.

(** A map whose values are decoded to what they were. *)
Lemma roundtrip_struct (m : gmap string (option Value)) :
  map_Forall (fun k ov => utf8.ValidString k = true
                ∧ ∃ v b, ov = Some v ∧ Value_MarshalJSON v = Ok b ∧ json_text b
                         ∧ ∀ x, Value_unmarshal x b = Some (canonical v, None)) m →
  ∃ b, json.Marshal_map
         ((fun v => match v with Some v => Value_MarshalJSON v | None => Ok "null" end) <$> m)
       = Ok b
       ∧ json_text b
       ∧ ∀ x, Value_unmarshal x b
              = Some (Build_Value (Value_StructValue (Some (Some (Build_Struct (Some
                  ((fun v => match v with Some v => Some (canonical v) | None => None end)
                     <$> m)))))), None).
Proof.
  intros Hm.
  set (f := fun v : option Value =>
              match v with Some v => Value_MarshalJSON v | None => Ok "null" end).
  set (cf := fun v : option Value =>
               match v with Some v => Some (canonical v) | None => None end).
  destruct (Marshal_map_Ok (f <$> m)) as (kbs & Htext & Hnd & Hin).
  { intros k r. rewrite lookup_fmap. destruct (m !! k) as [ov|] eqn:Hk; [|done].
    intros [= <-]. destruct (Hm k ov Hk) as (_ & v & b & -> & Hb & _). by exists b. }
  assert (∀ k b, (k, b) ∈ kbs →
            utf8.ValidString k = true ∧ json_text b
            ∧ ∃ v, m !! k = Some (Some v)
                   ∧ ∀ x, Value_unmarshal x b = Some (canonical v, None)) as Hkb.
  { intros k b Hkb%Hin. rewrite lookup_fmap in Hkb.
    destruct (m !! k) as [ov|] eqn:Hk; [|done]. injection Hkb as Hkb.
    destruct (Hm k ov Hk) as (Hvalid & v & b' & -> & Hb & Ht & Hv).
    unfold f in Hkb. rewrite Hb in Hkb. injection Hkb as <-. eauto. }
  assert (Forall (fun kb => utf8.ValidString kb.1 = true ∧ json_text kb.2) kbs) as Hall.
  { apply Forall_forall. intros [k b] Hkbin. destruct (Hkb k b Hkbin) as (? & ? & _). done. }
  rewrite Htext. eexists. split; [done|]. split; [by apply json_text_object|]. intros x.
  pose proof (Unmarshal_map_join kbs Hall) as Hum.
  set (tm := list_to_map (reverse kbs) : gmap string string) in *.
  assert (∀ k b, tm !! k = Some b ↔ (k, b) ∈ kbs) as Htm.
  { intros k b. unfold tm. rewrite <-elem_of_list_to_map, elem_of_reverse; [done|].
    by rewrite fmap_reverse, reverse_Permutation. }
  rewrite (Value_unmarshal_object_text x _ tm Hum) by done.
  unfold Struct_unmarshal, Struct_unmarshal_with. rewrite Hum.
  set (g := fun b : string => match Value_unmarshal new_Value b with
                              | Some (v, _) => v
                              | None => new_Value
                              end).
  destruct (Struct_unmarshal_range_Ok Value_unmarshal g (map_range tm) ∅)
    as (fs' & -> & Hfs').
  { apply (map_range_Forall (fun _ b => Value_unmarshal new_Value b = Some (g b, None))).
    intros k b Hk%Htm. destruct (Hkb k b Hk) as (_ & _ & v & _ & Hv).
    unfold g. by rewrite (Hv new_Value). }
  { apply NoDup_fst_map_range. }
  cbn [fmap option_fmap option_map fst snd].
  assert (fs' = cf <$> m) as ->; [|done].
  apply map_eq. intros k. rewrite Hfs', list_to_map_range, lookup_fmap, lookup_empty.
  destruct (m !! k) as [ov|] eqn:Hk.
  - destruct (Hm k ov Hk) as (_ & v & b & -> & Hb & _ & Hv).
    assert (tm !! k = Some b) as ->.
    { apply Htm, Hin. rewrite lookup_fmap, Hk. simpl. by rewrite Hb. }
    simpl. unfold g. by rewrite (Hv new_Value).
  - destruct (tm !! k) as [b|] eqn:Htk; [|done].
    apply Htm, Hin in Htk. by rewrite lookup_fmap, Hk in Htk.
Qed.

Lemma roundtrip_elements (l : list (option Value)) :
  Forall (fun ov => ∀ v, ov = Some v →
            is_GenericValue v = true → finite_and_utf8 v = true →
            ∃ b, Value_MarshalJSON v = Ok b ∧ json_text b
                 ∧ ∀ x, Value_unmarshal x b = Some (canonical v, None)) l →
  forallb (fun v => match v with Some v => is_GenericValue v | None => false end) l = true →
  forallb (fun v => match v with Some v => finite_and_utf8 v | None => true end) l = true →
  Forall (fun ov => ∃ v b, ov = Some v ∧ Value_MarshalJSON v = Ok b ∧ json_text b
                           ∧ ∀ x, Value_unmarshal x b = Some (canonical v, None)) l.
Proof.
  induction 1 as [|ov l Hov Hl IH]; [constructor|].
  simpl. intros [Hg Hgl]%andb_prop [Hf Hfl]%andb_prop.
  constructor; [|by apply IH]. destruct ov as [v|]; [|done].
  destruct (Hov v eq_refl Hg Hf) as (b & ? & ? & ?). by exists v, b.
Qed.

(** What [MarshalJSON] writes for a generic value with finite numbers and
    valid strings is a JSON text, which [unmarshal] decodes to the value, with
    empty maps and slices where it had nil ones. *)
Lemma Value_roundtrip (v : Value) :
  is_GenericValue v = true → finite_and_utf8 v = true →
  ∃ b, Value_MarshalJSON v = Ok b ∧ json_text b
       ∧ ∀ x, Value_unmarshal x b = Some (canonical v, None).
Proof.
  induction v as [k Hm Hl|m IH|l IH] using Value_nested_ind; intros Hgen Hfin.
  - destruct k as [|[p|]|[f|]|[s|]|[b|]|[[[fs]|]|]|[[[vs]|]|]]; try discriminate Hgen.
    + destruct p. exists "null". split; [done|]. split; [constructor|].
      intros x. apply Value_unmarshal_null.
    + destruct (roundtrip_number f Hgen Hfin) as (b & Hb & Ht & Hv). by exists b.
    + destruct (roundtrip_string s Hfin) as [Ht Hv]. by eexists.
    + destruct (roundtrip_bool b) as [Ht Hv]. by eexists.
    + destruct fs as [m|]; [by destruct (Hm m)|].
      destruct (roundtrip_struct ∅) as (b & Hb & Ht & Hv); [apply map_Forall_empty|].
      rewrite fmap_empty in Hb. exists b. split; [done|]. split; [done|].
      intros x. rewrite Hv. by rewrite fmap_empty.
    + destruct vs as [l|]; [by destruct (Hl l)|].
      destruct (roundtrip_list []) as (b & Hb & Ht & Hv); [constructor|]. by exists b.
  - apply roundtrip_struct. intros k ov Hk.
    pose proof (map_fold_andb_lookup
      (fun _ v => match v with Some v => is_GenericValue v | None => false end) m k ov Hgen Hk)
      as Hg.
    pose proof (map_fold_andb_lookup
      (fun k v => utf8.ValidString k
                  && match v with Some v => finite_and_utf8 v | None => true end) m k ov Hfin Hk)
      as [Hvalid Hf]%andb_prop.
    split; [done|]. destruct ov as [v|]; [|done].
    destruct (IH k (Some v) Hk v eq_refl Hg Hf) as (b & ? & ? & ?). by exists v, b.
  - apply roundtrip_list. by apply roundtrip_elements.
Qed.

End roundtrip.

Lemma canonical_idemp (v : Value) : canonical (canonical v) = canonical v.
Proof.
  induction v as [k Hm Hl|m IH|l IH] using Value_nested_ind.
  - destruct k as [|[p|]|[f|]|[s|]|[b|]|[[[fs]|]|]|[[[vs]|]|]]; try done.
    + destruct fs as [m|]; [by destruct (Hm m)|]. simpl. by rewrite fmap_empty.
    + destruct vs as [l|]; [by destruct (Hl l)|]. done.
  - change (Build_Value (Value_StructValue (Some (Some (Build_Struct (Some
       ((fun v => match v with Some v => Some (canonical v) | None => None end) <$>
        ((fun v => match v with Some v => Some (canonical v) | None => None end) <$> m)))))))
      = Build_Value (Value_StructValue (Some (Some (Build_Struct (Some
       ((fun v => match v with Some v => Some (canonical v) | None => None end) <$> m))))))).
    do 6 f_equal. rewrite <-map_fmap_compose. apply map_fmap_ext.
    intros k [v|] Hk; [|done]. simpl. f_equal. by apply (IH k (Some v)).
  - change (Build_Value (Value_ListValue (Some (Some (Build_ListValue (Some
       (List.map (fun v => match v with Some v => Some (canonical v) | None => None end)
          (List.map (fun v => match v with Some v => Some (canonical v) | None => None end) l)))))))
      = Build_Value (Value_ListValue (Some (Some (Build_ListValue (Some
       (List.map (fun v => match v with Some v => Some (canonical v) | None => None end) l))))))).
    do 6 f_equal. rewrite List.map_map. apply List.map_ext_Forall.
    eapply Forall_impl; [exact IH|]. intros [v|] Hv; [|done]. simpl. f_equal. by apply Hv.
Qed.

(** A tree without nil maps and slices is as [canonical] leaves it. *)
Lemma canonical_no_nil (v : Value) : no_nil_container v = true → canonical v = v.
Proof.
  induction v as [k Hm Hl|m IH|l IH] using Value_nested_ind; intros Hv.
  - destruct k as [|[p|]|[f|]|[s|]|[b|]|[[[fs]|]|]|[[[vs]|]|]]; try done.
    + destruct fs as [m|]; [by destruct (Hm m)|done].
    + destruct vs as [l|]; [by destruct (Hl l)|done].
  - change (Build_Value (Value_StructValue (Some (Some (Build_Struct (Some
       ((fun v => match v with Some v => Some (canonical v) | None => None end) <$> m))))))
      = Build_Value (Value_StructValue (Some (Some (Build_Struct (Some m)))))).
    do 6 f_equal. apply map_eq. intros k. rewrite lookup_fmap.
    destruct (m !! k) as [[v|]|] eqn:Hk; [|done..]. simpl. do 2 f_equal.
    apply (IH k (Some v) Hk v eq_refl).
    apply (map_fold_andb_lookup
      (fun _ v => match v with Some v => no_nil_container v | None => true end) m k (Some v) Hv Hk).
  - change (Build_Value (Value_ListValue (Some (Some (Build_ListValue (Some
       (List.map (fun v => match v with Some v => Some (canonical v) | None => None end) l))))))
      = Build_Value (Value_ListValue (Some (Some (Build_ListValue (Some l)))))).
    do 6 f_equal.
    change (forallb (fun v => match v with Some v => no_nil_container v | None => true end) l
            = true) in Hv.
    induction IH as [|ov l Hov Hl IHl]; [done|].
    simpl in Hv. apply andb_prop in Hv as [Hv1 Hv2]. simpl. rewrite (IHl Hv2).
    destruct ov as [v|]; [|done]. by rewrite (Hov v eq_refl Hv1).
Qed.

(** C2: for every tree of generic values whose numbers are finite and whose
    strings and keys are valid UTF-8, [MarshalJSON] succeeds, and
    [UnmarshalJSON] of the text it wrote succeeds, whatever the receiver held,
    with a value that is deep-equal to the tree; it is the tree itself when no
    map or slice of the tree is nil. *)
Theorem Decode_Encode_deep_equal `{MapRange} (x v : Value) :
  is_GenericValue v = true → finite_and_utf8 v = true →
  ∃ b, Value_MarshalJSON v = Ok b
       ∧ ∃ v', Value_UnmarshalJSON x b = Some (v', None)
               ∧ deep_equal v' v
               ∧ (no_nil_container v = true → v' = v).
Proof.
  intros Hgen Hfin. destruct (Value_roundtrip v Hgen Hfin) as (b & Hb & _ & Hv).
  exists b. split; [done|]. exists (canonical v). split; [apply Hv|].
  split; [apply canonical_idemp|apply canonical_no_nil].
Qed.

Lemma Decode_Encode_deep_equal_witness :
  ∃ b, Value_MarshalJSON example_tree = Ok b
       ∧ ∃ v', Value_UnmarshalJSON (H := range_map_to_list) new_Value b = Some (v', None)
               ∧ deep_equal v' example_tree
               ∧ (no_nil_container example_tree = true → v' = example_tree).
Proof.
  apply (Decode_Encode_deep_equal (H := range_map_to_list)); vm_compute; reflexivity.
Defined.

(** ** [NewValue], [NewStruct] and [NewList]: when they succeed *)

Lemma map_fold_andb_true {A} (f : string → A → bool) (m : gmap string A) :
  (∀ k a, m !! k = Some a → f k a = true) →
  map_fold (fun k v b => f k v && b) true m = true.
Proof.
  induction m as [|k a m Hk Hfold IH] using map_first_key_ind; intros Hm.
  { by rewrite map_fold_empty. }
  rewrite map_fold_insert_first_key by done.
  rewrite (Hm k a) by apply lookup_insert_eq. simpl. apply IH.
  intros k' a' Hk'. apply (Hm k' a'). rewrite lookup_insert_ne; [done|]. by intros ->; congruence.
Qed.

Lemma map_fold_andb_ext {A} (f g : string → A → bool) (m : gmap string A) :
  (∀ k a, m !! k = Some a → f k a = g k a) →
  map_fold (fun k v b => f k v && b) true m = map_fold (fun k v b => g k v && b) true m.
Proof.
  intros Hfg. destruct (map_fold (fun k v b => g k v && b) true m) eqn:Hg.
  - apply map_fold_andb_true. intros k a Hk. rewrite (Hfg k a Hk).
    by apply (map_fold_andb_lookup g m k a).
  - apply not_true_is_false. intros Hf. rewrite map_fold_andb_true in Hg; [done|].
    intros k a Hk. rewrite <-(Hfg k a Hk). by apply (map_fold_andb_lookup f m k a).
Qed.

(** The loop of [NewList] succeeds when every element does. *)
Lemma NewList_range_is_Ok (i : nat) (rs : list (outcome error Value))
    (vs : list (option Value)) :
  is_Ok (NewList_range i rs vs) = forallb is_Ok rs.
Proof.
  revert i vs. induction rs as [|[v|e] rs IH]; intros i vs; simpl; [done| |done]. apply IH.
Qed.

(** The loop of [NewStruct] succeeds when every key is valid and every value
    converts. *)
Lemma NewStruct_range_is_Ok (kvs : list (string * outcome error Value))
    (fs : gmap string (option Value)) :
  is_Ok (NewStruct_range kvs fs) = forallb (fun kr => utf8.ValidString kr.1 && is_Ok kr.2) kvs.
Proof.
  revert fs. induction kvs as [|[k [v|e]] kvs IH]; intros fs; simpl; [done| |].
  - destruct (utf8.ValidString k); simpl; [apply IH|done].
  - by destruct (utf8.ValidString k).
Qed.

Lemma is_Ok_true {E A} (r : outcome E A) : is_Ok r = true ↔ ∃ a, r = Ok a.
Proof. destruct r; split; try done; [by eexists|by intros [? ?]]. Qed.

Section convertible.
Context `{MapRange}.

(** All the entries of a map pass a test: by the range, in whatever order,
    and by the fold. *)
Lemma forallb_map_range {A} (f : string → A → bool) (m : gmap string A) :
  forallb (fun kv => f kv.1 kv.2) (map_range m) = map_fold (fun k v b => f k v && b) true m.
Proof.
  destruct (map_fold (fun k v b => f k v && b) true m) eqn:Hfold.
  - apply forallb_forall. intros [k a] Hin%list_elem_of_In.
    rewrite (map_range_perm A m) in Hin. apply elem_of_map_to_list in Hin.
    by apply (map_fold_andb_lookup f m k a).
  - apply not_true_is_false. intros Hall. rewrite forallb_forall in Hall.
    rewrite map_fold_andb_true in Hfold; [done|].
    intros k a Hk. apply (Hall (k, a)). apply list_elem_of_In.
    rewrite (map_range_perm A m). by apply elem_of_map_to_list.
Qed.

Lemma NewValue_is_Ok (x : interface) : is_Ok (NewValue x) = convertible x.
Proof.
  induction x as [x Hm Hl|m IH|l IH] using interface_nested_ind.
  - destruct x as [|b|v|v|v|v|v|v|f|f|s|b|m|l|T]; try done.
    + simpl. by destruct (utf8.ValidString s).
    + by destruct (Hm m).
    + by destruct (Hl l).
  - assert (is_Ok (NewValue (I_map m))
            = is_Ok (NewStruct_range (map_range (NewValue <$> m)) ∅)) as ->.
    { simpl. by destruct (NewStruct_range _ _). }
    rewrite NewStruct_range_is_Ok.
    rewrite (forallb_map_range (fun k r => utf8.ValidString k && is_Ok r)).
    cbn [convertible].
    rewrite (map_fold_fmap (fun k (r : outcome error Value) b => utf8.ValidString k && is_Ok r && b)).
    apply (map_fold_andb_ext (fun k v => utf8.ValidString k && is_Ok (NewValue v))
             (fun k v => utf8.ValidString k && convertible v)).
    intros k v Hk. by rewrite (IH k v Hk).
  - assert (is_Ok (NewValue (I_slice l))
            = is_Ok (NewList_range 0 (List.map NewValue l) (replicate (length l) None))) as ->.
    { simpl. by destruct (NewList_range _ _ _). }
    rewrite NewList_range_is_Ok. cbn [convertible].
    induction IH as [|v l Hv Hl IHl]; [done|]. simpl. by rewrite Hv, IHl.
Qed.

End convertible.

(** ** [NewList] and [NewStruct]: what they build and how they fail *)

Lemma outcomes_all_Ok {E A} (rs : list (outcome E A)) :
  forallb is_Ok rs = true → ∃ vs, rs = Ok <$> vs.
Proof.
  induction rs as [|[v|e] rs IH]; simpl; [by exists []| |done].
  intros [vs ->]%IH. by exists (v :: vs).
Qed.

(** The loop of [NewList] fails with the first error of the list. *)
Lemma NewList_range_Err (i : nat) (rs : list (outcome error Value))
    (vs : list (option Value)) (e : error) :
  NewList_range i rs vs = Err e ↔
  ∃ j, rs !! j = Some (Err e) ∧ ∀ j' r, (j' < j)%nat → rs !! j' = Some r → is_Ok r = true.
Proof.
  revert i vs. induction rs as [|[v|e0] rs IH]; intros i vs; simpl.
  - split; [done|]. by intros (j & ? & _).
  - rewrite IH. split.
    + intros (j & Hj & Hlt). exists (S j). split; [done|].
      intros [|j'] r Hj' Hr; [by injection Hr as <-|]. apply (Hlt j'); [lia|done].
    + intros ([|j] & Hj & Hlt); [done|]. exists j. split; [done|].
      intros j' r Hj' Hr. apply (Hlt (S j')); [lia|done].
  - split.
    + intros [= ->]. exists 0%nat. split; [done|]. intros; lia.
    + intros ([|j] & Hj & Hlt); [by injection Hj as ->|].
      by specialize (Hlt 0%nat (Err e0) ltac:(lia) eq_refl).
Qed.

(** The loop of [NewStruct] fails with the invalid key or the error of one of
    the entries. *)
Lemma NewStruct_range_Err (kvs : list (string * outcome error Value))
    (fs : gmap string (option Value)) (e : error) :
  NewStruct_range kvs fs = Err e →
  ∃ k r, (k, r) ∈ kvs
         ∧ ((utf8.ValidString k = false ∧ e = Errorf_invalid_UTF8 k) ∨ r = Err e).
Proof.
  revert fs. induction kvs as [|[k r] kvs IH]; intros fs; simpl; [done|].
  destruct (utf8.ValidString k) eqn:Hk; simpl.
  - destruct r as [v|e0].
    + intros (k' & r' & Hin & Hor)%IH. exists k', r'. split; [by right|done].
    + intros [= ->]. exists k, (Err e). split; [left|by right].
  - intros [= <-]. exists k, r. split; [left|by left].
Qed.

Section built.
Context `{MapRange}.

Lemma NewList_Ok_inv (l : list interface) (x : ListValue) :
  NewList l = Ok x →
  ∃ vs : list Value,
    x = Build_ListValue (Some (Some <$> vs)) ∧ Forall2 (fun v pv => NewValue v = Ok pv) l vs.
Proof.
  unfold NewList. intros Hx.
  assert (forallb is_Ok (List.map NewValue l) = true) as Hall.
  { rewrite <-(NewList_range_is_Ok 0 _ (replicate (length l) None)). by rewrite Hx. }
  destruct (outcomes_all_Ok _ Hall) as [vs Hvs].
  assert (length l = length vs) as Hlen.
  { rewrite <-(length_map NewValue l), Hvs. by rewrite length_fmap. }
  rewrite Hvs, Hlen in Hx. pose proof (NewList_range_Ok vs []) as Hr. simpl in Hr.
  rewrite Hr in Hx. injection Hx as <-. exists vs. split; [done|].
  clear -Hvs. revert vs Hvs.
  induction l as [|v l IH]; intros [|pv vs] Hvs; try discriminate Hvs; [constructor|].
  injection Hvs as Hv Hvs. constructor; [done|by apply IH].
Qed.

Lemma NewList_Err_iff (l : list interface) (e : error) :
  NewList l = Err e ↔
  ∃ i v, l !! i = Some v ∧ NewValue v = Err e
         ∧ ∀ j w, (j < i)%nat → l !! j = Some w → is_Ok (NewValue w) = true.
Proof.
  unfold NewList. rewrite NewList_range_Err. split.
  - intros (j & Hj & Hlt). change (List.map NewValue l) with (NewValue <$> l) in *.
    rewrite list_lookup_fmap in Hj. destruct (l !! j) as [v|] eqn:Hv; [|done].
    injection Hj as Hj. exists j, v. split; [done|]. split; [done|].
    intros j' w Hj' Hw. apply (Hlt j'); [done|]. by rewrite list_lookup_fmap, Hw.
  - intros (i & v & Hi & Hv & Hlt). exists i.
    change (List.map NewValue l) with (NewValue <$> l).
    split; [by rewrite list_lookup_fmap, Hi; simpl; rewrite Hv|].
    intros j r Hj Hr. rewrite list_lookup_fmap in Hr.
    destruct (l !! j) as [w|] eqn:Hw; [|done]. injection Hr as <-. by apply (Hlt j).
Qed.

Lemma NewStruct_Ok_inv (m : gmap string interface) (x : Struct) :
  NewStruct m = Ok x →
  ∃ fs : gmap string (option Value),
    x = Build_Struct (Some fs)
    ∧ dom fs = dom m
    ∧ ∀ k v, m !! k = Some v →
        utf8.ValidString k = true ∧ ∃ pv, NewValue v = Ok pv ∧ fs !! k = Some (Some pv).
Proof.
  unfold NewStruct. intros Hx.
  assert (forallb (fun kr => utf8.ValidString kr.1 && is_Ok kr.2) (map_range (NewValue <$> m))
          = true) as Hall.
  { rewrite <-(NewStruct_range_is_Ok _ ∅). by rewrite Hx. }
  rewrite forallb_forall in Hall.
  assert (∀ k r, (NewValue <$> m) !! k = Some r →
            utf8.ValidString k = true ∧ ∃ pv, r = Ok pv) as Hentries.
  { intros k r Hk.
    assert ((k, r) ∈ map_range (NewValue <$> m)) as Hin.
    { rewrite (map_range_perm _ (NewValue <$> m)). by apply elem_of_map_to_list. }
    apply list_elem_of_In, Hall in Hin. apply andb_prop in Hin as [Hv Hr].
    split; [done|]. by apply is_Ok_true. }
  destruct (NewStruct_range_Ok (map_range (NewValue <$> m)) ∅) as (fs & Hfs & Hlookup).
  { apply NoDup_fst_map_range. }
  { apply Forall_forall. intros [k r] Hin. apply (Hentries k r).
    rewrite (map_range_perm _ (NewValue <$> m)) in Hin. by apply elem_of_map_to_list. }
  rewrite Hfs in Hx. injection Hx as <-. exists fs. split; [done|].
  assert (∀ k, fs !! k = match m !! k with
                         | Some v => match NewValue v with Ok pv => Some (Some pv) | Err _ => None end
                         | None => None
                         end) as Hfs'.
  { intros k. rewrite Hlookup, list_to_map_range, lookup_fmap, lookup_empty.
    by destruct (m !! k). }
  split.
  - apply set_eq. intros k. rewrite !elem_of_dom, Hfs'.
    destruct (m !! k) as [v|] eqn:Hk; [|split; by intros [? ?]].
    destruct (Hentries k (NewValue v)) as [_ [pv ->]]; [by rewrite lookup_fmap, Hk|].
    split; by eexists.
  - intros k v Hk. destruct (Hentries k (NewValue v)) as [Hvalid [pv Hpv]].
    { by rewrite lookup_fmap, Hk. }
    split; [done|]. exists pv. split; [done|]. by rewrite Hfs', Hk, Hpv.
Qed.

Lemma NewStruct_Err_inv (m : gmap string interface) (e : error) :
  NewStruct m = Err e →
  ∃ k v, m !! k = Some v
         ∧ ((utf8.ValidString k = false ∧ e = Errorf_invalid_UTF8 k) ∨ NewValue v = Err e).
Proof.
  unfold NewStruct. intros (k & r & Hin & Hor)%NewStruct_range_Err.
  rewrite (map_range_perm _ (NewValue <$> m)) in Hin. apply elem_of_map_to_list in Hin.
  rewrite lookup_fmap in Hin. destruct (m !! k) as [v|] eqn:Hk; [|done].
  injection Hin as <-. by exists k, v.
Qed.

End built.

(** ** The floats that the conversions return are float64 values *)

Lemma log2_range (m k : Z) : (0 ≤ k → 2 ^ k ≤ m < 2 ^ (k + 1) → Z.log2 m = k)%Z.
Proof. intros Hk Hm. apply Z.log2_unique; [done|]. by rewrite <-Z.add_1_r. Qed.

Lemma valid_float64_normal (neg : bool) (m e : Z) :
  (2 ^ 52 ≤ m < 2 ^ 53 → -1074 ≤ e ≤ 971 →
   valid_float64 (S754_finite neg (Z.to_pos m) e) = true)%Z.
Proof.
  intros Hm He. unfold valid_float64, valid_binary, bounded, canonical_mantissa, fexp, emin,
    prec, emax.
  rewrite digits2_pos_log2, Z2Pos.id by lia. rewrite (log2_range m 52) by lia.
  apply andb_true_intro. split; [apply Z.eqb_eq|apply Z.leb_le]; lia.
Qed.

Lemma valid_float64_subnormal (neg : bool) (m : Z) :
  (0 < m ≤ 2 ^ 52 → valid_float64 (S754_finite neg (Z.to_pos m) (-1074)) = true)%Z.
Proof.
  intros Hm. unfold valid_float64, valid_binary, bounded, canonical_mantissa, fexp, emin,
    prec, emax.
  rewrite digits2_pos_log2, Z2Pos.id by lia.
  assert (Z.log2 m ≤ 52)%Z.
  { change 52%Z with (Z.log2 (2 ^ 52)). apply Z.log2_le_mono. lia. }
  pose proof (Z.log2_nonneg m).
  apply andb_true_intro. split; [apply Z.eqb_eq|apply Z.leb_le]; lia.
Qed.

(** [round_ratio] returns a float64. *)
Lemma round_ratio_valid (neg : bool) (N D : Z) :
  (0 ≤ N → 0 < D → valid_float64 (round_ratio neg N D) = true)%Z.
Proof.
  intros HN HD. unfold round_ratio, prec, emax.
  rewrite div_eucl_div_mod.
  assert (0 ≤ Z.shiftl N 1200 / D)%Z as Hq0.
  { apply Z.div_pos; [|done]. rewrite Z.shiftl_mul_pow2 by lia.
    assert (0 < 2 ^ 1200)%Z by (apply Z.pow_pos_nonneg; lia). nia. }
  set (q0 := (Z.shiftl N 1200 / D)%Z) in *.
  set (sticky := negb (Z.shiftl N 1200 mod D =? 0)%Z).
  destruct (Z.eqb_spec q0 0) as [|Hne]; [done|].
  assert (0 < q0)%Z as Hpos by lia.
  pose proof (Z.log2_spec q0 Hpos) as [Hlo Hhi].
  pose proof (Z.log2_nonneg q0) as HL.
  set (L := Z.log2 q0) in *.
  set (e := Z.max (L - 1200 - (53 - 1)) (3 - 1024 - 53)).
  assert (-1074 ≤ e)%Z as He by (subst e; lia).
  assert (0 < 2 ^ (e + 1200))%Z as Hsh by (apply Z.pow_pos_nonneg; lia).
  rewrite Z.shiftr_div_pow2 by lia.
  set (q := (q0 / 2 ^ (e + 1200))%Z).
  assert (0 ≤ q)%Z as Hq by (apply Z.div_pos; lia).
  assert ((e = L - 1252 ∧ 2 ^ 52 ≤ q < 2 ^ 53) ∨ (e = -1074 ∧ q < 2 ^ 52))%Z as Hcases.
  { destruct (Z.le_gt_cases (-1074) (L - 1252)) as [Hn|Hs].
    - left. assert (e = L - 1252)%Z as Ee by (subst e; lia). split; [done|].
      subst q. rewrite Ee. replace (L - 1252 + 1200)%Z with (L - 52)%Z by lia.
      assert (0 < 2 ^ (L - 52))%Z by (apply Z.pow_pos_nonneg; lia).
      assert (2 ^ L = 2 ^ 52 * 2 ^ (L - 52))%Z as HLp.
      { rewrite <-Z.pow_add_r by lia. f_equal. lia. }
      split.
      + apply Z.div_le_lower_bound; [lia|]. lia.
      + apply Z.div_lt_upper_bound; [lia|].
        replace (2 ^ (L - 52) * 2 ^ 53)%Z with (2 ^ Z.succ L)%Z; [done|].
        rewrite <-Z.pow_add_r by lia. f_equal. lia.
    - right. assert (e = -1074)%Z as Ee by (subst e; lia). split; [done|].
      subst q. rewrite Ee. apply Z.div_lt_upper_bound; [by apply Z.pow_pos_nonneg|].
      rewrite <-Z.pow_add_r by lia.
      eapply Z.lt_le_trans; [exact Hhi|]. apply Z.pow_le_mono_r; lia. }
  set (up := _ || _). clearbody up.
  destruct Hcases as [[Ee Hqr]|[Ee Hqr]].
  - destruct up.
    + assert ((q + 1 =? 0)%Z = false) as -> by lia.
      destruct (Z.eqb_spec (q + 1) (2 ^ 53)) as [E53|N53].
      * destruct (_ <? _)%Z eqn:Hinf; [done|].
        apply valid_float64_normal; [by vm_compute|lia].
      * destruct (_ <? _)%Z eqn:Hinf; [done|].
        apply valid_float64_normal; lia.
    + assert ((q =? 0)%Z = false) as -> by lia.
      assert ((q =? 2 ^ 53)%Z = false) as -> by lia.
      destruct (_ <? _)%Z eqn:Hinf; [done|].
      apply valid_float64_normal; lia.
  - destruct up.
    + assert ((q + 1 =? 0)%Z = false) as -> by lia.
      assert ((q + 1 =? 2 ^ 53)%Z = false) as -> by lia.
      destruct (_ <? _)%Z eqn:Hinf; [done|].
      rewrite Ee. apply valid_float64_subnormal. lia.
    + destruct (Z.eqb_spec q 0); [done|].
      assert ((q =? 2 ^ 53)%Z = false) as -> by lia.
      destruct (_ <? _)%Z eqn:Hinf; [done|].
      rewrite Ee. apply valid_float64_subnormal. lia.
Qed.

Lemma float64_of_Z_valid (v : Z) : valid_float64 (float64_of_Z v) = true.
Proof.
  unfold float64_of_Z. destruct (v =? 0)%Z; [done|]. apply round_ratio_valid; lia.
Qed.

Lemma readDigits_mant_nonneg (base : Z) (st : mantissa) (s : string) :
  (0 ≤ base → 0 ≤ mant st → 0 ≤ mant (readDigits base st s).1)%Z.
Proof.
  intros Hb. revert st. induction s as [|c s IH]; intros st Hst; [done|].
  cbn [readDigits]. destruct (is_byte "_" c); [by apply IH|].
  destruct (is_byte "." c).
  { destruct (sawdot st); [done|]. by apply IH. }
  destruct (is_digit c) eqn:Hc.
  { apply IH. cbn [mant]. pose proof (digit_val_bounds c Hc). nia. }
  destruct (_ && _) eqn:Hhex; [|done].
  apply IH. cbn [mant]. apply andb_prop in Hhex as [_ Hr%in_range_bounds].
  unfold hex_val. revert Hr. byte_consts. nia.
Qed.

Lemma readFloat_mant_nonneg (s : string) (t : float_text) :
  readFloat s = Some t → (0 ≤ ft_mant t)%Z.
Proof.
  unfold readFloat. destruct s as [|c s']; [done|].
  set (s1 := if is_byte "+" c || is_byte "-" c then s' else String c s').
  destruct (match s1 with
            | String c0 (String c1 (String _ _ as s3)) =>
                if is_byte "0" c0 && is_byte "x" (lower c1) then (true, s3) else (false, s1)
            | _ => (false, s1)
            end) as [hex s2].
  pose proof (readDigits_mant_nonneg (if hex then 16 else 10) (Mantissa 0 0 false false false) s2
                ltac:(by destruct hex) ltac:(done)) as Hm.
  destruct (readDigits _ _ s2) as [st s3]. cbn [fst] in Hm.
  destruct (negb (sawdigits st)); [done|].
  destruct s3 as [|x s4].
  - destruct hex; [done|]. by intros [= <-].
  - destruct (is_byte _ (lower x)).
    + destruct (readExp s4) as [[[e us] rest]|]; [|done]. by intros [= <-].
    + destruct hex; [done|]. by intros [= <-].
Qed.

Lemma scaled_float64_valid (neg : bool) (base m e : Z) :
  (0 < base → 0 ≤ m → valid_float64 (scaled_float64 neg base m e) = true)%Z.
Proof.
  intros Hb Hm. unfold scaled_float64. destruct (m =? 0)%Z; [done|].
  destruct (0 <=? e)%Z eqn:He.
  - apply round_ratio_valid; [|lia].
    assert (0 < base ^ e)%Z by (apply Z.pow_pos_nonneg; lia). nia.
  - apply round_ratio_valid; [done|]. apply Z.pow_pos_nonneg; lia.
Qed.

(** [ParseFloat] returns a float64. *)
Lemma ParseFloat_valid (s : string) (f : float64) :
  ParseFloat s = Ok f → valid_float64 f = true.
Proof.
  unfold ParseFloat. destruct (special s) as [[f0 rest]|] eqn:Hsp.
  - case_bool_decide; [|done]. intros [= <-].
    unfold special in Hsp. destruct s as [|c s']; [done|].
    repeat match type of Hsp with
           | (if ?b then _ else _) = _ => destruct b
           end; simplify_eq; done.
  - destruct (readFloat s) as [t|] eqn:Ht; [|done].
    destruct (negb _); [done|]. destruct (_ && _); [done|].
    destruct (IsInf _ 0); [done|]. intros [= <-].
    apply scaled_float64_valid; [by destruct (ft_hex t)|by eapply readFloat_mant_nonneg].
Qed.

(** ** What [Value.unmarshal] builds *)

Lemma unmarshal_elements_Ok_inv (unm : Value → string → option (Value * option error))
    (s : list string) (l : list (option Value)) :
  unmarshal_elements unm s = Some (l, None) →
  ∃ vs, l = Some <$> vs ∧ Forall2 (fun b v => unm new_Value b = Some (v, None)) s vs.
Proof.
  revert l. induction s as [|b s IH]; intros l; simpl.
  { intros [= <-]. exists []. by split; [|constructor]. }
  destruct (unm new_Value b) as [[v [e|]]|] eqn:Hb; [done| |done].
  destruct (unmarshal_elements unm s) as [[l' oe]|]; [|done].
  intros [= <- ->]. destruct (IH l' eq_refl) as (vs & -> & Hvs).
  exists (v :: vs). split; [done|]. by constructor.
Qed.

Section decoded.
Context `{MapRange}.

(** A Value that was decoded is a generic value, and none of its maps and
    slices is nil. *)
Lemma Value_unmarshal_generic (x : Value) (input : string) (v : Value) :
  Value_unmarshal x input = Some (v, None) →
  is_GenericValue v = true ∧ no_nil_container v = true.
Proof.
  cut (∀ n input x v, (String.length input < n)%nat →
         Value_unmarshal x input = Some (v, None) →
         is_GenericValue v = true ∧ no_nil_container v = true).
  { intros Hn. apply (Hn (S (String.length input))). lia. }
  clear. induction n as [|n IH]; intros input x v Hlen; [lia|].
  rewrite Value_unmarshal_unfold. unfold Value_unmarshal_with.
  case_bool_decide; [by intros [= <-]|].
  destruct (ParseFloat input) as [f|] eqn:Hf.
  { intros [= <-]. split; [|done]. simpl. by eapply ParseFloat_valid. }
  destruct (types.unquote input) as [s|]; [by intros [= <-]|].
  destruct (ParseBool input) as [b|]; [by intros [= <-]|].
  destruct (json.Unmarshal_slice input) as [s|] eqn:Hs.
  - rewrite (ListValue_unmarshal_with_elements _ _ _ s Hs).
    destruct (unmarshal_elements Value_unmarshal s) as [[l oe]|] eqn:Hl; [|done].
    cbn [fmap option_fmap option_map fst snd]. intros [= <- ->].
    destruct (unmarshal_elements_Ok_inv _ _ _ Hl) as (vs & -> & Hvs).
    apply Unmarshal_slice_length in Hs.
    assert (Forall (fun v => is_GenericValue v = true ∧ no_nil_container v = true) vs) as Hall.
    { clear Hl. induction Hvs as [|b v s vs Hb Hvs IHvs]; [constructor|].
      apply Forall_cons in Hs as [Hb' Hs]. constructor; [|by apply IHvs].
      apply (IH b new_Value v); [lia|done]. }
    cbn [is_GenericValue no_nil_container Kind]. clear -Hall.
    induction Hall as [|v vs [Hg Hn] Hall [IH1 IH2]]; [done|].
    rewrite fmap_cons. cbn [forallb]. by rewrite Hg, Hn, IH1, IH2.
  - destruct (json.Unmarshal_map input) as [m|] eqn:Hm; [|done].
    unfold Struct_unmarshal_with. rewrite Hm.
    destruct (Struct_unmarshal_range Value_unmarshal (map_range m) ∅) as [[fs oe]|] eqn:Hr;
      [|done].
    intros [= <- ->]. apply Unmarshal_map_length in Hm.
    assert (∀ k pv, fs !! k = Some pv →
              ∃ p, pv = Some p ∧ is_GenericValue p = true ∧ no_nil_container p = true)
      as Hfields.
    { intros k pv Hk.
      destruct (Struct_unmarshal_range_fields _ _ _ _ _ Hr k pv Hk)
        as [Hemp|(jv & p & Hin & -> & Hp)]; [by rewrite lookup_empty in Hemp|].
      exists p. split; [done|]. apply (IH jv new_Value p); [|done].
      rewrite (map_range_perm _ m) in Hin. apply elem_of_map_to_list in Hin.
      specialize (Hm k jv Hin). simpl in Hm. lia. }
    cbn [is_GenericValue no_nil_container Kind]. split.
    + apply (map_fold_andb_true
               (fun _ v => match v with Some v => is_GenericValue v | None => false end)).
      intros k pv Hk. by destruct (Hfields k pv Hk) as (p & -> & ? & ?).
    + apply (map_fold_andb_true
               (fun _ v => match v with Some v => no_nil_container v | None => true end)).
      intros k pv Hk. by destruct (Hfields k pv Hk) as (p & -> & ? & ?).
Qed.

End decoded.

(** ** What [MarshalJSON] writes, and when *)

Lemma marshal_elements_is_Ok (rs : list (outcome json.Error string)) :
  is_Ok (json.marshal_elements rs) = forallb is_Ok rs.
Proof.
  induction rs as [|[b|e] rs IH]; simpl; [done| |by destruct e].
  rewrite <-IH. by destruct (json.marshal_elements rs).
Qed.

Lemma Marshal_slice_is_Ok (rs : list (outcome json.Error string)) :
  is_Ok (json.Marshal_slice rs) = forallb is_Ok rs.
Proof.
  unfold json.Marshal_slice. rewrite <-marshal_elements_is_Ok.
  by destruct (json.marshal_elements rs).
Qed.

(** All the entries of a map pass a test: by a list of them in some order,
    and by the fold. *)
Lemma forallb_map_to_list {A} (f : string → A → bool) (m : gmap string A)
    (l : list (string * A)) :
  l ≡ₚ map_to_list m →
  forallb (fun kv => f kv.1 kv.2) l = map_fold (fun k v b => f k v && b) true m.
Proof.
  intros Hl. destruct (map_fold (fun k v b => f k v && b) true m) eqn:Hfold.
  - apply forallb_forall. intros [k a] Hin%list_elem_of_In.
    rewrite Hl in Hin. apply elem_of_map_to_list in Hin.
    by apply (map_fold_andb_lookup f m k a).
  - apply not_true_is_false. intros Hall. rewrite forallb_forall in Hall.
    rewrite map_fold_andb_true in Hfold; [done|].
    intros k a Hk. apply (Hall (k, a)). apply list_elem_of_In.
    rewrite Hl. by apply elem_of_map_to_list.
Qed.

Lemma Marshal_map_is_Ok (members : gmap string (outcome json.Error string)) :
  is_Ok (json.Marshal_map members) = map_fold (fun _ r b => is_Ok r && b) true members.
Proof.
  unfold json.Marshal_map.
  rewrite <-(forallb_map_to_list (fun _ r => is_Ok r) members
               (merge_sort json.key_le (map_to_list members)))
    by apply merge_sort_Permutation.
  set (sorted := merge_sort json.key_le (map_to_list members)).
  assert (forallb (fun kv => is_Ok kv.2) sorted = forallb is_Ok sorted.*2) as ->.
  { induction sorted as [|[k r] l IH]; [done|]. rewrite fmap_cons. simpl. by rewrite IH. }
  rewrite <-marshal_elements_is_Ok. by destruct (json.marshal_elements _).
Qed.

(** [MarshalJSON] succeeds exactly on the values that are [marshalable]. *)
Lemma Value_MarshalJSON_is_Ok (v : Value) : is_Ok (Value_MarshalJSON v) = marshalable v.
Proof.
  induction v as [k Hm Hl|m IH|l IH] using Value_nested_ind.
  - destruct k as [|[p|]|[f|]|[s|]|[b|]|[[[fs]|]|]|[[[vs]|]|]]; try done.
    + change (is_Ok (json.Marshal_float64 f) = is_finite f).
      unfold json.Marshal_float64. by destruct f as [[]|[]| |].
    + destruct fs as [m|]; [by destruct (Hm m)|done].
    + destruct vs as [l|]; [by destruct (Hl l)|done].
  - change (is_Ok (json.Marshal_map
              ((fun v => match v with Some v => Value_MarshalJSON v | None => Ok "null" end)
                 <$> m))
            = map_fold (fun _ v b => match v with Some v => marshalable v | None => true end && b)
                true m).
    rewrite Marshal_map_is_Ok.
    rewrite (map_fold_fmap (fun _ (r : outcome json.Error string) b => is_Ok r && b)).
    apply (map_fold_andb_ext
             (fun _ v => is_Ok match v with Some v => Value_MarshalJSON v | None => Ok "null" end)
             (fun _ v => match v with Some v => marshalable v | None => true end)).
    intros k [v|] Hk; [|done]. by apply (IH k (Some v) Hk).
  - change (is_Ok (json.Marshal_slice
              (List.map (fun v => match v with Some v => Value_MarshalJSON v | None => Ok "null" end)
                 l))
            = forallb (fun v => match v with Some v => marshalable v | None => true end) l).
    rewrite Marshal_slice_is_Ok.
    induction IH as [|ov l Hov Hl IHl]; [done|]. simpl. rewrite IHl. f_equal.
    destruct ov as [v|]; [|done]. by apply Hov.
Qed.

(** [FormatFloat] writes the text of a number. *)
Lemma FormatFloat_number_text (f : float64) (fmt : ascii) :
  is_finite f = true → number_text (FormatFloat f fmt).
Proof.
  intros Hf. destruct f as [s|s| |s m e]; try done.
  - destruct s.
    + change (number_text (number_parts true "0" "" "" false)). by constructor; auto.
    + change (number_text (number_parts false "0" "" "" false)). by constructor; auto.
  - unfold FormatFloat.
    assert (0 < (if (0 <=? e)%Z then (Z.pos m * 2 ^ e, 0) else (Z.pos m * 5 ^ (- e), e)).1)%Z
      as Hnum.
    { destruct (Z.leb_spec 0 e); cbn [fst].
      - assert (0 < 2 ^ e)%Z by (apply Z.pow_pos_nonneg; lia). nia.
      - assert (0 < 5 ^ (- e))%Z by (apply Z.pow_pos_nonneg; lia). nia. }
    destruct (if (0 <=? e)%Z then (Z.pos m * 2 ^ e, 0)%Z else (Z.pos m * 5 ^ (- e), e)%Z)
      as [num scale]. cbn [fst] in Hnum.
    destruct (decimal_digits_spec num ltac:(lia)) as (_ & _ & (c0 & ds' & Hds & _) & Hb & _).
    specialize (Hb Hnum).
    set (n := Z.of_nat (String.length (decimal_digits num))) in *.
    assert (1 ≤ n)%Z as Hn1 by (subst n; rewrite Hds; simpl; lia).
    destruct (shortest_cases (Z.to_nat (n - 1)) 1 fmt s (S754_finite s m e) num scale n)
      as [->|[_ (c & sc & Hc & ->)]]; [lia|lia|lia| |]; by apply number_text_render.
Qed.

Lemma Marshal_float64_number_text (f : float64) (b : string) :
  json.Marshal_float64 f = Ok b → number_text b.
Proof.
  unfold json.Marshal_float64. destruct (_ || _) eqn:Hf; [done|]. intros [= <-].
  apply FormatFloat_number_text. by destruct f as [[]|[]| |].
Qed.

(** Induction on the texts, with the hypothesis for the elements and the
    members' values. *)
Lemma marshal_text_nested_ind (P : string → Prop) :
  P "null" →
  (∀ b, P (json.Marshal_bool b)) →
  (∀ b, number_text b → P b) →
  (∀ s, P (json.Marshal_string s)) →
  (∀ bs, Forall marshal_text bs → Forall P bs → P ("[" +:+ json.join "," bs +:+ "]")) →
  (∀ kbs, Forall (fun kb => marshal_text kb.2) kbs → Forall (fun kb => P kb.2) kbs →
          P ("{" +:+ json.join "," (member_text <$> kbs) +:+ "}")) →
  ∀ b, marshal_text b → P b.
Proof.
  intros Hnull Hbool Hnum Hstr Harr Hobj. fix IH 2. intros b Hb.
  destruct Hb as [|v|b Hn|s|bs Hbs|kbs Hkbs]; [done|done|by apply Hnum|done| |].
  - apply Harr; [done|]. induction Hbs as [|b bs Hb Hbs IHbs]; constructor; [by apply IH|done].
  - apply Hobj; [done|].
    induction Hkbs as [|kb kbs Hb Hkbs IHkbs]; constructor; [by apply IH|done].
Qed.

Lemma key_le_total : Total json.key_le.
Proof. intros x y. apply String.leb_total. Qed.

(** The text of a map that is marshalled: the members in the order of their
    keys, each key once. *)
Lemma Marshal_map_Ok_inv (members : gmap string (outcome json.Error string)) (b : string) :
  json.Marshal_map members = Ok b →
  ∃ kbs : list (string * string),
    b = "{" +:+ json.join "," (member_text <$> kbs) +:+ "}"
    ∧ Sorted (fun x y => String.leb x.1 y.1 = true) kbs
    ∧ NoDup kbs.*1
    ∧ ∀ k b', (k, b') ∈ kbs ↔ members !! k = Some (Ok b').
Proof.
  intros Hb.
  assert (map_Forall (fun _ r => ∃ b', r = Ok b') members) as Hall.
  { intros k r Hk. apply is_Ok_true.
    apply (map_fold_andb_lookup (fun _ r => is_Ok r) members k r); [|done].
    rewrite <-Marshal_map_is_Ok. by rewrite Hb. }
  unfold json.Marshal_map in Hb.
  pose proof (merge_sort_Permutation json.key_le (map_to_list members)) as Hperm.
  pose proof (@Sorted_merge_sort _ json.key_le _ key_le_total (map_to_list members)) as Hsorted.
  set (sorted := merge_sort json.key_le (map_to_list members)) in *.
  assert (Forall (fun kr => ∃ b, kr.2 = Ok b) sorted) as Hall'.
  { rewrite Hperm. apply Forall_forall. intros [k r] Hkr%elem_of_map_to_list. by apply (Hall k). }
  destruct (outcomes_Ok_list sorted Hall') as [kbs Hkbs].
  exists kbs.
  assert (sorted.*2 = Ok <$> kbs.*2) as Hvals.
  { rewrite Hkbs, <-!list_fmap_compose. by apply list_fmap_ext. }
  assert (sorted.*1 = kbs.*1) as Hkeys.
  { rewrite Hkbs, <-!list_fmap_compose. by apply list_fmap_ext. }
  rewrite Hvals, marshal_elements_Ok, Hkeys, zip_with_member_text in Hb.
  injection Hb as <-. split; [done|]. split; [|split].
  - clearbody sorted. clear -Hsorted Hkbs. revert sorted Hsorted Hkbs.
    induction kbs as [|kb kbs IH]; intros sorted Hsorted Hkbs; [constructor|].
    rewrite fmap_cons in Hkbs. subst sorted. apply Sorted_inv in Hsorted as [Hs Hhd].
    constructor; [by apply (IH _ Hs)|].
    destruct kbs as [|kb2 kbs]; [constructor|]. rewrite fmap_cons in Hhd.
    apply HdRel_inv in Hhd. constructor. exact Hhd.
  - rewrite <-Hkeys, Hperm. apply NoDup_fst_map_to_list.
  - intros k b'. rewrite <-elem_of_map_to_list, <-Hperm, Hkbs, list_elem_of_fmap. split.
    + intros Hin. by exists (k, b').
    + by intros ([k' b''] & [= -> ->] & Hin).
Qed.

Lemma Marshal_slice_Ok_inv (rs : list (outcome json.Error string)) (b : string) :
  json.Marshal_slice rs = Ok b →
  ∃ bs, rs = Ok <$> bs ∧ b = "[" +:+ json.join "," bs +:+ "]".
Proof.
  intros Hb.
  assert (forallb is_Ok rs = true) as Hall by (by rewrite <-Marshal_slice_is_Ok, Hb).
  destruct (outcomes_all_Ok rs Hall) as [bs ->]. exists bs. split; [done|].
  rewrite Marshal_slice_Ok in Hb. by injection Hb.
Qed.

(** What [MarshalJSON] writes is such a text. *)
Lemma Value_MarshalJSON_text (v : Value) (b : string) :
  Value_MarshalJSON v = Ok b → marshal_text b.
Proof.
  revert b. induction v as [k Hm Hl|m IH|l IH] using Value_nested_ind; intros b.
  - destruct k as [|[p|]|[f|]|[s|]|[v|]|[[[fs]|]|]|[[[vs]|]|]].
    1-3, 5, 7, 9, 12, 15: intros [= <-]; apply marshal_text_null.
    + intros Hb. by apply marshal_text_number, (Marshal_float64_number_text f).
    + intros [= <-]. apply marshal_text_string.
    + intros [= <-]. apply marshal_text_bool.
    + destruct fs as [m|]; [by destruct (Hm m)|]. intros [= <-].
      apply (marshal_text_object []). constructor.
    + discriminate.
    + destruct vs as [l|]; [by destruct (Hl l)|]. intros [= <-].
      apply (marshal_text_array []). constructor.
    + discriminate.
  - change (json.Marshal_map
              ((fun v => match v with Some v => Value_MarshalJSON v | None => Ok "null" end)
                 <$> m) = Ok b → marshal_text b).
    intros (kbs & -> & _ & _ & Hin)%Marshal_map_Ok_inv.
    apply marshal_text_object, Forall_forall. intros [k b'] Hkb%Hin.
    rewrite lookup_fmap in Hkb. destruct (m !! k) as [[v|]|] eqn:Hk; try done.
    + injection Hkb as Hkb. by apply (IH k (Some v) Hk v).
    + injection Hkb as <-. apply marshal_text_null.
  - change (json.Marshal_slice
              (List.map (fun v => match v with Some v => Value_MarshalJSON v | None => Ok "null" end)
                 l) = Ok b → marshal_text b).
    intros (bs & Hbs & ->)%Marshal_slice_Ok_inv. apply marshal_text_array.
    clear -IH Hbs. revert bs Hbs. induction IH as [|ov l Hov Hl IHl]; intros [|b bs] Hbs;
      try discriminate Hbs; [constructor|].
    injection Hbs as Hb Hbs. constructor; [|by apply IHl].
    destruct ov as [v|]; [by apply (Hov v)|]. injection Hb as <-. apply marshal_text_null.
Qed.

(** The scanner accepts the texts that are written. *)
Lemma scans_marshal_text (b : string) :
  marshal_text b →
  ∀ st ps, begins_value st = true →
    ∃ sc', scans (json.Scanner st ps) b sc' ∧ value_ended sc' ps.
Proof.
  intros Hb. induction Hb as [|v|b Hn|s|bs Hbs IH|kbs Hkbs IH] using marshal_text_nested_ind;
    intros st ps Hst.
  - apply (scans_json_text "null"); [constructor|done].
  - apply (scans_json_text (json.Marshal_bool v)); [constructor|done].
  - apply (scans_json_text b); [by constructor|done].
  - eexists. split; [apply scans_Marshal_string; auto|apply value_ended_stateEndValue].
  - destruct (scans_elements _ ps bs (fun b Hb => Hb) IH) as (sc' & Hsc & Hclose).
    exists (json.popParseState ps). split; [|apply value_ended_popParseState].
    change ("[" +:+ json.join "," bs +:+ "]") with (String "[" (json.join "," bs) +:+ "]").
    eapply scans_close; [|done|rewrite popParseState_stack; by cbn].
    eapply scans_cons; [|done]. apply scans_push. by destruct st.
  - destruct (scans_members _ ps kbs (fun b Hb => Hb) IH) as (sc' & Hsc & Hclose).
    exists (json.popParseState ps). split; [|apply value_ended_popParseState].
    change ("{" +:+ json.join "," (member_text <$> kbs) +:+ "}")
      with (String "{" (json.join "," (member_text <$> kbs)) +:+ "}").
    eapply scans_close; [|done|rewrite popParseState_stack; by cbn].
    eapply scans_cons; [|done]. apply scans_push. by destruct st.
Qed.

Lemma checkValid_marshal_text (b : string) : marshal_text b → json.checkValid b = None.
Proof.
  intros Hb. destruct (scans_marshal_text b Hb json.stateBeginValue [] eq_refl)
    as (sc' & [Hsc _] & _ & Hend).
  apply checkValid_from_scan_all. fold json.scan_init in Hsc. rewrite Hsc.
  by rewrite Hend.
Qed.

(** ** The bytes that are written *)

Lemma string_forallb_impl (P Q : ascii → bool) (s : string) :
  (∀ c, P c = true → Q c = true) → string_forallb P s = true → string_forallb Q s = true.
Proof.
  intros HPQ. induction s as [|c s IH]; [done|]. simpl.
  intros [Hc Hs]%andb_prop. by rewrite (HPQ c Hc), IH.
Qed.

Lemma html_quiet_number_byte (c : ascii) : json.is_number_byte c = true → html_quiet c = true.
Proof. by destruct c as [[] [] [] [] [] [] [] []]. Qed.

Lemma html_quiet_high (c : ascii) : high_byte c = true → html_quiet c = true.
Proof. by destruct c as [[] [] [] [] [] [] [] []]. Qed.

Lemma html_quiet_hex_char (n : Z) : (0 ≤ n < 16)%Z → html_quiet (json.hex_char n) = true.
Proof.
  intros Hn.
  assert (n = 0 ∨ n = 1 ∨ n = 2 ∨ n = 3 ∨ n = 4 ∨ n = 5 ∨ n = 6 ∨ n = 7 ∨ n = 8 ∨ n = 9
          ∨ n = 10 ∨ n = 11 ∨ n = 12 ∨ n = 13 ∨ n = 14 ∨ n = 15)%Z as Hcases by lia.
  repeat destruct Hcases as [->|Hcases]; try subst n; by vm_compute.
Qed.

Lemma html_quiet_ascii (c : ascii) (s : string) :
  (byte c <? utf8.RuneSelf)%Z = true →
  string_forallb html_quiet (json.encode_string_body 0 0 s) = true →
  string_forallb html_quiet (json.encode_string_body 0 0 (String c s)) = true.
Proof.
  intros Hc IH.
  destruct c as [[] [] [] [] [] [] [] []]; try discriminate Hc; clear Hc; exact IH.
Qed.

Lemma html_quiet_encode_both (n : nat) (s : string) :
  (String.length s < n)%nat →
  (∀ k, (k ≤ String.length s)%nat → string_forallb high_byte (string_take k s) = true →
        string_forallb html_quiet (json.encode_string_body k 0 s) = true)
  ∧ (∀ j, string_forallb html_quiet (json.encode_string_body 0 j s) = true).
Proof.
  revert s. induction n as [|n IH]; intros s Hlen; [lia|].
  destruct s as [|c s].
  { split; [intros [|k] | intros [|j]]; by intros. }
  simpl in Hlen. destruct (IH s ltac:(lia)) as [IHcopy IHskip].
  assert (∀ k, (k ≤ String.length (String c s))%nat →
            string_forallb high_byte (string_take k (String c s)) = true →
            string_forallb html_quiet (json.encode_string_body k 0 (String c s)) = true)
    as Hcopy.
  { intros [|k] Hk Hhigh.
    2:{ simpl in Hk, Hhigh. apply andb_prop in Hhigh as [Hc Hhigh].
        cbn [json.encode_string_body string_forallb].
        rewrite (html_quiet_high c Hc). apply IHcopy; [lia|done]. }
    clear Hk Hhigh. destruct (byte c <? utf8.RuneSelf)%Z eqn:Hc.
    { apply html_quiet_ascii; [done|]. by apply IHcopy; [lia|]. }
    cbn [json.encode_string_body]. rewrite Hc.
    destruct (utf8.DecodeRuneInString (String c s)) as [r size] eqn:Hd.
    destruct (DecodeRuneInString_high c s r size Hc Hd) as (H1 & Hl & Hh).
    destruct (_ && _).
    { rewrite string_forallb_app. apply andb_true_intro. split; [done|].
      by apply IHcopy; [lia|]. }
    destruct (_ || _) eqn:Hsep.
    - assert (r = 8232%Z ∨ r = 8233%Z) as [-> | ->] by lia;
        (rewrite string_forallb_app; apply andb_true_intro; split; [done|];
         cbn [string_forallb]; apply andb_true_intro; split; [done|apply IHskip]).
    - cbn [string_forallb]. apply andb_true_intro. split; [|by apply IHcopy].
      apply html_quiet_high. unfold high_byte. unfold utf8.RuneSelf in Hc. lia. }
  split; [done|]. intros [|j]; [by apply Hcopy; [lia|]|]. apply IHskip.
Qed.

Lemma html_quiet_Marshal_string (s : string) :
  string_forallb html_quiet (json.Marshal_string s) = true.
Proof.
  unfold json.Marshal_string.
  destruct (html_quiet_encode_both (S (String.length s)) s ltac:(lia)) as [_ Hskip].
  change (String dquote (json.encode_string_body 0 0 s +:+ String dquote ""))
    with (String dquote "" +:+ json.encode_string_body 0 0 s +:+ String dquote "").
  by rewrite !string_forallb_app, (Hskip 0%nat).
Qed.

Lemma html_quiet_join (bs : list string) :
  Forall (fun b => string_forallb html_quiet b = true) bs →
  string_forallb html_quiet (json.join "," bs) = true.
Proof.
  induction 1 as [|b bs Hb Hbs IH]; [done|].
  destruct bs as [|b2 bs]; [done|].
  change (json.join "," (b :: b2 :: bs)) with (b +:+ "," +:+ json.join "," (b2 :: bs)).
  rewrite !string_forallb_app, Hb. simpl. exact IH.
Qed.

Lemma html_quiet_marshal_text (b : string) :
  marshal_text b → string_forallb html_quiet b = true.
Proof.
  intros Hb. induction Hb as [|v|b Hn|s|bs Hbs IH|kbs Hkbs IH] using marshal_text_nested_ind.
  - done.
  - by destruct v.
  - apply (string_forallb_impl json.is_number_byte); [apply html_quiet_number_byte|].
    by apply number_text_number_bytes.
  - apply html_quiet_Marshal_string.
  - by rewrite !string_forallb_app, html_quiet_join.
  - rewrite !string_forallb_app, html_quiet_join; [done|].
    apply Forall_fmap. eapply Forall_impl; [exact IH|]. intros [k b] Hb. unfold member_text.
    cbn [fst snd compose] in *.
    by rewrite !string_forallb_app, html_quiet_Marshal_string, Hb.
Qed.

(** ** Base64 text is ASCII, and ASCII is valid UTF-8 *)

Lemma ascii_ValidString (s : string) :
  string_forallb (fun c => (byte c <? 128)%Z) s = true → utf8.ValidString s = true.
Proof.
  unfold utf8.ValidString. induction s as [|c s IH]; [done|].
  cbn [string_forallb]. intros [Hc Hs]%andb_prop.
  cbn [utf8.ValidString_from]. unfold utf8.valid_rune, utf8.DecodeRuneInString.
  rewrite Hc. cbn [snd Nat.sub]. rewrite (IH Hs), andb_true_r.
  apply negb_true_iff, andb_false_intro1. apply Z.eqb_neq. unfold utf8.RuneError.
  apply Z.ltb_lt in Hc. lia.
Qed.

Lemma sextet_ascii (n : Z) : (byte (base64.sextet n) <? 128)%Z = true.
Proof.
  unfold base64.sextet.
  assert (Z.to_nat (Z.land n 63) < 64)%nat as Hk.
  { change 63%Z with (Z.ones 6). rewrite Z.land_ones by lia.
    pose proof (Z.mod_pos_bound n (2 ^ 6) ltac:(lia)). lia. }
  revert Hk. generalize (Z.to_nat (Z.land n 63)). intros k Hk.
  do 64 (destruct k as [|k]; [by vm_compute|]). lia.
Qed.

Lemma EncodeToString_ascii_upto (n : nat) (src : string) :
  (String.length src < n)%nat →
  string_forallb (fun c => (byte c <? 128)%Z) (base64.EncodeToString src) = true.
Proof.
  revert src. induction n as [|n IH]; intros src Hlen; [lia|].
  destruct src as [|c0 [|c1 [|c2 rest]]]; cbn [base64.EncodeToString string_forallb];
    rewrite ?sextet_ascii; try done.
  apply IH. simpl in Hlen. lia.
Qed.

Lemma ValidString_EncodeToString (src : string) :
  utf8.ValidString (base64.EncodeToString src) = true.
Proof. apply ascii_ValidString, (EncodeToString_ascii_upto (S (String.length src))). lia. Qed.

Section converted.
Context `{MapRange}.

Lemma finite_floats_lookup (m : gmap string interface) (k : string) (v : interface) :
  finite_floats (I_map m) = true → m !! k = Some v → finite_floats v = true.
Proof.
  simpl. intros Hm Hk. by apply (map_fold_andb_lookup (fun _ v => finite_floats v) m k v).
Qed.

(** What [NewValue] builds from a supported native value with finite floats
    is a generic value with finite numbers and valid strings, and none of its
    maps and slices is nil. *)
Lemma NewValue_generic (x : interface) (v : Value) :
  native_supported x = true → finite_floats x = true → NewValue x = Ok v →
  is_GenericValue v = true ∧ finite_and_utf8 v = true ∧ no_nil_container v = true.
Proof.
  revert v. induction x as [x Hm Hl|m IH|l IH] using interface_nested_ind; intros v Hx Hf Hv.
  - destruct x as [|b|n|n|n|n|n|n|f|f|s|b|m|l|T]; try (by destruct (Hm m)); try (by destruct (Hl l));
      try discriminate Hx.
    1, 2: by injection Hv as <-.
    1-6: injection Hv as <-; cbn [is_GenericValue finite_and_utf8 no_nil_container Kind
                                    NewNumberValue];
         (split; [apply float64_of_Z_valid|]); (split; [|done]);
         apply float64_of_Z_finite; simpl in Hx; lia.
    1, 2: injection Hv as <-; simpl in Hf; apply andb_prop in Hf as [Hf1 Hf2]; by repeat split.
    + simpl in Hx, Hv. rewrite Hx in Hv. injection Hv as <-. by repeat split.
    + injection Hv as <-. repeat split. apply ValidString_EncodeToString.
  - assert (∃ sv, NewStruct m = Ok sv ∧ v = NewStructValue (Some sv)) as (sv & Hsv & ->).
    { unfold NewStruct. simpl in Hv. destruct (NewStruct_range _ _) as [sv|]; [|done].
      injection Hv as <-. by exists sv. }
    destruct (NewStruct_Ok_inv m sv Hsv) as (fs & -> & Hdom & Hfs).
    assert (∀ k ov, fs !! k = Some ov →
              utf8.ValidString k = true
              ∧ ∃ pv, ov = Some pv ∧ is_GenericValue pv = true ∧ finite_and_utf8 pv = true
                      ∧ no_nil_container pv = true) as Hall.
    { intros k ov Hk.
      assert (k ∈ dom m) as [w Hw]%elem_of_dom by (rewrite <-Hdom; by apply elem_of_dom).
      destruct (Hfs k w Hw) as (Hvalid & pv & Hpv & Hlook). split; [done|].
      exists pv. split; [congruence|].
      destruct (native_supported_lookup m k w Hx Hw) as [_ Hw'].
      apply (IH k w Hw pv Hw' (finite_floats_lookup m k w Hf Hw) Hpv). }
    cbn [is_GenericValue finite_and_utf8 no_nil_container Kind NewStructValue].
    split; [|split].
    + apply (map_fold_andb_true
               (fun _ ov => match ov with Some v => is_GenericValue v | None => false end)).
      intros k ov Hk. by destruct (Hall k ov Hk) as (_ & pv & -> & ? & _).
    + apply (map_fold_andb_true
               (fun k ov => utf8.ValidString k
                            && match ov with Some v => finite_and_utf8 v | None => true end)).
      intros k ov Hk. destruct (Hall k ov Hk) as (Hvalid & pv & -> & _ & Hfin & _).
      by rewrite Hvalid, Hfin.
    + apply (map_fold_andb_true
               (fun _ ov => match ov with Some v => no_nil_container v | None => true end)).
      intros k ov Hk. by destruct (Hall k ov Hk) as (_ & pv & -> & _ & _ & ?).
  - assert (∃ lv, NewList l = Ok lv ∧ v = NewListValue (Some lv)) as (lv & Hlv & ->).
    { unfold NewList. simpl in Hv. destruct (NewList_range _ _ _) as [lv|]; [|done].
      injection Hv as <-. by exists lv. }
    destruct (NewList_Ok_inv l lv Hlv) as (vs & -> & Hvs).
    cbn [is_GenericValue finite_and_utf8 no_nil_container Kind NewListValue].
    simpl in Hx, Hf. clear Hlv Hv. revert Hx Hf IH.
    induction Hvs as [|w pv l vs Hw Hvs IHvs]; intros Hx Hf IH; [done|].
    simpl in Hx, Hf. apply andb_prop in Hx as [Hx1 Hx2]. apply andb_prop in Hf as [Hf1 Hf2].
    apply Forall_cons in IH as [IH1 IH2].
    destruct (IH1 pv Hx1 Hf1 Hw) as (Hg & Hfin & Hnn).
    destruct (IHvs Hx2 Hf2 IH2) as (Hgs & Hfins & Hnns).
    rewrite fmap_cons. cbn [forallb]. by rewrite Hg, Hfin, Hnn.
Qed.

(** A supported native value with finite floats, converted and written as
    JSON, is read back as the Value it was converted to. *)
Lemma NewValue_Marshal_Unmarshal (x : interface) :
  native_supported x = true → finite_floats x = true →
  ∃ v b, NewValue x = Ok v ∧ Value_MarshalJSON v = Ok b
         ∧ ∀ x0, Value_UnmarshalJSON x0 b = Some (v, None).
Proof.
  intros Hx Hf. destruct (NewValue_AsInterface x Hx) as (v & Hv & _).
  destruct (NewValue_generic x v Hx Hf Hv) as (Hgen & Hfin & Hnn).
  destruct (Value_roundtrip v Hgen Hfin) as (b & Hb & _ & Hu).
  exists v, b. split; [done|]. split; [done|]. intros x0.
  unfold Value_UnmarshalJSON. by rewrite Hu, (canonical_no_nil v Hnn).
Qed.

End converted.

(** ** What [AsInterface] returns *)

Lemma Value_AsInterface_json_native (v : Value) : json_native (Value_AsInterface v) = true.
Proof.
  induction v as [k Hm Hl|m IH|l IH] using Value_nested_ind.
  - destruct k as [|[p|]|[f|]|[s|]|[b|]|[[[fs]|]|]|[[[vs]|]|]]; try done.
    + by destruct f as [[]|[]| |].
    + destruct fs as [m|]; [by destruct (Hm m)|done].
    + destruct vs as [l|]; [by destruct (Hl l)|done].
  - change (map_fold (fun _ v b => json_native v && b) true
              ((fun v => match v with Some v => Value_AsInterface v | None => I_nil end) <$> m)
            = true).
    rewrite (map_fold_fmap (fun _ (v : interface) b => json_native v && b)).
    apply (map_fold_andb_true
             (fun _ ov => json_native match ov with Some v => Value_AsInterface v | None => I_nil end)).
    intros k [v|] Hk; [|done]. by apply (IH k (Some v) Hk).
  - change (forallb json_native
              (List.map (fun v => match v with Some v => Value_AsInterface v | None => I_nil end) l)
            = true).
    induction IH as [|ov l Hov Hl IHl]; [done|]. simpl. rewrite IHl, andb_true_r.
    destruct ov as [v|]; [by apply Hov|done].
Qed.

Section back.
Context `{MapRange}.

Lemma map_range_empty {A} : map_range (∅ : gmap string A) = [].
Proof.
  apply Permutation_nil. symmetry. rewrite (map_range_perm A ∅). by rewrite map_to_list_empty.
Qed.

(** [NewValue] of what [AsInterface] returns for a generic value with finite
    numbers and valid strings is the value again, its nil maps and slices
    become empty ones. *)
Lemma NewValue_of_AsInterface (v : Value) :
  is_GenericValue v = true → finite_and_utf8 v = true →
  NewValue (Value_AsInterface v) = Ok (canonical v).
Proof.
  induction v as [k Hm Hl|m IH|l IH] using Value_nested_ind; intros Hgen Hfin.
  - destruct k as [|[p|]|[f|]|[s|]|[b|]|[[[fs]|]|]|[[[vs]|]|]]; try discriminate Hgen.
    + by destruct p.
    + simpl in Hfin. by destruct f as [[]|[]| |].
    + simpl in *. by rewrite Hfin.
    + done.
    + destruct fs as [m|]; [by destruct (Hm m)|].
      cbn [Value_AsInterface Kind Struct_AsMap Fields NewValue canonical].
      by rewrite fmap_empty, map_range_empty.
    + destruct vs as [l|]; [by destruct (Hl l)|]. done.
  - cbn [is_GenericValue finite_and_utf8 Kind] in Hgen, Hfin.
    set (g := fun v => match v with Some v => Value_AsInterface v | None => I_nil end).
    set (cf := fun v => match v with Some v => Some (canonical v) | None => None end).
    change (NewValue (I_map (g <$> m))
            = Ok (Build_Value (Value_StructValue (Some (Some (Build_Struct (Some (cf <$> m)))))))).
    assert (∀ k ov, m !! k = Some ov →
              utf8.ValidString k = true ∧ ∃ v, ov = Some v ∧ NewValue (g ov) = Ok (canonical v))
      as Hall.
    { intros k ov Hk.
      pose proof (map_fold_andb_lookup
                    (fun _ v => match v with Some v => is_GenericValue v | None => false end)
                    m k ov Hgen Hk) as Hg.
      pose proof (map_fold_andb_lookup
                    (fun k v => utf8.ValidString k
                                && match v with Some v => finite_and_utf8 v | None => true end)
                    m k ov Hfin Hk) as [Hvalid Hf]%andb_prop.
      split; [done|]. destruct ov as [v|]; [|done]. exists v. split; [done|].
      by apply (IH k (Some v) Hk). }
    destruct (NewStruct_range_Ok (map_range (NewValue <$> (g <$> m))) ∅) as (fs & Hfs & Hlook).
    { apply NoDup_fst_map_range. }
    { apply Forall_forall. intros [k r] Hin.
      rewrite (map_range_perm _ (NewValue <$> (g <$> m))) in Hin.
      apply elem_of_map_to_list in Hin. rewrite !lookup_fmap in Hin.
      destruct (m !! k) as [ov|] eqn:Hk; [|done]. injection Hin as <-.
      destruct (Hall k ov Hk) as (Hvalid & v & -> & Hv). split; [done|]. by eexists. }
    cbn [NewValue]. rewrite Hfs. assert (fs = cf <$> m) as ->; [|done].
    apply map_eq. intros k. rewrite Hlook, list_to_map_range, !lookup_fmap, lookup_empty.
    destruct (m !! k) as [ov|] eqn:Hk; [|done]. simpl.
    destruct (Hall k ov Hk) as (_ & v & -> & Hv). by rewrite Hv.
  - cbn [is_GenericValue finite_and_utf8 Kind] in Hgen, Hfin.
    set (g := fun v => match v with Some v => Value_AsInterface v | None => I_nil end).
    set (cf := fun v => match v with Some v => Some (canonical v) | None => None end).
    change (NewValue (I_slice (List.map g l))
            = Ok (Build_Value (Value_ListValue (Some (Some (Build_ListValue (Some
                (List.map cf l)))))))).
    assert (∃ vs, List.map NewValue (List.map g l) = Ok <$> vs ∧ List.map cf l = Some <$> vs)
      as (vs & Hvs & Hcf).
    { clear -IH Hgen Hfin. induction IH as [|ov l Hov Hl IHl]; [by exists []|].
      simpl in Hgen, Hfin. apply andb_prop in Hgen as [Hg Hgs]. apply andb_prop in Hfin as [Hf Hfs].
      destruct (IHl Hgs Hfs) as (vs & Hvs & Hcf). destruct ov as [v|]; [|done].
      exists (canonical v :: vs). simpl. rewrite (Hov v eq_refl Hg Hf).
      split; by f_equal. }
    cbn [NewValue]. rewrite Hvs, Hcf.
    assert (length (List.map g l) = length vs) as ->.
    { rewrite <-(length_map NewValue), Hvs. by rewrite length_fmap. }
    pose proof (NewList_range_Ok vs []) as Hr. simpl in Hr. by rewrite Hr.
Qed.

End back.

(** ** The errors of [Value.unmarshal], and what the loops build *)

Lemma unmarshal_elements_Err_inv (unm : Value → string → option (Value * option error))
    (s : list string) (l : list (option Value)) (e : error) :
  unmarshal_elements unm s = Some (l, Some e) →
  ∃ sv v, sv ∈ s ∧ unm new_Value sv = Some (v, Some e).
Proof.
  revert l. induction s as [|b s IH]; intros l; simpl; [done|].
  destruct (unm new_Value b) as [[v [e0|]]|] eqn:Hb; [| |done].
  - intros [= <- <-]. exists b, v. split; [left|done].
  - destruct (unmarshal_elements unm s) as [[l' oe]|]; [|done].
    intros [= <- ->]. destruct (IH l' eq_refl) as (sv & v' & Hin & Hsv).
    exists sv, v'. split; [by right|done].
Qed.

Lemma Struct_unmarshal_range_Err_inv (unm : Value → string → option (Value * option error))
    (kvs : list (string * string)) (fs fs' : gmap string (option Value)) (e : error) :
  Struct_unmarshal_range unm kvs fs = Some (fs', Some e) →
  ∃ k jv pv e', (k, jv) ∈ kvs ∧ unm new_Value jv = Some (pv, Some e')
                ∧ e = Errorf_bad_value_for_key k e'.
Proof.
  revert fs. induction kvs as [|[k0 jv0] kvs IH]; intros fs; simpl; [done|].
  destruct (unm _ jv0) as [[v0 [e0|]]|] eqn:Hv0; [| |done].
  - intros [= <- <-]. exists k0, jv0, v0, e0. split; [left|done].
  - intros (k & jv & pv & e' & Hin & Hjv & ->)%IH.
    exists k, jv, pv, e'. split; [by right|done].
Qed.

Lemma Struct_unmarshal_range_all_Ok (unm : Value → string → option (Value * option error))
    (kvs : list (string * string)) (fs fs' : gmap string (option Value)) :
  Struct_unmarshal_range unm kvs fs = Some (fs', None) →
  Forall (fun kv => ∃ v, unm new_Value kv.2 = Some (v, None)) kvs.
Proof.
  revert fs. induction kvs as [|[k0 jv0] kvs IH]; intros fs; simpl; [constructor|].
  destruct (unm _ jv0) as [[v0 [e0|]]|] eqn:Hv0; [done| |done].
  intros Hr%IH. constructor; [by exists v0|done].
Qed.

Section errors.
Context `{MapRange}.

(** An error of [Value.unmarshal] is the error of a text that is no value,
    under the keys of the objects that the text is in. *)
Lemma Value_unmarshal_error_root (x : Value) (input : string) (v : Value) (e : error) :
  Value_unmarshal x input = Some (v, Some e) →
  ∃ s, error_root e = Errorf_unrecognized_type s.
Proof.
  cut (∀ n input x v e, (String.length input < n)%nat →
         Value_unmarshal x input = Some (v, Some e) →
         ∃ s, error_root e = Errorf_unrecognized_type s).
  { intros Hn. apply (Hn (S (String.length input))). lia. }
  clear. induction n as [|n IH]; intros input x v e Hlen; [lia|].
  rewrite Value_unmarshal_unfold. unfold Value_unmarshal_with.
  case_bool_decide; [done|].
  destruct (ParseFloat input) as [f|]; [done|].
  destruct (types.unquote input) as [s|]; [done|].
  destruct (ParseBool input) as [b|]; [done|].
  destruct (json.Unmarshal_slice input) as [s|] eqn:Hs.
  - rewrite (ListValue_unmarshal_with_elements _ _ _ s Hs).
    destruct (unmarshal_elements Value_unmarshal s) as [[l oe]|] eqn:Hl; [|done].
    cbn [fmap option_fmap option_map fst snd]. intros [= <- ->].
    destruct (unmarshal_elements_Err_inv _ _ _ _ Hl) as (sv & v' & Hin & Hsv).
    apply Unmarshal_slice_length in Hs. rewrite Forall_forall in Hs.
    apply (IH sv new_Value v' e); [|done]. specialize (Hs sv Hin). lia.
  - destruct (json.Unmarshal_map input) as [m|] eqn:Hm.
    + unfold Struct_unmarshal_with. rewrite Hm.
      destruct (Struct_unmarshal_range Value_unmarshal (map_range m) ∅) as [[fs oe]|] eqn:Hr;
        [|done].
      intros [= <- ->].
      destruct (Struct_unmarshal_range_Err_inv _ _ _ _ _ Hr) as (k & jv & pv & e' & Hin & Hjv & ->).
      apply Unmarshal_map_length in Hm.
      rewrite (map_range_perm _ m) in Hin. apply elem_of_map_to_list in Hin.
      specialize (Hm k jv Hin). simpl in Hm. cbn [error_root].
      apply (IH jv new_Value pv e'); [lia|done].
    + intros [= <- <-]. by eexists.
Qed.

(** ** [ListValue.unmarshal] and [Struct.unmarshal] when they return no error *)

Lemma ListValue_unmarshal_Ok_inv (x : ListValue) (b : string) (lv : ListValue) :
  ListValue_unmarshal x b = Some (lv, None) →
  ∃ s vs, json.Unmarshal_slice b = Ok s
          ∧ lv = Build_ListValue (Some (Some <$> vs))
          ∧ Forall2 (fun sv v => Value_unmarshal new_Value sv = Some (v, None)) s vs.
Proof.
  unfold ListValue_unmarshal.
  destruct (json.Unmarshal_slice b) as [s|] eqn:Hs.
  2:{ unfold ListValue_unmarshal_with. by rewrite Hs. }
  rewrite (ListValue_unmarshal_with_elements _ _ _ s Hs).
  destruct (unmarshal_elements Value_unmarshal s) as [[l oe]|] eqn:Hl; [|done].
  cbn [fmap option_fmap option_map fst snd]. intros [= <- ->].
  destruct (unmarshal_elements_Ok_inv _ _ _ Hl) as (vs & -> & Hvs). by exists s, vs.
Qed.

Lemma Struct_unmarshal_Ok_inv (x : Struct) (b : string) (sv : Struct) :
  Struct_unmarshal x b = Some (sv, None) →
  ∃ m fs, json.Unmarshal_map b = Ok m
          ∧ sv = Build_Struct (Some fs)
          ∧ dom fs = dom m
          ∧ ∀ k jv, m !! k = Some jv →
              ∃ v, Value_unmarshal new_Value jv = Some (v, None) ∧ fs !! k = Some (Some v).
Proof.
  unfold Struct_unmarshal, Struct_unmarshal_with.
  destruct (json.Unmarshal_map b) as [m|] eqn:Hm; [|done].
  destruct (Struct_unmarshal_range Value_unmarshal (map_range m) ∅) as [[fs oe]|] eqn:Hr; [|done].
  intros [= <- ->]. exists m, fs. split; [done|]. split; [done|].
  pose proof (Struct_unmarshal_range_all_Ok _ _ _ _ Hr) as Hall.
  set (g := fun jv => match Value_unmarshal new_Value jv with
                      | Some (v, _) => v
                      | None => new_Value
                      end).
  destruct (Struct_unmarshal_range_Ok Value_unmarshal g (map_range m) ∅) as (fs' & Hfs' & Hlook).
  { eapply Forall_impl; [exact Hall|]. intros [k jv] [v Hv]. unfold g. simpl in *. by rewrite Hv. }
  { apply NoDup_fst_map_range. }
  rewrite Hr in Hfs'. injection Hfs' as <-.
  assert (∀ k, fs !! k = (fun jv => Some (g jv)) <$> m !! k) as Hfs.
  { intros k. rewrite Hlook, list_to_map_range, lookup_empty. by destruct (m !! k). }
  split.
  - apply set_eq. intros k. rewrite !elem_of_dom, Hfs. destruct (m !! k); split; by intros [? ?].
  - intros k jv Hk. rewrite Forall_forall in Hall.
    destruct (Hall (k, jv)) as [v Hv].
    { rewrite (map_range_perm _ m). by apply elem_of_map_to_list. }
    exists v. split; [done|]. rewrite Hfs, Hk. simpl. unfold g. simpl in Hv. by rewrite Hv.
Qed.

(** ** A key that the text of an object holds more than once *)



End errors.

(** ** A text of another kind given to [Struct.UnmarshalJSON] or
    [ListValue.UnmarshalJSON] *)

Lemma Unmarshal_map_other (c : ascii) (t : string) :
  json.checkValid (String c t) = None → json.isSpace c = false → is_byte "{" c = false →
  json.Unmarshal_map (String c t)
  = if is_byte "n" c then Ok ∅ else Err (json.UnmarshalTypeError (json.value_kind c)).
Proof.
  intros Hvalid Hsp Hc. unfold json.Unmarshal_map. rewrite Hvalid.
  cbn [json.skip_space]. by rewrite Hsp, Hc.
Qed.

Lemma Unmarshal_slice_other (c : ascii) (t : string) :
  json.checkValid (String c t) = None → json.isSpace c = false → is_byte "[" c = false →
  json.Unmarshal_slice (String c t)
  = if is_byte "n" c then Ok [] else Err (json.UnmarshalTypeError (json.value_kind c)).
Proof.
  intros Hvalid Hsp Hc. unfold json.Unmarshal_slice. rewrite Hvalid.
  cbn [json.skip_space]. by rewrite Hsp, Hc.
Qed.

Lemma number_text_start (b : string) :
  number_text b →
  ∃ c t, b = String c t ∧ json.isSpace c = false ∧ is_byte "{" c = false
         ∧ is_byte "[" c = false ∧ is_byte "n" c = false ∧ json.value_kind c = "number".
Proof.
  intros [neg int frac exp esign [Hint Hne]%andb_prop _ _ _]. unfold number_parts.
  destruct neg; [by eexists _, _|]. destruct int as [|c int]; [done|].
  simpl in Hint. apply andb_prop in Hint as [Hc _].
  exists c. eexists. split; [done|]. clear -Hc.
  destruct c as [[] [] [] [] [] [] [] []]; try discriminate Hc; by vm_compute.
Qed.

Lemma ListValue_MarshalJSON_start (lv : ListValue) (b : string) :
  ListValue_MarshalJSON lv = Ok b → ∃ t, b = String "[" t.
Proof.
  destruct lv as [[l|]].
  - change (ListValue_MarshalJSON (Build_ListValue (Some l)))
      with (json.Marshal_slice
              (List.map (fun v => match v with Some v => Value_MarshalJSON v | None => Ok "null" end)
                 l)).
    intros (bs & _ & ->)%Marshal_slice_Ok_inv. by eexists.
  - intros [= <-]. by eexists.
Qed.

Lemma Struct_MarshalJSON_start (sv : Struct) (b : string) :
  Struct_MarshalJSON sv = Ok b → ∃ t, b = String "{" t.
Proof.
  destruct sv as [[m|]].
  - change (Struct_MarshalJSON (Build_Struct (Some m)))
      with (json.Marshal_map
              ((fun v => match v with Some v => Value_MarshalJSON v | None => Ok "null" end)
                 <$> m)).
    intros (kbs & -> & _)%Marshal_map_Ok_inv. by eexists.
  - intros [= <-]. by eexists.
Qed.

Section other_kind.
Context `{MapRange}.

Lemma Struct_unmarshal_with_result unm (x : Struct) (b : string) :
  Struct_unmarshal_with unm x b
  = match json.Unmarshal_map b with
    | Err err => Some (x, Some (Errorf_bad_StructValue err))
    | Ok m =>
        match Struct_unmarshal_range unm (map_range m) ∅ with
        | None => None
        | Some (fs, err) => Some (Build_Struct (Some fs), err)
        end
    end.
Proof. done. Qed.

Lemma Struct_UnmarshalJSON_other_kind (x : Struct) (v : Value) (b : string) :
  Value_MarshalJSON v = Ok b →
  (∀ sv, Kind v ≠ Value_StructValue (Some sv)) →
  Struct_UnmarshalJSON x b
  = Some match Kind v with
         | Value_NumberValue (Some _) =>
             (x, Some (Errorf_bad_StructValue (json.UnmarshalTypeError "number")))
         | Value_StringValue (Some _) =>
             (x, Some (Errorf_bad_StructValue (json.UnmarshalTypeError "string")))
         | Value_BoolValue (Some _) =>
             (x, Some (Errorf_bad_StructValue (json.UnmarshalTypeError "bool")))
         | Value_ListValue (Some _) =>
             (x, Some (Errorf_bad_StructValue (json.UnmarshalTypeError "array")))
         | _ => (Build_Struct (Some ∅), None)
         end.
Proof.
  intros Hb Hkind. pose proof (checkValid_marshal_text b (Value_MarshalJSON_text v b Hb)) as Hvalid.
  unfold Struct_UnmarshalJSON, Struct_unmarshal. rewrite Struct_unmarshal_with_result.
  assert (json.Unmarshal_map "null" = Ok ∅) as Hnull by (by vm_compute).
  destruct v as [k]. cbn [Kind] in *.
  destruct k as [|[p|]|[f|]|[s|]|[q|]|[sv|]|[[lv|]|]];
    try (injection Hb as <-; rewrite Hnull, map_range_empty; done).
  - destruct (number_text_start b (Marshal_float64_number_text f b Hb))
      as (c & t & -> & Hsp & Hc & _ & Hn & Hk).
    by rewrite (Unmarshal_map_other c t Hvalid Hsp Hc), Hn, Hk.
  - injection Hb as <-. unfold json.Marshal_string in *.
    by rewrite (Unmarshal_map_other _ _ Hvalid).
  - injection Hb as <-. by destruct q; vm_compute.
  - by destruct (Hkind sv).
  - apply (ListValue_MarshalJSON_start lv) in Hb as [t ->].
    by rewrite (Unmarshal_map_other _ _ Hvalid).
  - discriminate Hb.
Qed.

Lemma ListValue_UnmarshalJSON_other_kind (x : ListValue) (v : Value) (b : string) :
  Value_MarshalJSON v = Ok b →
  (∀ lv, Kind v ≠ Value_ListValue (Some lv)) →
  ListValue_UnmarshalJSON x b
  = Some match Kind v with
         | Value_NumberValue (Some _) =>
             (x, Some (Errorf_bad_ListValue (json.UnmarshalTypeError "number")))
         | Value_StringValue (Some _) =>
             (x, Some (Errorf_bad_ListValue (json.UnmarshalTypeError "string")))
         | Value_BoolValue (Some _) =>
             (x, Some (Errorf_bad_ListValue (json.UnmarshalTypeError "bool")))
         | Value_StructValue (Some _) =>
             (x, Some (Errorf_bad_ListValue (json.UnmarshalTypeError "object")))
         | _ => (Build_ListValue (Some []), None)
         end.
Proof.
  intros Hb Hkind. pose proof (checkValid_marshal_text b (Value_MarshalJSON_text v b Hb)) as Hvalid.
  unfold ListValue_UnmarshalJSON, ListValue_unmarshal, ListValue_unmarshal_with.
  assert (json.Unmarshal_slice "null" = Ok []) as Hnull by (by vm_compute).
  destruct v as [k]. cbn [Kind] in *.
  destruct k as [|[p|]|[f|]|[s|]|[q|]|[[sv|]|]|[lv|]];
    try (injection Hb as <-; rewrite Hnull; done).
  - destruct (number_text_start b (Marshal_float64_number_text f b Hb))
      as (c & t & -> & Hsp & _ & Hc & Hn & Hk).
    by rewrite (Unmarshal_slice_other c t Hvalid Hsp Hc), Hn, Hk.
  - injection Hb as <-. unfold json.Marshal_string in *.
    by rewrite (Unmarshal_slice_other _ _ Hvalid).
  - injection Hb as <-. by destruct q; vm_compute.
  - apply (Struct_MarshalJSON_start sv) in Hb as [t ->].
    by rewrite (Unmarshal_slice_other _ _ Hvalid).
  - discriminate Hb.
  - by destruct (Hkind lv).
Qed.

(** ** [NewStruct] with [AsMap], [NewList] with [AsSlice] *)



End other_kind.

(** ** The members that [Struct.MarshalJSON] writes *)

Lemma Struct_MarshalJSON_sorted (x : Struct) (b : string) :
  Struct_MarshalJSON x = Ok b →
  ∃ kbs : list (string * string),
    b = "{" +:+ json.join "," (member_text <$> kbs) +:+ "}"
    ∧ Sorted (fun x y => String.leb x.1 y.1 = true) kbs
    ∧ NoDup kbs.*1
    ∧ ∀ k b', (k, b') ∈ kbs ↔
        ∃ ov, default ∅ (Fields x) !! k = Some ov
              ∧ match ov with Some v => Value_MarshalJSON v | None => Ok "null" end = Ok b'.
Proof.
  destruct x as [[m|]].
  - change (Struct_MarshalJSON (Build_Struct (Some m)))
      with (json.Marshal_map
              ((fun v => match v with Some v => Value_MarshalJSON v | None => Ok "null" end)
                 <$> m)).
    intros (kbs & -> & Hsorted & Hnd & Hin)%Marshal_map_Ok_inv.
    exists kbs. split; [done|]. split; [done|]. split; [done|].
    intros k b'. rewrite Hin, lookup_fmap. simpl.
    destruct (m !! k) as [ov|]; simpl.
    + split; [intros [= Hov]; by exists ov|]. intros (ov' & [= <-] & Hov). by rewrite Hov.
    + split; [done|by intros (? & ? & _)].
  - intros [= <-]. exists []. split; [done|]. split; [constructor|]. split; [constructor|].
    intros k b'. simpl. split; [by intros ?%elem_of_nil|].
    intros (ov & Hov & _). by rewrite lookup_empty in Hov.
Qed.

(** ** The order in which a map is ranged over *)

(** What [NewValue] builds, when it returns no error, is the same under any
    two orders. *)
Lemma NewValue_order (H1 H2 : MapRange) (x : interface) (v : Value) :
  NewValue (H := H1) x = Ok v → NewValue (H := H2) x = Ok v.
Proof.
  revert v. induction x as [x Hm Hl|m IH|l IH] using interface_nested_ind; intros v Hv.
  - destruct x as [|b|n|n|n|n|n|n|f|f|s|b|m|l|T]; try done.
    + by destruct (Hm m).
    + by destruct (Hl l).
  - assert (∃ sv, NewStruct (H := H1) m = Ok sv ∧ v = NewStructValue (Some sv))
      as (sv & Hsv & ->).
    { unfold NewStruct. simpl in Hv. destruct (NewStruct_range _ _) as [sv|]; [|done].
      injection Hv as <-. by exists sv. }
    destruct (NewStruct_Ok_inv (H := H1) m sv Hsv) as (fs & -> & Hdom & Hfs).
    destruct (NewStruct_range_Ok (map_range (MapRange := H2) (NewValue (H := H2) <$> m)) ∅)
      as (fs2 & Hfs2 & Hlook).
    { apply NoDup_fst_map_range. }
    { apply Forall_forall. intros [k r] Hin.
      rewrite (map_range_perm _ (NewValue (H := H2) <$> m)) in Hin.
      apply elem_of_map_to_list in Hin. rewrite lookup_fmap in Hin.
      destruct (m !! k) as [w|] eqn:Hk; [|done]. injection Hin as <-.
      destruct (Hfs k w Hk) as (Hvalid & pv & Hpv & _). split; [done|].
      exists pv. by apply (IH k w Hk). }
    cbn [NewValue]. rewrite Hfs2. assert (fs2 = fs) as ->; [|done].
    apply map_eq. intros k. rewrite Hlook, list_to_map_range, lookup_fmap, lookup_empty.
    destruct (m !! k) as [w|] eqn:Hk; simpl.
    + destruct (Hfs k w Hk) as (_ & pv & Hpv & ->). by rewrite (IH k w Hk pv Hpv).
    + symmetry. apply not_elem_of_dom. rewrite Hdom. by apply not_elem_of_dom.
  - assert (∃ lv, NewList (H := H1) l = Ok lv ∧ v = NewListValue (Some lv)) as (lv & Hlv & ->).
    { unfold NewList. simpl in Hv. destruct (NewList_range _ _ _) as [lv|]; [|done].
      injection Hv as <-. by exists lv. }
    destruct (NewList_Ok_inv (H := H1) l lv Hlv) as (vs & -> & Hvs).
    assert (List.map (NewValue (H := H2)) l = Ok <$> vs) as Hvs2.
    { clear -IH Hvs. induction Hvs as [|w pv l vs Hw Hvs IHvs]; [done|].
      apply Forall_cons in IH as [IH1 IH2]. simpl. by rewrite (IH1 pv Hw), IHvs. }
    cbn [NewValue]. rewrite Hvs2.
    assert (length l = length vs) as -> by (by apply Forall2_length in Hvs).
    pose proof (NewList_range_Ok vs []) as Hr. simpl in Hr. by rewrite Hr.
Qed.

(** The Value that [Value.unmarshal] decodes, when it returns no error, is
    the same under any two orders. *)
Lemma Value_unmarshal_order (H1 H2 : MapRange) (x : Value) (input : string) (v : Value) :
  Value_unmarshal (H := H1) x input = Some (v, None) →
  Value_unmarshal (H := H2) x input = Some (v, None).
Proof.
  cut (∀ n input x v, (String.length input < n)%nat →
         Value_unmarshal (H := H1) x input = Some (v, None) →
         Value_unmarshal (H := H2) x input = Some (v, None)).
  { intros Hn. apply (Hn (S (String.length input))). lia. }
  clear. induction n as [|n IH]; intros input x v Hlen; [lia|].
  rewrite !Value_unmarshal_unfold. unfold Value_unmarshal_with.
  case_bool_decide; [done|].
  destruct (ParseFloat input) as [f|]; [done|].
  destruct (types.unquote input) as [s|]; [done|].
  destruct (ParseBool input) as [b|]; [done|].
  destruct (json.Unmarshal_slice input) as [s|] eqn:Hs.
  - rewrite !(ListValue_unmarshal_with_elements _ _ _ s Hs).
    destruct (unmarshal_elements (Value_unmarshal (H := H1)) s) as [[l oe]|] eqn:Hl; [|done].
    cbn [fmap option_fmap option_map fst snd]. intros [= <- ->].
    destruct (unmarshal_elements_Ok_inv _ _ _ Hl) as (vs & -> & Hvs).
    apply Unmarshal_slice_length in Hs.
    assert (unmarshal_elements (Value_unmarshal (H := H2)) s = Some (Some <$> vs, None)) as ->;
      [|done].
    clear Hl. induction Hvs as [|b v s vs Hb Hvs IHvs]; [done|].
    apply Forall_cons in Hs as [Hb' Hs]. simpl.
    rewrite (IH b new_Value v ltac:(lia) Hb), (IHvs Hs). done.
  - destruct (json.Unmarshal_map input) as [m|] eqn:Hm; [|done].
    destruct (Struct_unmarshal_with (Value_unmarshal (H := H1)) (Build_Struct None) input)
      as [[sv oe]|] eqn:Hsv; [|done].
    intros [= <- ->].
    destruct (Struct_unmarshal_Ok_inv (H := H1) _ _ _ Hsv) as (m' & fs & Hm' & -> & Hdom & Hfs).
    rewrite Hm in Hm'. injection Hm' as <-.
    apply Unmarshal_map_length in Hm as Hlen'.
    set (g := fun jv => match Value_unmarshal (H := H1) new_Value jv with
                        | Some (v, _) => v
                        | None => new_Value
                        end).
    destruct (Struct_unmarshal_range_Ok (Value_unmarshal (H := H2)) g
                (map_range (MapRange := H2) m) ∅) as (fs2 & Hfs2 & Hlook).
    { apply Forall_forall. intros [k jv] Hin. rewrite (map_range_perm _ m) in Hin.
      apply elem_of_map_to_list in Hin. destruct (Hfs k jv Hin) as (v & Hv & _).
      specialize (Hlen' k jv Hin). simpl in *. unfold g. rewrite Hv.
      apply (IH jv new_Value v); [lia|done]. }
    { apply NoDup_fst_map_range. }
    unfold Struct_unmarshal_with. rewrite Hm, Hfs2. assert (fs2 = fs) as ->; [|done].
    apply map_eq. intros k. rewrite Hlook, list_to_map_range, lookup_empty.
    destruct (m !! k) as [jv|] eqn:Hk.
    + destruct (Hfs k jv Hk) as (v & Hv & ->). unfold g. by rewrite Hv.
    + symmetry. apply not_elem_of_dom. rewrite Hdom. by apply not_elem_of_dom.
Qed.

(** ** Native values with their nil maps and slices *)

Lemma native_size_lookup (m : gmap string native) (k : string) (v : native) :
  m !! k = Some v → (native_size v < native_size (N_map (Some m)))%nat.
Proof.
  intros Hk. simpl.
  rewrite (map_fold_delete_L _ _ k v m); [lia | intros; lia | done].
Qed.

Lemma native_size_elem (l : list native) (v : native) :
  v ∈ l → (native_size v < native_size (N_slice (Some l)))%nat.
Proof.
  intros Hv. simpl. induction Hv as [v l|v w l _ IH]; simpl; lia.
Qed.

Lemma native_nested_ind (P : native → Prop) :
  (∀ g, (∀ m, g ≠ N_map (Some m)) → (∀ l, g ≠ N_slice (Some l)) → P g) →
  (∀ m, map_Forall (fun _ v => P v) m → P (N_map (Some m))) →
  (∀ l, Forall P l → P (N_slice (Some l))) →
  ∀ g, P g.
Proof.
  intros Hbase Hmap Hslice g.
  remember (native_size g) as n eqn:Hn. revert g Hn.
  induction (lt_wf n) as [n _ IH]. intros g ->.
  destruct g as [| | | | | | | | | | | |[m|]|[l|]|]; try (apply Hbase; intros; discriminate).
  - apply Hmap. intros k w Hk. eapply IH; [|done]. by eapply native_size_lookup.
  - apply Hslice. apply Forall_forall. intros w Hw.
    eapply IH; [|done]. by apply native_size_elem.
Qed.

(** What comes back is what [AsInterface] returns for the value as it was
    read. *)
Lemma made_widened_read (g : native) : made (widened_roundtrip (read g)) = came_back g.
Proof.
  induction g as [g Hm Hl|m IH|l IH] using native_nested_ind.
  - destruct g as [| | | | | | | | | | | |[m|]|[l|]|]; try done.
    + by destruct (Hm m).
    + by destruct (Hl l).
  - cbn [read widened_roundtrip made came_back]. do 2 f_equal.
    apply map_eq. intros k. rewrite !lookup_fmap.
    destruct (m !! k) as [w|] eqn:Hw; [|done]. simpl. f_equal. by apply (IH k w Hw).
  - cbn [read widened_roundtrip made came_back]. do 2 f_equal.
    induction IH as [|w l Hw _ IHl]; [done|]. simpl. by rewrite Hw, IHl.
Qed.

Lemma fmap_eq_lookup {A B} (f g : A → B) (m : gmap string A) (k : string) (a : A) :
  f <$> m = g <$> m → m !! k = Some a → f a = g a.
Proof.
  intros Heq Hk. assert ((f <$> m) !! k = (g <$> m) !! k) as Hl by (by rewrite Heq).
  rewrite !lookup_fmap, Hk in Hl. simpl in Hl. by injection Hl.
Qed.

(** It is what the claim says exactly when the value holds no integer, no
    finite float32 and no nil map or slice. *)
Lemma came_back_claimed (g : native) : came_back g = claimed_back g ↔ as_claimed g = true.
Proof.
  induction g as [g Hm Hl|m IH|l IH] using native_nested_ind.
  - destruct g as [|b|v|v|v|v|v|v|f|f|s|b|[m|]|[l|]|T]; try done;
      try (by destruct (Hm m)); try (by destruct (Hl l)).
    by destruct f as [[]|[]| |].
  - cbn [came_back claimed_back as_claimed]. split.
    + intros [= Heq].
      apply (map_fold_andb_true (fun _ v => as_claimed v)). intros k w Hw.
      apply (IH k w Hw). by apply (fmap_eq_lookup came_back claimed_back m k w).
    + intros Hall. do 2 f_equal. apply map_eq. intros k. rewrite !lookup_fmap.
      destruct (m !! k) as [w|] eqn:Hw; [|done]. simpl. f_equal. apply (IH k w Hw).
      by apply (map_fold_andb_lookup (fun _ v => as_claimed v) m k w).
  - cbn [came_back claimed_back as_claimed]. split.
    + intros [= Heq]. induction IH as [|w l Hw _ IHl]; [done|].
      simpl in Heq. injection Heq as Hw' Hl'. simpl.
      by rewrite (proj1 Hw Hw'), (IHl Hl').
    + intros Hall. do 2 f_equal. induction IH as [|w l Hw _ IHl]; [done|].
      simpl in Hall. apply andb_prop in Hall as [Hw' Hl']. simpl.
      by rewrite (proj2 Hw Hw'), (IHl Hl').
Qed.

(** A nil map comes back as an empty map that is not nil, and so does a nil
    slice. *)
Lemma NewValue_nil_map_comes_back_empty :
  (∃ v : Value, NewValue (H := range_map_to_list) (read (N_map None)) = Ok v
                ∧ made (AsInterface (Some v)) = N_map (Some ∅)
                ∧ made (AsInterface (Some v)) ≠ claimed_back (N_map None))
  ∧ (∃ v : Value, NewValue (H := range_map_to_list) (read (N_slice None)) = Ok v
                  ∧ made (AsInterface (Some v)) = N_slice (Some [])
                  ∧ made (AsInterface (Some v)) ≠ claimed_back (N_slice None)).
Proof.
  split; eexists; (split; [vm_compute; reflexivity|]); split; try done.
Qed.

(** An integer of a width that the table of [NewValue] does not list is
    refused, alone or in a slice or a map. *)
Lemma NewValue_int8_refused :
  NewValue (H := range_map_to_list) (read (N_other "int8")) = Err (Errorf_invalid_type "int8")
  ∧ NewValue (H := range_map_to_list) (read (N_slice (Some [N_int 1; N_other "uint16"])))
    = Err (Errorf_invalid_type "uint16")
  ∧ NewValue (H := range_map_to_list) (read (N_map (Some {[ "a" := N_other "[]string" ]})))
    = Err (Errorf_invalid_type "[]string").
Proof. repeat split; vm_compute; reflexivity. Qed.

(** C3, amended: for every native value built only from nil, booleans, the
    integer types int, int32, int64, uint, uint32 and uint64, float32 and
    float64, strings of valid UTF-8, byte sequences, slices and maps with keys
    of valid UTF-8, [NewValue] succeeds and [AsInterface] of its result is the
    value with four changes and no other: every integer and float32 comes back
    as the float64 it was widened to (rounded to nearest for an integer beyond
    2^53), every byte sequence as its base64 text, every float that is not
    finite as its token, and every nil map or slice as an empty one that is
    not nil.  The same holds of [NewStruct] with [AsMap] and of [NewList] with
    [AsSlice].  The value comes back as the claim says exactly when it holds
    no integer, no finite float32 and no nil map or slice.  [NewValue] returns
    an error exactly when a string or a key is not valid UTF-8 or a value is
    of another type, such as an integer of another width or a slice or map of
    another type: there is nothing then to convert back. *)
Theorem NewValue_AsInterface_roundtrip `{MapRange} :
  (∀ g : native, native_supported (read g) = true →
     ∃ v : Value, NewValue (read g) = Ok v ∧ made (AsInterface (Some v)) = came_back g)
  ∧ (∀ m : option (gmap string native), native_supported (read (N_map m)) = true →
       ∃ s : Struct, NewStruct (read_map m) = Ok s
                     ∧ made (I_map (AsMap (Some s))) = came_back (N_map m))
  ∧ (∀ l : option (list native), native_supported (read (N_slice l)) = true →
       ∃ lv : ListValue, NewList (read_slice l) = Ok lv
                         ∧ made (I_slice (AsSlice (Some lv))) = came_back (N_slice l))
  ∧ (∀ g : native, came_back g = claimed_back g ↔ as_claimed g = true)
  ∧ (∀ g : native, is_Ok (NewValue (read g)) = convertible (read g))
  ∧ (∀ T : string, NewValue (read (N_other T)) = Err (Errorf_invalid_type T)).
Proof.
  assert (∀ g : native, native_supported (read g) = true →
            ∃ v : Value, NewValue (read g) = Ok v ∧ made (AsInterface (Some v)) = came_back g)
    as Hvalue.
  { intros g Hg. destruct (NewValue_AsInterface (read g) Hg) as (v & Hv & Hrt).
    exists v. split; [done|]. by rewrite Hrt, made_widened_read. }
  split; [exact Hvalue|]. split; [|split; [|split; [|split]]].
  - intros m Hm. destruct (Hvalue (N_map m) Hm) as (v & Hv & Hrt).
    change (read (N_map m)) with (I_map (read_map m)) in Hv. cbn [NewValue] in Hv.
    unfold NewStruct. destruct (NewStruct_range _ _) as [s|]; [|done].
    injection Hv as <-. by exists s.
  - intros l Hl. destruct (Hvalue (N_slice l) Hl) as (v & Hv & Hrt).
    change (read (N_slice l)) with (I_slice (read_slice l)) in Hv. cbn [NewValue] in Hv.
    unfold NewList. destruct (NewList_range _ _ _) as [lv|]; [|done].
    injection Hv as <-. by exists lv.
  - apply came_back_claimed.
  - intros g. apply NewValue_is_Ok.
  - done.
Qed.

Lemma NewValue_AsInterface_roundtrip_witness :
  ∃ v : Value,
    NewValue (H := range_map_to_list) (read example_nil_containers) = Ok v
    ∧ made (AsInterface (Some v)) = came_back example_nil_containers.
Proof.
  apply (proj1 (NewValue_AsInterface_roundtrip (H := range_map_to_list))).
  vm_compute. reflexivity.
Defined.

(** * Further properties of [types/struct.go] *)

(** ** From native values *)

(** X1: [NewValue] returns no error exactly for the native values in which
    every string and every map key is valid UTF-8 and no value is of a type
    that it does not know; no integer, float or byte sequence makes it
    fail. *)
Theorem NewValue_Ok_iff_convertible `{MapRange} (x : interface) :
  is_Ok (NewValue x) = convertible x.
Proof. apply NewValue_is_Ok. Qed.

(** X2: the Struct that [NewStruct] returns has its fields set (to the empty
    map for an empty map), with the keys of the map it was given; every key is
    valid UTF-8 and every field points to what [NewValue] returns for the
    value under its key, none being nil. *)
Theorem NewStruct_Ok_fields `{MapRange} (m : gmap string interface) (x : Struct) :
  NewStruct m = Ok x →
  ∃ fs : gmap string (option Value),
    x = Build_Struct (Some fs)
    ∧ dom fs = dom m
    ∧ ∀ k v, m !! k = Some v →
        utf8.ValidString k = true ∧ ∃ pv, NewValue v = Ok pv ∧ fs !! k = Some (Some pv).
Proof. apply NewStruct_Ok_inv. Qed.

Lemma NewStruct_Ok_fields_witness :
  ∃ x, NewStruct (H := range_map_to_list) example_native = Ok x
       ∧ ∃ fs : gmap string (option Value),
           x = Build_Struct (Some fs)
           ∧ dom fs = dom example_native
           ∧ ∀ k v, example_native !! k = Some v →
               utf8.ValidString k = true
               ∧ ∃ pv, NewValue (H := range_map_to_list) v = Ok pv ∧ fs !! k = Some (Some pv).
Proof.
  eexists. split; [vm_compute; reflexivity|].
  apply (NewStruct_Ok_fields (H := range_map_to_list) example_native).
  vm_compute; reflexivity.
Defined.

(** X3: the ListValue that [NewList] returns has one element for each
    element of the slice it was given, in the same order: what [NewValue]
    returns for it, none being nil. *)
Theorem NewList_Ok_elements `{MapRange} (l : list interface) (x : ListValue) :
  NewList l = Ok x →
  ∃ vs : list Value,
    x = Build_ListValue (Some (Some <$> vs)) ∧ Forall2 (fun v pv => NewValue v = Ok pv) l vs.
Proof. apply NewList_Ok_inv. Qed.

Lemma NewList_Ok_elements_witness :
  ∃ x, NewList (H := range_map_to_list) [I_int 3; I_map example_native; I_nil] = Ok x
       ∧ ∃ vs : list Value,
           x = Build_ListValue (Some (Some <$> vs))
           ∧ Forall2 (fun v pv => NewValue (H := range_map_to_list) v = Ok pv)
               [I_int 3; I_map example_native; I_nil] vs.
Proof.
  eexists. split; [vm_compute; reflexivity|].
  apply (NewList_Ok_elements (H := range_map_to_list)).
  vm_compute; reflexivity.
Defined.

(** X4: [NewList] returns an error exactly when [NewValue] returns one for
    an element, and the error is that of the first such element, as it is:
    nothing names the index. *)
Theorem NewList_first_error `{MapRange} (l : list interface) (e : error) :
  NewList l = Err e ↔
  ∃ i v, l !! i = Some v ∧ NewValue v = Err e
         ∧ ∀ j w, (j < i)%nat → l !! j = Some w → is_Ok (NewValue w) = true.
Proof. apply NewList_Err_iff. Qed.

(** X5: an error of [NewStruct] is the error of a key of the map that is not
    valid UTF-8, or the error that [NewValue] returns for a value of the map,
    as it is: nothing names the key of that value. *)
Theorem NewStruct_error_cases `{MapRange} (m : gmap string interface) (e : error) :
  NewStruct m = Err e →
  ∃ k v, m !! k = Some v
         ∧ ((utf8.ValidString k = false ∧ e = Errorf_invalid_UTF8 k) ∨ NewValue v = Err e).
Proof. apply NewStruct_Err_inv. Qed.

Lemma NewStruct_error_cases_witness :
  ∃ k v, ({[ "a" := I_int 1; "b" := I_slice [I_other "chan int"] ]} : gmap string interface) !! k
         = Some v
         ∧ ((utf8.ValidString k = false ∧ Errorf_invalid_type "chan int" = Errorf_invalid_UTF8 k)
            ∨ NewValue (H := range_map_to_list) v = Err (Errorf_invalid_type "chan int")).
Proof.
  apply (NewStruct_error_cases (H := range_map_to_list)). vm_compute; reflexivity.
Defined.

(** X6: a supported native value whose floats are finite is converted by
    [NewValue] to a Value that [MarshalJSON] writes and that [UnmarshalJSON]
    reads back from the text as it was, whatever the receiver held. *)
Theorem NewValue_MarshalJSON_UnmarshalJSON `{MapRange} (x : interface) :
  native_supported x = true → finite_floats x = true →
  ∃ v b, NewValue x = Ok v ∧ Value_MarshalJSON v = Ok b
         ∧ ∀ x0, Value_UnmarshalJSON x0 b = Some (v, None).
Proof. apply NewValue_Marshal_Unmarshal. Qed.

Lemma NewValue_MarshalJSON_UnmarshalJSON_witness :
  ∃ v b, NewValue (H := range_map_to_list) (I_map example_native) = Ok v
         ∧ Value_MarshalJSON v = Ok b
         ∧ ∀ x0, Value_UnmarshalJSON (H := range_map_to_list) x0 b = Some (v, None).
Proof.
  apply (NewValue_MarshalJSON_UnmarshalJSON (H := range_map_to_list)); vm_compute; reflexivity.
Defined.





(** X9: the Value that [NewValue] builds, when it returns no error, does not
    depend on the order in which the maps are ranged over. *)
Theorem NewValue_order_independent (H1 H2 : MapRange) (x : interface) (v : Value) :
  NewValue (H := H1) x = Ok v → NewValue (H := H2) x = Ok v.
Proof. apply NewValue_order. Qed.

Lemma NewValue_order_independent_witness :
  ∃ v, NewValue (H := range_map_to_list) (I_map example_native) = Ok v
       ∧ NewValue (H := range_reversed) (I_map example_native) = Ok v.
Proof.
  eexists. split; [vm_compute; reflexivity|].
  apply (NewValue_order_independent range_map_to_list range_reversed).
  vm_compute; reflexivity.
Defined.

(** ** To native values *)

(** X10: [AsInterface] returns only nil, booleans, finite float64 numbers,
    strings, maps and slices of such values, on every receiver, nil too: no
    NaN, no infinity, no integer and no byte sequence. *)
Theorem AsInterface_json_native (x : option Value) : json_native (AsInterface x) = true.
Proof. destruct x as [v|]; [apply Value_AsInterface_json_native|done]. Qed.

(** X11: [NewValue] of what [AsInterface] returns for a generic value with
    finite numbers and valid strings is that value, with an empty map or
    slice where it had a nil one. *)
Theorem AsInterface_NewValue_canonical `{MapRange} (v : Value) :
  is_GenericValue v = true → finite_and_utf8 v = true →
  NewValue (AsInterface (Some v)) = Ok (canonical v).
Proof. apply NewValue_of_AsInterface. Qed.

Lemma AsInterface_NewValue_canonical_witness :
  NewValue (H := range_map_to_list) (AsInterface (Some example_tree))
  = Ok (canonical example_tree).
Proof.
  apply (AsInterface_NewValue_canonical (H := range_map_to_list)); vm_compute; reflexivity.
Defined.

(** ** Writing JSON *)

(** X12: [MarshalJSON] returns a text exactly for the Values in which no
    Number is NaN or infinite and no wrapper holds a nil pointer to a Struct
    or a ListValue; a string that is not valid UTF-8, a variant that is not
    set and a nil pointer to a Value in a map or list do not make it fail. *)
Theorem MarshalJSON_Ok_iff_marshalable (v : Value) :
  is_Ok (Value_MarshalJSON v) = marshalable v.
Proof. apply Value_MarshalJSON_is_Ok. Qed.

(** X13: the text that [MarshalJSON] returns is valid JSON, whatever bytes
    the strings of the Value hold. *)
Theorem MarshalJSON_valid_JSON (v : Value) (b : string) :
  Value_MarshalJSON v = Ok b → json.checkValid b = None.
Proof. intros Hb. by apply checkValid_marshal_text, (Value_MarshalJSON_text v). Qed.

Lemma MarshalJSON_valid_JSON_witness :
  ∃ b, Value_MarshalJSON example_tree = Ok b ∧ json.checkValid b = None.
Proof.
  eexists. split; [vm_compute; reflexivity|].
  apply (MarshalJSON_valid_JSON example_tree). vm_compute; reflexivity.
Defined.

(** X14: the text that [MarshalJSON] returns holds no control byte, so no
    line break, and none of the bytes [<], [>] and [&]. *)
Theorem MarshalJSON_html_quiet (v : Value) (b : string) :
  Value_MarshalJSON v = Ok b → string_forallb html_quiet b = true.
Proof. intros Hb. by apply html_quiet_marshal_text, (Value_MarshalJSON_text v). Qed.

Lemma MarshalJSON_html_quiet_witness :
  ∃ b, Value_MarshalJSON example_tree = Ok b ∧ string_forallb html_quiet b = true.
Proof.
  eexists. split; [vm_compute; reflexivity|].
  apply (MarshalJSON_html_quiet example_tree). vm_compute; reflexivity.
Defined.

(** X15: the text that [Struct.MarshalJSON] returns is an object with one
    member for each field, in the order of the keys compared byte by byte,
    whatever the order of the map: the text of the Value, [null] for a nil
    pointer. *)
Theorem Struct_MarshalJSON_members_sorted (x : Struct) (b : string) :
  Struct_MarshalJSON x = Ok b →
  ∃ kbs : list (string * string),
    b = "{" +:+ json.join "," (member_text <$> kbs) +:+ "}"
    ∧ Sorted (fun x y => String.leb x.1 y.1 = true) kbs
    ∧ NoDup kbs.*1
    ∧ ∀ k b', (k, b') ∈ kbs ↔
        ∃ ov, default ∅ (Fields x) !! k = Some ov
              ∧ match ov with Some v => Value_MarshalJSON v | None => Ok "null" end = Ok b'.
Proof. apply Struct_MarshalJSON_sorted. Qed.

Lemma Struct_MarshalJSON_members_sorted_witness :
  ∃ b, Struct_MarshalJSON (Build_Struct (Some {[ "b" := Some example_tree; "a" := None ]})) = Ok b
  ∧ ∃ kbs : list (string * string),
    b = "{" +:+ json.join "," (member_text <$> kbs) +:+ "}"
    ∧ Sorted (fun x y => String.leb x.1 y.1 = true) kbs
    ∧ NoDup kbs.*1
    ∧ ∀ k b', (k, b') ∈ kbs ↔
        ∃ ov, default ∅ (Fields (Build_Struct (Some {[ "b" := Some example_tree; "a" := None ]})))
                !! k = Some ov
              ∧ match ov with Some v => Value_MarshalJSON v | None => Ok "null" end = Ok b'.
Proof.
  eexists. split; [vm_compute; reflexivity|].
  apply (Struct_MarshalJSON_members_sorted
           (Build_Struct (Some {[ "b" := Some example_tree; "a" := None ]}))).
  vm_compute; reflexivity.
Defined.

(** X16: two generic values with finite numbers and valid strings that
    [MarshalJSON] writes as the same text are deep-equal. *)
Theorem MarshalJSON_injective (v1 v2 : Value) :
  is_GenericValue v1 = true → finite_and_utf8 v1 = true →
  is_GenericValue v2 = true → finite_and_utf8 v2 = true →
  Value_MarshalJSON v1 = Value_MarshalJSON v2 → deep_equal v1 v2.
Proof.
  intros Hg1 Hf1 Hg2 Hf2 Heq.
  destruct (Value_roundtrip (H := range_map_to_list) v1 Hg1 Hf1) as (b1 & Hb1 & _ & Hu1).
  destruct (Value_roundtrip (H := range_map_to_list) v2 Hg2 Hf2) as (b2 & Hb2 & _ & Hu2).
  rewrite Hb1, Hb2 in Heq. injection Heq as ->.
  specialize (Hu1 new_Value). rewrite (Hu2 new_Value) in Hu1. unfold deep_equal. congruence.
Qed.

Lemma MarshalJSON_injective_witness : deep_equal example_tree (canonical example_tree).
Proof. apply MarshalJSON_injective; vm_compute; reflexivity. Defined.

(** ** Reading JSON *)

(** X17: a Value that [UnmarshalJSON] decodes without error is a generic
    value: one variant is set, down the tree, no pointer is nil, and no map
    and no slice is nil. *)
Theorem UnmarshalJSON_Ok_generic `{MapRange} (x : Value) (b : string) (v : Value) :
  Value_UnmarshalJSON x b = Some (v, None) →
  is_GenericValue v = true ∧ no_nil_container v = true.
Proof. apply Value_unmarshal_generic. Qed.

Lemma UnmarshalJSON_Ok_generic_witness :
  ∃ v, Value_UnmarshalJSON (H := range_map_to_list) new_Value "[1,[true,null],{},[]]"
       = Some (v, None)
       ∧ is_GenericValue v = true ∧ no_nil_container v = true.
Proof.
  eexists. split; [vm_compute; reflexivity|].
  apply (UnmarshalJSON_Ok_generic (H := range_map_to_list) new_Value "[1,[true,null],{},[]]").
  vm_compute; reflexivity.
Defined.

(** X18: an error of [Value.unmarshal] is, under the keys of the objects
    gone through, the error of a text that is no value ("unrecognized type
    for Value"): never the error of [ListValue.unmarshal] or
    [Struct.unmarshal] for a text that is no array or no object. *)
Theorem unmarshal_error_root `{MapRange} (x : Value) (input : string) (v : Value) (e : error) :
  Value_unmarshal x input = Some (v, Some e) →
  ∃ s, error_root e = Errorf_unrecognized_type s.
Proof. apply Value_unmarshal_error_root. Qed.

Lemma unmarshal_error_root_witness :
  ∃ s, error_root (Errorf_bad_value_for_key "a" (Errorf_unrecognized_type "1e999"))
       = Errorf_unrecognized_type s.
Proof.
  eapply (unmarshal_error_root (H := range_map_to_list) new_Value
            ("{" +:+ quoted "a" +:+ ":[1e999]}")).
  vm_compute; reflexivity.
Defined.

(** X19: the Value that [Value.unmarshal] decodes, when it returns no error,
    does not depend on the order in which the maps are ranged over. *)
Theorem unmarshal_order_independent (H1 H2 : MapRange) (x : Value) (input : string)
    (v : Value) :
  Value_unmarshal (H := H1) x input = Some (v, None) →
  Value_unmarshal (H := H2) x input = Some (v, None).
Proof. apply Value_unmarshal_order. Qed.

Lemma unmarshal_order_independent_witness :
  ∃ b v, Value_MarshalJSON example_tree = Ok b
         ∧ Value_unmarshal (H := range_map_to_list) new_Value b = Some (v, None)
         ∧ Value_unmarshal (H := range_reversed) new_Value b = Some (v, None).
Proof.
  eexists _, _. split; [vm_compute; reflexivity|]. split; [vm_compute; reflexivity|].
  apply (unmarshal_order_independent range_map_to_list range_reversed).
  vm_compute; reflexivity.
Defined.

(** X20: when [ListValue.unmarshal] returns no error, the input is an array
    (or [null]) and the list holds one Value for each element, in the order
    of the text: what [Value.unmarshal] decodes from the element on a new
    Value. *)
Theorem ListValue_unmarshal_Ok_elements `{MapRange} (x : ListValue) (b : string)
    (lv : ListValue) :
  ListValue_unmarshal x b = Some (lv, None) →
  ∃ s vs, json.Unmarshal_slice b = Ok s
          ∧ lv = Build_ListValue (Some (Some <$> vs))
          ∧ Forall2 (fun sv v => Value_unmarshal new_Value sv = Some (v, None)) s vs.
Proof. apply ListValue_unmarshal_Ok_inv. Qed.

Lemma ListValue_unmarshal_Ok_elements_witness :
  ∃ lv, ListValue_unmarshal (H := range_map_to_list) (Build_ListValue None) "[1, [true] ,null]"
        = Some (lv, None)
        ∧ ∃ s vs, json.Unmarshal_slice "[1, [true] ,null]" = Ok s
                  ∧ lv = Build_ListValue (Some (Some <$> vs))
                  ∧ Forall2 (fun sv v => Value_unmarshal (H := range_map_to_list) new_Value sv
                                         = Some (v, None)) s vs.
Proof.
  eexists. split; [vm_compute; reflexivity|].
  apply (ListValue_unmarshal_Ok_elements (H := range_map_to_list) (Build_ListValue None)).
  vm_compute; reflexivity.
Defined.

(** X21: when [Struct.unmarshal] returns no error, the input is an object
    (or [null]) and the fields have the keys of the object; each field points
    to what [Value.unmarshal] decodes from the value under its key on a new
    Value. *)
Theorem Struct_unmarshal_Ok_fields `{MapRange} (x : Struct) (b : string) (sv : Struct) :
  Struct_unmarshal x b = Some (sv, None) →
  ∃ m fs, json.Unmarshal_map b = Ok m
          ∧ sv = Build_Struct (Some fs)
          ∧ dom fs = dom m
          ∧ ∀ k jv, m !! k = Some jv →
              ∃ v, Value_unmarshal new_Value jv = Some (v, None) ∧ fs !! k = Some (Some v).
Proof. apply Struct_unmarshal_Ok_inv. Qed.

Lemma Struct_unmarshal_Ok_fields_witness :
  ∃ b sv, Value_MarshalJSON example_tree = Ok b
    ∧ Struct_unmarshal (H := range_map_to_list) (Build_Struct None) b = Some (sv, None)
    ∧ ∃ m fs, json.Unmarshal_map b = Ok m
          ∧ sv = Build_Struct (Some fs)
          ∧ dom fs = dom m
          ∧ ∀ k jv, m !! k = Some jv →
              ∃ v, Value_unmarshal (H := range_map_to_list) new_Value jv = Some (v, None)
                   ∧ fs !! k = Some (Some v).
Proof.
  eexists _, _. split; [vm_compute; reflexivity|]. split; [vm_compute; reflexivity|].
  apply (Struct_unmarshal_Ok_fields (H := range_map_to_list) (Build_Struct None)).
  vm_compute; reflexivity.
Defined.



(** X23: [Struct.UnmarshalJSON] of the text that [MarshalJSON] writes for a
    Value that is no Struct returns the error "bad StructValue" with the kind
    of the text and leaves the receiver as it was; but for the text [null],
    which gives the Struct without fields and no error. *)
Theorem Struct_UnmarshalJSON_of_other_kind `{MapRange} (x : Struct) (v : Value) (b : string) :
  Value_MarshalJSON v = Ok b →
  (∀ sv, Kind v ≠ Value_StructValue (Some sv)) →
  Struct_UnmarshalJSON x b
  = Some match Kind v with
         | Value_NumberValue (Some _) =>
             (x, Some (Errorf_bad_StructValue (json.UnmarshalTypeError "number")))
         | Value_StringValue (Some _) =>
             (x, Some (Errorf_bad_StructValue (json.UnmarshalTypeError "string")))
         | Value_BoolValue (Some _) =>
             (x, Some (Errorf_bad_StructValue (json.UnmarshalTypeError "bool")))
         | Value_ListValue (Some _) =>
             (x, Some (Errorf_bad_StructValue (json.UnmarshalTypeError "array")))
         | _ => (Build_Struct (Some ∅), None)
         end.
Proof. apply Struct_UnmarshalJSON_other_kind. Qed.

Lemma Struct_UnmarshalJSON_of_other_kind_witness :
  Struct_UnmarshalJSON (H := range_map_to_list) (Build_Struct None) "[true]"
  = Some (Build_Struct None, Some (Errorf_bad_StructValue (json.UnmarshalTypeError "array"))).
Proof.
  apply (Struct_UnmarshalJSON_of_other_kind (H := range_map_to_list) (Build_Struct None)
           (NewListValue (Some (Build_ListValue (Some [Some (NewBoolValue true)]))))).
  - vm_compute; reflexivity.
  - intros sv Hsv. discriminate Hsv.
Defined.

(** X24: [ListValue.UnmarshalJSON] of the text that [MarshalJSON] writes for
    a Value that is no ListValue returns the error "bad ListValue" with the
    kind of the text and leaves the receiver as it was; but for the text
    [null], which gives the empty list and no error. *)
Theorem ListValue_UnmarshalJSON_of_other_kind `{MapRange} (x : ListValue) (v : Value)
    (b : string) :
  Value_MarshalJSON v = Ok b →
  (∀ lv, Kind v ≠ Value_ListValue (Some lv)) →
  ListValue_UnmarshalJSON x b
  = Some match Kind v with
         | Value_NumberValue (Some _) =>
             (x, Some (Errorf_bad_ListValue (json.UnmarshalTypeError "number")))
         | Value_StringValue (Some _) =>
             (x, Some (Errorf_bad_ListValue (json.UnmarshalTypeError "string")))
         | Value_BoolValue (Some _) =>
             (x, Some (Errorf_bad_ListValue (json.UnmarshalTypeError "bool")))
         | Value_StructValue (Some _) =>
             (x, Some (Errorf_bad_ListValue (json.UnmarshalTypeError "object")))
         | _ => (Build_ListValue (Some []), None)
         end.
Proof. apply ListValue_UnmarshalJSON_other_kind. Qed.

Lemma ListValue_UnmarshalJSON_of_other_kind_witness :
  ∃ b, Value_MarshalJSON example_tree = Ok b
       ∧ ListValue_UnmarshalJSON (H := range_map_to_list) (Build_ListValue None) b
         = Some (Build_ListValue None,
                 Some (Errorf_bad_ListValue (json.UnmarshalTypeError "object"))).
Proof.
  eexists. split; [vm_compute; reflexivity|].
  apply (ListValue_UnmarshalJSON_of_other_kind (H := range_map_to_list) (Build_ListValue None)
           example_tree).
  - vm_compute; reflexivity.
  - intros lv Hlv. discriminate Hlv.
Defined.
